(** * GEM expression optimisation and refactorisation

    A shallow embedding of [gem/optimise.py] and [gem/refactorise.py]:
    the rewrite passes over the GEM expression language, the
    associativity optimiser, sum factorisation, and the [MonomialSum]
    refactorisation engine, together with the properties the
    specification states about them. *)

From Stdlib Require Import String ZArith QArith List Bool Lia Permutation Arith Ring.
Import ListNotations.
Local Open Scope string_scope.
Local Open Scope list_scope.
Local Open Scope Z_scope.

Set Implicit Arguments.
Set Warnings "-register-all".

(** ** The expression substrate *)

Module Gem.

(** Modelled from the spec: the node classes of [gem.gem] (the expression DAG
    substrate of section 3) are not part of the sources.  Nodes are a variant
    over kinds; structural equality is by kind, children and auxiliary
    parameters.  A constant array is its shape and its entries. *)
Record ndarray : Type := mk_ndarray { nd_shape : list Z; nd_data : list Q }.

Inductive expr : Type :=
| Literal (array : ndarray)
| Zero (shape : list Z)
| Identity (dim : Z)
| Failure (shape : list Z) (exception : string)
| Variable_ (name : string) (shape : list Z)
| Sum (a b : expr)
| Product (a b : expr)
| Division (a b : expr)
| Power (base exponent : expr)
| MathFunction (name : string) (argument : expr)
| Comparison (op : string) (a b : expr)
| LogicalNot (e : expr)
| LogicalAnd (a b : expr)
| LogicalOr (a b : expr)
| Conditional (condition then_ else_ : expr)
| IndexSum (summand : expr) (multiindex : list index)
| ComponentTensor (expression : expr) (multiindex : list index)
| ListTensor (shape : list Z) (array : list expr)
| Indexed (aggregate : expr) (multiindex : list index)
| FlexiblyIndexed (variable : expr) (dim2idxs : list (Z * list (index * Z)))
| Delta (i j : index)
with index : Type :=
| IntIndex (n : Z)
| Index (id : nat) (extent : option Z)
| VariableIndex (expression : expr).

(** The three index kinds: a Python [int] (fixed), an [Index] object
    (free, compared by identity, with an extent that may still be [None]),
    and a [VariableIndex] wrapping a scalar expression. *)

Definition dim2idxs_t : Type := list (Z * list (index * Z)).

(** Induction over nodes and the indices they carry. *)
Section Induction.
Variable P : expr -> Prop.
Variable R : index -> Prop.

Let Rs (l : list index) : Prop := Forall R l.
Let Rd (d : dim2idxs_t) : Prop :=
    Forall (fun oi => Forall (fun ix => R (fst ix)) (snd oi)) d.

Hypothesis HLiteral : forall a, P (Literal a).
Hypothesis HZero : forall s, P (Zero s).
Hypothesis HIdentity : forall d, P (Identity d).
Hypothesis HFailure : forall s x, P (Failure s x).
Hypothesis HVariable : forall n s, P (Variable_ n s).
Hypothesis HSum : forall a b, P a -> P b -> P (Sum a b).
Hypothesis HProduct : forall a b, P a -> P b -> P (Product a b).
Hypothesis HDivision : forall a b, P a -> P b -> P (Division a b).
Hypothesis HPower : forall a b, P a -> P b -> P (Power a b).
Hypothesis HMathFunction : forall n a, P a -> P (MathFunction n a).
Hypothesis HComparison : forall o a b, P a -> P b -> P (Comparison o a b).
Hypothesis HLogicalNot : forall a, P a -> P (LogicalNot a).
Hypothesis HLogicalAnd : forall a b, P a -> P b -> P (LogicalAnd a b).
Hypothesis HLogicalOr : forall a b, P a -> P b -> P (LogicalOr a b).
Hypothesis HConditional :
    forall c a b, P c -> P a -> P b -> P (Conditional c a b).
Hypothesis HIndexSum : forall a mi, P a -> Rs mi -> P (IndexSum a mi).
Hypothesis HComponentTensor :
    forall a mi, P a -> Rs mi -> P (ComponentTensor a mi).
Hypothesis HListTensor : forall s l, Forall P l -> P (ListTensor s l).
Hypothesis HIndexed : forall a mi, P a -> Rs mi -> P (Indexed a mi).
Hypothesis HFlexiblyIndexed :
    forall v d, P v -> Rd d -> P (FlexiblyIndexed v d).
Hypothesis HDelta : forall i j, R i -> R j -> P (Delta i j).
Hypothesis HIntIndex : forall n, R (IntIndex n).
Hypothesis HIndex : forall n e, R (Index n e).
Hypothesis HVariableIndex : forall e, P e -> R (VariableIndex e).

Fixpoint expr_index_ind (e : expr) : P e
with index_expr_ind (i : index) : R i.
Proof.
    - destruct e.
      + apply HLiteral.
      + apply HZero.
      + apply HIdentity.
      + apply HFailure.
      + apply HVariable.
      + apply HSum; apply expr_index_ind.
      + apply HProduct; apply expr_index_ind.
      + apply HDivision; apply expr_index_ind.
      + apply HPower; apply expr_index_ind.
      + apply HMathFunction; apply expr_index_ind.
      + apply HComparison; apply expr_index_ind.
      + apply HLogicalNot; apply expr_index_ind.
      + apply HLogicalAnd; apply expr_index_ind.
      + apply HLogicalOr; apply expr_index_ind.
      + apply HConditional; apply expr_index_ind.
      + apply HIndexSum; [apply expr_index_ind|].
        induction multiindex; constructor; [apply index_expr_ind | assumption].
      + apply HComponentTensor; [apply expr_index_ind|].
        induction multiindex; constructor; [apply index_expr_ind | assumption].
      + apply HListTensor.
        induction array; constructor; [apply expr_index_ind | assumption].
      + apply HIndexed; [apply expr_index_ind|].
        induction multiindex; constructor; [apply index_expr_ind | assumption].
      + apply HFlexiblyIndexed; [apply expr_index_ind|].
        induction dim2idxs as [|[o idxs] d IHd]; constructor; [|assumption].
        simpl. induction idxs as [|[ix s] idxs IHi]; constructor;
          [apply index_expr_ind | assumption].
      + apply HDelta; apply index_expr_ind.
    - destruct i.
      + apply HIntIndex.
      + apply HIndex.
      + apply HVariableIndex; apply expr_index_ind.
Qed.

Lemma expr_index_mutind : (forall e, P e) /\ (forall i, R i).
Proof. split; [exact expr_index_ind | exact index_expr_ind]. Qed.
End Induction.

(** *** Structural equality, Python's [==] on nodes and indices *)

Definition Q_eqb (x y : Q) : bool :=
  Z.eqb (Qnum x) (Qnum y) && Pos.eqb (Qden x) (Qden y).

Definition list_eqb {A : Type} (eqb : A -> A -> bool) : list A -> list A -> bool :=
  fix go (l1 l2 : list A) : bool :=
    match l1, l2 with
    | [], [] => true
    | x :: t1, y :: t2 => eqb x y && go t1 t2
    | _, _ => false
    end.

Definition option_eqb {A : Type} (eqb : A -> A -> bool) (x y : option A) : bool :=
  match x, y with
  | None, None => true
  | Some a, Some b => eqb a b
  | _, _ => false
  end.

Definition shape_eqb : list Z -> list Z -> bool := list_eqb Z.eqb.

Definition ndarray_eqb (x y : ndarray) : bool :=
  shape_eqb (nd_shape x) (nd_shape y) && list_eqb Q_eqb (nd_data x) (nd_data y).

Fixpoint expr_eqb (x y : expr) {struct x} : bool :=
  match x, y with
  | Literal a, Literal a' => ndarray_eqb a a'
  | Zero s, Zero s' => shape_eqb s s'
  | Identity d, Identity d' => Z.eqb d d'
  | Failure s m, Failure s' m' => shape_eqb s s' && String.eqb m m'
  | Variable_ n s, Variable_ n' s' => String.eqb n n' && shape_eqb s s'
  | Sum a b, Sum a' b' => expr_eqb a a' && expr_eqb b b'
  | Product a b, Product a' b' => expr_eqb a a' && expr_eqb b b'
  | Division a b, Division a' b' => expr_eqb a a' && expr_eqb b b'
  | Power a b, Power a' b' => expr_eqb a a' && expr_eqb b b'
  | MathFunction n a, MathFunction n' a' => String.eqb n n' && expr_eqb a a'
  | Comparison o a b, Comparison o' a' b' =>
      String.eqb o o' && expr_eqb a a' && expr_eqb b b'
  | LogicalNot a, LogicalNot a' => expr_eqb a a'
  | LogicalAnd a b, LogicalAnd a' b' => expr_eqb a a' && expr_eqb b b'
  | LogicalOr a b, LogicalOr a' b' => expr_eqb a a' && expr_eqb b b'
  | Conditional c a b, Conditional c' a' b' =>
      expr_eqb c c' && expr_eqb a a' && expr_eqb b b'
  | IndexSum a mi, IndexSum a' mi' => expr_eqb a a' && list_eqb index_eqb mi mi'
  | ComponentTensor a mi, ComponentTensor a' mi' =>
      expr_eqb a a' && list_eqb index_eqb mi mi'
  | ListTensor s l, ListTensor s' l' => shape_eqb s s' && list_eqb expr_eqb l l'
  | Indexed a mi, Indexed a' mi' => expr_eqb a a' && list_eqb index_eqb mi mi'
  | FlexiblyIndexed v d, FlexiblyIndexed v' d' =>
      expr_eqb v v' &&
      list_eqb (fun oi oi' =>
                  Z.eqb (fst oi) (fst oi') &&
                  list_eqb (fun ix ix' =>
                              index_eqb (fst ix) (fst ix') && Z.eqb (snd ix) (snd ix'))
                           (snd oi) (snd oi')) d d'
  | Delta i j, Delta i' j' => index_eqb i i' && index_eqb j j'
  | _, _ => false
  end
with index_eqb (i j : index) {struct i} : bool :=
  match i, j with
  | IntIndex n, IntIndex m => Z.eqb n m
  | Index n e, Index m e' => Nat.eqb n m && option_eqb Z.eqb e e'
  | VariableIndex e, VariableIndex e' => expr_eqb e e'
  | _, _ => false
  end.

Lemma list_eqb_spec (A : Type) (eqb : A -> A -> bool) (l : list A) :
  Forall (fun x => forall y, eqb x y = true <-> x = y) l ->
  forall l', list_eqb eqb l l' = true <-> l = l'.
Proof.
  induction 1 as [|x t Hx Ht IH]; intros [|y t']; simpl;
    try (split; [discriminate | discriminate]); try tauto.
  rewrite andb_true_iff, Hx, IH. split.
  - intros [-> ->]; reflexivity.
  - intros E; injection E; auto.
Qed.

Lemma list_eqb_spec_all (A : Type) (eqb : A -> A -> bool) :
  (forall x y, eqb x y = true <-> x = y) ->
  forall l l', list_eqb eqb l l' = true <-> l = l'.
Proof.
  intros H l. apply list_eqb_spec. apply Forall_forall. intros x _. apply H.
Qed.

Lemma shape_eqb_spec (s s' : list Z) : shape_eqb s s' = true <-> s = s'.
Proof. apply list_eqb_spec_all. intros; apply Z.eqb_eq. Qed.

Lemma Q_eqb_spec (x y : Q) : Q_eqb x y = true <-> x = y.
Proof.
  destruct x as [a b], y as [c d]; unfold Q_eqb; simpl.
  rewrite andb_true_iff, Z.eqb_eq, Pos.eqb_eq. split.
  - intros [-> ->]; reflexivity.
  - intros E; injection E; auto.
Qed.

Lemma ndarray_eqb_spec (x y : ndarray) : ndarray_eqb x y = true <-> x = y.
Proof.
  destruct x as [s d], y as [s' d']; unfold ndarray_eqb; simpl.
  rewrite andb_true_iff, shape_eqb_spec, (list_eqb_spec_all Q_eqb Q_eqb_spec).
  split.
  - intros [-> ->]; reflexivity.
  - intros E; injection E; auto.
Qed.

Lemma option_Z_eqb_spec (x y : option Z) : option_eqb Z.eqb x y = true <-> x = y.
Proof.
  destruct x, y; simpl; try (split; discriminate); try tauto.
  rewrite Z.eqb_eq. split; [intros ->; reflexivity | intros E; injection E; auto].
Qed.

Ltac eqb_step :=
  repeat rewrite andb_true_iff;
  repeat match goal with
         | H : forall y, expr_eqb ?a y = true <-> ?a = y |- _ => rewrite H; clear H
         | H : forall y, index_eqb ?a y = true <-> ?a = y |- _ => rewrite H; clear H
         end;
  repeat rewrite String.eqb_eq; repeat rewrite shape_eqb_spec;
  repeat rewrite Z.eqb_eq.

Ltac eqb_close :=
  split;
  [ intuition (subst; reflexivity)
  | let E := fresh in intros E; injection E; intros; subst; intuition auto ].

Lemma expr_eqb_eq_and_index : 
  (forall x y, expr_eqb x y = true <-> x = y) /\
  (forall i j, index_eqb i j = true <-> i = j).
Proof.
  assert (HL : forall mi, Forall (fun i => forall j, index_eqb i j = true <-> i = j) mi ->
                forall mi', list_eqb index_eqb mi mi' = true <-> mi = mi').
  { intros mi H. apply list_eqb_spec; assumption. }
  apply (@expr_index_mutind
           (fun x => forall y, expr_eqb x y = true <-> x = y)
           (fun i => forall j, index_eqb i j = true <-> i = j));
    try (intros; destruct y; simpl; try (split; discriminate); eqb_step; eqb_close).
  - intros a y; destruct y; simpl; try (split; discriminate).
    rewrite ndarray_eqb_spec. eqb_close.
  - intros a mi Ha Hmi y; destruct y; simpl; try (split; discriminate).
    rewrite andb_true_iff, Ha, (HL _ Hmi). eqb_close.
  - intros a mi Ha Hmi y; destruct y; simpl; try (split; discriminate).
    rewrite andb_true_iff, Ha, (HL _ Hmi). eqb_close.
  - intros s l Hl y; destruct y; simpl; try (split; discriminate).
    rewrite andb_true_iff, shape_eqb_spec, (list_eqb_spec _ Hl). eqb_close.
  - intros a mi Ha Hmi y; destruct y; simpl; try (split; discriminate).
    rewrite andb_true_iff, Ha, (HL _ Hmi). eqb_close.
  - intros v d Hv Hd y; destruct y; simpl; try (split; discriminate).
    rewrite andb_true_iff, Hv.
    rewrite (@list_eqb_spec _ _ d).
    + eqb_close.
    + eapply Forall_impl; [|exact Hd]. intros [o idxs] Hoi [o' idxs']; simpl in *.
      rewrite andb_true_iff, Z.eqb_eq.
      rewrite (@list_eqb_spec _ _ idxs).
      * eqb_close.
      * eapply Forall_impl; [|exact Hoi]. intros [ix s] Hix [ix' s']; simpl in *.
        rewrite andb_true_iff, Hix, Z.eqb_eq. eqb_close.
  - intros n j; destruct j; simpl; try (split; discriminate).
    rewrite Z.eqb_eq. eqb_close.
  - intros n e j; destruct j; simpl; try (split; discriminate).
    rewrite andb_true_iff, Nat.eqb_eq, option_Z_eqb_spec. eqb_close.
  - intros e He j; destruct j; simpl; try (split; discriminate).
    rewrite He. eqb_close.
Qed.

End Gem.

Import Gem.

Lemma expr_eqb_eq (x y : expr) : expr_eqb x y = true <-> x = y.
Proof. apply expr_eqb_eq_and_index. Qed.

Lemma index_eqb_eq (i j : index) : index_eqb i j = true <-> i = j.
Proof. apply expr_eqb_eq_and_index. Qed.

Lemma expr_eqb_refl (x : expr) : expr_eqb x x = true.
Proof. apply expr_eqb_eq; reflexivity. Qed.

Lemma index_eqb_refl (i : index) : index_eqb i i = true.
Proof. apply index_eqb_eq; reflexivity. Qed.

Lemma expr_eqb_neq (x y : expr) : expr_eqb x y = false <-> x <> y.
Proof.
  rewrite <- expr_eqb_eq. destruct (expr_eqb x y); split; congruence.
Qed.

Lemma index_eqb_neq (i j : index) : index_eqb i j = false <-> i <> j.
Proof.
  rewrite <- index_eqb_eq. destruct (index_eqb i j); split; congruence.
Qed.

(** ** Exceptions and results *)

(** Python exceptions, with the message that tells the raising statements
    apart. *)
Inductive exn : Type :=
| AssertionError (msg : string)
| NotImplementedError (msg : string)
| ValueError (msg : string)
| TypeError (msg : string)
| AttributeError (msg : string)
| KeyError (msg : string)
| FactorisationError (e : expr).

(** A call returns a value, raises, or (for the recursions that are bounded
    by a counter in this development) exhausts its counter. *)
Inductive result (A : Type) : Type :=
| Ok (a : A)
| Raise (e : exn)
| OutOfFuel.

Arguments Ok {A} a.
Arguments Raise {A} e.
Arguments OutOfFuel {A}.

Definition bind {A B : Type} (c : result A) (k : A -> result B) : result B :=
  match c with
  | Ok a => k a
  | Raise e => Raise e
  | OutOfFuel => OutOfFuel
  end.

Declare Scope result_scope.
Delimit Scope result_scope with result.
Notation "x <- c ;; k" := (bind c (fun x => k))
  (at level 61, c at next level, right associativity) : result_scope.
Notation "' p <- c ;; k" := (bind c (fun x => let p := x in k))
  (at level 61, p pattern, c at next level, right associativity) : result_scope.
Local Open Scope result_scope.

Definition mapM {A B : Type} (f : A -> result B) : list A -> result (list B) :=
  fix go (l : list A) : result (list B) :=
    match l with
    | [] => Ok []
    | x :: t => y <- f x ;; ys <- go t ;; Ok (y :: ys)
    end.

Definition assert (b : bool) (msg : string) : result unit :=
  if b then Ok tt else Raise (AssertionError msg).

Definition is_Ok {A : Type} (r : result A) : bool :=
  match r with Ok _ => true | _ => false end.

(** ** Substrate operations used by the passes *)

(** [x in xs] for tuples and lists of indices or nodes. *)
Definition index_in (i : index) (l : list index) : bool := existsb (index_eqb i) l.
Definition expr_in (e : expr) (l : list expr) : bool := existsb (expr_eqb e) l.

Definition is_Index (i : index) : bool :=
  match i with Index _ _ => true | _ => false end.

Definition index_id (i : index) : nat :=
  match i with Index n _ => n | _ => O end.

Definition extent (i : index) : option Z :=
  match i with Index _ e => e | _ => None end.

(** Removal of duplicates, keeping first occurrences. *)
Fixpoint dedup_index (l : list index) : list index :=
  match l with
  | [] => []
  | i :: t => i :: filter (fun j => negb (index_eqb i j)) (dedup_index t)
  end.

Fixpoint insert_by_id (i : index) (l : list index) : list index :=
  match l with
  | [] => [i]
  | j :: t => if (index_id i <? index_id j)%nat then i :: l else j :: insert_by_id i t
  end.

Definition sort_by_id (l : list index) : list index :=
  fold_left (fun acc i => insert_by_id i acc) l [].

(** Modelled from the spec: [gem.gem] keeps the free indices of a node as a
    duplicate-free tuple in a canonical order (here: by identity). *)
Definition unique (l : list index) : list index := sort_by_id (dedup_index l).

Definition dim2idxs_indices (d : dim2idxs_t) : list index :=
  flat_map (fun oi => map fst (snd oi)) d.

(** Modelled from the spec: the free indices of a node are the free [Index]
    objects occurring in it that no enclosing contraction or component tensor
    binds (section 3 and the glossary). *)
Fixpoint free_indices (e : expr) : list index :=
  match e with
  | Literal _ | Zero _ | Identity _ | Failure _ _ | Variable_ _ _ => []
  | Sum a b | Product a b | Division a b | Power a b
  | Comparison _ a b | LogicalAnd a b | LogicalOr a b =>
      unique (free_indices a ++ free_indices b)
  | MathFunction _ a | LogicalNot a => free_indices a
  | Conditional c a b =>
      unique (free_indices c ++ free_indices a ++ free_indices b)
  | IndexSum a mi | ComponentTensor a mi =>
      filter (fun i => negb (index_in i mi)) (free_indices a)
  | ListTensor _ l => unique (flat_map free_indices l)
  | Indexed a mi => unique (free_indices a ++ filter is_Index mi)
  | FlexiblyIndexed v d =>
      unique (free_indices v ++ filter is_Index (dim2idxs_indices d))
  | Delta i j => unique (filter is_Index [i; j])
  end.

(** Modelled from the spec: the terminal kinds of section 6. *)
Definition is_Terminal (e : expr) : bool :=
  match e with
  | Literal _ | Zero _ | Identity _ | Failure _ _ | Variable_ _ _ => true
  | _ => false
  end.

Definition scalar (q : Q) : ndarray := mk_ndarray [] [q].

(** [gem.gem.one], the unit literal. *)
Definition one : expr := Literal (scalar 1%Q).

(** Modelled from the spec: the [Delta] constructor of [gem.gem].  A delta of
    an index with itself is the unit ("drop any resulting unit-valued
    factors"; scenario 2 of section 8 reduces [delta(i,j) * f(i)] summed over
    [i] to [f(j)] alone). *)
Definition Delta_ (i j : index) : expr :=
  if index_eqb i j then one else Delta i j.

(** Modelled from the spec: the default handler of section 4.1.  If every
    child is unchanged after recursion the node itself is returned, otherwise
    a node of the same kind is rebuilt from the rewritten children. *)
Definition reuse_if_untouched (self : expr -> result expr) (node : expr) : result expr :=
  let un (mk : expr -> expr) (a : expr) :=
    a' <- self a ;;
    Ok (if expr_eqb a' a then node else mk a') in
  let bin (mk : expr -> expr -> expr) (a b : expr) :=
    a' <- self a ;; b' <- self b ;;
    Ok (if expr_eqb a' a && expr_eqb b' b then node else mk a' b') in
  match node with
  | Literal _ | Zero _ | Identity _ | Failure _ _ | Variable_ _ _ | Delta _ _ => Ok node
  | Sum a b => bin Sum a b
  | Product a b => bin Product a b
  | Division a b => bin Division a b
  | Power a b => bin Power a b
  | MathFunction n a => un (MathFunction n) a
  | Comparison o a b => bin (Comparison o) a b
  | LogicalNot a => un LogicalNot a
  | LogicalAnd a b => bin LogicalAnd a b
  | LogicalOr a b => bin LogicalOr a b
  | Conditional c a b =>
      c' <- self c ;; a' <- self a ;; b' <- self b ;;
      Ok (if expr_eqb c' c && expr_eqb a' a && expr_eqb b' b then node
          else Conditional c' a' b')
  | IndexSum a mi => un (fun a' => IndexSum a' mi) a
  | ComponentTensor a mi => un (fun a' => ComponentTensor a' mi) a
  | ListTensor s l =>
      l' <- mapM self l ;;
      Ok (if list_eqb expr_eqb l' l then node else ListTensor s l')
  | Indexed a mi => un (fun a' => Indexed a' mi) a
  | FlexiblyIndexed v d => un (fun v' => FlexiblyIndexed v' d) v
  end.

(** ** [gem/optimise.py] *)

(** *** Index substitution *)

(** Substitution rules: a tuple of pairs, read as a dictionary. *)
Definition subst_t : Type := list (index * index).

(** [d[k] = v]: the value is replaced in place when the key is present, the
    pair is appended otherwise. *)
Fixpoint dict_set (d : subst_t) (k v : index) : subst_t :=
  match d with
  | [] => [(k, v)]
  | (k', v') :: t => if index_eqb k' k then (k', v) :: t else (k', v') :: dict_set t k v
  end.

(** [dict(pairs)] and [d.update(pairs)]. *)
Definition dict_update (d : subst_t) (pairs : list (index * index)) : subst_t :=
  fold_left (fun acc kv => dict_set acc (fst kv) (snd kv)) pairs d.

Definition dict_of (pairs : list (index * index)) : subst_t := dict_update [] pairs.

(** [d.get(i, i)]. *)
Fixpoint dict_get (d : subst_t) (i : index) : index :=
  match d with
  | [] => i
  | (k, v) :: t => if index_eqb k i then v else dict_get t i
  end.

Fixpoint insert_item (kv : index * index) (l : subst_t) : subst_t :=
  match l with
  | [] => [kv]
  | kv' :: t =>
      if (index_id (fst kv) <? index_id (fst kv'))%nat then kv :: l
      else kv' :: insert_item kv t
  end.

(** [tuple(sorted(d.items()))]: the keys are free indices, ordered by
    identity. *)
Definition sorted_items (d : subst_t) : subst_t :=
  fold_left (fun acc kv => insert_item kv acc) d [].

(** [zip]. *)
Definition zip {A B : Type} (l1 : list A) (l2 : list B) : list (A * B) := combine l1 l2.

Definition replace_indices_delta (node : expr) (i0 j0 : index) (subst : subst_t) : result expr :=
  let substitute := dict_of subst in
  let i := dict_get substitute i0 in
  let j := dict_get substitute j0 in
  if index_eqb i i0 && index_eqb j j0 then Ok node else Ok (Delta_ i j).

Definition replace_dim2idxs (substitute : subst_t) (d : dim2idxs_t) : dim2idxs_t :=
  map (fun oi => (fst oi, map (fun ix => (dict_get substitute (fst ix), snd ix)) (snd oi))) d.

Definition dim2idxs_eqb (d d' : dim2idxs_t) : bool :=
  list_eqb (fun oi oi' =>
              Z.eqb (fst oi) (fst oi') &&
              list_eqb (fun ix ix' => index_eqb (fst ix) (fst ix') && Z.eqb (snd ix) (snd ix'))
                       (snd oi) (snd oi')) d d'.

Definition replace_indices_flexiblyindexed (node child : expr) (d : dim2idxs_t)
    (subst : subst_t) : result expr :=
  _ <- assert (is_Terminal child) "isinstance(child, Terminal)" ;;
  _ <- assert (match free_indices child with [] => true | _ => false end)
         "not child.free_indices" ;;
  let substitute := dict_of subst in
  let d' := replace_dim2idxs substitute d in
  if dim2idxs_eqb d' d then Ok node else Ok (FlexiblyIndexed child d').

(** [filtered_replace_indices] dispatching to [replace_indices], applied
    through [MemoizerArg]: the memo table only shares work, the function
    computed is this recursion.  The handlers for [Delta], [Indexed] and
    [FlexiblyIndexed] are the registered ones; every other node goes to the
    default handler. *)
Fixpoint filtered_replace_indices (node : expr) (subst : subst_t) {struct node} : result expr :=
  let filtered_subst := filter (fun kv => index_in (fst kv) (free_indices node)) subst in
  match node with
  | Delta i j => replace_indices_delta node i j filtered_subst
  | Indexed child multiindex =>
      let substitute := dict_of filtered_subst in
      let multiindex' := map (fun i => dict_get substitute i) multiindex in
      match child with
      | ComponentTensor body cmi =>
          let substitute' := dict_update substitute (zip cmi multiindex') in
          filtered_replace_indices body (sorted_items substitute')
      | _ =>
          new_child <- filtered_replace_indices child filtered_subst ;;
          if expr_eqb new_child child && list_eqb index_eqb multiindex' multiindex
          then Ok node
          else Ok (Indexed new_child multiindex')
      end
  | FlexiblyIndexed child d => replace_indices_flexiblyindexed node child d filtered_subst
  | _ => reuse_if_untouched (fun c => filtered_replace_indices c filtered_subst) node
  end.

Definition remove_componenttensors (expressions : list expr) : result (list expr) :=
  mapM (fun expression => filtered_replace_indices expression []) expressions.

(** *** IndexSum-Delta cancellation *)

(** [list.remove(x)]: drops the first element equal to [x]. *)
Fixpoint remove_index (x : index) (l : list index) : result (list index) :=
  match l with
  | [] => Raise (ValueError "list.remove(x): x not in list")
  | y :: t => if index_eqb y x then Ok t else t' <- remove_index x t ;; Ok (y :: t')
  end.

Fixpoint remove_expr (x : expr) (l : list expr) : result (list expr) :=
  match l with
  | [] => Raise (ValueError "list.remove(x): x not in list")
  | y :: t => if expr_eqb y x then Ok t else t' <- remove_expr x t ;; Ok (y :: t')
  end.

(** The queue of (delta factor, summation index it mentions). *)
Definition delta_queue (sum_indices : list index) (factors : list expr) : list (expr * index) :=
  flat_map (fun f =>
              match f with
              | Delta i j =>
                  map (fun index => (f, index))
                      (filter (fun index => index_in index sum_indices) [i; j])
              | _ => []
              end) factors.

(** [{delta.i, delta.j} - {from_}] as a list. *)
Definition other_indices (delta : expr) (from_ : index) : list index :=
  match delta with
  | Delta i j => filter (fun x => negb (index_eqb x from_)) (dedup_index [i; j])
  | _ => []
  end.

(** One iteration of the [while delta_queue] loop. *)
Definition delta_elimination_step (delta : expr) (from_ : index)
    (sum_indices : list index) (factors : list expr) : result (list index * list expr) :=
  match other_indices delta from_ with
  | [to_] =>
      sum_indices' <- remove_index from_ sum_indices ;;
      factors' <- mapM (fun e => filtered_replace_indices e [(from_, to_)]) factors ;;
      Ok (sum_indices', factors')
  | [] => Raise (ValueError "not enough values to unpack (expected 1, got 0)")
  | _ => Raise (ValueError "too many values to unpack (expected 1)")
  end.

Fixpoint delta_elimination_loop (fuel : nat) (sum_indices : list index)
    (factors : list expr) : result (list index * list expr) :=
  match delta_queue sum_indices factors with
  | [] => Ok (sum_indices, filter (fun e => negb (expr_eqb e one)) factors)
  | (delta, from_) :: _ =>
      match fuel with
      | O => OutOfFuel
      | S fuel' =>
          '(sum_indices', factors') <-
            delta_elimination_step delta from_ sum_indices factors ;;
          delta_elimination_loop fuel' sum_indices' factors'
      end
  end.

(** Every iteration removes one summation index, so the length of
    [sum_indices] bounds the number of iterations. *)
Definition delta_elimination (sum_indices : list index) (factors : list expr)
    : result (list index * list expr) :=
  delta_elimination_loop (length sum_indices) sum_indices factors.

(** *** Associativity optimiser *)

Definition wrap64 (z : Z) : Z := (z + 2 ^ 63) mod 2 ^ 64 - 2 ^ 63.

(** [numpy.prod(extents, dtype=int)]: a 64-bit product; an extent that is
    still [None] cannot be converted. *)
Fixpoint numpy_prod (extents : list (option Z)) : result Z :=
  match extents with
  | [] => Ok 1
  | None :: _ =>
      Raise (TypeError "int() argument must be a number, not 'NoneType'")
  | Some x :: t => p <- numpy_prod t ;; Ok (wrap64 (x * p))
  end.

(** Operation count to combine a pair of expressions. *)
Definition count (pair : expr * expr) : result Z :=
  let '(a, b) := pair in
  numpy_prod (map extent (dedup_index (free_indices a ++ free_indices b))).

(** [itertools.combinations(l, 2)]. *)
Fixpoint combinations2 {A : Type} (l : list A) : list (A * A) :=
  match l with
  | [] => []
  | x :: t => map (pair x) t ++ combinations2 t
  end.

(** [min(items, key=...)] over items already paired with their keys: the
    first item with the least key. *)
Fixpoint min_by_key {A : Type} (l : list (A * Z)) : option (A * Z) :=
  match l with
  | [] => None
  | (x, k) :: t =>
      match min_by_key t with
      | Some (y, k') => if k' <? k then Some (y, k') else Some (x, k)
      | None => Some (x, k)
      end
  end.

(** The greedy loop shared, statement for statement, by [associate_product]
    (with [Product]) and [associate_sum] (with [Sum]). *)
Fixpoint associate_loop (op : expr -> expr -> expr) (fuel : nat)
    (factors : list expr) (flops : Z) : result (list expr * Z) :=
  if (length factors <=? 1)%nat then Ok (factors, flops)
  else
    match fuel with
    | O => OutOfFuel
    | S fuel' =>
        keyed <- mapM (fun p => k <- count p ;; Ok (p, k)) (combinations2 factors) ;;
        match min_by_key keyed with
        | None => Raise (ValueError "min() arg is an empty sequence")
        | Some ((a, b), _) =>
            c <- count (a, b) ;;
            factors1 <- remove_expr a factors ;;
            factors2 <- remove_expr b factors1 ;;
            associate_loop op fuel' (factors2 ++ [op a b]) (wrap64 (flops + c))
        end
    end.

Definition too_complicated : exn :=
  NotImplementedError "Not expected such a complicated expression!".

Definition unpack1 {A : Type} (l : list A) : result A :=
  match l with
  | [x] => Ok x
  | [] => Raise (ValueError "not enough values to unpack (expected 1, got 0)")
  | _ => Raise (ValueError "too many values to unpack (expected 1)")
  end.

Definition associate_product (factors : list expr) : result (expr * Z) :=
  if (32 <? length factors)%nat then Raise too_complicated
  else
    '(factors', flops) <- associate_loop Product (length factors) factors 0 ;;
    product <- unpack1 factors' ;;
    Ok (product, flops).

(** Insertion-ordered grouping, [groups.setdefault(key, []).append(x)]. *)
Fixpoint group_add {K A : Type} (eqb : K -> K -> bool) (groups : list (K * list A))
    (key : K) (x : A) : list (K * list A) :=
  match groups with
  | [] => [(key, [x])]
  | (k, xs) :: t =>
      if eqb k key then (k, xs ++ [x]) :: t else (k, xs) :: group_add eqb t key x
  end.

Definition group_by {K A : Type} (eqb : K -> K -> bool) (key : A -> K) (l : list A)
    : list (K * list A) :=
  fold_left (fun groups x => group_add eqb groups (key x) x) l [].

(** Equality of frozensets of indices. *)
Definition index_set_eqb (s1 s2 : list index) : bool :=
  forallb (fun i => index_in i s2) s1 && forallb (fun i => index_in i s1) s2.

Definition associate_sum (summands : list expr) : result (expr * Z) :=
  let groups := group_by index_set_eqb free_indices summands in
  let summands := map (fun g => fold_left Sum (snd g) (Zero [])) groups in
  if (32 <? length summands)%nat then Raise too_complicated
  else
    '(summands', flops) <- associate_loop Sum (length summands) summands 0 ;;
    sum <- unpack1 summands' ;;
    Ok (sum, flops).

(** *** Sum factorisation *)

(** Every element of a list together with the others, in order. *)
Fixpoint selections {A : Type} (l : list A) : list (A * list A) :=
  match l with
  | [] => []
  | x :: t => (x, t) :: map (fun yr => (fst yr, x :: snd yr)) (selections t)
  end.

Fixpoint permutations_n {A : Type} (n : nat) (l : list A) : list (list A) :=
  match n with
  | O => [[]]
  | S n' => flat_map (fun xr => map (cons (fst xr)) (permutations_n n' (snd xr)))
                     (selections l)
  end.

(** [itertools.permutations(l)], in its lexicographic order of positions. *)
Definition permutations {A : Type} (l : list A) : list (list A) :=
  permutations_n (length l) l.

Definition too_many_indices : exn :=
  NotImplementedError "Too many indices for sum factorisation!".

(** [reduce(Product, terms)] without initial value. *)
Definition reduce_Product (terms : list expr) : result expr :=
  match terms with
  | [] => Raise (TypeError "reduce() of empty sequence with no initial value")
  | t :: ts => Ok (fold_left Product ts t)
  end.

(** The inner loop of [sum_factorise]: contraction index by index. *)
Fixpoint contract_ordering (ordering : list index) (terms : list expr) (flops : Z)
    : result (list expr * Z) :=
  match ordering with
  | [] => Ok (terms, flops)
  | sum_index :: ordering' =>
      let contract := filter (fun t => index_in sum_index (free_indices t)) terms in
      let deferred := filter (fun t => negb (index_in sum_index (free_indices t))) terms in
      '(product, flops_) <- associate_product contract ;;
      let term := IndexSum product [sum_index] in
      p <- numpy_prod (map extent (free_indices product)) ;;
      contract_ordering ordering' (deferred ++ [term]) (wrap64 (flops + wrap64 (flops_ + p)))
  end.

(** The loop over all orderings; [best] is [(expression, best_flops)], with
    [None] standing for the initial [(None, inf)]. *)
Fixpoint sum_factorise_orderings (orderings : list (list index)) (groups : list expr)
    (best : option (expr * Z)) : result (option (expr * Z)) :=
  match orderings with
  | [] => Ok best
  | ordering :: rest =>
      '(terms, flops) <- contract_ordering ordering groups 0 ;;
      '(expr_, flops_) <- associate_product terms ;;
      let flops := wrap64 (flops + flops_) in
      let best' :=
        match best with
        | None => Some (expr_, flops)
        | Some (_, best_flops) => if flops <? best_flops then Some (expr_, flops) else best
        end in
      sum_factorise_orderings rest groups best'
  end.

Definition sum_factorise (sum_indices : list index) (factors : list expr) : result expr :=
  if Nat.eqb (length factors) 0 && Nat.eqb (length sum_indices) 0 then Ok one
  else if (5 <? length sum_indices)%nat then Raise too_many_indices
  else
    groups <- mapM (fun g => reduce_Product (snd g))
                   (group_by (list_eqb index_eqb) free_indices factors) ;;
    best <- sum_factorise_orderings (permutations sum_indices) groups None ;;
    match best with
    | Some (expression, _) => Ok expression
    | None => Raise (TypeError "sum_factorise returned None")
    end.

Definition fast_sum_factorise (sum_indices : list index) (factors : list expr) : result expr :=
  '(sum_indices', factors') <- delta_elimination (rev sum_indices) factors ;;
  sum_factorise sum_indices' factors'.

(** *** Flattening of product and sum trees *)

(** Number of nodes of an expression; bounds the iteration counts below. *)
Fixpoint size (e : expr) : nat :=
  match e with
  | Literal _ | Zero _ | Identity _ | Failure _ _ | Variable_ _ _ | Delta _ _ => 1
  | Sum a b | Product a b | Division a b | Power a b
  | Comparison _ a b | LogicalAnd a b | LogicalOr a b => S (size a + size b)
  | MathFunction _ a | LogicalNot a | IndexSum a _ | ComponentTensor a _
  | Indexed a _ | FlexiblyIndexed a _ => S (size a)
  | Conditional c a b => S (size c + size a + size b)
  | ListTensor _ l => S (fold_right (fun x n => size x + n) 0 l)%nat
  end.

Definition stop_here (stop_at : option (expr -> bool)) (e : expr) : bool :=
  match stop_at with
  | Some p => p e
  | None => false
  end.

(** The [while stack] loop of [traverse_product]; the head of [stack] is the
    top of the Python stack, so [stack.append(x)] is [x :: stack] and
    [stack.extend(reversed(children))] is [children ++ stack]. *)
Fixpoint traverse_product_loop (fuel : nat) (stop_at : option (expr -> bool))
    (stack : list expr) (sum_indices : list index) (terms : list expr)
    : result (list index * list expr) :=
  match stack with
  | [] => Ok (sum_indices, terms)
  | expr_ :: stack' =>
      match fuel with
      | O => OutOfFuel
      | S fuel' =>
          if stop_here stop_at expr_
          then traverse_product_loop fuel' stop_at stack' sum_indices (terms ++ [expr_])
          else
            match expr_ with
            | IndexSum summand multiindex =>
                traverse_product_loop fuel' stop_at (summand :: stack')
                                      (sum_indices ++ multiindex) terms
            | Product a b =>
                traverse_product_loop fuel' stop_at (a :: b :: stack') sum_indices terms
            | Division dividend divisor =>
                if expr_eqb dividend one
                then traverse_product_loop fuel' stop_at stack' sum_indices (terms ++ [expr_])
                else traverse_product_loop fuel' stop_at
                       (dividend :: Division one divisor :: stack') sum_indices terms
            | _ => traverse_product_loop fuel' stop_at stack' sum_indices (terms ++ [expr_])
            end
      end
  end.

Definition traverse_product (expression : expr) (stop_at : option (expr -> bool))
    : result (list index * list expr) :=
  traverse_product_loop (2 * size expression) stop_at [expression] [] [].

Fixpoint traverse_sum_loop (fuel : nat) (stop_at : option (expr -> bool))
    (stack : list expr) (result_ : list expr) : result (list expr) :=
  match stack with
  | [] => Ok result_
  | expr_ :: stack' =>
      match fuel with
      | O => OutOfFuel
      | S fuel' =>
          if stop_here stop_at expr_
          then traverse_sum_loop fuel' stop_at stack' (result_ ++ [expr_])
          else
            match expr_ with
            | Sum a b => traverse_sum_loop fuel' stop_at (a :: b :: stack') result_
            | _ => traverse_sum_loop fuel' stop_at stack' (result_ ++ [expr_])
            end
      end
  end.

Definition traverse_sum (expression : expr) (stop_at : option (expr -> bool))
    : result (list expr) :=
  traverse_sum_loop (size expression) stop_at [expression] [].

(** [contraction]: component tensors out, flatten, eliminate deltas, sum
    factorise. *)
Definition contraction (expression : expr) : result expr :=
  es <- remove_componenttensors [expression] ;;
  expression' <- unpack1 es ;;
  '(sum_indices, factors) <- traverse_product expression' None ;;
  '(sum_indices', factors') <- delta_elimination sum_indices factors ;;
  sum_factorise sum_indices' factors'.

(** *** Delta lowering *)

Definition extent_is_not_None (e : option Z) (msg : string) : result Z :=
  match e with
  | Some size_ => Ok size_
  | None => Raise (AssertionError msg)
  end.

(** [expression(index)], the local helper of [_replace_delta_delta]. *)
Definition delta_index_expression (index_ : index) : result expr :=
  match index_ with
  | IntIndex n => Ok (Literal (scalar (inject_Z n)))
  | VariableIndex e => Ok e
  | Index _ _ => Raise (ValueError "Cannot convert running index to expression.")
  end.

Definition _replace_delta_delta (i j : index) : result expr :=
  if is_Index i || is_Index j then
    _ <- (if is_Index i && is_Index j
          then assert (option_eqb Z.eqb (extent i) (extent j)) "i.extent == j.extent"
          else Ok tt) ;;
    size0 <- (if is_Index i
              then s <- extent_is_not_None (extent i) "i.extent is not None" ;; Ok (Some s)
              else Ok None) ;;
    size1 <- (if is_Index j
              then s <- extent_is_not_None (extent j) "j.extent is not None" ;; Ok (Some s)
              else Ok size0) ;;
    match size1 with
    | Some size_ => Ok (Indexed (Identity size_) [i; j])
    | None => Raise (TypeError "local variable 'size' referenced before assignment")
    end
  else
    e_i <- delta_index_expression i ;;
    e_j <- delta_index_expression j ;;
    Ok (Conditional (Comparison "==" e_i e_j) one (Zero [])).

(** [Memoizer(_replace_delta)]. *)
Fixpoint _replace_delta (node : expr) : result expr :=
  match node with
  | Delta i j => _replace_delta_delta i j
  | _ => reuse_if_untouched _replace_delta node
  end.

Definition replace_delta (expressions : list expr) : result (list expr) :=
  mapM _replace_delta expressions.

(** *** Unrolling of index sums *)

(** [index.extent] where the index may be of any kind. *)
Definition extent_attr (i : index) : result Z :=
  match i with
  | Index _ (Some e) => Ok e
  | Index _ None => Raise (TypeError "'NoneType' object cannot be interpreted as an integer")
  | _ => Raise (AttributeError "object has no attribute 'extent'")
  end.

Definition range (n : Z) : list Z := map Z.of_nat (seq 0 (Z.to_nat n)).

(** [numpy.ndindex(shape)], row-major. *)
Fixpoint ndindex (shape : list Z) : list (list Z) :=
  match shape with
  | [] => [[]]
  | n :: shape' => flat_map (fun k => map (cons k) (ndindex shape')) (range n)
  end.

Fixpoint _unroll_indexsum (predicate : index -> bool) (node : expr) : result expr :=
  match node with
  | IndexSum summand0 multiindex =>
      let unroll := filter predicate multiindex in
      match unroll with
      | [] => reuse_if_untouched (_unroll_indexsum predicate) node
      | _ :: _ =>
          summand <- _unroll_indexsum predicate summand0 ;;
          shape <- mapM extent_attr unroll ;;
          let unrolled :=
            fold_left Sum
              (map (fun alpha => Indexed (ComponentTensor summand unroll) (map IntIndex alpha))
                   (ndindex shape))
              (Zero []) in
          Ok (IndexSum unrolled (filter (fun index_ => negb (index_in index_ unroll)) multiindex))
      end
  | _ => reuse_if_untouched (_unroll_indexsum predicate) node
  end.

Definition unroll_indexsum (expressions : list expr) (predicate : index -> bool)
    : result (list expr) :=
  mapM (_unroll_indexsum predicate) expressions.

(** *** Traversal and failure markers *)

Definition children (e : expr) : list expr :=
  match e with
  | Literal _ | Zero _ | Identity _ | Failure _ _ | Variable_ _ _ | Delta _ _ => []
  | Sum a b | Product a b | Division a b | Power a b
  | Comparison _ a b | LogicalAnd a b | LogicalOr a b => [a; b]
  | MathFunction _ a | LogicalNot a | IndexSum a _ | ComponentTensor a _
  | Indexed a _ | FlexiblyIndexed a _ => [a]
  | Conditional c a b => [c; a; b]
  | ListTensor _ l => l
  end.

(** Every node reachable from a root through [children], the root first. *)
Fixpoint preorder (e : expr) : list expr :=
  e ::
  match e with
  | Literal _ | Zero _ | Identity _ | Failure _ _ | Variable_ _ _ | Delta _ _ => []
  | Sum a b | Product a b | Division a b | Power a b
  | Comparison _ a b | LogicalAnd a b | LogicalOr a b => preorder a ++ preorder b
  | MathFunction _ a | LogicalNot a | IndexSum a _ | ComponentTensor a _
  | Indexed a _ | FlexiblyIndexed a _ => preorder a
  | Conditional c a b => preorder c ++ preorder a ++ preorder b
  | ListTensor _ l => flat_map preorder l
  end.

Fixpoint dedup_expr (l : list expr) : list expr :=
  match l with
  | [] => []
  | e :: t => e :: filter (fun x => negb (expr_eqb e x)) (dedup_expr t)
  end.

(** Modelled from the spec: [gem.node.traversal] yields every distinct node
    of a multi-root DAG once (sections 4.1 and 4.3). *)
Definition traversal (expression_dags : list expr) : list expr :=
  dedup_expr (flat_map preorder expression_dags).

Definition is_Failure (e : expr) : bool :=
  match e with Failure _ _ => true | _ => false end.

Definition propagate_failure (expressions : list expr) : bool :=
  existsb is_Failure (traversal expressions).

(** ** [gem/refactorise.py] *)

(** Refactorisation labels (interned strings). *)
Definition ATOMIC : string := "atomic".
Definition COMPOUND : string := "compound".
Definition OTHER : string := "other".

(** [Monomial = namedtuple('Monomial', ['sum_indices', 'atomics', 'rest'])]. *)
Record Monomial : Type := mk_Monomial {
  m_sum_indices : list index;
  m_atomics : list expr;
  m_rest : expr
}.

Module MonomialSum.

(** A key is a pair of a frozenset of summation indices and a frozenset of
    the items of [Counter(atomics)]. *)
Definition key : Type := (list index * list (expr * nat))%type.

Definition item_eqb (x y : expr * nat) : bool :=
  expr_eqb (fst x) (fst y) && Nat.eqb (snd x) (snd y).

Definition item_in (x : expr * nat) (l : list (expr * nat)) : bool :=
  existsb (item_eqb x) l.

Definition items_eqb (s1 s2 : list (expr * nat)) : bool :=
  forallb (fun x => item_in x s2) s1 && forallb (fun x => item_in x s1) s2.

Definition key_eqb (k1 k2 : key) : bool :=
  index_set_eqb (fst k1) (fst k2) && items_eqb (snd k1) (snd k2).

Fixpoint counter_add (c : list (expr * nat)) (x : expr) : list (expr * nat) :=
  match c with
  | [] => [(x, 1%nat)]
  | (y, n) :: t => if expr_eqb y x then (y, S n) :: t else (y, n) :: counter_add t x
  end.

(** [Counter(atomics).items()]. *)
Definition Counter (atomics : list expr) : list (expr * nat) :=
  fold_left counter_add atomics [].

(** [frozenset(sum_indices)]. *)
Definition frozenset (sum_indices : list index) : list index := dedup_index sum_indices.

Definition make_key (sum_indices : list index) (atomics : list expr) : key :=
  (frozenset sum_indices, Counter atomics).

(** Dictionaries keyed by [key], in insertion order. *)
Fixpoint dict_lookup {V : Type} (d : list (key * V)) (k : key) : option V :=
  match d with
  | [] => None
  | (k', v) :: t => if key_eqb k' k then Some v else dict_lookup t k
  end.

Fixpoint dict_store {V : Type} (d : list (key * V)) (k : key) (v : V) : list (key * V) :=
  match d with
  | [] => [(k, v)]
  | (k', v') :: t => if key_eqb k' k then (k', v) :: t else (k', v') :: dict_store t k v
  end.

(** [d.setdefault(k, v)] for its effect on [d]. *)
Definition dict_setdefault {V : Type} (d : list (key * V)) (k : key) (v : V) : list (key * V) :=
  match dict_lookup d k with
  | Some _ => d
  | None => d ++ [(k, v)]
  end.

(** The object state: the two dictionaries of [__init__], and the attribute
    [argument_indices], which [__init__] does not create ([None] here: the
    attribute does not exist yet). *)
Record t : Type := mk {
  monomials : list (key * expr);
  ordering : list (key * (list index * list expr));
  argument_indices : option (list index)
}.

(** [MonomialSum()]. *)
Definition empty : t := mk [] [] None.

(** [self.monomials[key]] on the [defaultdict(Zero)]. *)
Definition rest_of (self : t) (k : key) : expr :=
  match dict_lookup (monomials self) k with
  | Some r => r
  | None => Zero []
  end.

Definition set_argument_indices (self : t) (a : list index) : t :=
  mk (monomials self) (ordering self) (Some a).

Definition get_argument_indices (self : t) : result (list index) :=
  match argument_indices self with
  | Some a => Ok a
  | None => Raise (AttributeError "'MonomialSum' object has no attribute 'argument_indices'")
  end.

Definition add (self : t) (sum_indices : list index) (atomics : list expr) (rest : expr)
    : result t :=
  let sum_indices_set := frozenset sum_indices in
  _ <- assert (Nat.eqb (length sum_indices) (length sum_indices_set))
         "len(sum_indices) == len(sum_indices_set)" ;;
  let atomics_set := Counter atomics in
  let k := (sum_indices_set, atomics_set) in
  Ok (mk (dict_store (monomials self) k (Sum (rest_of self k) rest))
         (dict_setdefault (ordering self) k (sum_indices, atomics))
         (argument_indices self)).

(** [__iter__]. *)
Definition iter (self : t) : list Monomial :=
  map (fun kv => mk_Monomial (fst (snd kv)) (snd (snd kv)) (rest_of self (fst kv)))
      (ordering self).

(** [MonomialSum.sum], a static method over any number of arguments. *)
Definition sum_step (result_ arg : t) : t :=
  let monomials' :=
    fold_left (fun ms kr =>
                 let r := match dict_lookup ms (fst kr) with Some r => r | None => Zero [] end in
                 dict_store ms (fst kr) (Sum r (snd kr)))
              (monomials arg) (monomials result_) in
  let ordering' :=
    fold_left (fun od kv => dict_setdefault od (fst kv) (snd kv))
              (ordering arg) (ordering result_) in
  mk monomials' ordering' (argument_indices result_).

Definition sum (args : list t) : t := fold_left sum_step args empty.

(** [itertools.product] of a list of iterables. *)
Fixpoint cartesian {A : Type} (ls : list (list A)) : list (list A) :=
  match ls with
  | [] => [[]]
  | l :: ls' => flat_map (fun x => map (cons x) (cartesian ls')) l
  end.

(** [MonomialSum.product], a static method over any number of arguments. *)
Definition product_monomial (monomials_ : list Monomial) : list index * list expr * expr :=
  fold_left (fun acc m =>
               let '(s, a, r) := acc in
               (s ++ m_sum_indices m, a ++ m_atomics m, Product (m_rest m) r))
            monomials_ ([], [], one).

Fixpoint add_all (result_ : t) (l : list (list index * list expr * expr)) : result t :=
  match l with
  | [] => Ok result_
  | (s, a, r) :: l' => result' <- add result_ s a r ;; add_all result' l'
  end.

Definition product (args : list t) : result t :=
  add_all empty (map product_monomial (cartesian (map iter args))).

(** [numpy.product(extents)]. *)
Definition argument_indices_extent (self : t) (factor : expr) : result Z :=
  a <- get_argument_indices self ;;
  numpy_prod (map extent (filter (fun i => index_in i a) (dedup_index (free_indices factor)))).

(** The items [(sum_indices_set, sum_indices)] that [unique_sum_indices]
    yields. *)
Definition sum_indices_pair : Type := (list index * list index)%type.

Fixpoint unique_sum_indices_loop (seen : list (list index))
    (od : list (key * (list index * list expr))) : list sum_indices_pair :=
  match od with
  | [] => []
  | ((sum_indices_set, _), (sum_indices, _)) :: od' =>
      if existsb (index_set_eqb sum_indices_set) seen
      then unique_sum_indices_loop seen od'
      else (sum_indices_set, sum_indices)
             :: unique_sum_indices_loop (seen ++ [sum_indices_set]) od'
  end.

Definition unique_sum_indices (self : t) : list sum_indices_pair :=
  unique_sum_indices_loop [] (ordering self).

(** [to_expression]. *)
Definition group_key_eqb (g1 g2 : sum_indices_pair) : bool :=
  index_set_eqb (fst g1) (fst g2) && list_eqb index_eqb (snd g1) (snd g2).

(** The first loop: monomials without summation indices go to [indexsums]
    at once, the others are grouped. *)
Fixpoint to_expression_split (self : t) (od : list (key * (list index * list expr)))
    (indexsums : list expr) (monomial_group : list (sum_indices_pair * list (list expr * expr)))
    : result (list expr * list (sum_indices_pair * list (list expr * expr))) :=
  match od with
  | [] => Ok (indexsums, monomial_group)
  | (k, (sum_indices, atomics)) :: od' =>
      let sum_indices_set := fst k in
      let rest := rest_of self k in
      match sum_indices_set with
      | [] =>
          e <- fast_sum_factorise sum_indices (atomics ++ [rest]) ;;
          to_expression_split self od' (indexsums ++ [e]) monomial_group
      | _ :: _ =>
          to_expression_split self od' indexsums
            (group_add group_key_eqb monomial_group (sum_indices_set, sum_indices)
                       (atomics, rest))
      end
  end.

(** The second loop: one index sum per group. *)
Fixpoint to_expression_groups (groups : list (sum_indices_pair * list (list expr * expr)))
    (indexsums : list expr) : result (list expr) :=
  match groups with
  | [] => Ok indexsums
  | ((_, sum_indices), monomials_) :: groups' =>
      e <- match monomials_ with
           | [(atomics, rest)] => fast_sum_factorise sum_indices (atomics ++ [rest])
           | _ =>
               products <- mapM (fun ar => p <- associate_product (fst ar ++ [snd ar]) ;;
                                           Ok (fst p)) monomials_ ;;
               s <- associate_sum products ;;
               Ok (IndexSum (fst s) sum_indices)
           end ;;
      to_expression_groups groups' (indexsums ++ [e])
  end.

Definition to_expression (self : t) : result expr :=
  '(indexsums, monomial_group) <- to_expression_split self (ordering self) [] [] ;;
  indexsums' <- to_expression_groups monomial_group indexsums ;;
  s <- associate_sum indexsums' ;;
  Ok (fst s).

(** *** Optimal atomics, factorisation and self-optimisation *)

Section Solver.

(** The integer-program solver ([pulp]) is an external collaborator: given
    the objective coefficient of every binary variable and the covering
    constraints (each a list of variable numbers whose sum must be at least
    one), it returns its status and the value of every variable. *)
Variable ilp_solve : list Z -> list (list nat) -> Z * list Z.

Fixpoint position (x : expr) (l : list expr) : nat :=
  match l with
  | [] => O
  | y :: t => if expr_eqb y x then O else S (position x t)
  end.

(** The inner loop building one connection; [atomic_index] is the ordered
    dictionary from atomics to their numbers, kept as the list of its keys. *)
Fixpoint connection_of (atomic_index : list expr) (atomics : list expr)
    (connection : list nat) : list expr * list nat :=
  match atomics with
  | [] => (atomic_index, connection)
  | atomic :: atomics' =>
      let atomic_index' :=
        if expr_in atomic atomic_index then atomic_index else atomic_index ++ [atomic] in
      connection_of atomic_index' atomics' (connection ++ [position atomic atomic_index'])
  end.

Fixpoint connections_of (sum_indices_set : list index)
    (od : list (key * (list index * list expr)))
    (atomic_index : list expr) (connections : list (list nat))
    : list expr * list (list nat) :=
  match od with
  | [] => (atomic_index, connections)
  | ((_sum_indices, _), (_, atomics)) :: od' =>
      if index_set_eqb _sum_indices sum_indices_set
      then
        let '(atomic_index', connection) := connection_of atomic_index atomics [] in
        connections_of sum_indices_set od' atomic_index' (connections ++ [connection])
      else connections_of sum_indices_set od' atomic_index connections
  end.

(** [sorted(l, key=..., reverse=True)] on items paired with their keys; the
    sort is stable. *)
Fixpoint insert_desc {A : Type} (x : A * Z) (l : list (A * Z)) : list (A * Z) :=
  match l with
  | [] => [x]
  | y :: t => if snd y <? snd x then x :: l else y :: insert_desc x t
  end.

Definition sorted_desc {A : Type} (l : list (A * Z)) : list A :=
  map fst (fold_left (fun acc x => insert_desc x acc) l []).

Definition big : Z := 10000000.

Definition with_extent (self : t) (atomics : list expr) : result (list (expr * Z)) :=
  mapM (fun atomic => e <- argument_indices_extent self atomic ;; Ok (atomic, e)) atomics.

Definition find_optimal_atomics (self : t) (sum_indices : sum_indices_pair)
    : result (list expr * list expr) :=
  let sum_indices_set := fst sum_indices in
  let '(atomic_index, connections) :=
    connections_of sum_indices_set (ordering self) [] [] in
  match atomic_index with
  | [] => Ok ([], [])
  | [atomic] => Ok ([atomic], [])
  | _ =>
      weighted <- with_extent self atomic_index ;;
      let '(status, values) := ilp_solve (map (fun ae => big - snd ae) weighted) connections in
      if negb (status =? 1) then Raise (AssertionError "Something bad happened during ILP")
      else
        let numbered := combine atomic_index (seq 0 (length atomic_index)) in
        let chosen (v : Z) :=
          map fst (filter (fun an => match nth_error values (snd an) with
                                     | Some x => x =? v
                                     | None => false
                                     end) numbered) in
        optimal <- with_extent self (chosen 1) ;;
        other <- with_extent self (chosen 0) ;;
        Ok (sorted_desc optimal, sorted_desc other)
  end.

(** The pairs [((sum_indices_set, sum_indices), atomic)] of an
    [optimal_atomics] list, also the keys of [factor_group]. *)
Definition factor_key : Type := (sum_indices_pair * expr)%type.

Definition factor_key_eqb (g1 g2 : factor_key) : bool :=
  group_key_eqb (fst g1) (fst g2) && expr_eqb (snd g1) (snd g2).

(** The inner [for ... break / else] of the grouping loop: the first pair
    whose summation indices match and whose atomic the monomial has. *)
Definition first_match (k : key) (_atomics : list expr) (optimal_atomics : list factor_key)
    : option factor_key :=
  find (fun p => index_set_eqb (fst k) (fst (fst p)) && expr_in (snd p) _atomics)
       optimal_atomics.

(** The grouping loop of [factorise_atomics]. *)
Fixpoint group_monomials (self : t) (optimal_atomics : list factor_key)
    (od : list (key * (list index * list expr)))
    (factor_group : list (factor_key * list key)) (new_monomial_sum : t)
    : result (list (factor_key * list key) * t) :=
  match od with
  | [] => Ok (factor_group, new_monomial_sum)
  | (k, (_sum_indices, _atomics)) :: od' =>
      match first_match k _atomics optimal_atomics with
      | Some g =>
          group_monomials self optimal_atomics od'
                          (group_add factor_key_eqb factor_group g k) new_monomial_sum
      | None =>
          new' <- add new_monomial_sum _sum_indices _atomics (rest_of self k) ;;
          group_monomials self optimal_atomics od' factor_group new'
      end
  end.

(** [sum([len(x) for x in itervalues(factor_group)])]. *)
Definition grouped_count (factor_group : list (factor_key * list key)) : nat :=
  fold_right (fun g n => (length (snd g) + n)%nat) O factor_group.

(** [self.ordering[key]]. *)
Definition ordering_at (self : t) (k : key) : result (list index * list expr) :=
  match dict_lookup (ordering self) k with
  | Some v => Ok v
  | None => Raise (KeyError "ordering")
  end.

Definition intersects (l1 l2 : list index) : bool :=
  existsb (fun i => index_in i l2) l1.

(** The body of the loop over [factor_group] for one group; [optimise_] is
    the recursive call [sub_monomial_sum.optimise()]. *)
Definition factorise_group (optimise_ : t -> result t) (self : t) (arg : list index)
    (new_monomial_sum : t) (sum_indices : list index) (oa : expr) (keys : list key)
    : result t :=
  match keys with
  | [k0] =>
      v <- ordering_at self k0 ;;
      add new_monomial_sum sum_indices (snd v) (rest_of self k0)
  | _ =>
      residuals <- mapM (fun k => v <- ordering_at self k ;;
                                  _atomics <- remove_expr oa (snd v) ;;
                                  Ok ([] : list index, _atomics, rest_of self k)) keys ;;
      sub_monomial_sum <- add_all (set_argument_indices empty arg) residuals ;;
      sub_monomial_sum' <- optimise_ sub_monomial_sum ;;
      _ <- assert (negb (Nat.eqb (length (ordering sub_monomial_sum')) 0))
             "len(sub_monomial_sum.ordering) != 0" ;;
      match ordering sub_monomial_sum' with
      | [(_, (_, new_atomics))] =>
          new_rest <- unpack1 (map snd (monomials sub_monomial_sum')) ;;
          add new_monomial_sum sum_indices (new_atomics ++ [oa]) new_rest
      | _ =>
          new_node <- to_expression sub_monomial_sum' ;;
          if intersects arg (free_indices new_node)
          then add new_monomial_sum sum_indices [oa; new_node] one
          else add new_monomial_sum sum_indices [oa] new_node
      end
  end.

Fixpoint factorise_groups (optimise_ : t -> result t) (self : t) (arg : list index)
    (factor_group : list (factor_key * list key)) (new_monomial_sum : t) : result t :=
  match factor_group with
  | [] => Ok new_monomial_sum
  | (((_, sum_indices), oa), keys) :: factor_group' =>
      new' <- factorise_group optimise_ self arg new_monomial_sum sum_indices oa keys ;;
      factorise_groups optimise_ self arg factor_group' new'
  end.

(** The loop of [optimise]: the optimal atomics of every distinct set of
    summation indices, in order. *)
Fixpoint collect_optimal_atomics (self : t) (l : list sum_indices_pair)
    : result (list factor_key) :=
  match l with
  | [] => Ok []
  | sum_indices :: l' =>
      atomics <- find_optimal_atomics self sum_indices ;;
      more <- collect_optimal_atomics self l' ;;
      Ok (map (fun _atomic => (sum_indices, _atomic)) (fst atomics) ++ more)
  end.

(** [MonomialSum.optimise], given the [factorise_atomics] it calls. *)
Definition optimise_with (factorise : t -> list factor_key -> result t) (self : t)
    : result t :=
  optimal_atomics <- collect_optimal_atomics self (unique_sum_indices self) ;;
  factorise self optimal_atomics.

Definition we_should_not_drop_monomials : string := "We should not drop monomials".

(** [factorise_atomics].  The mutual recursion with [optimise] is bounded by
    [fuel], which is consumed by the recursive call only. *)
Fixpoint factorise_atomics (fuel : nat) (self : t) (optimal_atomics : list factor_key)
    : result t :=
  match optimal_atomics with
  | [] => Ok self
  | _ :: _ =>
      if (length (ordering self) <? 2)%nat then Ok self
      else
        arg <- get_argument_indices self ;;
        let new_monomial_sum := set_argument_indices empty arg in
        '(factor_group, new_monomial_sum') <-
          group_monomials self optimal_atomics (ordering self) [] new_monomial_sum ;;
        _ <- assert (Nat.eqb (grouped_count factor_group + length (ordering new_monomial_sum'))
                             (length (ordering self)))
               we_should_not_drop_monomials ;;
        factorise_groups
          (fun sub => match fuel with
                      | O => OutOfFuel
                      | S fuel' => optimise_with (factorise_atomics fuel') sub
                      end)
          self arg factor_group new_monomial_sum'
  end.

Definition optimise (fuel : nat) (self : t) : result t :=
  optimise_with (factorise_atomics fuel) self.

End Solver.

End MonomialSum.

(** *** Collection of monomials *)

(** Phase 1 of [_collect_monomials]: the flattened terms by label. *)
Fixpoint categorise (classifier : expr -> string) (terms : list expr)
    (common_atomics common_others compounds : list expr)
    : result (list expr * list expr * list expr) :=
  match terms with
  | [] => Ok (common_atomics, common_others, compounds)
  | term :: terms' =>
      let label := classifier term in
      if String.eqb label ATOMIC
      then categorise classifier terms' (common_atomics ++ [term]) common_others compounds
      else if String.eqb label COMPOUND
      then categorise classifier terms' common_atomics common_others (compounds ++ [term])
      else if String.eqb label OTHER
      then categorise classifier terms' common_atomics (common_others ++ [term]) compounds
      else Raise (ValueError "Classifier returned illegal value.")
  end.

(** Phase 3: every product of monomials becomes one monomial of the
    result. *)
Fixpoint expand (common_indices : list index) (common_atomics common_others : list expr)
    (products : list Monomial) (result_ : MonomialSum.t) : result MonomialSum.t :=
  match products with
  | [] => Ok result_
  | m :: products' =>
      let all_indices := common_indices ++ m_sum_indices m in
      let atomics := common_atomics ++ m_atomics m in
      let atomic_indices := flat_map free_indices atomics in
      let sum_indices := filter (fun index_ => index_in index_ atomic_indices) all_indices in
      let rest_indices :=
        filter (fun index_ => negb (index_in index_ atomic_indices)) all_indices in
      rest <- sum_factorise rest_indices (common_others ++ [m_rest m]) ;;
      result' <- MonomialSum.add result_ sum_indices atomics rest ;;
      expand common_indices common_atomics common_others products' result'
  end.

(** [Memoizer(_collect_monomials)]; the recursion into the summands of the
    compound terms is bounded by [fuel]. *)
Fixpoint _collect_monomials (fuel : nat) (classifier : expr -> string) (expression : expr)
    : result MonomialSum.t :=
  match fuel with
  | O => OutOfFuel
  | S fuel' =>
      let stop_at := fun expr_ => negb (String.eqb (classifier expr_) COMPOUND) in
      '(common_indices, terms) <- traverse_product expression (Some stop_at) ;;
      '(common_atomics, common_others, compounds) <- categorise classifier terms [] [] [] ;;
      sums <- mapM (fun expr_ =>
                      summands <- traverse_sum expr_ (Some stop_at) ;;
                      if (length summands <=? 1)%nat then Raise (FactorisationError expr_)
                      else
                        ms <- mapM (_collect_monomials fuel' classifier) summands ;;
                        Ok (MonomialSum.sum ms)) compounds ;;
      p <- MonomialSum.product sums ;;
      expand common_indices common_atomics common_others (MonomialSum.iter p)
             MonomialSum.empty
  end.

Definition is_compound_listtensor_access (classifier : expr -> string) (node : expr) : bool :=
  match node with
  | Indexed (ListTensor _ _) _ => String.eqb (classifier node) COMPOUND
  | _ => false
  end.

Definition multiindex_of (node : expr) : list index :=
  match node with
  | Indexed _ mi => mi
  | _ => []
  end.

Definition collect_monomials (expressions : list expr) (classifier : expr -> string)
    : result (list MonomialSum.t) :=
  expressions1 <- remove_componenttensors expressions ;;
  let must_unroll :=
    flat_map multiindex_of
             (filter (is_compound_listtensor_access classifier) (traversal expressions1)) in
  expressions2 <-
    match must_unroll with
    | [] => Ok expressions1
    | _ :: _ =>
        es <- unroll_indexsum expressions1 (fun i => index_in i must_unroll) ;;
        remove_componenttensors es
    end ;;
  mapM (fun e => _collect_monomials (size e) classifier e) expressions2.

(** ** The driver of [gem/optimise.py] *)

Section Driver.

Variable ilp_solve : list Z -> list (list nat) -> Z * list Z.

Definition classify (argument_indices : list index) (expression : expr) : string :=
  match expression with
  | Conditional _ _ _ => ATOMIC
  | _ =>
      let n := length (filter (fun i => index_in i (free_indices expression))
                              (dedup_index argument_indices)) in
      if Nat.eqb n 0 then OTHER
      else if Nat.eqb n 1 then
             match expression with
             | Indexed _ _ => ATOMIC
             | _ => COMPOUND
             end
           else COMPOUND
  end.

(** The loop of [optimise] over the summation-index sets. *)
Fixpoint select_atomics (monomial_sum : MonomialSum.t)
    (l : list MonomialSum.sum_indices_pair)
    (optimal_atomics other_atomics : list MonomialSum.factor_key)
    : result (list MonomialSum.factor_key * list MonomialSum.factor_key) :=
  match l with
  | [] => Ok (optimal_atomics, other_atomics)
  | sum_indices :: l' =>
      atomics <- MonomialSum.find_optimal_atomics ilp_solve monomial_sum sum_indices ;;
      select_atomics monomial_sum l'
        (optimal_atomics ++ map (fun _atomic => (sum_indices, _atomic)) (fst atomics))
        (other_atomics ++ map (fun _atomic => (sum_indices, _atomic)) (snd atomics))
  end.

(** [optimise], given what the attribute [all_sum_indices] of the
    [MonomialSum] object resolves to.  The value of the call to
    [factorise_atomics] is not bound to anything; the object itself is not
    changed by it. *)
Definition optimise_via
    (all_sum_indices : MonomialSum.t -> result (list MonomialSum.sum_indices_pair))
    (fuel : nat) (node : expr) (quadrature_multiindex : list index)
    (argument_multiindices : list (list index)) : result expr :=
  let argument_indices := concat argument_multiindices in
  let classifier := classify argument_indices in
  ms <- collect_monomials [node] classifier ;;
  monomial_sum0 <- unpack1 ms ;;
  let monomial_sum := MonomialSum.set_argument_indices monomial_sum0 argument_indices in
  l <- all_sum_indices monomial_sum ;;
  '(optimal_atomics, other_atomics) <- select_atomics monomial_sum l [] [] ;;
  let optimal_atomics' := optimal_atomics ++ other_atomics in
  _ <- MonomialSum.factorise_atomics ilp_solve fuel monomial_sum optimal_atomics' ;;
  MonomialSum.to_expression monomial_sum.

(** The class [MonomialSum] of [gem/refactorise.py] defines no attribute
    [all_sum_indices]. *)
Definition all_sum_indices (self : MonomialSum.t)
    : result (list MonomialSum.sum_indices_pair) :=
  Raise (AttributeError "'MonomialSum' object has no attribute 'all_sum_indices'").

Definition optimise (fuel : nat) (node : expr) (quadrature_multiindex : list index)
    (argument_multiindices : list (list index)) : result expr :=
  optimise_via all_sum_indices fuel node quadrature_multiindex argument_multiindices.

Definition optimise_expressions (fuel : nat) (expressions : list expr)
    (quadrature_indices : list index) (argument_indices : list (list index))
    : result (list expr) :=
  if propagate_failure expressions then Ok expressions
  else mapM (fun node => optimise fuel node quadrature_indices argument_indices) expressions.

End Driver.

(** * Properties *)

(** ** Results *)

Lemma bind_Ok (A B : Type) (c : result A) (k : A -> result B) (b : B) :
  bind c k = Ok b -> exists a, c = Ok a /\ k a = Ok b.
Proof. destruct c; simpl; intros H; try discriminate. eauto. Qed.

Lemma bind_Raise (A B : Type) (c : result A) (k : A -> result B) (e : exn) :
  bind c k = Raise e -> c = Raise e \/ exists a, c = Ok a /\ k a = Raise e.
Proof.
  destruct c; simpl; intros H;
    [right; eauto | left; injection H as ->; reflexivity | discriminate].
Qed.

Lemma bind_OutOfFuel (A B : Type) (c : result A) (k : A -> result B) :
  bind c k = OutOfFuel -> c = OutOfFuel \/ exists a, c = Ok a /\ k a = OutOfFuel.
Proof. destruct c; simpl; intros H; [right; eauto | discriminate | left; reflexivity]. Qed.

Lemma mapM_Ok_length (A B : Type) (f : A -> result B) (l : list A) (l' : list B) :
  mapM f l = Ok l' -> length l' = length l.
Proof.
  revert l'. induction l as [|x t IH]; simpl; intros l' H.
  - injection H as <-. reflexivity.
  - destruct (f x); simpl in H; try discriminate.
    destruct (mapM f t); simpl in H; try discriminate.
    injection H as <-. simpl. f_equal. apply IH. reflexivity.
Qed.

Lemma mapM_Ok_Forall2 (A B : Type) (f : A -> result B) (l : list A) (l' : list B) :
  mapM f l = Ok l' -> Forall2 (fun x y => f x = Ok y) l l'.
Proof.
  revert l'. induction l as [|x t IH]; simpl; intros l' H.
  - injection H as <-. constructor.
  - destruct (f x) eqn:Hx; simpl in H; try discriminate.
    destruct (mapM f t); simpl in H; try discriminate.
    injection H as <-. constructor; auto.
Qed.

Lemma mapM_id (A : Type) (f : A -> result A) (l : list A) :
  Forall (fun x => f x = Ok x) l -> mapM f l = Ok l.
Proof.
  induction 1 as [|x t Hx _ IH]; simpl; [reflexivity|].
  rewrite Hx; simpl. rewrite IH; reflexivity.
Qed.

(** What a call may do besides returning: the exceptions it may raise
    satisfy [Q], and it may exhaust its counter only if [F] holds. *)
Definition outcome {A : Type} (Q : exn -> Prop) (F : Prop) (r : result A) : Prop :=
  match r with
  | Ok _ => True
  | Raise e => Q e
  | OutOfFuel => F
  end.

Lemma outcome_Raise_inv (A : Type) (Q : exn -> Prop) (F : Prop) (r : result A) (e : exn) :
  outcome Q F r -> r = Raise e -> Q e.
Proof. intros H ->. exact H. Qed.

Lemma outcome_OutOfFuel_inv (A : Type) (Q : exn -> Prop) (F : Prop) (r : result A) :
  outcome Q F r -> r = OutOfFuel -> F.
Proof. intros H ->. exact H. Qed.

Lemma outcome_bind (A B : Type) (Q : exn -> Prop) (F : Prop)
    (c : result A) (k : A -> result B) :
  outcome Q F c -> (forall a, c = Ok a -> outcome Q F (k a)) ->
  outcome Q F (bind c k).
Proof.
  intros Hc Hk. destruct c; simpl in *; auto.
Qed.

Lemma outcome_mapM (A B : Type) (Q : exn -> Prop) (F : Prop) (f : A -> result B)
    (l : list A) :
  Forall (fun x => outcome Q F (f x)) l -> outcome Q F (mapM f l).
Proof.
  induction 1 as [|x t Hx _ IH]; simpl.
  - exact I.
  - apply outcome_bind; [exact Hx|]. intros y _.
    apply outcome_bind; [exact IH|]. intros ys _. exact I.
Qed.

Lemma outcome_mapM_all (A B : Type) (Q : exn -> Prop) (F : Prop) (f : A -> result B)
    (l : list A) :
  (forall x, outcome Q F (f x)) -> outcome Q F (mapM f l).
Proof. intros H. apply outcome_mapM. apply Forall_forall. intros; apply H. Qed.

Lemma outcome_assert (Q : exn -> Prop) (F : Prop) (b : bool) (msg : string) :
  Q (AssertionError msg) -> outcome Q F (assert b msg).
Proof. intros H. unfold assert. destruct b; simpl; auto. Qed.

Lemma outcome_unpack1 (A : Type) (Q : exn -> Prop) (F : Prop) (l : list A) :
  (forall m, Q (ValueError m)) -> outcome Q F (unpack1 l).
Proof. intros H. destruct l as [|x [|y t]]; simpl; auto. Qed.

(** ** Failure markers (C7) *)

(** [n] is a node of the DAG rooted at [e]. *)
Inductive node_of : expr -> expr -> Prop :=
| node_root e : node_of e e
| node_child e c n : In c (children e) -> node_of c n -> node_of e n.

Lemma preorder_children (e : expr) :
  preorder e = e :: flat_map preorder (children e).
Proof.
  destruct e; simpl; repeat rewrite app_nil_r; reflexivity.
Qed.

Lemma node_of_preorder (e n : expr) : node_of e n -> In n (preorder e).
Proof.
  induction 1 as [e | e c n Hc _ IH]; rewrite preorder_children.
  - left; reflexivity.
  - right. apply in_flat_map. exists c; split; assumption.
Qed.

Lemma In_dedup_expr (x : expr) (l : list expr) : In x l -> In x (dedup_expr l).
Proof.
  induction l as [|e t IH]; simpl; [tauto|].
  intros [-> | H]; [left; reflexivity|].
  destruct (expr_eqb e x) eqn:E.
  - apply expr_eqb_eq in E. left; exact E.
  - right. apply filter_In. split; [apply IH; exact H | rewrite E; reflexivity].
Qed.

Lemma propagate_failure_true (expressions : list expr) (e n : expr) :
  In e expressions -> node_of e n -> is_Failure n = true ->
  propagate_failure expressions = true.
Proof.
  intros He Hn Hf. unfold propagate_failure, traversal.
  apply existsb_exists. exists n; split; [|exact Hf].
  apply In_dedup_expr. apply in_flat_map. exists e; split; [exact He|].
  apply node_of_preorder; exact Hn.
Qed.

(** C7.  If some expression of the input list has a failure marker among the
    nodes of its DAG, [optimise_expressions] runs no optimisation pass and
    returns the input list itself, whatever the solver, the recursion bound
    and the index arguments are. *)
Theorem optimise_expressions_failure_bypass
    (ilp_solve : list Z -> list (list nat) -> Z * list Z) (fuel : nat)
    (expressions : list expr) (quadrature_indices : list index)
    (argument_indices : list (list index)) (e n : expr) :
  In e expressions -> node_of e n -> is_Failure n = true ->
  optimise_expressions ilp_solve fuel expressions quadrature_indices argument_indices
  = Ok expressions.
Proof.
  intros He Hn Hf. unfold optimise_expressions.
  rewrite (propagate_failure_true expressions He Hn Hf). reflexivity.
Qed.

Definition failing_sum : expr :=
  Sum (Variable_ "u" []) (Product (Failure [] "tabulation failed") (Variable_ "v" [])).

Lemma optimise_expressions_failure_bypass_witness :
  optimise_expressions (fun _ _ => (1, [])) 0 [Variable_ "w" []; failing_sum] [] []
  = Ok [Variable_ "w" []; failing_sum].
Proof.
  apply (@optimise_expressions_failure_bypass (fun _ _ => (1, [])) 0%nat
           [Variable_ "w" []; failing_sum] [] [] failing_sum
           (Failure [] "tabulation failed")).
  - simpl; auto.
  - apply node_child with (c := Product (Failure [] "tabulation failed") (Variable_ "v" [])).
    + simpl; auto.
    + apply node_child with (c := Failure [] "tabulation failed").
      * simpl; auto.
      * apply node_root.
  - reflexivity.
Defined.

(** ** Which exceptions the passes raise *)

Section Raises.

Variable Q : exn -> Prop.
Variable F : Prop.
Hypothesis F_fuel : F.
Hypothesis Q_ValueError : forall m, Q (ValueError m).
Hypothesis Q_TypeError : forall m, Q (TypeError m).
Hypothesis Q_too_complicated : Q too_complicated.

Lemma numpy_prod_raises (l : list (option Z)) : outcome Q F (numpy_prod l).
Proof.
  induction l as [|[x|] t IH]; simpl.
  - exact I.
  - apply outcome_bind; [exact IH|]. intros; exact I.
  - simpl; apply Q_TypeError.
Qed.

Lemma count_raises (p : expr * expr) : outcome Q F (count p).
Proof. destruct p as [a b]. apply numpy_prod_raises. Qed.

Lemma remove_expr_raises (x : expr) (l : list expr) : outcome Q F (remove_expr x l).
Proof.
  induction l as [|y t IH]; simpl.
  - simpl; apply Q_ValueError.
  - destruct (expr_eqb y x); [exact I|].
    apply outcome_bind; [exact IH|]. intros; exact I.
Qed.

Lemma remove_index_raises (x : index) (l : list index) : outcome Q F (remove_index x l).
Proof.
  induction l as [|y t IH]; simpl.
  - simpl; apply Q_ValueError.
  - destruct (index_eqb y x); [exact I|].
    apply outcome_bind; [exact IH|]. intros; exact I.
Qed.

Lemma associate_loop_raises (op : expr -> expr -> expr) (fuel : nat) :
  forall factors flops, outcome Q F (associate_loop op fuel factors flops).
Proof.
  induction fuel as [|fuel IH]; intros factors flops; simpl.
  - destruct (length factors <=? 1)%nat;
      [exact I | exact F_fuel].
  - destruct (length factors <=? 1)%nat; [exact I|].
    apply outcome_bind.
    + apply outcome_mapM_all. intros p.
      apply outcome_bind; [apply count_raises|]. intros; exact I.
    + intros keyed _. destruct (min_by_key keyed) as [[[a b] k]|].
      * apply outcome_bind; [apply (count_raises (a, b))|]. intros c _.
        apply outcome_bind; [apply remove_expr_raises|]. intros f1 _.
        apply outcome_bind; [apply remove_expr_raises|]. intros f2 _.
        apply IH.
      * simpl; apply Q_ValueError.
Qed.

Lemma associate_product_raises (factors : list expr) :
  outcome Q F (associate_product factors).
Proof.
  unfold associate_product. destruct (32 <? length factors)%nat.
  - simpl; apply Q_too_complicated.
  - apply outcome_bind; [apply associate_loop_raises|]. intros [fs fl] _.
    apply outcome_bind; [apply outcome_unpack1; exact Q_ValueError|].
    intros; exact I.
Qed.

Lemma associate_sum_raises (summands : list expr) :
  outcome Q F (associate_sum summands).
Proof.
  unfold associate_sum.
  destruct (32 <? length _)%nat.
  - simpl; apply Q_too_complicated.
  - apply outcome_bind; [apply associate_loop_raises|]. intros [fs fl] _.
    apply outcome_bind; [apply outcome_unpack1; exact Q_ValueError|].
    intros; exact I.
Qed.

Lemma reduce_Product_raises (terms : list expr) : outcome Q F (reduce_Product terms).
Proof.
  destruct terms; simpl; [simpl; apply Q_TypeError | exact I].
Qed.

Lemma contract_ordering_raises (ordering : list index) :
  forall terms flops, outcome Q F (contract_ordering ordering terms flops).
Proof.
  induction ordering as [|sum_index ordering IH]; intros terms flops; simpl.
  - exact I.
  - apply outcome_bind; [apply associate_product_raises|]. intros [product flops_] _.
    apply outcome_bind; [apply numpy_prod_raises|]. intros p _. apply IH.
Qed.

Lemma sum_factorise_orderings_raises (orderings : list (list index)) (groups : list expr) :
  forall best, outcome Q F (sum_factorise_orderings orderings groups best).
Proof.
  induction orderings as [|ordering rest IH]; intros best; simpl.
  - exact I.
  - apply outcome_bind; [apply contract_ordering_raises|]. intros [terms flops] _.
    apply outcome_bind; [apply associate_product_raises|]. intros [expr_ flops_] _.
    apply IH.
Qed.

(** What [sum_factorise] does once its capacity check has passed. *)
Lemma sum_factorise_body_raises (sum_indices : list index) (factors : list expr) :
  outcome Q F
    (groups <- mapM (fun g => reduce_Product (snd g))
                    (group_by (list_eqb index_eqb) free_indices factors) ;;
     best <- sum_factorise_orderings (permutations sum_indices) groups None ;;
     match best with
     | Some (expression, _) => Ok expression
     | None => Raise (TypeError "sum_factorise returned None")
     end).
Proof.
  apply outcome_bind.
  - apply outcome_mapM_all. intros g. apply reduce_Product_raises.
  - intros groups _. apply outcome_bind; [apply sum_factorise_orderings_raises|].
    intros [[expression fl]|] _; [exact I|].
    simpl; apply Q_TypeError.
Qed.

End Raises.

(** ** Capacity of sum factorisation (C8) *)

(** C8.  [sum_factorise] raises its capacity error ("Too many indices for
    sum factorisation!") exactly when the list of summation indices has more
    than five elements: always above five, never at five or below. *)
Theorem sum_factorise_capacity (sum_indices : list index) (factors : list expr) :
  sum_factorise sum_indices factors = Raise too_many_indices
  <-> (5 < length sum_indices)%nat.
Proof.
  unfold sum_factorise. split.
  - intros H. destruct (Nat.eqb (length factors) 0 && Nat.eqb (length sum_indices) 0);
      [discriminate|].
    destruct (5 <? length sum_indices)%nat eqn:E.
    + apply Nat.ltb_lt in E. exact E.
    + exfalso.
      pose proof (@sum_factorise_body_raises (fun e => e <> too_many_indices) True I
                    ltac:(intros; discriminate) ltac:(intros; discriminate)
                    ltac:(discriminate) sum_indices factors) as X.
      rewrite H in X. apply X. reflexivity.
  - intros H.
    assert (E : Nat.eqb (length sum_indices) 0 = false) by (apply Nat.eqb_neq; lia).
    rewrite E, andb_false_r.
    apply Nat.ltb_lt in H. rewrite H. reflexivity.
Qed.

(** ** Delta lowering (C3) *)

Lemma replace_delta_table (i j : index) :
  _replace_delta (Delta i j) =
  match i, j with
  | Index _ ei, Index _ ej =>
      if option_eqb Z.eqb ei ej then
        match ej with
        | Some size_ => Ok (Indexed (Identity size_) [i; j])
        | None => Raise (AssertionError "i.extent is not None")
        end
      else Raise (AssertionError "i.extent == j.extent")
  | Index _ (Some size_), _ | _, Index _ (Some size_) =>
      Ok (Indexed (Identity size_) [i; j])
  | Index _ None, _ => Raise (AssertionError "i.extent is not None")
  | _, Index _ None => Raise (AssertionError "j.extent is not None")
  | _, _ =>
      e_i <- delta_index_expression i ;;
      e_j <- delta_index_expression j ;;
      Ok (Conditional (Comparison "==" e_i e_j) one (Zero []))
  end.
Proof.
  destruct i as [n | n [ei|] | e], j as [m | m [ej|] | e']; try reflexivity.
  unfold _replace_delta, _replace_delta_delta; simpl.
  destruct (ei =? ej); reflexivity.
Qed.

(** The expression a fixed or variable index stands for. *)
Definition runtime_expression (i : index) : expr :=
  match i with
  | IntIndex n => Literal (scalar (inject_Z n))
  | VariableIndex e => e
  | Index _ _ => Zero []
  end.

(** C3, as the code has it.  (1) A delta over two free indices of the same
    known extent is rewritten to an access into the identity matrix of that
    size.  (2) A delta over two integer or variable indices is rewritten to
    the conditional [(i == j) ? 1 : 0].  (3) A mixed pair, one free index of
    known extent with an integer or variable index, raises nothing: it is
    rewritten to an access into the identity matrix of the size of the free
    index.  (4) An exception is raised exactly when two free indices differ
    in extent or a free index has no extent yet, and it is an assertion
    failure. *)
Theorem replace_delta_cases :
  (forall n m size_,
      _replace_delta (Delta (Index n (Some size_)) (Index m (Some size_)))
      = Ok (Indexed (Identity size_) [Index n (Some size_); Index m (Some size_)]))
  /\ (forall i j, is_Index i = false -> is_Index j = false ->
        _replace_delta (Delta i j)
        = Ok (Conditional (Comparison "==" (runtime_expression i) (runtime_expression j))
                          one (Zero [])))
  /\ (forall n size_ k, is_Index k = false ->
        _replace_delta (Delta (Index n (Some size_)) k)
        = Ok (Indexed (Identity size_) [Index n (Some size_); k])
        /\ _replace_delta (Delta k (Index n (Some size_)))
           = Ok (Indexed (Identity size_) [k; Index n (Some size_)]))
  /\ (forall i j e, _replace_delta (Delta i j) = Raise e ->
        (exists msg, e = AssertionError msg)
        /\ ((is_Index i = true /\ is_Index j = true /\ extent i <> extent j)
            \/ (is_Index i = true /\ extent i = None)
            \/ (is_Index j = true /\ extent j = None)))
  /\ (forall i j,
        (is_Index i = true /\ is_Index j = true /\ extent i <> extent j)
        \/ (is_Index i = true /\ extent i = None)
        \/ (is_Index j = true /\ extent j = None) ->
        exists msg, _replace_delta (Delta i j) = Raise (AssertionError msg)).
Proof.
  split; [|split; [|split; [|split]]].
  - intros n m size_. rewrite replace_delta_table. simpl.
    rewrite Z.eqb_refl. reflexivity.
  - intros i j Hi Hj. rewrite replace_delta_table.
    destruct i, j; simpl in *; try discriminate; reflexivity.
  - intros n size_ k Hk. rewrite !replace_delta_table.
    destruct k; simpl in *; try discriminate; split; reflexivity.
  - intros i j e. rewrite replace_delta_table.
    destruct i as [n | n [ei|] | x], j as [m | m [ej|] | y]; simpl;
      try discriminate;
      try (intros H; injection H as <-; split; [eexists; reflexivity|]; tauto).
    destruct (ei =? ej) eqn:E; [discriminate|].
    intros H; injection H as <-; split; [eexists; reflexivity|].
    left. repeat split. intros X; injection X as ->. rewrite Z.eqb_refl in E; discriminate.
  - intros i j H. rewrite replace_delta_table.
    destruct i as [n | n [ei|] | x], j as [m | m [ej|] | y]; simpl in *;
      try (eexists; reflexivity);
      try (exfalso; destruct H as [(A & B & C) | [(A & B) | (A & B)]]; congruence).
    destruct (ei =? ej) eqn:E; [|eexists; reflexivity].
    exfalso. apply Z.eqb_eq in E. subst.
    destruct H as [(A & B & C) | [(A & B) | (A & B)]]; congruence.
Qed.

Definition facet : expr := Indexed (Variable_ "facet" [2]) [IntIndex 0].

(** The mixed pair of a free index of extent 3 and a variable index is
    lowered to an identity access; no assertion fails. *)
Lemma replace_delta_mixed_pair_no_assertion :
  replace_delta [Delta (Index 0 (Some 3)) (VariableIndex facet)]
  = Ok [Indexed (Identity 3) [Index 0 (Some 3); VariableIndex facet]]
  /\ (forall msg,
        replace_delta [Delta (Index 0 (Some 3)) (VariableIndex facet)]
        <> Raise (AssertionError msg)).
Proof. split; [reflexivity | intros msg; discriminate]. Qed.

(** ** Early returns of [factorise_atomics] (C10) *)

(** C10.  [factorise_atomics] returns the very [MonomialSum] it was called
    on whenever the list of (summation indices, atomic) pairs is empty or the
    sum has fewer than two monomials. *)
Theorem factorise_atomics_returns_self
    (ilp_solve : list Z -> list (list nat) -> Z * list Z) (fuel : nat)
    (self : MonomialSum.t) (optimal_atomics : list MonomialSum.factor_key) :
  optimal_atomics = [] \/ (length (MonomialSum.ordering self) < 2)%nat ->
  MonomialSum.factorise_atomics ilp_solve fuel self optimal_atomics = Ok self.
Proof.
  intros [-> | H].
  - destruct fuel; reflexivity.
  - apply Nat.ltb_lt in H.
    destruct fuel; destruct optimal_atomics; simpl; try reflexivity; rewrite H; reflexivity.
Qed.

Definition x_atomic : expr := Indexed (Variable_ "x" [4]) [Index 7 (Some 4)].

Definition single_monomial : MonomialSum.t :=
  MonomialSum.mk
    [(MonomialSum.make_key [] [x_atomic], Sum (Zero []) (Variable_ "r" []))]
    [(MonomialSum.make_key [] [x_atomic], ([], [x_atomic]))]
    (Some [Index 7 (Some 4)]).

Lemma factorise_atomics_returns_self_witness :
  MonomialSum.factorise_atomics (fun _ _ => (1, [])) 5 single_monomial
    [(([], []), x_atomic)] = Ok single_monomial.
Proof.
  apply (@factorise_atomics_returns_self (fun _ _ => (1, [])) 5%nat single_monomial
           [(([], []), x_atomic)]).
  right. simpl. lia.
Defined.

(** ** Delta elimination (C5) *)

Lemma remove_index_Ok (x : index) (l l' : list index) :
  remove_index x l = Ok l' -> length l = S (length l') /\ incl l' l.
Proof.
  revert l'. induction l as [|y t IH]; simpl; intros l' H; [discriminate|].
  destruct (index_eqb y x).
  - injection H as <-. split; [reflexivity | apply incl_tl, incl_refl].
  - apply bind_Ok in H as (t' & Ht & H). injection H as <-.
    destruct (IH t' Ht) as [L I]. split; [simpl; congruence|].
    intros z [-> | Hz]; [left; reflexivity | right; apply I; exact Hz].
Qed.

Lemma children_size (e c : expr) : In c (children e) -> (size c < size e)%nat.
Proof.
  destruct e; simpl; try tauto;
    try (intros [<- | [<- | [<- | []]]]; lia);
    try (intros [<- | [<- | []]]; lia);
    try (intros [<- | []]; lia).
  induction array as [|x t IH]; simpl; [tauto|].
  intros [<- | H]; [lia | specialize (IH H); lia].
Qed.

(** Induction for the rewrites that, at an access into a component tensor,
    recurse into the body of the tensor. *)
Lemma expr_rewrite_ind (P : expr -> Prop) :
  (forall e,
      (forall c, In c (children e) -> P c) ->
      (forall body cmi mi, e = Indexed (ComponentTensor body cmi) mi -> P body) ->
      P e) ->
  forall e, P e.
Proof.
  intros H e.
  assert (G : forall n e, (size e < n)%nat -> P e).
  { induction n as [|n IH]; intros x Hx; [lia|].
    apply H.
    - intros c Hc. apply IH. apply children_size in Hc. lia.
    - intros body cmi mi ->. apply IH. simpl in Hx. lia. }
  apply (G (S (size e))). lia.
Qed.

Lemma outcome_reuse_if_untouched (Q : exn -> Prop) (F : Prop)
    (self : expr -> result expr) (node : expr) :
  (forall c, In c (children node) -> outcome Q F (self c)) ->
  outcome Q F (reuse_if_untouched self node).
Proof.
  intros H. destruct node; simpl in *; try exact I;
    repeat (apply outcome_bind; [apply H; auto | intros ? _]); try exact I.
  apply outcome_bind; [|intros; exact I].
  apply outcome_mapM. apply Forall_forall. intros x Hx. apply H. exact Hx.
Qed.

Section RaisesReplace.

Variable Q : exn -> Prop.
Variable F : Prop.
Hypothesis Q_is_Terminal : Q (AssertionError "isinstance(child, Terminal)").
Hypothesis Q_free_indices : Q (AssertionError "not child.free_indices").

Lemma filtered_replace_indices_outcome (e : expr) :
  forall subst, outcome Q F (filtered_replace_indices e subst).
Proof.
  induction e as [e IHc IHb] using expr_rewrite_ind. intros subst.
  destruct e; try (apply outcome_reuse_if_untouched; intros c Hc; apply IHc; exact Hc).
  - (* Indexed *)
    simpl. destruct e;
      try (apply outcome_bind;
           [apply IHc; simpl; auto
           | intros nc _; match goal with |- outcome _ _ (if ?b then _ else _) =>
                                          destruct b; exact I end]).
    eapply IHb. reflexivity.
  - (* FlexiblyIndexed *)
    simpl. unfold replace_indices_flexiblyindexed.
    apply outcome_bind; [apply outcome_assert; exact Q_is_Terminal | intros _ _].
    apply outcome_bind; [apply outcome_assert; exact Q_free_indices | intros _ _].
    match goal with |- outcome _ _ (if ?b then _ else _) => destruct b; exact I end.
  - (* Delta *)
    simpl. unfold replace_indices_delta.
    match goal with |- outcome _ _ (if ?b then _ else _) => destruct b; exact I end.
Qed.

End RaisesReplace.

Lemma filtered_replace_indices_terminates (e : expr) (subst : subst_t) :
  filtered_replace_indices e subst <> OutOfFuel.
Proof.
  intros H.
  pose proof (@filtered_replace_indices_outcome (fun _ => True) False I I e subst) as X.
  rewrite H in X. exact X.
Qed.

Lemma index_in_In (i : index) (l : list index) : index_in i l = true <-> In i l.
Proof.
  unfold index_in. rewrite existsb_exists. split.
  - intros (x & Hx & E). apply index_eqb_eq in E. subst. exact Hx.
  - intros H. exists i. split; [exact H | apply index_eqb_refl].
Qed.

Lemma expr_in_In (e : expr) (l : list expr) : expr_in e l = true <-> In e l.
Proof.
  unfold expr_in. rewrite existsb_exists. split.
  - intros (x & Hx & E). apply expr_eqb_eq in E. subst. exact Hx.
  - intros H. exists e. split; [exact H | apply expr_eqb_refl].
Qed.

(** Every entry of the queue pairs a delta factor with one of its indices
    that is a summation index. *)
Lemma delta_queue_In (sum_indices : list index) (factors : list expr) (d : expr) (f : index) :
  In (d, f) (delta_queue sum_indices factors) ->
  In f sum_indices /\ In d factors /\ exists i j, d = Delta i j /\ (f = i \/ f = j).
Proof.
  unfold delta_queue. rewrite in_flat_map. intros (x & Hx & H).
  destruct x; try (simpl in H; contradiction).
  apply in_map_iff in H as (y & E & Hy). injection E as <- <-.
  apply filter_In in Hy as [Hy Hin]. apply index_in_In in Hin.
  split; [exact Hin|]. split; [exact Hx|].
  exists i, j. split; [reflexivity|]. simpl in Hy. intuition.
Qed.

Lemma delta_elimination_step_Ok (delta : expr) (from_ : index)
    (sum_indices sum_indices' : list index) (factors factors' : list expr) :
  delta_elimination_step delta from_ sum_indices factors = Ok (sum_indices', factors') ->
  length sum_indices = S (length sum_indices') /\ incl sum_indices' sum_indices.
Proof.
  unfold delta_elimination_step.
  destruct (other_indices delta from_) as [|to_ [|? ?]]; try discriminate.
  intros H. apply bind_Ok in H as (s' & Hs & H).
  apply bind_Ok in H as (f' & Hf & H). injection H as <- <-.
  apply remove_index_Ok in Hs. exact Hs.
Qed.

Lemma remove_index_terminates (x : index) (l : list index) : remove_index x l <> OutOfFuel.
Proof.
  induction l as [|y t IH]; simpl; [discriminate|].
  destruct (index_eqb y x); [discriminate|].
  destruct (remove_index x t); simpl; congruence.
Qed.

Lemma mapM_terminates (A B : Type) (f : A -> result B) (l : list A) :
  (forall x, f x <> OutOfFuel) -> mapM f l <> OutOfFuel.
Proof.
  intros H. induction l as [|x t IH]; simpl; [discriminate|].
  specialize (H x). destruct (f x); simpl; try congruence.
  destruct (mapM f t); simpl; congruence.
Qed.

Lemma delta_elimination_step_terminates (delta : expr) (from_ : index)
    (sum_indices : list index) (factors : list expr) :
  delta_elimination_step delta from_ sum_indices factors <> OutOfFuel.
Proof.
  unfold delta_elimination_step.
  destruct (other_indices delta from_) as [|to_ [|? ?]]; try discriminate.
  pose proof (remove_index_terminates from_ sum_indices) as H1.
  destruct (remove_index from_ sum_indices); simpl; try congruence.
  pose proof (@mapM_terminates _ _ (fun e => filtered_replace_indices e [(from_, to_)])
                factors (fun e => filtered_replace_indices_terminates e _)) as H2.
  destruct (mapM _ factors); simpl; congruence.
Qed.

(** The loop never exhausts a counter that is at least the number of
    summation indices. *)
Lemma delta_elimination_loop_terminates (fuel : nat) :
  forall sum_indices factors,
    (length sum_indices <= fuel)%nat ->
    delta_elimination_loop fuel sum_indices factors <> OutOfFuel.
Proof.
  induction fuel as [|fuel IH]; intros sum_indices factors Hlen; simpl.
  - destruct (delta_queue sum_indices factors) as [|[d f] q] eqn:Eq; [discriminate|].
    assert (Hin : In (d, f) (delta_queue sum_indices factors)) by (rewrite Eq; left; reflexivity).
    apply delta_queue_In in Hin as (Hin & _). destruct sum_indices; simpl in *; [tauto | lia].
  - destruct (delta_queue sum_indices factors) as [|[d f] q]; [discriminate|].
    pose proof (delta_elimination_step_terminates d f sum_indices factors) as Ht.
    destruct (delta_elimination_step d f sum_indices factors) as [[s' f']| |] eqn:Es;
      simpl; try congruence.
    apply IH. apply delta_elimination_step_Ok in Es as [L _]. lia.
Qed.

(** With a counter that suffices, the result does not depend on it. *)
Lemma delta_elimination_loop_fuel (fuel : nat) :
  forall sum_indices factors,
    (length sum_indices <= fuel)%nat ->
    delta_elimination_loop fuel sum_indices factors
    = delta_elimination_loop (length sum_indices) sum_indices factors.
Proof.
  induction fuel as [|fuel IH]; intros sum_indices factors Hlen.
  - assert (length sum_indices = 0)%nat as -> by lia. reflexivity.
  - destruct sum_indices as [|i0 s0] eqn:Es.
    + simpl.
      destruct (delta_queue [] factors) as [|[d f] q] eqn:Eq; [reflexivity|].
      assert (Hin : In (d, f) (delta_queue [] factors)) by (rewrite Eq; left; reflexivity).
      apply delta_queue_In in Hin as ([] & _).
    + rewrite <- Es in *.
      assert (El : length sum_indices = S (length s0)) by (rewrite Es; reflexivity).
      rewrite El. simpl.
      destruct (delta_queue sum_indices factors) as [|[d f] q]; [reflexivity|].
      destruct (delta_elimination_step d f sum_indices factors) as [[s' f']| |] eqn:Est;
        simpl; try reflexivity.
      apply delta_elimination_step_Ok in Est as [L _].
      rewrite (IH s' f') by lia.
      assert (length s' = length s0) as <- by lia. reflexivity.
Qed.

Lemma delta_elimination_loop_Ok (fuel : nat) :
  forall sum_indices factors sum_indices' factors',
    delta_elimination_loop fuel sum_indices factors = Ok (sum_indices', factors') ->
    incl sum_indices' sum_indices /\ ~ In one factors'.
Proof.
  induction fuel as [|fuel IH]; intros sum_indices factors sum_indices' factors'; simpl.
  - destruct (delta_queue sum_indices factors) as [|[d f] q]; [|discriminate].
    intros H; injection H as <- <-. split; [apply incl_refl|].
    intros Hin. apply filter_In in Hin as [_ Hin].
    rewrite expr_eqb_refl in Hin. discriminate.
  - destruct (delta_queue sum_indices factors) as [|[d f] q].
    + intros H; injection H as <- <-. split; [apply incl_refl|].
      intros Hin. apply filter_In in Hin as [_ Hin].
      rewrite expr_eqb_refl in Hin. discriminate.
    + intros H. apply bind_Ok in H as ([s1 f1] & Hs & H).
      apply IH in H as [I1 N]. apply delta_elimination_step_Ok in Hs as [_ I2].
      split; [|exact N]. intros x Hx. apply I2, I1, Hx.
Qed.

(** ** Monomial count conservation in [factorise_atomics] (C6) *)

Module MonomialSumFacts.
Import MonomialSum.

(** The class invariant: the keys of [ordering] are pairwise different, and
    every key is the one [add] computes from the representative stored under
    it. *)
Definition distinct_keys {V : Type} (d : list (key * V)) : Prop :=
  ForallOrdPairs (fun a b => key_eqb (fst a) (fst b) = false) d.

Definition consistent_keys (d : list (key * (list index * list expr))) : Prop :=
  Forall (fun kv => fst kv = make_key (fst (snd kv)) (snd (snd kv))) d.

Definition wf (self : t) : Prop :=
  distinct_keys (ordering self) /\ consistent_keys (ordering self).

Lemma dict_lookup_None (V : Type) (d : list (key * V)) (k : key) :
  dict_lookup d k = None <-> Forall (fun kv => key_eqb (fst kv) k = false) d.
Proof.
  induction d as [|[k' v] t IH]; simpl.
  - split; [constructor | reflexivity].
  - destruct (key_eqb k' k) eqn:E.
    + split; [discriminate|]. intros H. inversion H; subst. simpl in *. congruence.
    + rewrite IH. split.
      * intros H. constructor; [exact E | exact H].
      * intros H. inversion H; assumption.
Qed.

Lemma distinct_keys_snoc (V : Type) (d : list (key * V)) (kv : key * V) :
  distinct_keys d -> Forall (fun x => key_eqb (fst x) (fst kv) = false) d ->
  distinct_keys (d ++ [kv]).
Proof.
  unfold distinct_keys. induction 1 as [|x t Hx Ht IH]; intros Hall; simpl.
  - constructor; [constructor | constructor].
  - inversion Hall; subst. constructor.
    + apply Forall_app. split; [exact Hx | constructor; [assumption | constructor]].
    + apply IH. assumption.
Qed.

Lemma wf_empty : wf empty.
Proof. split; constructor. Qed.

Lemma wf_set_argument_indices (self : t) (a : list index) :
  wf self -> wf (set_argument_indices self a).
Proof. intros H; exact H. Qed.

Lemma setdefault_wf (d : list (key * (list index * list expr)))
    (s : list index) (a : list expr) :
  distinct_keys d -> consistent_keys d ->
  distinct_keys (dict_setdefault d (make_key s a) (s, a))
  /\ consistent_keys (dict_setdefault d (make_key s a) (s, a)).
Proof.
  intros Hd Hc. unfold dict_setdefault.
  destruct (dict_lookup d (make_key s a)) eqn:E; [split; assumption|].
  apply dict_lookup_None in E. split.
  - apply distinct_keys_snoc; assumption.
  - apply Forall_app. split; [exact Hc | constructor; [reflexivity | constructor]].
Qed.

Lemma add_ordering (self self' : t) (s : list index) (a : list expr) (r : expr) :
  add self s a r = Ok self' ->
  ordering self' = dict_setdefault (ordering self) (make_key s a) (s, a)
  /\ argument_indices self' = argument_indices self.
Proof.
  unfold add. intros H. apply bind_Ok in H as ([] & _ & H).
  injection H as <-. split; reflexivity.
Qed.

Lemma wf_add (self self' : t) (s : list index) (a : list expr) (r : expr) :
  wf self -> add self s a r = Ok self' -> wf self'.
Proof.
  intros [Hd Hc] H. apply add_ordering in H as [H _]. unfold wf. rewrite H.
  apply setdefault_wf; assumption.
Qed.

Lemma wf_add_all (l : list (list index * list expr * expr)) :
  forall self self', wf self -> add_all self l = Ok self' -> wf self'.
Proof.
  induction l as [|[[s a] r] l IH]; simpl; intros self self' Hwf H.
  - injection H as <-. exact Hwf.
  - apply bind_Ok in H as (m & Hm & H). eapply IH; [|exact H].
    eapply wf_add; eassumption.
Qed.

Lemma wf_product (args : list t) (p : t) : product args = Ok p -> wf p.
Proof. unfold product. apply wf_add_all. apply wf_empty. Qed.

Lemma wf_sum_step (result_ arg : t) : wf result_ -> wf arg -> wf (sum_step result_ arg).
Proof.
  intros [Hd Hc] [_ Hca]. unfold wf, sum_step; simpl.
  revert Hd Hc. generalize (ordering result_).
  induction Hca as [|[k [s a]] od Hk _ IH]; intros d Hd Hc; simpl.
  - split; assumption.
  - simpl in Hk. subst k. destruct (setdefault_wf s a Hd Hc) as [Hd' Hc'].
    apply IH; assumption.
Qed.

Lemma wf_sum (args : list t) : Forall wf args -> wf (sum args).
Proof.
  unfold sum. generalize wf_empty. generalize empty.
  induction args as [|x args IH]; intros acc Hacc Hall; simpl; [exact Hacc|].
  inversion Hall; subst. apply IH; [apply wf_sum_step; assumption | assumption].
Qed.

Lemma grouped_count_group_add (fg : list (factor_key * list key)) (g : factor_key) (k : key) :
  grouped_count (group_add factor_key_eqb fg g k) = S (grouped_count fg).
Proof.
  induction fg as [|[g' ks] fg IH]; simpl; [reflexivity|].
  destruct (factor_key_eqb g' g); simpl.
  - rewrite length_app. simpl. lia.
  - rewrite IH. lia.
Qed.

(** The grouping loop accounts for every entry it walks over exactly once:
    either in one factor group, or as a new entry of the pass-through sum. *)
Lemma group_monomials_count (self : t) (optimal_atomics : list factor_key) :
  forall od fg new fg' new',
    distinct_keys od -> consistent_keys od ->
    Forall (fun kv => Forall (fun kv' => key_eqb (fst kv') (fst kv) = false) (ordering new)) od ->
    group_monomials self optimal_atomics od fg new = Ok (fg', new') ->
    (grouped_count fg' + length (ordering new')
     = grouped_count fg + length (ordering new) + length od)%nat.
Proof.
  induction od as [|[k [s a]] od IH]; intros fg new fg' new' Hd Hc Hnew H; simpl in H.
  - injection H as <- <-. simpl. lia.
  - inversion Hd as [|? ? Hk Hd']; subst. inversion Hc as [|? ? Hck Hc']; subst.
    inversion Hnew as [|? ? Hnk Hnew']; subst. simpl in Hck, Hnk.
    destruct (first_match k a optimal_atomics) as [g|].
    + apply IH in H; try assumption.
      rewrite grouped_count_group_add in H. simpl. lia.
    + apply bind_Ok in H as (new1 & Hadd & H).
      apply add_ordering in Hadd as [Hadd _].
      assert (E : ordering new1 = ordering new ++ [(k, (s, a))]).
      { rewrite Hadd. rewrite <- Hck. unfold dict_setdefault.
        apply dict_lookup_None in Hnk. rewrite Hnk. reflexivity. }
      apply IH in H; try assumption.
      * rewrite E, length_app in H. simpl in *. lia.
      * rewrite E. apply Forall_forall. intros kv Hkv.
        apply Forall_app. split.
        -- rewrite Forall_forall in Hnew'. apply Hnew'. exact Hkv.
        -- constructor; [|constructor]. simpl.
           rewrite Forall_forall in Hk. apply Hk. exact Hkv.
Qed.

Lemma group_monomials_conserves (self : t) (optimal_atomics : list factor_key)
    (arg : list index) (fg : list (factor_key * list key)) (new' : t) :
  wf self ->
  group_monomials self optimal_atomics (ordering self) []
                  (set_argument_indices empty arg) = Ok (fg, new') ->
  (grouped_count fg + length (ordering new') = length (ordering self))%nat.
Proof.
  intros [Hd Hc] H.
  assert (Hnew : Forall (fun kv : key * (list index * list expr) =>
                           Forall (fun kv' : key * (list index * list expr) =>
                                     key_eqb (fst kv') (fst kv) = false)
                                  (ordering (set_argument_indices empty arg)))
                        (ordering self)).
  { apply Forall_forall. intros kv _. constructor. }
  pose proof (group_monomials_count _ _ _ _ Hd Hc Hnew H) as X.
  change (grouped_count []) with 0%nat in X.
  change (length (ordering (set_argument_indices empty arg))) with 0%nat in X. lia.
Qed.

End MonomialSumFacts.

Section RaisesMonomial.

Variable Q : exn -> Prop.
Variable F : Prop.
Hypothesis F_fuel : F.
Hypothesis Q_ValueError : forall m, Q (ValueError m).
Hypothesis Q_TypeError : forall m, Q (TypeError m).
Hypothesis Q_KeyError : forall m, Q (KeyError m).
Hypothesis Q_AttributeError : forall m, Q (AttributeError m).
Hypothesis Q_NotImplementedError : forall m, Q (NotImplementedError m).
Hypothesis Q_AssertionError :
  forall m, m <> MonomialSum.we_should_not_drop_monomials -> Q (AssertionError m).

Ltac q_assert := apply Q_AssertionError; discriminate.

Lemma delta_elimination_loop_outcome (fuel : nat) :
  forall sum_indices factors,
    outcome Q F (delta_elimination_loop fuel sum_indices factors).
Proof.
  assert (Hstep : forall d f s fs, outcome Q F (delta_elimination_step d f s fs)).
  { intros d f s fs. unfold delta_elimination_step.
    destruct (other_indices d f) as [|to_ [|? ?]]; simpl; try apply Q_ValueError.
    apply outcome_bind; [apply remove_index_raises; assumption | intros s' _].
    apply outcome_bind; [|intros; exact I].
    apply outcome_mapM_all. intros e.
    apply filtered_replace_indices_outcome; q_assert. }
  induction fuel as [|fuel IH]; intros sum_indices factors; simpl.
  - destruct (delta_queue sum_indices factors) as [|[d f] q]; simpl; auto.
  - destruct (delta_queue sum_indices factors) as [|[d f] q]; simpl; auto.
    apply outcome_bind; [apply Hstep|]. intros [s' f'] _. apply IH.
Qed.

Lemma sum_factorise_outcome (sum_indices : list index) (factors : list expr) :
  outcome Q F (sum_factorise sum_indices factors).
Proof.
  unfold sum_factorise.
  destruct (Nat.eqb (length factors) 0 && Nat.eqb (length sum_indices) 0); [exact I|].
  destruct (5 <? length sum_indices)%nat; [simpl; apply Q_NotImplementedError|].
  apply sum_factorise_body_raises; auto. apply Q_NotImplementedError.
Qed.

Lemma fast_sum_factorise_outcome (sum_indices : list index) (factors : list expr) :
  outcome Q F (fast_sum_factorise sum_indices factors).
Proof.
  unfold fast_sum_factorise, delta_elimination.
  apply outcome_bind; [apply delta_elimination_loop_outcome|].
  intros [s' f'] _. apply sum_factorise_outcome.
Qed.

Lemma to_expression_outcome (self : MonomialSum.t) :
  outcome Q F (MonomialSum.to_expression self).
Proof.
  assert (Hsplit : forall od ix mg, outcome Q F (MonomialSum.to_expression_split self od ix mg)).
  { induction od as [|[k [s a]] od IH]; intros ix mg; simpl; [exact I|].
    destruct (fst k).
    - apply outcome_bind; [apply fast_sum_factorise_outcome | intros e _; apply IH].
    - apply IH. }
  assert (Hgroups : forall gs ix, outcome Q F (MonomialSum.to_expression_groups gs ix)).
  { induction gs as [|[[ss s] ms] gs IH]; intros ix; simpl; [exact I|].
    apply outcome_bind; [|intros e _; apply IH].
    assert (Hmany : outcome Q F
              (products <- mapM (fun ar => p <- associate_product (fst ar ++ [snd ar]) ;;
                                          Ok (fst p)) ms ;;
               s0 <- associate_sum products ;; Ok (IndexSum (fst s0) s))).
    { apply outcome_bind.
      - apply outcome_mapM_all. intros ar.
        apply outcome_bind; [|intros; exact I].
        apply associate_product_raises; auto. apply Q_NotImplementedError.
      - intros ps _. apply outcome_bind; [|intros; exact I].
        apply associate_sum_raises; auto. apply Q_NotImplementedError. }
    destruct ms as [|[a r] [|m2 ms]]; try exact Hmany.
    apply fast_sum_factorise_outcome. }
  unfold MonomialSum.to_expression.
  apply outcome_bind; [apply Hsplit|]. intros [ix mg] _.
  apply outcome_bind; [apply Hgroups|]. intros ix' _.
  apply outcome_bind; [|intros; exact I].
  apply associate_sum_raises; auto. apply Q_NotImplementedError.
Qed.

Lemma add_outcome (self : MonomialSum.t) (s : list index) (a : list expr) (r : expr) :
  outcome Q F (MonomialSum.add self s a r).
Proof.
  unfold MonomialSum.add. apply outcome_bind; [|intros; exact I].
  apply outcome_assert. q_assert.
Qed.

Lemma add_all_outcome (l : list (list index * list expr * expr)) :
  forall self, outcome Q F (MonomialSum.add_all self l).
Proof.
  induction l as [|[[s a] r] l IH]; intros self; simpl; [exact I|].
  apply outcome_bind; [apply add_outcome | intros m _; apply IH].
Qed.

Lemma with_extent_outcome (self : MonomialSum.t) (atomics : list expr) :
  outcome Q F (MonomialSum.with_extent self atomics).
Proof.
  unfold MonomialSum.with_extent. apply outcome_mapM_all. intros atomic.
  apply outcome_bind; [|intros; exact I].
  unfold MonomialSum.argument_indices_extent.
  apply outcome_bind.
  - unfold MonomialSum.get_argument_indices.
    destruct (MonomialSum.argument_indices self); simpl; auto.
  - intros a _. apply numpy_prod_raises; auto.
Qed.

Variable ilp_solve : list Z -> list (list nat) -> Z * list Z.

Lemma find_optimal_atomics_outcome (self : MonomialSum.t)
    (sum_indices : MonomialSum.sum_indices_pair) :
  outcome Q F (MonomialSum.find_optimal_atomics ilp_solve self sum_indices).
Proof.
  unfold MonomialSum.find_optimal_atomics.
  destruct (MonomialSum.connections_of _ _ _ _) as [atomic_index connections].
  destruct atomic_index as [|a0 [|a1 rest]]; try exact I.
  apply outcome_bind; [apply with_extent_outcome|]. intros weighted _.
  destruct (ilp_solve _ _) as [status values].
  destruct (negb (status =? 1)); [simpl; q_assert|].
  apply outcome_bind; [apply with_extent_outcome|]. intros optimal _.
  apply outcome_bind; [apply with_extent_outcome|]. intros other _. exact I.
Qed.

Lemma collect_optimal_atomics_outcome (self : MonomialSum.t)
    (l : list MonomialSum.sum_indices_pair) :
  outcome Q F (MonomialSum.collect_optimal_atomics ilp_solve self l).
Proof.
  induction l as [|si l IH]; simpl; [exact I|].
  apply outcome_bind; [apply find_optimal_atomics_outcome|]. intros atomics _.
  apply outcome_bind; [exact IH|]. intros; exact I.
Qed.

Lemma group_monomials_outcome (self : MonomialSum.t)
    (optimal_atomics : list MonomialSum.factor_key) :
  forall od fg new,
    outcome Q F (MonomialSum.group_monomials self optimal_atomics od fg new).
Proof.
  induction od as [|[k [s a]] od IH]; intros fg new; simpl; [exact I|].
  destruct (MonomialSum.first_match k a optimal_atomics); [apply IH|].
  apply outcome_bind; [apply add_outcome | intros m _; apply IH].
Qed.

Lemma ordering_at_outcome (self : MonomialSum.t) (k : MonomialSum.key) :
  outcome Q F (MonomialSum.ordering_at self k).
Proof.
  unfold MonomialSum.ordering_at.
  destruct (MonomialSum.dict_lookup _ k); simpl; auto.
Qed.

Lemma factorise_group_outcome (optimise_ : MonomialSum.t -> result MonomialSum.t)
    (self : MonomialSum.t) (arg : list index) (new : MonomialSum.t)
    (sum_indices : list index) (oa : expr) (keys : list MonomialSum.key) :
  (forall sub, MonomialSumFacts.wf sub -> outcome Q F (optimise_ sub)) ->
  outcome Q F (MonomialSum.factorise_group optimise_ self arg new sum_indices oa keys).
Proof.
  intros Hopt.
  assert (Hmany : forall keys,
    outcome Q F
      (residuals <- mapM (fun k => v <- MonomialSum.ordering_at self k ;;
                                   _atomics <- remove_expr oa (snd v) ;;
                                   Ok ([] : list index, _atomics, MonomialSum.rest_of self k))
                         keys ;;
       sub_monomial_sum <-
         MonomialSum.add_all (MonomialSum.set_argument_indices MonomialSum.empty arg)
                             residuals ;;
       sub_monomial_sum' <- optimise_ sub_monomial_sum ;;
       _ <- assert (negb (Nat.eqb (length (MonomialSum.ordering sub_monomial_sum')) 0))
              "len(sub_monomial_sum.ordering) != 0" ;;
       match MonomialSum.ordering sub_monomial_sum' with
       | [(_, (_, new_atomics))] =>
           new_rest <- unpack1 (map snd (MonomialSum.monomials sub_monomial_sum')) ;;
           MonomialSum.add new sum_indices (new_atomics ++ [oa]) new_rest
       | _ =>
           new_node <- MonomialSum.to_expression sub_monomial_sum' ;;
           if MonomialSum.intersects arg (free_indices new_node)
           then MonomialSum.add new sum_indices [oa; new_node] one
           else MonomialSum.add new sum_indices [oa] new_node
       end)).
  { intros ks. apply outcome_bind.
    - apply outcome_mapM_all. intros k.
      apply outcome_bind; [apply ordering_at_outcome | intros v _].
      apply outcome_bind; [apply remove_expr_raises; auto | intros; exact I].
    - intros residuals _. apply outcome_bind; [apply add_all_outcome|].
      intros sub Hsub. apply outcome_bind.
      + apply Hopt. eapply MonomialSumFacts.wf_add_all; [|exact Hsub].
        apply MonomialSumFacts.wf_empty.
      + intros sub' _. apply outcome_bind; [apply outcome_assert; q_assert | intros _ _].
        assert (Hexpr : outcome Q F
                  (new_node <- MonomialSum.to_expression sub' ;;
                   if MonomialSum.intersects arg (free_indices new_node)
                   then MonomialSum.add new sum_indices [oa; new_node] one
                   else MonomialSum.add new sum_indices [oa] new_node)).
        { apply outcome_bind; [apply to_expression_outcome | intros n _].
          destruct (MonomialSum.intersects arg (free_indices n)); apply add_outcome. }
        destruct (MonomialSum.ordering sub') as [|[k1 [s1 a1]] [|e2 od]]; try exact Hexpr.
        apply outcome_bind; [apply outcome_unpack1; auto | intros r _; apply add_outcome]. }
  unfold MonomialSum.factorise_group.
  destruct keys as [|k0 [|k1 ks]]; try apply Hmany.
  apply outcome_bind; [apply ordering_at_outcome | intros v _; apply add_outcome].
Qed.

Lemma factorise_groups_outcome (optimise_ : MonomialSum.t -> result MonomialSum.t)
    (self : MonomialSum.t) (arg : list index) :
  (forall sub, MonomialSumFacts.wf sub -> outcome Q F (optimise_ sub)) ->
  forall fg new, outcome Q F (MonomialSum.factorise_groups optimise_ self arg fg new).
Proof.
  intros Hopt. induction fg as [|[[[ss s] oa] keys] fg IH]; intros new; simpl; [exact I|].
  apply outcome_bind; [apply factorise_group_outcome; exact Hopt | intros m _; apply IH].
Qed.

(** On a well-formed sum [factorise_atomics] raises only what [Q] allows;
    in particular its own assertion never fails. *)
Lemma factorise_atomics_outcome (fuel : nat) :
  forall self optimal_atomics,
    MonomialSumFacts.wf self ->
    outcome Q F (MonomialSum.factorise_atomics ilp_solve fuel self optimal_atomics).
Proof.
  induction fuel as [|fuel IH]; intros self oas Hwf;
    (destruct oas as [|oa oas]; [exact I|]);
    cbn [MonomialSum.factorise_atomics];
    (destruct (length (MonomialSum.ordering self) <? 2)%nat; [exact I|]);
    (apply outcome_bind;
     [unfold MonomialSum.get_argument_indices;
      destruct (MonomialSum.argument_indices self); simpl; auto|]);
    intros arg _;
    (apply outcome_bind; [apply group_monomials_outcome|]);
    intros [fg new'] Hg;
    apply (MonomialSumFacts.group_monomials_conserves _ _ Hwf) in Hg;
    apply Nat.eqb_eq in Hg; rewrite Hg;
    (apply outcome_bind; [exact I|]); intros _ _;
    apply factorise_groups_outcome; intros sub Hsub.
  - exact F_fuel.
  - unfold MonomialSum.optimise_with.
    apply outcome_bind; [apply collect_optimal_atomics_outcome|].
    intros l _. apply IH. exact Hsub.
Qed.

End RaisesMonomial.

(** C6.  On every [MonomialSum] that satisfies the class invariant (which
    [MonomialSum()], [add], [sum] and [product] establish and keep, see
    [wf_empty], [wf_add], [wf_sum], [wf_product]), the grouping loop of
    [factorise_atomics] accounts for every monomial exactly once: the sizes
    of the factor groups plus the number of monomials passed through equal
    the number of monomials of the input.  Hence the assertion "We should not
    drop monomials" never fails, at any depth of the recursion. *)
Theorem factorise_atomics_conserves_monomials
    (ilp_solve : list Z -> list (list nat) -> Z * list Z) (fuel : nat)
    (self : MonomialSum.t) (optimal_atomics : list MonomialSum.factor_key) :
  MonomialSumFacts.wf self ->
  (forall arg factor_group new_monomial_sum,
      MonomialSum.group_monomials self optimal_atomics (MonomialSum.ordering self) []
        (MonomialSum.set_argument_indices MonomialSum.empty arg)
      = Ok (factor_group, new_monomial_sum) ->
      (MonomialSum.grouped_count factor_group
       + length (MonomialSum.ordering new_monomial_sum)
       = length (MonomialSum.ordering self))%nat)
  /\ MonomialSum.factorise_atomics ilp_solve fuel self optimal_atomics
     <> Raise (AssertionError MonomialSum.we_should_not_drop_monomials).
Proof.
  intros Hwf. split.
  - intros arg fg new' H. eapply MonomialSumFacts.group_monomials_conserves; eassumption.
  - intros H.
    pose proof (@factorise_atomics_outcome
                  (fun e => e <> AssertionError MonomialSum.we_should_not_drop_monomials)
                  True I
                  ltac:(intros; discriminate) ltac:(intros; discriminate)
                  ltac:(intros; discriminate) ltac:(intros; discriminate)
                  ltac:(intros; discriminate)
                  ltac:(intros m Hm E; injection E as ->; apply Hm; reflexivity)
                  ilp_solve fuel self optimal_atomics Hwf) as X.
    rewrite H in X. apply X. reflexivity.
Qed.

Definition y_atomic : expr := Indexed (Variable_ "y" [4]) [Index 7 (Some 4)].

Definition two_monomials : MonomialSum.t :=
  MonomialSum.mk
    [(MonomialSum.make_key [] [x_atomic], Sum (Zero []) (Variable_ "r" []));
     (MonomialSum.make_key [] [x_atomic; y_atomic], Sum (Zero []) (Variable_ "s" []))]
    [(MonomialSum.make_key [] [x_atomic], ([], [x_atomic]));
     (MonomialSum.make_key [] [x_atomic; y_atomic], ([], [x_atomic; y_atomic]))]
    (Some [Index 7 (Some 4)]).

Lemma factorise_atomics_conserves_monomials_witness :
  (forall arg factor_group new_monomial_sum,
      MonomialSum.group_monomials two_monomials [(([], []), x_atomic)]
        (MonomialSum.ordering two_monomials) []
        (MonomialSum.set_argument_indices MonomialSum.empty arg)
      = Ok (factor_group, new_monomial_sum) ->
      (MonomialSum.grouped_count factor_group
       + length (MonomialSum.ordering new_monomial_sum)
       = length (MonomialSum.ordering two_monomials))%nat)
  /\ MonomialSum.factorise_atomics (fun _ _ => (1, [])) 3 two_monomials
       [(([], []), x_atomic)]
     <> Raise (AssertionError MonomialSum.we_should_not_drop_monomials).
Proof.
  apply (@factorise_atomics_conserves_monomials (fun _ _ => (1, [])) 3%nat two_monomials
           [(([], []), x_atomic)]).
  split.
  - constructor; [|constructor; constructor].
    constructor; [reflexivity | constructor].
  - constructor; [reflexivity|]. constructor; [reflexivity | constructor].
Defined.

(** ** The driver (C1) *)

(** The driver as the specification describes it: the value of
    [to_expression] on the sum that [factorise_atomics] returns, with the
    summation-index sets taken from [unique_sum_indices]. *)
Definition optimise_as_specified
    (ilp_solve : list Z -> list (list nat) -> Z * list Z) (fuel : nat) (node : expr)
    (argument_multiindices : list (list index)) : result expr :=
  let argument_indices := concat argument_multiindices in
  ms <- collect_monomials [node] (classify argument_indices) ;;
  monomial_sum0 <- unpack1 ms ;;
  let monomial_sum := MonomialSum.set_argument_indices monomial_sum0 argument_indices in
  '(optimal_atomics, other_atomics) <-
    select_atomics ilp_solve monomial_sum (MonomialSum.unique_sum_indices monomial_sum) [] [] ;;
  factorised <- MonomialSum.factorise_atomics ilp_solve fuel monomial_sum
                  (optimal_atomics ++ other_atomics) ;;
  MonomialSum.to_expression factorised.

(** Whatever [all_sum_indices] resolves to, an expression returned by the
    driver is [to_expression] of the sum as collected: nothing of the
    factorisation reaches the result. *)
Lemma optimise_via_returns_collected
    (ilp_solve : list Z -> list (list nat) -> Z * list Z)
    (all_sum_indices_ : MonomialSum.t -> result (list MonomialSum.sum_indices_pair))
    (fuel : nat) (node : expr) (quadrature_multiindex : list index)
    (argument_multiindices : list (list index)) (e : expr) :
  optimise_via ilp_solve all_sum_indices_ fuel node quadrature_multiindex
               argument_multiindices = Ok e ->
  exists monomial_sum,
    collect_monomials [node] (classify (concat argument_multiindices)) = Ok [monomial_sum]
    /\ MonomialSum.to_expression
         (MonomialSum.set_argument_indices monomial_sum (concat argument_multiindices))
       = Ok e.
Proof.
  unfold optimise_via. intros H.
  apply bind_Ok in H as (ms & Hms & H).
  apply bind_Ok in H as (m & Hm & H).
  apply bind_Ok in H as (l & _ & H).
  apply bind_Ok in H as ([oa ot] & _ & H).
  apply bind_Ok in H as (m' & _ & H).
  exists m. split; [|exact H].
  destruct ms as [|x [|y t]]; simpl in Hm; try discriminate.
  injection Hm as ->. exact Hms.
Qed.

(** As the source stands the driver never returns: the class has no
    [all_sum_indices]. *)
Lemma optimise_never_returns
    (ilp_solve : list Z -> list (list nat) -> Z * list Z) (fuel : nat) (node : expr)
    (quadrature_multiindex : list index) (argument_multiindices : list (list index))
    (e : expr) :
  optimise ilp_solve fuel node quadrature_multiindex argument_multiindices <> Ok e.
Proof.
  unfold optimise, optimise_via. intros H.
  apply bind_Ok in H as (ms & Hms & H).
  apply bind_Ok in H as (m & Hm & H).
  apply bind_Ok in H as (l & Hl & H).
  discriminate.
Qed.

Definition arg_j : index := Index 7 (Some 4).
Definition atomic_a : expr := Indexed (Variable_ "a" [4]) [arg_j].
Definition bug_input : expr :=
  Sum (Product atomic_a (Variable_ "r1" []))
      (Product (Product atomic_a atomic_a) (Variable_ "r2" [])).
Definition any_solver (weights : list Z) (connections : list (list nat)) : Z * list Z :=
  (1, map (fun _ => 1) weights).

(** C1 at [a*r1 + (a*a)*r2] with argument index [j] of [a]: the driver as
    written raises [AttributeError]; with [all_sum_indices] read as
    [unique_sum_indices] it returns an expression, which is not the one the
    factorised sum converts to (it is the one the sum as collected converts
    to). *)
Theorem optimise_discards_factorisation :
  optimise any_solver 10 bug_input [] [[arg_j]]
  = Raise (AttributeError "'MonomialSum' object has no attribute 'all_sum_indices'")
  /\ match optimise_via any_solver (fun m => Ok (MonomialSum.unique_sum_indices m))
                        10 bug_input [] [[arg_j]],
           optimise_as_specified any_solver 10 bug_input [[arg_j]] with
     | Ok returned, Ok specified => expr_eqb returned specified = false
     | _, _ => False
     end.
Proof. split; vm_compute; reflexivity. Qed.

(** ** The associativity optimiser (C2) *)

(** [BuiltFrom op t l]: the tree [t] combines the operands [l] with the
    binary operator [op], using every operand of [l] exactly once. *)
Inductive BuiltFrom (op : expr -> expr -> expr) : expr -> list expr -> Prop :=
| built_leaf e : BuiltFrom op e [e]
| built_node a b la lb l :
    BuiltFrom op a la -> BuiltFrom op b lb -> Permutation (la ++ lb) l ->
    BuiltFrom op (op a b) l.

(** A list of trees over disjoint parts of the operands. *)
Inductive Forest (op : expr -> expr -> expr) : list expr -> list expr -> Prop :=
| forest_nil : Forest op [] []
| forest_cons t lt ts ls l :
    BuiltFrom op t lt -> Forest op ts ls -> Permutation (lt ++ ls) l ->
    Forest op (t :: ts) l.

Lemma BuiltFrom_perm (op : expr -> expr -> expr) (t : expr) (l l' : list expr) :
  BuiltFrom op t l -> Permutation l l' -> BuiltFrom op t l'.
Proof.
  intros H P. destruct H as [e | a b la lb l Ha Hb Hp].
  - apply Permutation_length_1_inv in P. subst. constructor.
  - econstructor; [exact Ha | exact Hb |]. eapply Permutation_trans; eassumption.
Qed.

Lemma Forest_perm_ops (op : expr -> expr -> expr) (ts l l' : list expr) :
  Forest op ts l -> Permutation l l' -> Forest op ts l'.
Proof.
  intros H P. destruct H as [| t lt ts ls l Ht Hts Hp].
  - apply Permutation_nil in P. subst. constructor.
  - econstructor; [exact Ht | exact Hts |]. eapply Permutation_trans; eassumption.
Qed.

Lemma Forest_perm_trees (op : expr -> expr -> expr) (ts ts' : list expr) :
  Permutation ts ts' -> forall l, Forest op ts l -> Forest op ts' l.
Proof.
  induction 1 as [| x ts ts' _ IH | x y ts | ts ts' ts'' _ IH1 _ IH2]; intros l H.
  - exact H.
  - inversion H as [| t lt ts0 ls l0 Ht Hts Hp]; subst.
    econstructor; [exact Ht | apply IH; exact Hts | exact Hp].
  - inversion H as [| t lt ts0 ls l0 Hy Hts Hp]; subst.
    inversion Hts as [| t' lt' ts1 ls' l1 Hx Hts' Hp']; subst.
    econstructor; [exact Hx | econstructor; [exact Hy | exact Hts' | reflexivity] |].
    eapply Permutation_trans; [|exact Hp].
    eapply Permutation_trans; [| apply Permutation_app_head; exact Hp'].
    rewrite !app_assoc. apply Permutation_app_tail. apply Permutation_app_comm.
  - apply IH2, IH1, H.
Qed.

Lemma Forest_snoc (op : expr -> expr -> expr) (ts ls : list expr) (t : expr) (lt : list expr) :
  Forest op ts ls -> BuiltFrom op t lt -> Forest op (ts ++ [t]) (lt ++ ls).
Proof.
  intros Hts Ht. apply Forest_perm_trees with (ts := t :: ts).
  - apply Permutation_cons_append.
  - econstructor; [exact Ht | exact Hts | reflexivity].
Qed.

Lemma Forest_leaves (op : expr -> expr -> expr) (l : list expr) : Forest op l l.
Proof.
  induction l as [|x l IH]; [constructor|].
  econstructor; [apply built_leaf | exact IH | reflexivity].
Qed.

Lemma Forest_single (op : expr -> expr -> expr) (t : expr) (l : list expr) :
  Forest op [t] l -> BuiltFrom op t l.
Proof.
  intros H. inversion H as [| t0 lt ts ls l0 Ht Hts Hp]; subst.
  inversion Hts; subst. rewrite app_nil_r in Hp. eapply BuiltFrom_perm; eassumption.
Qed.

Lemma remove_expr_Ok (x : expr) (l l' : list expr) :
  remove_expr x l = Ok l' -> Permutation l (x :: l').
Proof.
  revert l'. induction l as [|y t IH]; simpl; intros l' H; [discriminate|].
  destruct (expr_eqb y x) eqn:E.
  - injection H as <-. apply expr_eqb_eq in E. subst. reflexivity.
  - apply bind_Ok in H as (t' & Ht & H). injection H as <-.
    apply IH in Ht. eapply Permutation_trans; [apply perm_skip; exact Ht|]. apply perm_swap.
Qed.

Lemma remove_expr_In (x : expr) (l : list expr) :
  In x l -> exists l', remove_expr x l = Ok l'.
Proof.
  induction l as [|y t IH]; simpl; [tauto|]. intros H.
  destruct (expr_eqb y x) eqn:E; [eexists; reflexivity|].
  destruct H as [-> | H]; [rewrite expr_eqb_refl in E; discriminate|].
  destruct (IH H) as (t' & ->). eexists; reflexivity.
Qed.

(** The trees left by the greedy loop are built from the operands it
    started with. *)
Lemma associate_loop_Forest (op : expr -> expr -> expr) (fuel : nat) :
  forall factors flops factors' flops' ops,
    associate_loop op fuel factors flops = Ok (factors', flops') ->
    Forest op factors ops ->
    Forest op factors' ops /\ (length factors' <= 1)%nat.
Proof.
  induction fuel as [|fuel IH]; intros factors flops factors' flops' ops H Hf; simpl in H.
  - destruct (length factors <=? 1)%nat eqn:E; [|discriminate].
    injection H as <- <-. apply Nat.leb_le in E. split; assumption.
  - destruct (length factors <=? 1)%nat eqn:E.
    + injection H as <- <-. apply Nat.leb_le in E. split; assumption.
    + apply bind_Ok in H as (keyed & _ & H).
      destruct (min_by_key keyed) as [[[a b] k]|]; [|discriminate].
      apply bind_Ok in H as (c & _ & H).
      apply bind_Ok in H as (f1 & H1 & H).
      apply bind_Ok in H as (f2 & H2 & H).
      apply remove_expr_Ok in H1, H2.
      eapply IH; [exact H|].
      assert (P : Permutation factors (a :: b :: f2)).
      { eapply Permutation_trans; [exact H1|]. apply perm_skip. exact H2. }
      apply (Forest_perm_trees P) in Hf.
      inversion Hf as [| t lt ts ls l0 Ha Hts Hp]; subst.
      inversion Hts as [| t' lt' ts1 ls' l1 Hb Hts' Hp']; subst.
      eapply Forest_perm_ops.
      * apply Forest_snoc; [exact Hts' |].
        eapply built_node; [exact Ha | exact Hb | reflexivity].
      * eapply Permutation_trans; [|exact Hp].
        rewrite <- app_assoc. apply Permutation_app_head.
        eapply Permutation_trans; [|exact Hp']. reflexivity.
Qed.

Lemma unpack1_Ok (A : Type) (l : list A) (x : A) : unpack1 l = Ok x -> l = [x].
Proof. destruct l as [|y [|z t]]; simpl; intros H; try discriminate. congruence. Qed.

Lemma associate_product_BuiltFrom (factors : list expr) (t : expr) (flops : Z) :
  associate_product factors = Ok (t, flops) -> BuiltFrom Product t factors.
Proof.
  unfold associate_product. destruct (32 <? length factors)%nat; [discriminate|].
  intros H. apply bind_Ok in H as ([fs fl] & Hl & H).
  apply bind_Ok in H as (p & Hp & H). injection H as <- <-.
  apply unpack1_Ok in Hp. subst.
  pose proof (@associate_loop_Forest Product _ _ _ _ _ factors Hl
                (Forest_leaves Product factors)) as [X _].
  apply Forest_single. exact X.
Qed.

(** Grouping keeps every element, once. *)
Lemma group_add_perm (K A : Type) (eqb : K -> K -> bool) (groups : list (K * list A))
    (k : K) (x : A) :
  Permutation (concat (map snd (group_add eqb groups k x)))
              (x :: concat (map snd groups)).
Proof.
  induction groups as [|[k' xs] groups IH]; simpl; [reflexivity|].
  destruct (eqb k' k); simpl.
  - rewrite <- app_assoc. simpl.
    eapply Permutation_trans; [apply Permutation_sym, Permutation_middle|]. reflexivity.
  - eapply Permutation_trans; [apply Permutation_app_head; exact IH|].
    apply Permutation_sym, Permutation_middle.
Qed.

Lemma group_by_perm (K A : Type) (eqb : K -> K -> bool) (key : A -> K) (l : list A) :
  Permutation (concat (map snd (group_by eqb key l))) l.
Proof.
  unfold group_by.
  assert (G : forall g0, Permutation
                (concat (map snd (fold_left (fun groups x => group_add eqb groups (key x) x) l g0)))
                (concat (map snd g0) ++ l)).
  { induction l as [|x l IH]; intros g0; simpl; [rewrite app_nil_r; reflexivity|].
    eapply Permutation_trans; [apply IH|].
    eapply Permutation_trans; [apply Permutation_app_tail, group_add_perm|].
    simpl. apply Permutation_middle. }
  apply (G []).
Qed.

Lemma group_add_length (K A : Type) (eqb : K -> K -> bool) (groups : list (K * list A))
    (k : K) (x : A) :
  (length groups <= length (group_add eqb groups k x) <= S (length groups))%nat
  /\ (1 <= length (group_add eqb groups k x))%nat.
Proof.
  induction groups as [|[k' xs] groups IH]; simpl; [lia|].
  destruct (eqb k' k); simpl; lia.
Qed.

Lemma group_by_length (K A : Type) (eqb : K -> K -> bool) (key : A -> K) (l : list A) :
  (length (group_by eqb key l) <= length l)%nat
  /\ (l <> [] -> 1 <= length (group_by eqb key l))%nat.
Proof.
  unfold group_by.
  assert (G : forall g0,
    let r := fold_left (fun groups x => group_add eqb groups (key x) x) l g0 in
    (length g0 <= length r <= length g0 + length l)%nat
    /\ (l <> [] -> 1 <= length r)%nat).
  { induction l as [|x l IH]; intros g0; simpl; [split; [lia | congruence]|].
    specialize (IH (group_add eqb g0 (key x) x)). simpl in IH.
    pose proof (group_add_length eqb g0 (key x) x). split; [lia|]. intros _. lia. }
  specialize (G []). simpl in G. split; [lia | apply G].
Qed.

(** The number of distinct free-index sets among the summands: the length
    that [associate_sum] compares with 32. *)
Definition n_groups (summands : list expr) : nat :=
  length (group_by index_set_eqb free_indices summands).

Lemma fold_left_Sum_BuiltFrom (vals : list expr) :
  forall acc lacc, BuiltFrom Sum acc lacc ->
                   BuiltFrom Sum (fold_left Sum vals acc) (lacc ++ vals).
Proof.
  induction vals as [|v vals IH]; intros acc lacc H; simpl.
  - rewrite app_nil_r. exact H.
  - eapply BuiltFrom_perm.
    + apply IH. eapply built_node; [exact H | apply built_leaf | reflexivity].
    + rewrite <- app_assoc. reflexivity.
Qed.

Lemma presum_Forest (A : Type) (groups : list (A * list expr)) :
  Forest Sum (map (fun g => fold_left Sum (snd g) (Zero [])) groups)
         (concat (map snd groups) ++ repeat (Zero []) (length groups)).
Proof.
  induction groups as [|[k vals] groups IH]; simpl; [constructor|].
  econstructor.
  - apply (@fold_left_Sum_BuiltFrom vals (Zero []) [Zero []]). apply built_leaf.
  - exact IH.
  - simpl. apply Permutation_sym.
    eapply Permutation_trans; [apply Permutation_sym, Permutation_middle|].
    apply perm_skip. rewrite !app_assoc. apply Permutation_app_tail.
    reflexivity.
Qed.

Lemma associate_sum_BuiltFrom (summands : list expr) (t : expr) (flops : Z) :
  associate_sum summands = Ok (t, flops) ->
  BuiltFrom Sum t (summands ++ repeat (Zero []) (n_groups summands)).
Proof.
  unfold associate_sum, n_groups.
  set (groups := group_by index_set_eqb free_indices summands).
  destruct (32 <? length _)%nat; [discriminate|].
  intros H. apply bind_Ok in H as ([fs fl] & Hl & H).
  apply bind_Ok in H as (p & Hp & H). injection H as <- <-.
  apply unpack1_Ok in Hp. subst.
  pose proof (@associate_loop_Forest Sum _ _ _ _ _ _ Hl (presum_Forest groups)) as [X _].
  apply Forest_single in X. eapply BuiltFrom_perm; [exact X|].
  apply Permutation_app_tail. apply group_by_perm.
Qed.

(** *** When the optimiser returns *)

Definition extents_known (e : expr) : Prop :=
  Forall (fun i => extent i <> None) (free_indices e).

Lemma In_dedup_index (x : index) (l : list index) : In x (dedup_index l) -> In x l.
Proof.
  induction l as [|y t IH]; simpl; [tauto|].
  intros [-> | H]; [left; reflexivity|].
  apply filter_In in H as [H _]. right. apply IH. exact H.
Qed.

Lemma In_insert_by_id (x i : index) (l : list index) :
  In x (insert_by_id i l) -> x = i \/ In x l.
Proof.
  induction l as [|j t IH]; simpl.
  - intros [<- | []]. left; reflexivity.
  - destruct (index_id i <? index_id j)%nat; simpl.
    + intros [<- | H]; [left; reflexivity | right; exact H].
    + intros [<- | H]; [right; left; reflexivity|].
      destruct (IH H) as [-> | H']; [left; reflexivity | right; right; exact H'].
Qed.

Lemma In_sort_by_id (x : index) (l : list index) : In x (sort_by_id l) -> In x l.
Proof.
  unfold sort_by_id.
  assert (G : forall acc, In x (fold_left (fun acc i => insert_by_id i acc) l acc) ->
                          In x acc \/ In x l).
  { induction l as [|i l IH]; intros acc H; simpl in *; [left; exact H|].
    apply IH in H as [H | H]; [|right; right; exact H].
    apply In_insert_by_id in H as [-> | H]; [right; left; reflexivity | left; exact H]. }
  intros H. apply G in H as [[] | H]. exact H.
Qed.

Lemma In_unique (x : index) (l : list index) : In x (unique l) -> In x l.
Proof. intros H. apply In_dedup_index, In_sort_by_id, H. Qed.

Lemma numpy_prod_Ok (l : list (option Z)) :
  Forall (fun x => x <> None) l -> exists z, numpy_prod l = Ok z.
Proof.
  induction 1 as [|[x|] t Hx _ [z IH]]; simpl; [eexists; reflexivity | | congruence].
  rewrite IH. simpl. eexists; reflexivity.
Qed.

Lemma count_Ok (a b : expr) :
  extents_known a -> extents_known b -> exists z, count (a, b) = Ok z.
Proof.
  intros Ha Hb. unfold count. apply numpy_prod_Ok.
  apply Forall_forall. intros x Hx. apply in_map_iff in Hx as (i & <- & Hi).
  apply In_dedup_index, in_app_or in Hi.
  unfold extents_known in *. rewrite Forall_forall in Ha, Hb.
  destruct Hi as [Hi | Hi]; auto.
Qed.

Lemma extents_known_binary (a b : expr) :
  extents_known a -> extents_known b ->
  Forall (fun i => extent i <> None) (unique (free_indices a ++ free_indices b)).
Proof.
  intros Ha Hb. apply Forall_forall. intros x Hx.
  apply In_unique, in_app_or in Hx.
  unfold extents_known in *. rewrite Forall_forall in Ha, Hb.
  destruct Hx as [Hx | Hx]; auto.
Qed.

Lemma extents_known_Product (a b : expr) :
  extents_known a -> extents_known b -> extents_known (Product a b).
Proof. apply extents_known_binary. Qed.

Lemma extents_known_Sum (a b : expr) :
  extents_known a -> extents_known b -> extents_known (Sum a b).
Proof. apply extents_known_binary. Qed.

Lemma combinations2_split (A : Type) (l : list A) (a b : A) :
  In (a, b) (combinations2 l) -> exists l1 l2 l3, l = l1 ++ a :: l2 ++ b :: l3.
Proof.
  induction l as [|x t IH]; simpl; [tauto|].
  intros H. apply in_app_or in H as [H | H].
  - apply in_map_iff in H as (y & E & Hy). injection E as <- <-.
    apply in_split in Hy as (l2 & l3 & ->). exists [], l2, l3. reflexivity.
  - destruct (IH H) as (l1 & l2 & l3 & ->). exists (x :: l1), l2, l3. reflexivity.
Qed.

Lemma combinations2_nonempty (A : Type) (l : list A) :
  (2 <= length l)%nat -> combinations2 l <> [].
Proof.
  destruct l as [|x [|y t]]; simpl; try lia. intros _. discriminate.
Qed.

Lemma min_by_key_In (A : Type) (l : list (A * Z)) :
  l <> [] -> exists x k, min_by_key l = Some (x, k) /\ In (x, k) l.
Proof.
  induction l as [|[x k] t IH]; [congruence|]. intros _. simpl.
  destruct t as [|p t'].
  - simpl. exists x, k. split; [reflexivity | left; reflexivity].
  - destruct IH as (y & k' & E & Hin); [discriminate|]. rewrite E.
    destruct (k' <? k).
    + exists y, k'. split; [reflexivity | right; exact Hin].
    + exists x, k. split; [reflexivity | left; reflexivity].
Qed.

Lemma mapM_keyed (l : list (expr * expr)) :
  Forall (fun p => exists k, count p = Ok k) l ->
  exists keyed, mapM (fun p => k <- count p ;; Ok (p, k)) l = Ok keyed
                /\ map fst keyed = l.
Proof.
  induction 1 as [|p t [k Hk] _ (keyed & IH & E)]; simpl.
  - exists []. split; reflexivity.
  - rewrite Hk. simpl. rewrite IH. simpl.
    exists ((p, k) :: keyed). split; [reflexivity | simpl; congruence].
Qed.

Lemma Forest_nil_inv (op : expr -> expr -> expr) (l : list expr) :
  Forest op [] l -> l = [].
Proof. intros H. inversion H. reflexivity. Qed.

Section Total.

Variable op : expr -> expr -> expr.
Hypothesis op_known :
  forall a b, extents_known a -> extents_known b -> extents_known (op a b).

Lemma associate_loop_total (fuel : nat) :
  forall factors flops,
    Forall extents_known factors -> (length factors <= S fuel)%nat ->
    exists factors' flops', associate_loop op fuel factors flops = Ok (factors', flops').
Proof.
  induction fuel as [|fuel IH]; intros factors flops Hk Hlen; cbn [associate_loop].
  - assert (E : (length factors <=? 1)%nat = true) by (apply Nat.leb_le; lia).
    rewrite E. eauto.
  - destruct (length factors <=? 1)%nat eqn:E; [eauto|].
    apply Nat.leb_gt in E.
    destruct (@mapM_keyed (combinations2 factors)) as (keyed & Hm & Hfst).
    { apply Forall_forall. intros [a b] Hab.
      apply combinations2_split in Hab as (l1 & l2 & l3 & ->).
      rewrite Forall_forall in Hk. apply count_Ok; apply Hk.
      - apply in_or_app. right. left. reflexivity.
      - apply in_or_app. right. right. apply in_or_app. right. left. reflexivity. }
    rewrite Hm. cbn [bind].
    destruct (@min_by_key_In _ keyed) as ([a b] & k & Hmin & Hin).
    { intros ->. simpl in Hfst. symmetry in Hfst.
      revert Hfst. apply combinations2_nonempty. lia. }
    rewrite Hmin.
    assert (Hab : In (a, b) (combinations2 factors)).
    { rewrite <- Hfst. apply in_map_iff. exists (a, b, k). split; [reflexivity | exact Hin]. }
    apply combinations2_split in Hab as (l1 & l2 & l3 & Efac).
    assert (Ha : In a factors) by (rewrite Efac; apply in_or_app; right; left; reflexivity).
    assert (Hb : In b factors).
    { rewrite Efac. apply in_or_app. right. right. apply in_or_app. right. left. reflexivity. }
    rewrite Forall_forall in Hk.
    destruct (count_Ok (Hk a Ha) (Hk b Hb)) as (c & Hc).
    rewrite Hc. cbn [bind].
    destruct (remove_expr_In _ _ Ha) as (f1 & H1). rewrite H1. cbn [bind].
    pose proof (remove_expr_Ok _ _ H1) as P1.
    assert (Hb1 : In b f1).
    { assert (P : Permutation (a :: f1) (a :: l1 ++ l2 ++ b :: l3)).
      { eapply Permutation_trans; [apply Permutation_sym; exact P1|].
        rewrite Efac. apply Permutation_sym, Permutation_middle. }
      apply Permutation_cons_inv in P.
      eapply Permutation_in; [apply Permutation_sym; exact P|].
      apply in_or_app. right. apply in_or_app. right. left. reflexivity. }
    destruct (remove_expr_In _ _ Hb1) as (f2 & H2). rewrite H2. cbn [bind].
    pose proof (remove_expr_Ok _ _ H2) as P2.
    apply IH.
    + apply Forall_app. split.
      * apply Forall_forall. intros x Hx. apply Hk.
        eapply Permutation_in; [apply Permutation_sym; exact P1|]. right.
        eapply Permutation_in; [apply Permutation_sym; exact P2|]. right. exact Hx.
      * constructor; [|constructor]. apply op_known; apply Hk; assumption.
    + apply Permutation_length in P1, P2. simpl in *.
      rewrite length_app. simpl. lia.
Qed.

Lemma associate_loop_single (fuel : nat) (factors : list expr) (flops : Z) :
  Forall extents_known factors -> (length factors <= S fuel)%nat -> factors <> [] ->
  exists t flops', associate_loop op fuel factors flops = Ok ([t], flops').
Proof.
  intros Hk Hlen Hne.
  destruct (associate_loop_total flops Hk Hlen) as (fs & fl & H).
  pose proof (@associate_loop_Forest op _ _ _ _ _ factors H (Forest_leaves op factors))
    as [Hf Hl].
  destruct fs as [|t [|t2 fs]]; simpl in Hl; try lia.
  - apply Forest_nil_inv in Hf. contradiction.
  - eauto.
Qed.

End Total.

Lemma associate_loop_not_too_complicated (op : expr -> expr -> expr) (fuel : nat)
    (factors : list expr) (flops : Z) :
  associate_loop op fuel factors flops <> Raise too_complicated.
Proof.
  intros H.
  pose proof (@associate_loop_raises (fun e => e <> too_complicated) True I
                ltac:(intros; discriminate) ltac:(intros; discriminate)
                op fuel factors flops) as X.
  rewrite H in X. apply X. reflexivity.
Qed.

Lemma finish_not_too_complicated (r : result (list expr * Z)) :
  r <> Raise too_complicated ->
  ('(l, flops) <- r ;; x <- unpack1 l ;; Ok (x, flops)) <> Raise too_complicated.
Proof.
  intros Hr H. destruct r as [[l fl]| |]; simpl in H; try congruence.
  destruct l as [|x [|y t]]; simpl in H; discriminate.
Qed.

Lemma associate_product_capacity (factors : list expr) :
  associate_product factors = Raise too_complicated <-> (32 < length factors)%nat.
Proof.
  unfold associate_product. destruct (32 <? length factors)%nat eqn:E.
  - apply Nat.ltb_lt in E. tauto.
  - apply Nat.ltb_ge in E. split; [|lia]. intros H. exfalso.
    revert H. apply finish_not_too_complicated, associate_loop_not_too_complicated.
Qed.

Lemma associate_sum_capacity (summands : list expr) :
  associate_sum summands = Raise too_complicated <-> (32 < n_groups summands)%nat.
Proof.
  unfold associate_sum, n_groups. rewrite length_map.
  destruct (32 <? length _)%nat eqn:E.
  - apply Nat.ltb_lt in E. tauto.
  - apply Nat.ltb_ge in E. split; [|lia]. intros H. exfalso.
    revert H. apply finish_not_too_complicated, associate_loop_not_too_complicated.
Qed.

Lemma associate_product_total (factors : list expr) :
  factors <> [] -> (length factors <= 32)%nat -> Forall extents_known factors ->
  exists t flops, associate_product factors = Ok (t, flops).
Proof.
  intros Hne Hlen Hk. unfold associate_product.
  assert (E : (32 <? length factors)%nat = false) by (apply Nat.ltb_ge; exact Hlen).
  rewrite E.
  destruct (@associate_loop_single Product extents_known_Product (length factors)
              factors 0 Hk ltac:(lia) Hne) as (t & fl & H).
  rewrite H. simpl. eauto.
Qed.

Lemma fold_left_Sum_known (vals : list expr) :
  forall acc, extents_known acc -> Forall extents_known vals ->
              extents_known (fold_left Sum vals acc).
Proof.
  induction vals as [|v vals IH]; intros acc Ha Hv; simpl; [exact Ha|].
  inversion Hv; subst. apply IH; [apply extents_known_Sum; assumption | assumption].
Qed.

Lemma associate_sum_total (summands : list expr) :
  summands <> [] -> (n_groups summands <= 32)%nat -> Forall extents_known summands ->
  exists t flops, associate_sum summands = Ok (t, flops).
Proof.
  intros Hne Hlen Hk. unfold associate_sum. unfold n_groups in Hlen.
  set (groups := group_by index_set_eqb free_indices summands) in *.
  set (pre := map (fun g => fold_left Sum (snd g) (Zero [])) groups).
  assert (El : length pre = length groups) by apply length_map.
  assert (E : (32 <? length pre)%nat = false) by (apply Nat.ltb_ge; lia).
  rewrite E.
  assert (Hpre : Forall extents_known pre).
  { apply Forall_forall. intros x Hx. apply in_map_iff in Hx as (g & <- & Hg).
    apply fold_left_Sum_known; [constructor|].
    apply Forall_forall. intros v Hv. rewrite Forall_forall in Hk. apply Hk.
    eapply Permutation_in; [apply (group_by_perm index_set_eqb free_indices)|].
    apply in_concat. exists (snd g). split; [|exact Hv].
    apply in_map. exact Hg. }
  assert (Hpne : pre <> []).
  { pose proof (proj2 (group_by_length index_set_eqb free_indices summands) Hne) as G.
    fold groups in G. intros X. rewrite X in El. simpl in El. lia. }
  destruct (@associate_loop_single Sum extents_known_Sum (length pre)
              pre 0 Hpre ltac:(lia) Hpne) as (t & fl & H).
  rewrite H. simpl. eauto.
Qed.

(** C2, as the code has it.  [associate_product] raises its capacity error
    exactly when it is given more than 32 operands.  [associate_sum] first
    sums the operands that have the same set of free indices, and raises the
    capacity error exactly when more than 32 such groups remain; there are
    never more groups than operands, so it never raises it for 32 operands or
    fewer, and may return for more.  A tree that either returns uses every
    operand exactly once (for a sum, besides one [Zero()] per group, the
    initial value of its pre-summation).  On a nonempty list within capacity
    whose free indices all have extents, both return a tree. *)
Theorem associativity_optimiser_contract :
  (forall factors,
      associate_product factors = Raise too_complicated <-> (32 < length factors)%nat)
  /\ (forall factors t flops,
        associate_product factors = Ok (t, flops) -> BuiltFrom Product t factors)
  /\ (forall factors,
        factors <> [] -> (length factors <= 32)%nat -> Forall extents_known factors ->
        exists t flops, associate_product factors = Ok (t, flops))
  /\ (forall summands,
        associate_sum summands = Raise too_complicated <-> (32 < n_groups summands)%nat)
  /\ (forall summands, (n_groups summands <= length summands)%nat)
  /\ (forall summands t flops,
        associate_sum summands = Ok (t, flops) ->
        BuiltFrom Sum t (summands ++ repeat (Zero []) (n_groups summands)))
  /\ (forall summands,
        summands <> [] -> (n_groups summands <= 32)%nat -> Forall extents_known summands ->
        exists t flops, associate_sum summands = Ok (t, flops)).
Proof.
  repeat split; intros.
  - apply associate_product_capacity; assumption.
  - apply associate_product_capacity; assumption.
  - eapply associate_product_BuiltFrom; eassumption.
  - apply associate_product_total; assumption.
  - apply associate_sum_capacity; assumption.
  - apply associate_sum_capacity; assumption.
  - apply group_by_length.
  - eapply associate_sum_BuiltFrom; eassumption.
  - apply associate_sum_total; assumption.
Qed.

(** Thirty-three summands without free indices form one group:
    [associate_sum] returns their sum, and raises no capacity error. *)
Lemma associate_sum_above_capacity_returns :
  length (repeat (Variable_ "x" []) 33) = 33%nat
  /\ is_Ok (associate_sum (repeat (Variable_ "x" []) 33)) = true
  /\ associate_sum (repeat (Variable_ "x" []) 33) <> Raise too_complicated.
Proof.
  split; [reflexivity|]. split; [vm_compute; reflexivity|].
  intros H. apply associate_sum_capacity in H. vm_compute in H. lia.
Qed.

(** ** Removal of component tensors (C9) *)

(** [p] holds at every node of the DAG rooted at [e]. *)
Definition all_nodes (p : expr -> bool) (e : expr) : bool := forallb p (preorder e).

Lemma all_nodes_unfold (p : expr -> bool) (e : expr) :
  all_nodes p e = p e && forallb (all_nodes p) (children e).
Proof.
  unfold all_nodes. rewrite preorder_children. simpl. f_equal.
  induction (children e) as [|c cs IH]; simpl; [reflexivity|].
  rewrite forallb_app, IH. reflexivity.
Qed.

Lemma all_nodes_root (p : expr -> bool) (e : expr) : all_nodes p e = true -> p e = true.
Proof. rewrite all_nodes_unfold. intros H. apply andb_true_iff in H. tauto. Qed.

Lemma all_nodes_child (p : expr -> bool) (e c : expr) :
  all_nodes p e = true -> In c (children e) -> all_nodes p c = true.
Proof.
  rewrite all_nodes_unfold. intros H Hc. apply andb_true_iff in H as [_ H].
  rewrite forallb_forall in H. apply H. exact Hc.
Qed.

Lemma all_nodes_intro (p : expr -> bool) (e : expr) :
  p e = true -> (forall c, In c (children e) -> all_nodes p c = true) ->
  all_nodes p e = true.
Proof.
  intros H Hc. rewrite all_nodes_unfold, H. simpl. apply forallb_forall. exact Hc.
Qed.

(** No access into a component tensor is left. *)
Definition no_tensor_access (e : expr) : bool :=
  match e with
  | Indexed (ComponentTensor _ _) _ => false
  | _ => true
  end.

(** A flexibly indexed node wraps a terminal, as its handler asserts. *)
Definition flexible_terminal (e : expr) : bool :=
  match e with
  | FlexiblyIndexed v _ => is_Terminal v
  | _ => true
  end.

(** An indexed access is a scalar: it is not indexed again. *)
Definition access_is_scalar (e : expr) : bool :=
  match e with
  | Indexed (Indexed _ _) _ => false
  | _ => true
  end.

Definition not_ComponentTensor (e : expr) : bool :=
  match e with
  | ComponentTensor _ _ => false
  | _ => true
  end.

(** The kind of a node. *)
Definition kind (e : expr) : nat :=
  match e with
  | Literal _ => 0 | Zero _ => 1 | Identity _ => 2 | Failure _ _ => 3
  | Variable_ _ _ => 4 | Sum _ _ => 5 | Product _ _ => 6 | Division _ _ => 7
  | Power _ _ => 8 | MathFunction _ _ => 9 | Comparison _ _ _ => 10
  | LogicalNot _ => 11 | LogicalAnd _ _ => 12 | LogicalOr _ _ => 13
  | Conditional _ _ _ => 14 | IndexSum _ _ => 15 | ComponentTensor _ _ => 16
  | ListTensor _ _ => 17 | Indexed _ _ => 18 | FlexiblyIndexed _ _ => 19
  | Delta _ _ => 20
  end%nat.

Lemma list_eqb_expr_eq (l l' : list expr) : list_eqb expr_eqb l l' = true <-> l = l'.
Proof. apply list_eqb_spec_all. apply expr_eqb_eq. Qed.

Lemma list_eqb_index_eq (l l' : list index) : list_eqb index_eqb l l' = true <-> l = l'.
Proof. apply list_eqb_spec_all. apply index_eqb_eq. Qed.

Lemma dim2idxs_eqb_eq (d d' : dim2idxs_t) : dim2idxs_eqb d d' = true <-> d = d'.
Proof.
  unfold dim2idxs_eqb. apply list_eqb_spec_all. intros [o idxs] [o' idxs']; simpl.
  rewrite andb_true_iff, Z.eqb_eq.
  rewrite (@list_eqb_spec_all (index * Z)
             (fun ix ix' => index_eqb (fst ix) (fst ix') && Z.eqb (snd ix) (snd ix'))).
  - split; [intros [-> ->]; reflexivity | intros E; injection E; auto].
  - intros [i s] [i' s']; simpl. rewrite andb_true_iff, index_eqb_eq, Z.eqb_eq.
    split; [intros [-> ->]; reflexivity | intros E; injection E; auto].
Qed.

(** The default handler keeps the kind of the node and rewrites its
    children one by one. *)
Lemma reuse_if_untouched_Ok (self : expr -> result expr) (node r : expr) :
  reuse_if_untouched self node = Ok r ->
  kind r = kind node
  /\ Forall2 (fun c c' => self c = Ok c') (children node) (children r).
Proof.
  destruct node; simpl; intros H;
    try (injection H as <-; split; [reflexivity | constructor]);
    try (repeat match type of H with
                | context [bind (self ?x) _] =>
                    destruct (self x) eqn:?; simpl in H; try discriminate
                end;
         injection H as <-;
         match goal with
         | |- context [if ?b then _ else _] =>
             let E := fresh "E" in
             destruct b eqn:E;
             [ repeat (apply andb_true_iff in E; destruct E as [E ?]);
               repeat match goal with
                      | X : expr_eqb _ _ = true |- _ => apply expr_eqb_eq in X; subst
                      end
             | ];
             (split; [reflexivity | simpl; repeat constructor; assumption])
         end).
  apply bind_Ok in H as (l' & Hl & H). injection H as <-.
  destruct (list_eqb expr_eqb l' array) eqn:E.
  - apply list_eqb_expr_eq in E. subst. split; [reflexivity|]. simpl.
    apply mapM_Ok_Forall2. exact Hl.
  - split; [reflexivity|]. simpl. apply mapM_Ok_Forall2. exact Hl.
Qed.

Lemma reuse_if_untouched_id (self : expr -> result expr) (node : expr) :
  (forall c, In c (children node) -> self c = Ok c) ->
  reuse_if_untouched self node = Ok node.
Proof.
  intros H. destruct node; simpl in *; try reflexivity;
    repeat (rewrite H by auto; simpl); rewrite ?expr_eqb_refl; simpl; try reflexivity.
  rewrite mapM_id; [simpl|apply Forall_forall; exact H].
  destruct (list_eqb expr_eqb array array); reflexivity.
Qed.

Lemma dict_get_nil_map (l : list index) : map (fun i => dict_get (dict_of []) i) l = l.
Proof. induction l as [|x l IH]; [reflexivity|]. simpl. f_equal. exact IH. Qed.

Lemma replace_dim2idxs_nil (d : dim2idxs_t) : replace_dim2idxs (dict_of []) d = d.
Proof.
  unfold replace_dim2idxs. induction d as [|[o idxs] d IH]; [reflexivity|].
  simpl. f_equal; [|exact IH]. f_equal.
  induction idxs as [|[i s] idxs IHi]; [reflexivity|]. simpl. f_equal. exact IHi.
Qed.

Lemma is_Terminal_free_indices (e : expr) : is_Terminal e = true -> free_indices e = [].
Proof. destruct e; simpl; intros H; try discriminate; reflexivity. Qed.

(** The two behaviours of the handler for [Indexed]. *)
Lemma filtered_replace_indices_Indexed (child : expr) (multiindex : list index)
    (subst : subst_t) :
  not_ComponentTensor child = true ->
  filtered_replace_indices (Indexed child multiindex) subst =
  (let filtered_subst :=
     filter (fun kv => index_in (fst kv) (free_indices (Indexed child multiindex))) subst in
   let multiindex' := map (fun i => dict_get (dict_of filtered_subst) i) multiindex in
   new_child <- filtered_replace_indices child filtered_subst ;;
   if expr_eqb new_child child && list_eqb index_eqb multiindex' multiindex
   then Ok (Indexed child multiindex)
   else Ok (Indexed new_child multiindex')).
Proof. destruct child; intros H; try discriminate; reflexivity. Qed.

Lemma filtered_replace_indices_Indexed_tensor (body : expr) (cmi multiindex : list index)
    (subst : subst_t) :
  filtered_replace_indices (Indexed (ComponentTensor body cmi) multiindex) subst =
  (let filtered_subst :=
     filter (fun kv => index_in (fst kv)
                         (free_indices (Indexed (ComponentTensor body cmi) multiindex)))
            subst in
   let substitute := dict_of filtered_subst in
   let multiindex' := map (fun i => dict_get substitute i) multiindex in
   filtered_replace_indices body
     (sorted_items (dict_update substitute (zip cmi multiindex')))).
Proof. reflexivity. Qed.

(** On an expression without accesses into component tensors the rewrite
    with no substitution returns the expression itself. *)
Lemma filtered_replace_indices_fixpoint (e : expr) :
  all_nodes no_tensor_access e = true -> all_nodes flexible_terminal e = true ->
  filtered_replace_indices e [] = Ok e.
Proof.
  induction e as [e IHc _] using expr_rewrite_ind. intros H1 H2.
  assert (Hc : forall c, In c (children e) -> filtered_replace_indices c [] = Ok c).
  { intros c Hin. apply IHc; [exact Hin | |]; eapply all_nodes_child; eassumption. }
  apply all_nodes_root in H1, H2.
  destruct e; try (apply reuse_if_untouched_id; exact Hc).
  - (* Indexed *)
    rewrite filtered_replace_indices_Indexed
      by (destruct e; simpl in H1; try discriminate; reflexivity).
    cbn zeta. change (filter _ []) with (@nil (index * index)).
    rewrite dict_get_nil_map, Hc by (simpl; auto). cbn [bind].
    rewrite expr_eqb_refl.
    assert (E : list_eqb index_eqb multiindex multiindex = true)
      by (apply list_eqb_index_eq; reflexivity).
    rewrite E. reflexivity.
  - (* FlexiblyIndexed *)
    simpl in *. unfold replace_indices_flexiblyindexed.
    rewrite H2, (is_Terminal_free_indices _ H2). simpl.
    rewrite replace_dim2idxs_nil.
    assert (E : dim2idxs_eqb dim2idxs dim2idxs = true) by (apply dim2idxs_eqb_eq; reflexivity).
    rewrite E. reflexivity.
  - (* Delta *)
    simpl. unfold replace_indices_delta. simpl. rewrite !index_eqb_refl. reflexivity.
Qed.

Lemma all_nodes_leaf (p : expr -> bool) (e : expr) :
  children e = [] -> p e = true -> all_nodes p e = true.
Proof.
  intros Hc Hp. apply all_nodes_intro; [exact Hp|]. rewrite Hc. intros c [].
Qed.

Lemma no_tensor_access_kind (e : expr) : kind e <> 18%nat -> no_tensor_access e = true.
Proof. destruct e; simpl; intros H; try reflexivity. congruence. Qed.

Lemma flexible_terminal_kind (e : expr) : kind e <> 19%nat -> flexible_terminal e = true.
Proof. destruct e; simpl; intros H; try reflexivity. congruence. Qed.

Lemma not_ComponentTensor_kind (e : expr) :
  not_ComponentTensor e = true <-> kind e <> 16%nat.
Proof. destruct e; simpl; split; intros H; try reflexivity; try congruence; discriminate. Qed.

Lemma access_is_scalar_child (child : expr) (mi : list index) :
  access_is_scalar (Indexed child mi) = true -> kind child <> 18%nat.
Proof. destruct child; simpl; intros H; try discriminate; congruence. Qed.

(** What the rewrite returns has no access into a component tensor left,
    keeps its flexibly indexed nodes on terminals, and is of the kind of the
    node it was called on (or the unit literal), unless that was an indexed
    access. *)
Lemma filtered_replace_indices_result (e : expr) :
  forall subst r,
    all_nodes access_is_scalar e = true ->
    filtered_replace_indices e subst = Ok r ->
    all_nodes no_tensor_access r = true
    /\ all_nodes flexible_terminal r = true
    /\ (kind e <> 18%nat -> kind r = kind e \/ kind r = 0%nat).
Proof.
  induction e as [e IHc IHb] using expr_rewrite_ind. intros subst r Hs H.
  assert (Generic :
    kind e <> 18%nat -> kind e <> 19%nat ->
    forall self,
      (forall c c', In c (children e) -> self c = Ok c' ->
                    all_nodes no_tensor_access c' = true
                    /\ all_nodes flexible_terminal c' = true) ->
      reuse_if_untouched self e = Ok r ->
      all_nodes no_tensor_access r = true
      /\ all_nodes flexible_terminal r = true
      /\ (kind e <> 18%nat -> kind r = kind e \/ kind r = 0%nat)).
  { intros K1 K2 self Hself Hr. apply reuse_if_untouched_Ok in Hr as [Hk Hf].
    assert (Hch : forall c', In c' (children r) ->
                             all_nodes no_tensor_access c' = true
                             /\ all_nodes flexible_terminal c' = true).
    { revert Hself Hf. generalize (children e) (children r).
      induction 2 as [|c c' cs cs' Hcc _ IH]; intros x Hx; [destruct Hx|].
      destruct Hx as [<- | Hx].
      - apply (Hself c); [left; reflexivity | exact Hcc].
      - apply IH; [|exact Hx]. intros y y' Hy. apply Hself. right. exact Hy. }
    split; [|split].
    - apply all_nodes_intro; [apply no_tensor_access_kind; congruence|].
      intros c' Hc'. apply Hch. exact Hc'.
    - apply all_nodes_intro; [apply flexible_terminal_kind; congruence|].
      intros c' Hc'. apply Hch. exact Hc'.
    - intros _. left. exact Hk. }
  assert (IHc' : forall s c c', In c (children e) -> filtered_replace_indices c s = Ok c' ->
                   all_nodes no_tensor_access c' = true
                   /\ all_nodes flexible_terminal c' = true).
  { intros s c c' Hin Hc.
    destruct (IHc c Hin s c' (@all_nodes_child _ _ _ Hs Hin) Hc) as (A & B & _). tauto. }
  destruct e as [ | | | | | | | | | | | | | | | | | | e multiindex | e dim2idxs | i j];
    try (match type of H with
         | filtered_replace_indices ?n ?s = _ =>
             apply (Generic ltac:(discriminate) ltac:(discriminate)
                      (fun c => filtered_replace_indices c
                                  (filter (fun kv => index_in (fst kv) (free_indices n)) s)));
             [intros c c' Hin Hc; eapply IHc'; eassumption | exact H]
         end).
  - (* Indexed *)
    clear Generic.
    destruct (not_ComponentTensor e) eqn:Ect.
    + rewrite filtered_replace_indices_Indexed in H by exact Ect. cbn zeta in H.
      apply bind_Ok in H as (nc & Hnc & H).
      assert (Hin : In e (children (Indexed e multiindex))) by (left; reflexivity).
      destruct (IHc e Hin _ nc (@all_nodes_child _ _ _ Hs Hin) Hnc) as (A & B & K).
      assert (Knc : kind nc <> 16%nat).
      { apply not_ComponentTensor_kind in Ect.
        destruct (K (@access_is_scalar_child _ _ (@all_nodes_root _ _ Hs))) as [E | E];
          rewrite E; [exact Ect | discriminate]. }
      assert (Res : forall mi, all_nodes no_tensor_access (Indexed nc mi) = true
                               /\ all_nodes flexible_terminal (Indexed nc mi) = true).
      { intros mi. split; apply all_nodes_intro; try reflexivity;
          try (intros c [<- | []]; assumption).
        destruct nc; simpl in *; try reflexivity. congruence. }
      destruct (expr_eqb nc e && _) eqn:E; injection H as <-.
      * apply andb_true_iff in E as [E _]. apply expr_eqb_eq in E. subst nc.
        destruct (Res multiindex) as [R1 R2]. split; [exact R1|]. split; [exact R2|].
        intros X; exfalso; apply X; reflexivity.
      * match goal with |- all_nodes _ (Indexed nc ?mi) = true /\ _ =>
          destruct (Res mi) as [R1 R2] end.
        split; [exact R1|]. split; [exact R2|].
        intros X; exfalso; apply X; reflexivity.
    + destruct e; simpl in Ect; try discriminate.
      rewrite filtered_replace_indices_Indexed_tensor in H. cbn zeta in H.
      assert (Hb : all_nodes access_is_scalar e = true).
      { eapply all_nodes_child; [eapply all_nodes_child; [exact Hs|left; reflexivity]|].
        left; reflexivity. }
      destruct (IHb e multiindex0 multiindex eq_refl _ r Hb H) as (A & B & _).
      split; [exact A|]. split; [exact B|]. intros X; exfalso; apply X; reflexivity.
  - (* FlexiblyIndexed *)
    clear Generic. simpl in H. unfold replace_indices_flexiblyindexed in H.
    apply bind_Ok in H as ([] & Ht & H). apply bind_Ok in H as ([] & _ & H).
    unfold assert in Ht. destruct (is_Terminal e) eqn:Et; [|discriminate].
    assert (Leaf : forall p, p e = true -> all_nodes p e = true).
    { intros p Hp. apply all_nodes_leaf; [|exact Hp].
      destruct e; simpl in Et; try discriminate; reflexivity. }
    assert (Res : forall d, all_nodes no_tensor_access (FlexiblyIndexed e d) = true
                            /\ all_nodes flexible_terminal (FlexiblyIndexed e d) = true).
    { intros d. split; apply all_nodes_intro; try reflexivity; try exact Et;
        intros c [<- | []]; apply Leaf;
        destruct e; simpl in Et; try discriminate; reflexivity. }
    destruct (dim2idxs_eqb _ dim2idxs); injection H as <-;
      (split; [apply Res|]; split; [apply Res|]; intros _; left; reflexivity).
  - (* Delta *)
    clear Generic. simpl in H. unfold replace_indices_delta in H.
    destruct (index_eqb _ i && index_eqb _ j); injection H as <-.
    + repeat split; try reflexivity. intros _. left; reflexivity.
    + unfold Delta_. destruct (index_eqb _ _); repeat split; try reflexivity;
        intros _; [right | left]; reflexivity.
Qed.

Lemma no_tensor_no_access (e : expr) :
  all_nodes not_ComponentTensor e = true -> all_nodes no_tensor_access e = true.
Proof.
  induction e as [e IHc _] using expr_rewrite_ind. intros H.
  apply all_nodes_intro.
  - destruct e; try reflexivity. destruct e; try reflexivity.
    assert (X : all_nodes not_ComponentTensor (ComponentTensor e multiindex0) = true).
    { eapply all_nodes_child; [exact H | left; reflexivity]. }
    apply all_nodes_root in X. discriminate.
  - intros c Hc. apply IHc; [exact Hc|]. eapply all_nodes_child; eassumption.
Qed.

(** C9.  Removing component tensors twice is the same as removing them
    once, for every list of expressions in which indexed accesses are
    scalars (no [Indexed] node is the aggregate of another, as the substrate
    builds them): the second application returns exactly the result of the
    first, and if the first raises, so does the pair.  And on expressions that
    contain no component tensor (and whose flexibly indexed nodes wrap
    terminals, as the handler asserts) removal returns the very same
    nodes. *)
Theorem remove_componenttensors_idempotent (expressions : list expr) :
  (forallb (all_nodes access_is_scalar) expressions = true ->
   (once <- remove_componenttensors expressions ;; remove_componenttensors once)
   = remove_componenttensors expressions)
  /\ (forallb (all_nodes not_ComponentTensor) expressions = true ->
      forallb (all_nodes flexible_terminal) expressions = true ->
      remove_componenttensors expressions = Ok expressions).
Proof.
  split.
  - intros Hs. destruct (remove_componenttensors expressions) as [once| |] eqn:E;
      try reflexivity.
    simpl. unfold remove_componenttensors in *.
    apply mapM_id. apply mapM_Ok_Forall2 in E.
    rewrite forallb_forall in Hs.
    induction E as [|x y xs ys Hxy _ IH]; constructor.
    + apply (filtered_replace_indices_result x) in Hxy as (A & B & _);
        [|apply Hs; left; reflexivity].
      apply filtered_replace_indices_fixpoint; assumption.
    + apply IH. intros z Hz. apply Hs. right. exact Hz.
  - intros Hct Hft. unfold remove_componenttensors. apply mapM_id.
    rewrite forallb_forall in Hct, Hft. apply Forall_forall. intros x Hx.
    apply filtered_replace_indices_fixpoint; [|apply Hft; exact Hx].
    apply no_tensor_no_access. apply Hct. exact Hx.
Qed.

Definition tabulation : expr := Variable_ "A" [3; 3].
Definition index_a : index := Index 1 (Some 3).
Definition index_b : index := Index 2 (Some 3).
Definition index_i : index := Index 3 (Some 3).
Definition index_k : index := Index 4 (Some 3).

(** [A[a, b]] bound over [(a, b)] and accessed at [(i, k)]. *)
Definition tensor_access : expr :=
  Indexed (ComponentTensor (Indexed tabulation [index_a; index_b]) [index_a; index_b])
          [index_i; index_k].

Lemma remove_componenttensors_idempotent_witness :
  ((once <- remove_componenttensors [tensor_access] ;; remove_componenttensors once)
   = remove_componenttensors [tensor_access])
  /\ remove_componenttensors [Indexed tabulation [index_i; index_k]]
     = Ok [Indexed tabulation [index_i; index_k]].
Proof.
  split.
  - apply (proj1 (remove_componenttensors_idempotent [tensor_access])). reflexivity.
  - apply (proj2 (remove_componenttensors_idempotent [Indexed tabulation [index_i; index_k]]));
      reflexivity.
Defined.


(** ** Evaluation of expressions (for C4) *)


Section Semantics.

(** Scalars form a commutative ring (exact arithmetic). *)
Variable R : Type.
Variables (rO rI : R) (radd rmul rsub : R -> R -> R) (ropp : R -> R).
Hypothesis Rth : ring_theory rO rI radd rmul rsub ropp eq.
Add Ring Rring : Rth.

Local Notation "x [+] y" := (radd x y) (at level 50, left associativity).
Local Notation "x [*] y" := (rmul x y) (at level 40, left associativity).

(** Sums and products of finitely many scalars. *)
Definition rsum {A : Type} (l : list A) (g : A -> R) : R :=
  fold_right (fun v acc => g v [+] acc) rO l.

Definition rprod (l : list R) : R := fold_right rmul rI l.

(** Modelled from the spec: the value of the variables and of the operators
    that are not ring operations, given with the assignment ("for every
    assignment of free indices and variables"); [gem.gem] and its evaluator
    are not part of the sources. *)
Record interp : Type := mk_interp {
  of_Q : Q -> R;
  variable_value : string -> list Z -> R;
  failure_value : R;
  division : R -> R -> R;
  power : R -> R -> R;
  math_function : string -> R -> R;
  comparison : string -> R -> R -> R;
  logical_not : R -> R;
  logical_and : R -> R -> R;
  logical_or : R -> R -> R;
  conditional : R -> R -> R -> R;
  variable_index_value : expr -> Z
}.

Variable mu : interp.

(** An assignment of the free indices. *)
Definition ienv : Type := index -> Z.

Definition upd (rho : ienv) (i : index) (v : Z) : ienv :=
  fun k => if index_eqb k i then v else rho k.

(** Binding several indices; a later pair overrides an earlier one. *)
Fixpoint upd_list (rho : ienv) (l : list (index * Z)) : ienv :=
  match l with
  | [] => rho
  | (i, v) :: t => upd_list (upd rho i v) t
  end.

(** The value of an index of any kind. *)
Definition ival (rho : ienv) (i : index) : Z :=
  match i with
  | IntIndex n => n
  | Index _ _ => rho i
  | VariableIndex e => variable_index_value mu e
  end.

(** The values a summation index runs over. *)
Definition range_of (i : index) : list Z :=
  match extent i with
  | Some n => range n
  | None => []
  end.

(** The contraction over a multiindex of a function of the assignment. *)
Fixpoint isum (rho : ienv) (mi : list index) (f : ienv -> R) : R :=
  match mi with
  | [] => f rho
  | i :: mi' => rsum (range_of i) (fun v => isum (upd rho i v) mi' f)
  end.

(** Row-major position in a flattened array. *)
Definition flat_index (shape pos : list Z) : Z :=
  fold_left (fun acc np => acc * fst np + snd np) (combine shape pos) 0.

(** Modelled from the spec: the meaning of the node kinds of section 3.  A
    value is a function of the position in the shape of the node; a scalar
    is read at the empty position. *)
Fixpoint eval (e : expr) (rho : ienv) (pos : list Z) {struct e} : R :=
  match e with
  | Literal a => of_Q mu (nth (Z.to_nat (flat_index (nd_shape a) pos)) (nd_data a) 0%Q)
  | Zero _ => rO
  | Identity _ =>
      match pos with
      | [a; b] => if a =? b then rI else rO
      | _ => rO
      end
  | Failure _ _ => failure_value mu
  | Variable_ name _ => variable_value mu name pos
  | Sum a b => eval a rho pos [+] eval b rho pos
  | Product a b => eval a rho pos [*] eval b rho pos
  | Division a b => division mu (eval a rho pos) (eval b rho pos)
  | Power a b => power mu (eval a rho pos) (eval b rho pos)
  | MathFunction name a => math_function mu name (eval a rho pos)
  | Comparison op a b => comparison mu op (eval a rho pos) (eval b rho pos)
  | LogicalNot a => logical_not mu (eval a rho pos)
  | LogicalAnd a b => logical_and mu (eval a rho pos) (eval b rho pos)
  | LogicalOr a b => logical_or mu (eval a rho pos) (eval b rho pos)
  | Conditional c a b => conditional mu (eval c rho []) (eval a rho pos) (eval b rho pos)
  | IndexSum a mi => isum rho mi (fun rho' => eval a rho' pos)
  | ComponentTensor a mi =>
      eval a (upd_list rho (combine mi (pos ++ repeat 0 (length mi))))
           (skipn (length mi) pos)
  | ListTensor shape l =>
      nth (Z.to_nat (flat_index shape (firstn (length shape) pos)))
          (map (fun x => eval x rho (skipn (length shape) pos)) l) rO
  | Indexed a mi => eval a rho (map (ival rho) mi ++ pos)
  | FlexiblyIndexed v d =>
      eval v rho
           (map (fun oi => fold_left (fun acc ix => acc + ival rho (fst ix) * snd ix)
                                     (snd oi) (fst oi)) d)
  | Delta i j => if ival rho i =? ival rho j then rI else rO
  end.

(** The value of a scalar expression, and of a product of factors. *)
Definition value (rho : ienv) (e : expr) : R := eval e rho [].

Definition product_value (factors : list expr) (rho : ienv) : R :=
  rprod (map (value rho) factors).

(** *** Finite sums *)

Lemma rsum_ext (A : Type) (l : list A) (g h : A -> R) :
  (forall v, In v l -> g v = h v) -> rsum l g = rsum l h.
Proof.
  induction l as [|x l IH]; simpl; intros H; [reflexivity|].
  rewrite H by (left; reflexivity). rewrite IH; [reflexivity|].
  intros v Hv. apply H. right. exact Hv.
Qed.

Lemma rsum_add (A : Type) (l : list A) (g h : A -> R) :
  rsum l (fun v => g v [+] h v) = rsum l g [+] rsum l h.
Proof. induction l as [|x l IH]; simpl; [ring | rewrite IH; ring]. Qed.

Lemma rsum_scale (A : Type) (l : list A) (c : R) (g : A -> R) :
  rsum l (fun v => c [*] g v) = c [*] rsum l g.
Proof. induction l as [|x l IH]; simpl; [ring | rewrite IH; ring]. Qed.

Lemma rsum_zero (A : Type) (l : list A) : rsum l (fun _ => rO) = rO.
Proof. induction l as [|x l IH]; simpl; [reflexivity | rewrite IH; ring]. Qed.

Lemma rsum_swap (A B : Type) (la : list A) (lb : list B) (g : A -> B -> R) :
  rsum la (fun a => rsum lb (fun b => g a b)) = rsum lb (fun b => rsum la (fun a => g a b)).
Proof.
  induction la as [|x la IH]; simpl.
  - symmetry. apply rsum_zero.
  - rewrite IH. symmetry. apply rsum_add.
Qed.

Lemma rsum_app (A : Type) (l1 l2 : list A) (g : A -> R) :
  rsum (l1 ++ l2) g = rsum l1 g [+] rsum l2 g.
Proof. induction l1 as [|x l IH]; simpl; [ring | rewrite IH; ring]. Qed.

Lemma rsum_perm (A : Type) (l l' : list A) (g : A -> R) :
  Permutation l l' -> rsum l g = rsum l' g.
Proof.
  induction 1; simpl; try ring.
  - rewrite IHPermutation. reflexivity.
  - congruence.
Qed.

(** A sum whose terms vanish except at [t], which occurs once. *)
Lemma rsum_single (l : list Z) (t : Z) (g : Z -> R) :
  NoDup l -> In t l -> rsum l (fun v => if v =? t then g v else rO) = g t.
Proof.
  induction l as [|x l IH]; simpl; intros Hnd Hin; [contradiction|].
  inversion Hnd as [|? ? Hx Hnd']; subst.
  destruct (x =? t) eqn:E.
  - apply Z.eqb_eq in E. subst x.
    rewrite (@rsum_ext _ l _ (fun _ => rO)); [rewrite rsum_zero; ring|].
    intros v Hv. destruct (v =? t) eqn:E; [|reflexivity].
    apply Z.eqb_eq in E. subst. contradiction.
  - destruct Hin as [-> | Hin]; [rewrite Z.eqb_refl in E; discriminate|].
    rewrite IH by assumption. ring.
Qed.

Lemma rprod_app (l1 l2 : list R) : rprod (l1 ++ l2) = rprod l1 [*] rprod l2.
Proof. induction l1 as [|x l IH]; simpl; [ring | rewrite IH; ring]. Qed.

Lemma rprod_perm (l l' : list R) : Permutation l l' -> rprod l = rprod l'.
Proof.
  induction 1; simpl; try ring.
  - rewrite IHPermutation. reflexivity.
  - congruence.
Qed.

Lemma rprod_zero (l : list R) : In rO l -> rprod l = rO.
Proof.
  induction l as [|x l IH]; simpl; [tauto|].
  intros [-> | H]; [ring | rewrite IH by exact H; ring].
Qed.

Lemma range_NoDup (n : Z) : NoDup (range n).
Proof.
  unfold range. generalize (seq_NoDup (Z.to_nat n) 0).
  induction 1 as [|x l Hx _ IH]; simpl; constructor; [|exact IH].
  rewrite in_map_iff. intros (k & E & Hk). apply Nat2Z.inj in E. subst. contradiction.
Qed.

Lemma range_In (n v : Z) : In v (range n) <-> 0 <= v < n.
Proof.
  unfold range. rewrite in_map_iff. split.
  - intros (k & <- & Hk). apply in_seq in Hk. lia.
  - intros H. exists (Z.to_nat v). split; [lia|]. apply in_seq. lia.
Qed.

(** *** Only the free indices matter *)

Definition agree_on (l : list index) (rho1 rho2 : ienv) : Prop :=
  forall i, In i l -> rho1 i = rho2 i.

Lemma In_dedup_index_iff (x : index) (l : list index) : In x (dedup_index l) <-> In x l.
Proof.
  split; [apply In_dedup_index|].
  induction l as [|y t IH]; simpl; [tauto|].
  intros [-> | H]; [left; reflexivity|].
  destruct (index_eqb y x) eqn:E.
  - apply index_eqb_eq in E. left. exact E.
  - right. apply filter_In. split; [apply IH; exact H | rewrite E; reflexivity].
Qed.

Lemma In_insert_by_id_iff (x i : index) (l : list index) :
  In x (insert_by_id i l) <-> x = i \/ In x l.
Proof.
  split; [apply In_insert_by_id|].
  induction l as [|j t IH]; simpl.
  - intros [-> | []]. left; reflexivity.
  - destruct (index_id i <? index_id j)%nat; simpl.
    + intros [-> | [-> | H]]; auto.
    + intros [-> | [-> | H]]; auto.
Qed.

Lemma In_sort_by_id_iff (x : index) (l : list index) : In x (sort_by_id l) <-> In x l.
Proof.
  split; [apply In_sort_by_id|].
  unfold sort_by_id.
  assert (G : forall acc, In x acc \/ In x l ->
                          In x (fold_left (fun acc i => insert_by_id i acc) l acc)).
  { induction l as [|i l IH]; intros acc H; simpl in *; [tauto|].
    apply IH. destruct H as [H | [-> | H]].
    - left. apply In_insert_by_id_iff. right. exact H.
    - left. apply In_insert_by_id_iff. left. reflexivity.
    - right. exact H. }
  intros H. apply G. right. exact H.
Qed.

Lemma In_unique_iff (x : index) (l : list index) : In x (unique l) <-> In x l.
Proof. unfold unique. rewrite In_sort_by_id_iff. apply In_dedup_index_iff. Qed.

Lemma ival_agree (rho1 rho2 : ienv) (i : index) :
  (is_Index i = true -> rho1 i = rho2 i) -> ival rho1 i = ival rho2 i.
Proof. destruct i; simpl; intros H; try reflexivity. apply H. reflexivity. Qed.

Lemma upd_agree (rho1 rho2 : ienv) (i : index) (v : Z) (k : index) :
  (k = i \/ rho1 k = rho2 k) -> upd rho1 i v k = upd rho2 i v k.
Proof.
  unfold upd. destruct (index_eqb k i) eqn:E; [reflexivity|].
  intros [-> | H]; [rewrite index_eqb_refl in E; discriminate | exact H].
Qed.

Lemma upd_list_agree (l : list (index * Z)) :
  forall rho1 rho2 k,
    (In k (map fst l) \/ rho1 k = rho2 k) -> upd_list rho1 l k = upd_list rho2 l k.
Proof.
  induction l as [|[i v] l IH]; simpl; intros rho1 rho2 k H.
  - destruct H as [[] | H]. exact H.
  - apply IH. destruct (in_dec (fun a b => match index_eqb a b as c
                                                 return index_eqb a b = c -> {a = b} + {a <> b} with
                                           | true => fun E => left (proj1 (index_eqb_eq a b) E)
                                           | false => fun E => right (proj1 (index_eqb_neq a b) E)
                                           end eq_refl) k (map fst l)) as [Hin | Hnin].
    + left. exact Hin.
    + right. apply upd_agree. destruct H as [[<- | H] | H]; auto. contradiction.
Qed.

Lemma isum_ext_on (L : list index) (mi : list index) (f g : ienv -> R) :
  (forall rho1 rho2, agree_on L rho1 rho2 -> f rho1 = g rho2) ->
  forall rho1 rho2,
    (forall k, In k L -> In k mi \/ rho1 k = rho2 k) ->
    isum rho1 mi f = isum rho2 mi g.
Proof.
  intros Hfg. induction mi as [|i mi IH]; intros rho1 rho2 H; simpl.
  - apply Hfg. intros k Hk. destruct (H k Hk) as [[] | E]. exact E.
  - apply rsum_ext. intros v _. apply IH. intros k Hk.
    destruct (index_eqb k i) eqn:E.
    + right. unfold upd. rewrite E. reflexivity.
    + destruct (H k Hk) as [[<- | Hin] | Heq].
      * rewrite index_eqb_refl in E. discriminate.
      * left. exact Hin.
      * right. unfold upd. rewrite E. exact Heq.
Qed.

Lemma agree_on_incl (l l' : list index) (rho1 rho2 : ienv) :
  incl l l' -> agree_on l' rho1 rho2 -> agree_on l rho1 rho2.
Proof. intros Hi H k Hk. apply H, Hi, Hk. Qed.

Lemma agree_on_unique (l : list index) (rho1 rho2 : ienv) :
  agree_on (unique l) rho1 rho2 -> agree_on l rho1 rho2.
Proof. intros H k Hk. apply H. apply In_unique_iff. exact Hk. Qed.

Lemma map_ival_agree (rho1 rho2 : ienv) (mi : list index) :
  agree_on (filter is_Index mi) rho1 rho2 -> map (ival rho1) mi = map (ival rho2) mi.
Proof.
  intros H. apply map_ext_in. intros i Hi. apply ival_agree. intros Hx.
  apply H. apply filter_In. split; assumption.
Qed.

Lemma map_fst_combine (A B : Type) (l : list A) (l' : list B) :
  (length l <= length l')%nat -> map fst (combine l l') = l.
Proof.
  revert l'. induction l as [|x l IH]; intros [|y l'] H; simpl in *;
    try reflexivity; try lia.
  rewrite IH by lia. reflexivity.
Qed.

(** The value of an expression depends on the assignment of its free
    indices only. *)
Lemma eval_agree (e : expr) :
  forall rho1 rho2 pos,
    agree_on (free_indices e) rho1 rho2 -> eval e rho1 pos = eval e rho2 pos.
Proof.
  induction e using expr_index_ind with (R := fun _ => True); try exact I;
    intros rho1 rho2 pos Hag; simpl in *; try reflexivity;
    try (apply agree_on_unique in Hag);
    try (rewrite (IHe1 rho1 rho2), (IHe2 rho1 rho2);
         [reflexivity | | ];
         eapply agree_on_incl; try exact Hag; intros k Hk; apply in_or_app; auto; fail).
  - (* MathFunction *) rewrite (IHe rho1 rho2); [reflexivity | exact Hag].
  - (* LogicalNot *) rewrite (IHe rho1 rho2); [reflexivity | exact Hag].
  - (* Conditional *)
    rewrite (IHe1 rho1 rho2), (IHe2 rho1 rho2), (IHe3 rho1 rho2); [reflexivity | | | ];
      eapply agree_on_incl; try exact Hag; intros k Hk; apply in_or_app; auto;
      right; apply in_or_app; auto.
  - (* IndexSum *)
    apply isum_ext_on with (L := free_indices e).
    + intros r1 r2 Hr. apply IHe. exact Hr.
    + intros k Hk. destruct (index_in k mi) eqn:E.
      * left. apply index_in_In. exact E.
      * right. apply Hag. apply filter_In. split; [exact Hk | rewrite E; reflexivity].
  - (* ComponentTensor *)
    apply IHe. intros k Hk. apply upd_list_agree.
    destruct (index_in k mi) eqn:E.
    + left. apply index_in_In in E.
      rewrite map_fst_combine; [exact E|]. rewrite length_app, repeat_length. lia.
    + right. apply Hag. apply filter_In. split; [exact Hk | rewrite E; reflexivity].
  - (* ListTensor *)
    f_equal. apply map_ext_in. intros x Hx.
    rewrite Forall_forall in H. apply H; [exact Hx|].
    eapply agree_on_incl; [|exact Hag]. intros k Hk. apply in_flat_map. exists x. auto.
  - (* Indexed *)
    rewrite (IHe rho1 rho2).
    + rewrite (@map_ival_agree rho1 rho2 mi); [reflexivity|].
      eapply agree_on_incl; [|exact Hag]. intros k Hk. apply in_or_app. auto.
    + eapply agree_on_incl; [|exact Hag]. intros k Hk. apply in_or_app. auto.
  - (* FlexiblyIndexed *)
    rewrite (IHe rho1 rho2).
    + f_equal. apply map_ext_in. intros [o idxs] Hoi. simpl.
      assert (G : forall acc, fold_left (fun acc ix => acc + ival rho1 (fst ix) * snd ix) idxs acc
                              = fold_left (fun acc ix => acc + ival rho2 (fst ix) * snd ix) idxs acc).
      { assert (Hix : forall ix, In ix idxs -> ival rho1 (fst ix) = ival rho2 (fst ix)).
        { intros ix Hix. apply ival_agree. intros Hi. apply Hag. apply in_or_app. right.
          apply filter_In. split; [|exact Hi]. unfold dim2idxs_indices.
          apply in_flat_map. exists (o, idxs). split; [exact Hoi|]. simpl.
          apply in_map. exact Hix. }
        clear Hoi. induction idxs as [|ix idxs IHi]; intros acc; simpl; [reflexivity|].
        rewrite Hix by (left; reflexivity). apply IHi. intros y Hy. apply Hix. right. exact Hy. }
      apply G.
    + eapply agree_on_incl; [|exact Hag]. intros k Hk. apply in_or_app. auto.
  - (* Delta *)
    rewrite (@ival_agree rho1 rho2 i), (@ival_agree rho1 rho2 j); [reflexivity | | ];
      intros Hi; apply Hag; rewrite Hi; try destruct (is_Index i); simpl; auto.
Qed.

(** *** Contractions *)

(** Functions of the assignment that do not tell apart assignments with the
    same values. *)
Definition extensional (f : ienv -> R) : Prop :=
  forall rho1 rho2, (forall k, rho1 k = rho2 k) -> f rho1 = f rho2.

Lemma value_extensional (e : expr) : extensional (fun rho => value rho e).
Proof. intros rho1 rho2 H. apply eval_agree. intros k _. apply H. Qed.

Lemma product_value_extensional (factors : list expr) :
  extensional (product_value factors).
Proof.
  intros rho1 rho2 H. unfold product_value. f_equal. apply map_ext.
  intros e. apply value_extensional. exact H.
Qed.

Lemma isum_ext (mi : list index) (f g : ienv -> R) :
  (forall rho, f rho = g rho) -> forall rho, isum rho mi f = isum rho mi g.
Proof.
  intros H. induction mi as [|i mi IH]; intros rho; simpl; [apply H|].
  apply rsum_ext. intros v _. apply IH.
Qed.

Lemma isum_env_ext (mi : list index) (f : ienv -> R) :
  extensional f -> extensional (fun rho => isum rho mi f).
Proof.
  intros Hf. induction mi as [|i mi IH]; intros rho1 rho2 H; simpl; [apply Hf; exact H|].
  apply rsum_ext. intros v _. apply IH. intros k. unfold upd.
  destruct (index_eqb k i); [reflexivity | apply H].
Qed.

Lemma isum_add (mi : list index) (f g : ienv -> R) :
  forall rho, isum rho mi (fun r => f r [+] g r) = isum rho mi f [+] isum rho mi g.
Proof.
  induction mi as [|i mi IH]; intros rho; simpl; [reflexivity|].
  rewrite <- rsum_add. apply rsum_ext. intros v _. apply IH.
Qed.

Lemma isum_zero (mi : list index) : forall rho, isum rho mi (fun _ => rO) = rO.
Proof.
  induction mi as [|i mi IH]; intros rho; simpl; [reflexivity|].
  transitivity (rsum (range_of i) (fun _ => rO)); [|apply rsum_zero].
  apply rsum_ext. intros v _. apply IH.
Qed.

Lemma isum_rsum (A : Type) (l : list A) (mi : list index) (F : A -> ienv -> R) :
  forall rho, isum rho mi (fun r => rsum l (fun x => F x r))
              = rsum l (fun x => isum rho mi (F x)).
Proof.
  induction l as [|x l IH]; intros rho; simpl.
  - apply isum_zero.
  - rewrite isum_add, IH. reflexivity.
Qed.

Lemma isum_app (l1 l2 : list index) (f : ienv -> R) :
  forall rho, isum rho (l1 ++ l2) f = isum rho l1 (fun r => isum r l2 f).
Proof.
  induction l1 as [|i l1 IH]; intros rho; simpl; [reflexivity|].
  apply rsum_ext. intros v _. apply IH.
Qed.

(** The order of summation does not matter. *)
Lemma isum_perm (mi mi' : list index) (f : ienv -> R) :
  extensional f -> Permutation mi mi' -> forall rho, isum rho mi f = isum rho mi' f.
Proof.
  intros Hf. induction 1 as [| x l l' _ IH | x y l | l l' l'' _ IH1 _ IH2]; intros rho.
  - reflexivity.
  - simpl. apply rsum_ext. intros v _. apply IH.
  - destruct (index_eqb x y) eqn:E.
    + apply index_eqb_eq in E. subst. reflexivity.
    + simpl. rewrite rsum_swap. apply rsum_ext. intros a _. apply rsum_ext. intros b _.
      apply isum_env_ext; [exact Hf|]. intros k. unfold upd.
      destruct (index_eqb k x) eqn:Ex, (index_eqb k y) eqn:Ey; try reflexivity.
      apply index_eqb_eq in Ex, Ey. subst. rewrite index_eqb_refl in E. discriminate.
  - rewrite IH1. apply IH2.
Qed.

Lemma isum_rev (mi : list index) (f : ienv -> R) (rho : ienv) :
  extensional f -> isum rho (rev mi) f = isum rho mi f.
Proof. intros Hf. apply isum_perm; [exact Hf | apply Permutation_sym, Permutation_rev]. Qed.

(** *** Trees of products and of sums *)

Lemma BuiltFrom_Product_value (t : expr) (l : list expr) :
  BuiltFrom Product t l -> forall rho, value rho t = product_value l rho.
Proof.
  induction 1 as [e | a b la lb l _ IHa _ IHb Hp]; intros rho; unfold product_value in *.
  - simpl. ring.
  - unfold value in *. simpl. rewrite IHa, IHb.
    rewrite <- rprod_app, <- map_app. apply rprod_perm. apply Permutation_map. exact Hp.
Qed.

Lemma BuiltFrom_Sum_value (t : expr) (l : list expr) :
  BuiltFrom Sum t l -> forall rho, value rho t = rsum l (value rho).
Proof.
  induction 1 as [e | a b la lb l _ IHa _ IHb Hp]; intros rho.
  - simpl. ring.
  - unfold value in *. simpl. rewrite IHa, IHb. rewrite <- rsum_app.
    apply rsum_perm. exact Hp.
Qed.

Lemma associate_product_value (factors : list expr) (t : expr) (flops : Z) :
  associate_product factors = Ok (t, flops) ->
  forall rho, value rho t = product_value factors rho.
Proof. intros H. apply BuiltFrom_Product_value. eapply associate_product_BuiltFrom. exact H. Qed.

Lemma rsum_repeat_Zero (n : nat) (rho : ienv) :
  rsum (repeat (Zero []) n) (value rho) = rO.
Proof. induction n as [|n IH]; simpl; [reflexivity|]. rewrite IH. unfold value. simpl. ring. Qed.

Lemma associate_sum_value (summands : list expr) (t : expr) (flops : Z) :
  associate_sum summands = Ok (t, flops) ->
  forall rho, value rho t = rsum summands (value rho).
Proof.
  intros H rho. apply associate_sum_BuiltFrom in H.
  rewrite (BuiltFrom_Sum_value H), rsum_app, rsum_repeat_Zero. ring.
Qed.

(** *** Sum factorisation *)

(** The literal one stands for the unit of the ring. *)
Definition literal_one_is_unit : Prop := of_Q mu 1%Q = rI.

Hypothesis of_Q_one : literal_one_is_unit.

Lemma value_one (rho : ienv) : value rho one = rI.
Proof. exact of_Q_one. Qed.

Lemma product_value_app (l1 l2 : list expr) (rho : ienv) :
  product_value (l1 ++ l2) rho = product_value l1 rho [*] product_value l2 rho.
Proof. unfold product_value. rewrite map_app. apply rprod_app. Qed.

Lemma product_value_perm (l l' : list expr) (rho : ienv) :
  Permutation l l' -> product_value l rho = product_value l' rho.
Proof. intros H. unfold product_value. apply rprod_perm, Permutation_map, H. Qed.

Lemma product_value_cons (e : expr) (l : list expr) (rho : ienv) :
  product_value (e :: l) rho = value rho e [*] product_value l rho.
Proof. reflexivity. Qed.

Lemma selections_perm (A : Type) (l : list A) :
  forall x r, In (x, r) (selections l) -> Permutation (x :: r) l.
Proof.
  induction l as [|y t IH]; simpl; intros x r H; [contradiction|].
  destruct H as [H | H].
  - injection H as <- <-. reflexivity.
  - apply in_map_iff in H as ([x' r'] & E & H). simpl in E. injection E as <- <-.
    apply IH in H. rewrite perm_swap. constructor. exact H.
Qed.

Lemma permutations_n_perm (A : Type) (n : nat) :
  forall (l p : list A), In p (permutations_n n l) ->
    exists rest, Permutation (p ++ rest) l /\ length p = n.
Proof.
  induction n as [|n IH]; simpl; intros l p H.
  - destruct H as [<- | []]. exists l. split; reflexivity.
  - apply in_flat_map in H as ([x r] & Hs & H). simpl in H.
    apply in_map_iff in H as (q & <- & Hq). apply IH in Hq as (rest & Hp & Hl).
    exists rest. split; [|simpl; congruence].
    simpl. rewrite Hp. apply selections_perm. exact Hs.
Qed.

Lemma permutations_perm (A : Type) (l p : list A) :
  In p (permutations l) -> Permutation p l.
Proof.
  intros H. apply permutations_n_perm in H as (rest & Hp & Hl).
  assert (rest = []) as ->.
  { apply Permutation_length in Hp. rewrite length_app in Hp.
    destruct rest; [reflexivity | simpl in Hp; lia]. }
  rewrite app_nil_r in Hp. exact Hp.
Qed.

Lemma filter_partition_perm (A : Type) (f : A -> bool) (l : list A) :
  Permutation (filter f l ++ filter (fun x => negb (f x)) l) l.
Proof.
  induction l as [|x l IH]; simpl; [reflexivity|].
  destruct (f x); simpl.
  - constructor. exact IH.
  - rewrite <- Permutation_middle. constructor. exact IH.
Qed.

(** A term without the index does not see its value. *)
Lemma product_value_deferred (i : index) (v : Z) (terms : list expr) (rho : ienv) :
  product_value (filter (fun t => negb (index_in i (free_indices t))) terms) (upd rho i v)
  = product_value (filter (fun t => negb (index_in i (free_indices t))) terms) rho.
Proof.
  unfold product_value. f_equal. apply map_ext_in. intros t Ht.
  apply filter_In in Ht as [_ Ht]. apply eval_agree. intros k Hk. unfold upd.
  destruct (index_eqb k i) eqn:E; [|reflexivity].
  apply index_eqb_eq in E. subst k. apply index_in_In in Hk. rewrite Hk in Ht. discriminate.
Qed.

Lemma contract_ordering_value (ordering : list index) :
  forall terms flops terms' flops',
    contract_ordering ordering terms flops = Ok (terms', flops') ->
    forall rho, product_value terms' rho = isum rho (rev ordering) (product_value terms).
Proof.
  induction ordering as [|i ordering IH]; intros terms flops terms' flops' H rho.
  - simpl in H. injection H as <- _. reflexivity.
  - cbn [contract_ordering] in H. cbv zeta in H.
    apply bind_Ok in H as ([product fl] & Hp & H). cbv beta iota in H.
    apply bind_Ok in H as (p & _ & H).
    apply IH with (rho := rho) in H. rewrite H. simpl rev. rewrite isum_app.
    apply isum_ext. intros r. cbn [isum]. rewrite product_value_app.
    transitivity (rsum (range_of i)
                    (fun v => product_value
                                (filter (fun t => negb (index_in i (free_indices t))) terms) r
                              [*] value (upd r i v) product)).
    + rewrite rsum_scale. unfold product_value at 2, value. simpl. ring.
    + apply rsum_ext. intros v _.
      rewrite <- (product_value_perm (upd r i v)
                    (filter_partition_perm (fun t => index_in i (free_indices t)) terms)).
      rewrite product_value_app, product_value_deferred.
      rewrite (@associate_product_value _ _ _ Hp). ring.
Qed.

Lemma fold_left_Product_value (ts : list expr) :
  forall t rho, value rho (fold_left Product ts t) = value rho t [*] product_value ts rho.
Proof.
  induction ts as [|x ts IH]; intros t rho; simpl.
  - unfold product_value. simpl. ring.
  - rewrite IH. rewrite product_value_cons. unfold value. simpl. ring.
Qed.

Lemma reduce_Product_value (ts : list expr) (e : expr) :
  reduce_Product ts = Ok e -> forall rho, value rho e = product_value ts rho.
Proof.
  destruct ts as [|t ts]; simpl; intros H rho; [discriminate|].
  injection H as <-. rewrite fold_left_Product_value. reflexivity.
Qed.

Lemma groups_value (K : Type) (gs : list (K * list expr)) (groups : list expr) :
  mapM (fun g => reduce_Product (snd g)) gs = Ok groups ->
  forall rho, product_value groups rho = product_value (concat (map snd gs)) rho.
Proof.
  intros H rho. apply mapM_Ok_Forall2 in H.
  induction H as [|g e gs groups Hg _ IH]; [reflexivity|].
  simpl. rewrite product_value_app, product_value_cons, IH.
  rewrite (@reduce_Product_value _ _ Hg). reflexivity.
Qed.

Lemma sum_factorise_orderings_value (si : list index) (groups : list expr)
    (orderings : list (list index)) :
  forall best best',
    (forall o, In o orderings -> Permutation o si) ->
    (forall e fl, best = Some (e, fl) ->
       forall rho, value rho e = isum rho si (product_value groups)) ->
    sum_factorise_orderings orderings groups best = Ok best' ->
    forall e fl, best' = Some (e, fl) ->
      forall rho, value rho e = isum rho si (product_value groups).
Proof.
  induction orderings as [|o orderings IH]; intros best best' Hperm Hbest H.
  - simpl in H. injection H as <-. exact Hbest.
  - cbn [sum_factorise_orderings] in H.
    apply bind_Ok in H as ([terms fl1] & Hc & H). cbv beta iota in H.
    apply bind_Ok in H as ([e1 fl2] & Ha & H). cbv beta iota zeta in H.
    assert (He1 : forall rho, value rho e1 = isum rho si (product_value groups)).
    { intros rho. rewrite (@associate_product_value _ _ _ Ha).
      rewrite (@contract_ordering_value _ _ _ _ _ Hc).
      rewrite isum_rev by apply product_value_extensional.
      apply isum_perm; [apply product_value_extensional|].
      apply Hperm. left. reflexivity. }
    eapply IH; [| | exact H].
    + intros o' Ho'. apply Hperm. right. exact Ho'.
    + intros e fl E. destruct best as [[e0 fl0]|].
      * destruct (wrap64 (fl1 + fl2) <? fl0).
        -- injection E as <- _. exact He1.
        -- eapply Hbest. exact E.
      * injection E as <- _. exact He1.
Qed.

(** [sum_factorise] returns the contraction over the summation indices of
    the product of the factors. *)
Lemma sum_factorise_value (sum_indices : list index) (factors : list expr) (e : expr) :
  sum_factorise sum_indices factors = Ok e ->
  forall rho, value rho e = isum rho sum_indices (product_value factors).
Proof.
  unfold sum_factorise. intros H rho.
  destruct (Nat.eqb (length factors) 0 && Nat.eqb (length sum_indices) 0) eqn:E0.
  - injection H as <-. apply andb_true_iff in E0 as [Ef Es].
    apply Nat.eqb_eq in Ef, Es. destruct factors; [|discriminate].
    destruct sum_indices; [|discriminate]. apply value_one.
  - destruct (5 <? length sum_indices)%nat; [discriminate|].
    apply bind_Ok in H as (groups & Hg & H).
    apply bind_Ok in H as (best & Hb & H).
    destruct best as [[e' fl]|]; [|discriminate]. injection H as <-.
    assert (Hgroups : forall r, product_value groups r = product_value factors r).
    { intros r. rewrite (groups_value _ Hg). apply product_value_perm, group_by_perm. }
    rewrite (isum_ext sum_indices _ _ (fun r => eq_sym (Hgroups r))).
    eapply sum_factorise_orderings_value; [| | exact Hb | reflexivity].
    + intros o. apply permutations_perm.
    + intros ? ? E. discriminate.
Qed.

(** Dropping the literal one from a product does not change its value. *)
Lemma product_value_drop_ones (factors : list expr) (rho : ienv) :
  product_value (filter (fun e => negb (expr_eqb e one)) factors) rho
  = product_value factors rho.
Proof.
  induction factors as [|x l IH]; [reflexivity|]. simpl.
  destruct (expr_eqb x one) eqn:E; simpl.
  - apply expr_eqb_eq in E. subst x. rewrite IH, product_value_cons, value_one. ring.
  - rewrite !product_value_cons, IH. reflexivity.
Qed.

(** *** Substitution of an index *)

(** The indices a node binds itself, and all those bound inside an
    expression. *)
Definition bound_at (e : expr) : list index :=
  match e with
  | IndexSum _ mi | ComponentTensor _ mi => mi
  | _ => []
  end.

Definition binders (e : expr) : list index := flat_map bound_at (preorder e).

Lemma binders_unfold (e : expr) :
  binders e = bound_at e ++ flat_map binders (children e).
Proof.
  unfold binders. rewrite preorder_children. simpl. f_equal.
  induction (children e) as [|c cs IH]; simpl; [reflexivity|].
  rewrite flat_map_app, IH. reflexivity.
Qed.

(** A change of assignment that passes through the binding of [m]. *)
Definition commutes (T : ienv -> ienv) (m : index) : Prop :=
  forall rho v k, T (upd rho m v) k = upd (T rho) m v k.

Lemma isum_commute (T : ienv -> ienv) (f : ienv -> R) (mi : list index) :
  extensional f -> (forall m, In m mi -> commutes T m) ->
  forall rho, isum (T rho) mi f = isum rho mi (fun r => f (T r)).
Proof.
  intros Hf. induction mi as [|m mi IH]; intros Hc rho; simpl; [reflexivity|].
  apply rsum_ext. intros v _. rewrite <- IH by (intros; apply Hc; right; assumption).
  apply isum_env_ext; [exact Hf|]. intros k. symmetry. apply Hc. left. reflexivity.
Qed.

Lemma upd_list_ext (l : list (index * Z)) :
  forall rho1 rho2, (forall k, rho1 k = rho2 k) ->
                    forall k, upd_list rho1 l k = upd_list rho2 l k.
Proof.
  induction l as [|[m v] l IH]; simpl; intros rho1 rho2 H k; [apply H|].
  apply IH. intros k'. unfold upd. destruct (index_eqb k' m); [reflexivity | apply H].
Qed.

Lemma upd_list_commute (T : ienv -> ienv) (l : list (index * Z)) :
  (forall m, In m (map fst l) -> commutes T m) ->
  forall rho k, T (upd_list rho l) k = upd_list (T rho) l k.
Proof.
  induction l as [|[m v] l IH]; simpl; intros Hc rho k; [reflexivity|].
  rewrite IH by (intros; apply Hc; right; assumption).
  apply upd_list_ext. intros k'. apply Hc. left. reflexivity.
Qed.

Lemma eval_ext (e : expr) (rho1 rho2 : ienv) (pos : list Z) :
  (forall k, rho1 k = rho2 k) -> eval e rho1 pos = eval e rho2 pos.
Proof. intros H. apply eval_agree. intros k _. apply H. Qed.

Lemma Forall2_In_r (A B : Type) (P : A -> B -> Prop) (l : list A) (l' : list B) (y : B) :
  Forall2 P l l' -> In y l' -> exists x, In x l /\ P x y.
Proof.
  induction 1 as [|a b l l' Hab _ IH]; intros Hy; [destruct Hy|].
  destruct Hy as [<- | Hy].
  - exists a. split; [left; reflexivity | exact Hab].
  - destruct (IH Hy) as (x & Hx & Hp). exists x. split; [right; exact Hx | exact Hp].
Qed.

Lemma Forall2_map_eq (A B C : Type) (P : A -> B -> Prop) (f : A -> C) (g : B -> C)
    (l : list A) (l' : list B) :
  Forall2 P l l' -> (forall x y, In x l -> P x y -> g y = f x) -> map g l' = map f l.
Proof.
  induction 1 as [|a b l l' Hab _ IH]; intros H; [reflexivity|]. simpl. f_equal.
  - apply H; [left; reflexivity | exact Hab].
  - apply IH. intros x y Hx. apply H. right. exact Hx.
Qed.

Lemma un_Ok (self : expr -> result expr) (mk : expr -> expr) (a e' : expr) :
  bind (self a) (fun a' => Ok (if expr_eqb a' a then mk a else mk a')) = Ok e' ->
  exists a', self a = Ok a' /\ e' = mk a'.
Proof.
  intros H. apply bind_Ok in H as (a' & Ha & H). exists a'. split; [exact Ha|].
  injection H as <-. destruct (expr_eqb a' a) eqn:E; [|reflexivity].
  apply expr_eqb_eq in E. subst. reflexivity.
Qed.

Lemma bin_Ok (self : expr -> result expr) (mk : expr -> expr -> expr) (a b e' : expr) :
  bind (self a) (fun a' => bind (self b) (fun b' =>
    Ok (if expr_eqb a' a && expr_eqb b' b then mk a b else mk a' b'))) = Ok e' ->
  exists a' b', self a = Ok a' /\ self b = Ok b' /\ e' = mk a' b'.
Proof.
  intros H. apply bind_Ok in H as (a' & Ha & H). apply bind_Ok in H as (b' & Hb & H).
  exists a', b'. split; [exact Ha|]. split; [exact Hb|].
  injection H as <-. destruct (expr_eqb a' a && expr_eqb b' b) eqn:E; [|reflexivity].
  apply andb_true_iff in E as [E1 E2]. apply expr_eqb_eq in E1, E2. subst. reflexivity.
Qed.

Lemma tri_Ok (self : expr -> result expr) (c a b e' : expr) :
  bind (self c) (fun c' => bind (self a) (fun a' => bind (self b) (fun b' =>
    Ok (if expr_eqb c' c && expr_eqb a' a && expr_eqb b' b then Conditional c a b
        else Conditional c' a' b')))) = Ok e' ->
  exists c' a' b', self c = Ok c' /\ self a = Ok a' /\ self b = Ok b'
                   /\ e' = Conditional c' a' b'.
Proof.
  intros H. apply bind_Ok in H as (c' & Hc & H). apply bind_Ok in H as (a' & Ha & H).
  apply bind_Ok in H as (b' & Hb & H). exists c', a', b'.
  split; [exact Hc|]. split; [exact Ha|]. split; [exact Hb|].
  injection H as <-.
  destruct (expr_eqb c' c && expr_eqb a' a && expr_eqb b' b) eqn:E; [|reflexivity].
  apply andb_true_iff in E as [E E3]. apply andb_true_iff in E as [E1 E2].
  apply expr_eqb_eq in E1, E2, E3. subst. reflexivity.
Qed.

Lemma list_Ok (self : expr -> result expr) (s : list Z) (l : list expr) (e' : expr) :
  bind (mapM self l) (fun l' =>
    Ok (if list_eqb expr_eqb l' l then ListTensor s l else ListTensor s l')) = Ok e' ->
  exists l', Forall2 (fun c c' => self c = Ok c') l l' /\ e' = ListTensor s l'.
Proof.
  intros H. apply bind_Ok in H as (l' & Hl & H). exists l'.
  split; [apply mapM_Ok_Forall2; exact Hl|]. injection H as <-.
  destruct (list_eqb expr_eqb l' l) eqn:E; [|reflexivity].
  apply list_eqb_expr_eq in E. subst. reflexivity.
Qed.

Ltac un_case self mk H :=
  let a' := fresh "a'" in let Ha := fresh "Ha" in
  apply (@un_Ok self mk) in H as (a' & Ha & ->).

Ltac bin_case self mk H :=
  let a' := fresh "a'" in let b' := fresh "b'" in
  let Ha := fresh "Ha" in let Hb := fresh "Hb" in
  apply (@bin_Ok self mk) in H as (a' & b' & Ha & Hb & ->).

(** The default handler, seen through the values: when the rewrite of every
    child has the value of the child under the changed assignment, so has
    the rewrite of the node. *)
Lemma reuse_if_untouched_eval (T : ienv -> ienv) (self : expr -> result expr)
    (node e' : expr) :
  kind node <> 18%nat -> kind node <> 19%nat -> kind node <> 20%nat ->
  (forall c c', In c (children node) -> self c = Ok c' ->
                forall rho pos, eval c' rho pos = eval c (T rho) pos) ->
  (forall m, In m (bound_at node) -> commutes T m) ->
  reuse_if_untouched self node = Ok e' ->
  forall rho pos, eval e' rho pos = eval node (T rho) pos.
Proof.
  intros K1 K2 K3 Hc Hb H rho pos.
  destruct node; simpl in K1, K2, K3; try congruence; simpl in H;
    try (injection H as <-; reflexivity).
  - bin_case self Sum H. simpl.
    rewrite (Hc _ _ (or_introl eq_refl) Ha), (Hc _ _ (or_intror (or_introl eq_refl)) Hb0).
    reflexivity.
  - bin_case self Product H. simpl.
    rewrite (Hc _ _ (or_introl eq_refl) Ha), (Hc _ _ (or_intror (or_introl eq_refl)) Hb0).
    reflexivity.
  - bin_case self Division H. simpl.
    rewrite (Hc _ _ (or_introl eq_refl) Ha), (Hc _ _ (or_intror (or_introl eq_refl)) Hb0).
    reflexivity.
  - bin_case self Power H. simpl.
    rewrite (Hc _ _ (or_introl eq_refl) Ha), (Hc _ _ (or_intror (or_introl eq_refl)) Hb0).
    reflexivity.
  - un_case self (MathFunction name) H. simpl.
    rewrite (Hc _ _ (or_introl eq_refl) Ha). reflexivity.
  - bin_case self (Comparison op) H. simpl.
    rewrite (Hc _ _ (or_introl eq_refl) Ha), (Hc _ _ (or_intror (or_introl eq_refl)) Hb0).
    reflexivity.
  - un_case self LogicalNot H. simpl.
    rewrite (Hc _ _ (or_introl eq_refl) Ha). reflexivity.
  - bin_case self LogicalAnd H. simpl.
    rewrite (Hc _ _ (or_introl eq_refl) Ha), (Hc _ _ (or_intror (or_introl eq_refl)) Hb0).
    reflexivity.
  - bin_case self LogicalOr H. simpl.
    rewrite (Hc _ _ (or_introl eq_refl) Ha), (Hc _ _ (or_intror (or_introl eq_refl)) Hb0).
    reflexivity.
  - apply tri_Ok in H as (c' & a' & b' & H1 & H2 & H3 & ->). simpl.
    rewrite (Hc _ _ (or_introl eq_refl) H1), (Hc _ _ (or_intror (or_introl eq_refl)) H2),
      (Hc _ _ (or_intror (or_intror (or_introl eq_refl))) H3).
    reflexivity.
  - un_case self (fun a => IndexSum a multiindex) H. simpl.
    rewrite (@isum_commute T (fun r => eval node r pos) multiindex).
    + apply isum_ext. intros r. apply (Hc _ _ (or_introl eq_refl) Ha).
    + intros r1 r2 E. apply eval_ext. exact E.
    + exact Hb.
  - un_case self (fun a => ComponentTensor a multiindex) H. simpl.
    rewrite (Hc _ _ (or_introl eq_refl) Ha). apply eval_ext. intros k.
    apply upd_list_commute. intros m Hm. apply Hb. simpl.
    apply in_map_iff in Hm as ([m' v] & <- & Hm). apply in_combine_l in Hm. exact Hm.
  - apply list_Ok in H as (l' & Hl & ->). simpl. f_equal.
    eapply Forall2_map_eq; [exact Hl|]. intros x y Hx Hxy. apply (Hc _ _ Hx Hxy).
Qed.

Ltac reuse_cases self H :=
  match type of H with
  | context [Sum _ _] => apply (@bin_Ok self Sum) in H as (?a' & ?b' & ?Ha & ?Hb & ->)
  | context [Product _ _] =>
      apply (@bin_Ok self Product) in H as (?a' & ?b' & ?Ha & ?Hb & ->)
  | context [Division _ _] =>
      apply (@bin_Ok self Division) in H as (?a' & ?b' & ?Ha & ?Hb & ->)
  | context [Power _ _] => apply (@bin_Ok self Power) in H as (?a' & ?b' & ?Ha & ?Hb & ->)
  | context [LogicalAnd _ _] =>
      apply (@bin_Ok self LogicalAnd) in H as (?a' & ?b' & ?Ha & ?Hb & ->)
  | context [LogicalOr _ _] =>
      apply (@bin_Ok self LogicalOr) in H as (?a' & ?b' & ?Ha & ?Hb & ->)
  | context [Comparison ?o _ _] =>
      apply (@bin_Ok self (Comparison o)) in H as (?a' & ?b' & ?Ha & ?Hb & ->)
  | context [MathFunction ?n _] =>
      apply (@un_Ok self (MathFunction n)) in H as (?a' & ?Ha & ->)
  | context [LogicalNot _] => apply (@un_Ok self LogicalNot) in H as (?a' & ?Ha & ->)
  | context [IndexSum _ ?mi] =>
      apply (@un_Ok self (fun a => IndexSum a mi)) in H as (?a' & ?Ha & ->)
  | context [ComponentTensor _ ?mi] =>
      apply (@un_Ok self (fun a => ComponentTensor a mi)) in H as (?a' & ?Ha & ->)
  | context [Indexed _ ?mi] =>
      apply (@un_Ok self (fun a => Indexed a mi)) in H as (?a' & ?Ha & ->)
  | context [FlexiblyIndexed _ ?d] =>
      apply (@un_Ok self (fun a => FlexiblyIndexed a d)) in H as (?a' & ?Ha & ->)
  | context [Conditional _ _ _] =>
      apply (@tri_Ok self) in H as (?c' & ?a' & ?b' & ?Hc & ?Ha & ?Hb & ->)
  | context [ListTensor _ _] => apply (@list_Ok self) in H as (?l' & ?Hl & ->)
  end.

(** The default handler keeps what a node binds. *)
Lemma reuse_if_untouched_bound (self : expr -> result expr) (node r : expr) :
  reuse_if_untouched self node = Ok r -> bound_at r = bound_at node.
Proof.
  destruct node; simpl; intros H; try (injection H as <-; reflexivity);
    reuse_cases self H; reflexivity.
Qed.

(** When the rewrite returns every child as it is, the default handler
    returns the node as it is. *)
Lemma reuse_if_untouched_same (self : expr -> result expr) (node r : expr) :
  (forall c c', In c (children node) -> self c = Ok c' -> c' = c) ->
  reuse_if_untouched self node = Ok r -> r = node.
Proof.
  intros Hc. destruct node; simpl; intros H; try (injection H as <-; reflexivity);
    reuse_cases self H;
    repeat match goal with
           | X : self _ = Ok _ |- _ => apply Hc in X; [subst | simpl; auto]
           end; try reflexivity.
  f_equal. clear - Hc Hl. simpl in Hc. induction Hl as [|c c' l l' Hcc _ IH]; [reflexivity|].
  f_equal.
  - apply Hc; [left; reflexivity | exact Hcc].
  - apply IH. intros x x' Hx. apply Hc. right. exact Hx.
Qed.

Lemma filtered_replace_indices_generic (node : expr) (subst : subst_t) :
  kind node <> 18%nat -> kind node <> 19%nat -> kind node <> 20%nat ->
  filtered_replace_indices node subst =
  reuse_if_untouched
    (fun c => filtered_replace_indices c
                (filter (fun kv => index_in (fst kv) (free_indices node)) subst))
    node.
Proof. destruct node; simpl kind; intros K1 K2 K3; try congruence; reflexivity. Qed.

Lemma filter_idem (A : Type) (p : A -> bool) (l : list A) :
  filter p (filter p l) = filter p l.
Proof.
  induction l as [|x l IH]; [reflexivity|]. simpl.
  destruct (p x) eqn:E; simpl; rewrite ?E, IH; reflexivity.
Qed.

(** Only the rules for free indices of the node take part. *)
Lemma filtered_replace_indices_filter (node : expr) (subst : subst_t) :
  filtered_replace_indices node subst =
  filtered_replace_indices node
    (filter (fun kv => index_in (fst kv) (free_indices node)) subst).
Proof.
  destruct node; cbn [filtered_replace_indices]; rewrite filter_idem; reflexivity.
Qed.

Lemma no_tensor_access_child (child : expr) (mi : list index) :
  no_tensor_access (Indexed child mi) = true -> not_ComponentTensor child = true.
Proof. destruct child; simpl; intros H; try reflexivity; discriminate. Qed.

(** Without rules, and without accesses into component tensors, the rewrite
    can only return its argument. *)
Lemma filtered_replace_indices_nil (e : expr) :
  all_nodes no_tensor_access e = true ->
  forall r, filtered_replace_indices e [] = Ok r -> r = e.
Proof.
  induction e as [e IHc _] using expr_rewrite_ind. intros Hn r H.
  assert (Hc : forall c c', In c (children e) -> filtered_replace_indices c [] = Ok c' -> c' = c).
  { intros c c' Hin Hcc. apply (IHc c Hin); [|exact Hcc]. eapply all_nodes_child; eassumption. }
  apply all_nodes_root in Hn.
  destruct e as [ | | | | | | | | | | | | | | | | | | e multiindex | e dim2idxs | i j];
    try (rewrite filtered_replace_indices_generic in H by discriminate;
         cbn [filter] in H; apply reuse_if_untouched_same in H; [exact H | exact Hc]).
  - rewrite filtered_replace_indices_Indexed in H by (eapply no_tensor_access_child; exact Hn).
    cbn zeta in H. cbn [filter] in H. rewrite dict_get_nil_map in H.
    apply bind_Ok in H as (nc & Hnc & H). apply Hc in Hnc; [|left; reflexivity]. subst nc.
    destruct (expr_eqb e e && _); injection H as <-; reflexivity.
  - simpl in H. unfold replace_indices_flexiblyindexed in H.
    apply bind_Ok in H as ([] & _ & H). apply bind_Ok in H as ([] & _ & H).
    rewrite replace_dim2idxs_nil in H.
    destruct (dim2idxs_eqb dim2idxs dim2idxs); injection H as <-; reflexivity.
  - simpl in H. unfold replace_indices_delta in H. simpl in H.
    rewrite !index_eqb_refl in H. injection H as <-. reflexivity.
Qed.

Lemma Forall2_flat_map_eq (A B C : Type) (P : A -> B -> Prop) (f : A -> list C)
    (g : B -> list C) (l : list A) (l' : list B) :
  Forall2 P l l' -> (forall x y, In x l -> P x y -> g y = f x) ->
  flat_map g l' = flat_map f l.
Proof.
  induction 1 as [|a b l l' Hab _ IH]; intros H; [reflexivity|]. simpl. f_equal.
  - apply H; [left; reflexivity | exact Hab].
  - apply IH. intros x y Hx. apply H. right. exact Hx.
Qed.

(** What the rewrite keeps: the absence of accesses into component tensors,
    the bound indices, and the kind of the node, except that a delta may
    become the literal one. *)
Lemma filtered_replace_indices_structure (e : expr) :
  forall subst r,
    all_nodes no_tensor_access e = true ->
    filtered_replace_indices e subst = Ok r ->
    all_nodes no_tensor_access r = true /\ binders r = binders e
    /\ (kind r = kind e \/ (kind e = 20 /\ kind r = 0))%nat.
Proof.
  induction e as [e IHc _] using expr_rewrite_ind. intros subst r Hn H.
  assert (Hc : forall s c c', In c (children e) -> filtered_replace_indices c s = Ok c' ->
                 all_nodes no_tensor_access c' = true /\ binders c' = binders c
                 /\ (kind c' = kind c \/ (kind c = 20 /\ kind c' = 0))%nat).
  { intros s c c' Hin Hcc. apply (IHc c Hin s); [|exact Hcc].
    eapply all_nodes_child; eassumption. }
  assert (Generic : kind e <> 18%nat -> kind e <> 19%nat -> kind e <> 20%nat ->
    all_nodes no_tensor_access r = true /\ binders r = binders e
    /\ (kind r = kind e \/ (kind e = 20 /\ kind r = 0))%nat).
  { intros K1 K2 K3. rewrite filtered_replace_indices_generic in H by assumption.
    pose proof (@reuse_if_untouched_bound _ _ _ H) as Hb.
    apply reuse_if_untouched_Ok in H as [Hk Hf].
    split; [|split; [|left; exact Hk]].
    - apply all_nodes_intro.
      + apply no_tensor_access_kind. rewrite Hk. exact K1.
      + intros c' Hc'. destruct (@Forall2_In_r _ _ _ _ _ _ Hf Hc') as (c & Hin & Hcc).
        destruct (Hc _ c c' Hin Hcc) as (A & _). exact A.
    - rewrite (binders_unfold r), Hb, binders_unfold. f_equal.
      eapply Forall2_flat_map_eq; [exact Hf|].
      intros x y Hx Hxy. destruct (Hc _ x y Hx Hxy) as (_ & B & _). exact B. }
  destruct e as [ | | | | | | | | | | | | | | | | | | e multiindex | e dim2idxs | i j];
    try (apply Generic; discriminate); clear Generic.
  - (* Indexed *)
    assert (Ect : not_ComponentTensor e = true).
    { eapply no_tensor_access_child. eapply all_nodes_root. exact Hn. }
    rewrite filtered_replace_indices_Indexed in H by exact Ect. cbn zeta in H.
    apply bind_Ok in H as (nc & Hnc & H).
    destruct (Hc _ e nc (or_introl eq_refl) Hnc) as (A & B & K).
    assert (Res : forall mi, all_nodes no_tensor_access (Indexed nc mi) = true
                             /\ binders (Indexed nc mi) = binders (Indexed e multiindex)).
    { intros mi. split.
      - apply all_nodes_intro; [|intros c [<- | []]; exact A].
        apply not_ComponentTensor_kind in Ect.
        destruct nc; try reflexivity. simpl in K.
        destruct K as [K | [_ K]]; [congruence | discriminate].
      - rewrite !binders_unfold. simpl. rewrite B. reflexivity. }
    destruct (expr_eqb nc e && _) eqn:E; injection H as <-.
    + apply andb_true_iff in E as [E _]. apply expr_eqb_eq in E. subst nc.
      destruct (Res multiindex) as [R1 R2]. repeat split; auto.
    + match goal with |- all_nodes _ (Indexed nc ?mi) = true /\ _ =>
        destruct (Res mi) as [R1 R2] end.
      repeat split; auto.
  - (* FlexiblyIndexed *)
    simpl in H. unfold replace_indices_flexiblyindexed in H.
    apply bind_Ok in H as ([] & _ & H). apply bind_Ok in H as ([] & _ & H).
    assert (Res : forall d, all_nodes no_tensor_access (FlexiblyIndexed e d) = true
                            /\ binders (FlexiblyIndexed e d)
                               = binders (FlexiblyIndexed e dim2idxs)).
    { intros d. split.
      - apply all_nodes_intro; [reflexivity|]. intros c [<- | []].
        eapply all_nodes_child; [exact Hn | left; reflexivity].
      - rewrite !binders_unfold. reflexivity. }
    destruct (dim2idxs_eqb _ dim2idxs); injection H as <-;
      (split; [apply Res|]; split; [apply Res|]; left; reflexivity).
  - (* Delta *)
    simpl in H. unfold replace_indices_delta in H.
    destruct (index_eqb _ i && index_eqb _ j); injection H as <-.
    + repeat split; auto.
    + unfold Delta_. destruct (index_eqb _ _); repeat split; auto.
Qed.

(** The assignment in which [i] takes the value of [j]. *)
Definition bind_to (i j : index) (rho : ienv) : ienv := upd rho i (ival rho j).

(** The rule [i -> j] as a function on indices. *)
Definition rename (i j a : index) : index := if index_eqb i a then j else a.

Lemma dict_get_pair (i j a : index) : dict_get (dict_of [(i, j)]) a = rename i j a.
Proof. reflexivity. Qed.

Lemma filter_pair (i j : index) (L : list index) :
  filter (fun kv : index * index => index_in (fst kv) L) [(i, j)]
  = if index_in i L then [(i, j)] else [].
Proof. reflexivity. Qed.

Lemma index_eqb_sym (a b : index) : index_eqb a b = index_eqb b a.
Proof.
  destruct (index_eqb a b) eqn:E.
  - apply index_eqb_eq in E. subst. symmetry. apply index_eqb_refl.
  - destruct (index_eqb b a) eqn:E'; [|reflexivity].
    apply index_eqb_eq in E'. subst. rewrite index_eqb_refl in E. discriminate.
Qed.

Lemma ival_upd_other (rho : ienv) (m a : index) (v : Z) :
  index_eqb a m = false -> ival (upd rho m v) a = ival rho a.
Proof. intros E. destruct a; simpl; try reflexivity. unfold upd. rewrite E. reflexivity. Qed.

Lemma ival_rename (i j a : index) (rho : ienv) :
  is_Index i = true -> ival rho (rename i j a) = ival (bind_to i j rho) a.
Proof.
  intros Hi. unfold rename, bind_to. destruct (index_eqb i a) eqn:E.
  - apply index_eqb_eq in E. subst a. destruct i; try discriminate.
    simpl. unfold upd. rewrite index_eqb_refl. reflexivity.
  - rewrite ival_upd_other by (rewrite index_eqb_sym; exact E). reflexivity.
Qed.

Lemma bind_to_commutes (i j m : index) :
  index_eqb m i = false -> index_eqb m j = false -> commutes (bind_to i j) m.
Proof.
  intros Ei Ej rho v k. unfold bind_to.
  rewrite ival_upd_other by (rewrite index_eqb_sym; exact Ej).
  unfold upd. destruct (index_eqb k i) eqn:Ki, (index_eqb k m) eqn:Km; try reflexivity.
  apply index_eqb_eq in Ki, Km. subst. rewrite index_eqb_refl in Ei. discriminate.
Qed.

Lemma free_not_bound (e : expr) (i : index) :
  In i (free_indices e) -> ~ In i (bound_at e).
Proof.
  destruct e; simpl; intros H; try tauto;
    apply filter_In in H as [_ H]; intros Hin; apply index_in_In in Hin;
    rewrite Hin in H; discriminate.
Qed.

Lemma bound_at_binders (e : expr) (m : index) : In m (bound_at e) -> In m (binders e).
Proof. rewrite binders_unfold. intros H. apply in_or_app. left. exact H. Qed.

Lemma binders_child (e c : expr) (m : index) :
  In c (children e) -> In m (binders c) -> In m (binders e).
Proof.
  rewrite (binders_unfold e). intros Hc Hm. apply in_or_app. right.
  apply in_flat_map. exists c. split; assumption.
Qed.

Lemma eval_Delta_ (a b : index) (rho : ienv) (pos : list Z) :
  eval (Delta_ a b) rho pos = if ival rho a =? ival rho b then rI else rO.
Proof.
  unfold Delta_. destruct (index_eqb a b) eqn:E; [|reflexivity].
  apply index_eqb_eq in E. subst. rewrite Z.eqb_refl. exact of_Q_one.
Qed.

Lemma offsets_rename (i j : index) (rho : ienv) (d : dim2idxs_t) :
  is_Index i = true ->
  map (fun oi => fold_left (fun acc ix => acc + ival rho (fst ix) * snd ix)
                           (snd oi) (fst oi))
      (replace_dim2idxs (dict_of [(i, j)]) d)
  = map (fun oi => fold_left (fun acc ix => acc + ival (bind_to i j rho) (fst ix) * snd ix)
                             (snd oi) (fst oi)) d.
Proof.
  intros Hi. unfold replace_dim2idxs. rewrite map_map. apply map_ext.
  intros [o idxs]. simpl. revert o.
  induction idxs as [|[a s0] idxs IH]; intros o; [reflexivity|].
  cbn [map fold_left fst snd]. change (if index_eqb i a then j else a) with (rename i j a).
  rewrite ival_rename by exact Hi. apply IH.
Qed.

(** The rewrite with the rule [i -> j] has the value of its argument under
    the assignment in which [i] takes the value of [j], as long as nothing in
    the argument binds [j]. *)
Lemma filtered_replace_indices_eval (i j : index) (e : expr) :
  is_Index i = true ->
  all_nodes no_tensor_access e = true -> ~ In j (binders e) ->
  forall e', filtered_replace_indices e [(i, j)] = Ok e' ->
  forall rho pos, eval e' rho pos = eval e (bind_to i j rho) pos.
Proof.
  intros Hi. induction e as [e IHc _] using expr_rewrite_ind. intros Hn Hj e' H rho pos.
  destruct (index_in i (free_indices e)) eqn:Ef.
  2: { rewrite filtered_replace_indices_filter, filter_pair, Ef in H.
       apply filtered_replace_indices_nil in H; [|exact Hn]. subst e'.
       apply eval_agree. intros k Hk. unfold bind_to, upd.
       destruct (index_eqb k i) eqn:E; [|reflexivity].
       apply index_eqb_eq in E. subst k. apply index_in_In in Hk. congruence. }
  assert (Hc : forall c c', In c (children e) -> filtered_replace_indices c [(i, j)] = Ok c' ->
                 forall rho pos, eval c' rho pos = eval c (bind_to i j rho) pos).
  { intros c c' Hin Hcc. apply (IHc c Hin); [| |exact Hcc].
    - eapply all_nodes_child; eassumption.
    - intros Hm. apply Hj. eapply binders_child; eassumption. }
  assert (Generic : kind e <> 18%nat -> kind e <> 19%nat -> kind e <> 20%nat ->
                    eval e' rho pos = eval e (bind_to i j rho) pos).
  { intros K1 K2 K3. rewrite filtered_replace_indices_generic in H by assumption.
    rewrite filter_pair, Ef in H.
    apply (@reuse_if_untouched_eval (bind_to i j)
             (fun c => filtered_replace_indices c [(i, j)]) e e'); try assumption.
    intros m Hm. apply bind_to_commutes.
    - apply index_eqb_neq. intros ->. apply index_in_In in Ef.
      exact (@free_not_bound _ _ Ef Hm).
    - apply index_eqb_neq. intros ->. apply Hj. apply bound_at_binders. exact Hm. }
  pose proof (@all_nodes_root _ _ Hn) as Hroot.
  destruct e as [ | | | | | | | | | | | | | | | | | | e multiindex | e dim2idxs | a b];
    try (apply Generic; discriminate); clear Generic.
  - (* Indexed *)
    rewrite filtered_replace_indices_Indexed in H by (eapply no_tensor_access_child; exact Hroot).
    cbn zeta in H. rewrite filter_pair, Ef in H.
    apply bind_Ok in H as (nc & Hnc & H).
    assert (E : e' = Indexed nc (map (fun a => dict_get (dict_of [(i, j)]) a) multiindex)).
    { destruct (expr_eqb nc e && _) eqn:E; injection H as <-; [|reflexivity].
      apply andb_true_iff in E as [E1 E2]. apply expr_eqb_eq in E1.
      apply list_eqb_index_eq in E2. rewrite E2. subst. reflexivity. }
    subst e'. cbn [eval]. rewrite (Hc _ _ (or_introl eq_refl) Hnc). f_equal. f_equal.
    rewrite map_map. apply map_ext. intros a. rewrite dict_get_pair. apply ival_rename, Hi.
  - (* FlexiblyIndexed *)
    cbn [filtered_replace_indices] in H. rewrite filter_pair, Ef in H.
    unfold replace_indices_flexiblyindexed in H.
    apply bind_Ok in H as ([] & Ht & H). apply bind_Ok in H as ([] & _ & H).
    unfold assert in Ht. destruct (is_Terminal e) eqn:Et; [|discriminate].
    cbv zeta in H.
    assert (E : e' = FlexiblyIndexed e (replace_dim2idxs (dict_of [(i, j)]) dim2idxs)).
    { destruct (dim2idxs_eqb _ dim2idxs) eqn:E; injection H as <-; [|reflexivity].
      apply dim2idxs_eqb_eq in E. rewrite E. reflexivity. }
    subst e'. cbn [eval]. rewrite offsets_rename by exact Hi.
    apply eval_agree. rewrite (is_Terminal_free_indices _ Et). intros k [].
  - (* Delta *)
    cbn [filtered_replace_indices] in H. rewrite filter_pair, Ef in H.
    unfold replace_indices_delta in H. cbv zeta in H. rewrite !dict_get_pair in H.
    assert (E : eval e' rho pos
                = if ival rho (rename i j a) =? ival rho (rename i j b) then rI else rO).
    { destruct (index_eqb (rename i j a) a && index_eqb (rename i j b) b) eqn:E;
        injection H as <-; [|apply eval_Delta_].
      apply andb_true_iff in E as [E1 E2]. apply index_eqb_eq in E1, E2.
      rewrite E1, E2. reflexivity. }
    rewrite E, !ival_rename by exact Hi. reflexivity.
Qed.

(** *** Delta elimination *)

(** Two index objects that run over the same known, positive extent. *)
Definition same_extent (a b : index) : bool :=
  match a, b with
  | Index _ (Some n), Index _ (Some m) => (n =? m) && (0 <? n)
  | _, _ => false
  end.

(** A delta among the factors relates two such indices. *)
Definition delta_ok (f : expr) : bool :=
  match f with
  | Delta a b => same_extent a b
  | _ => true
  end.

Definition delta_operands (factors : list expr) : list index :=
  flat_map (fun f => match f with Delta a b => [a; b] | _ => [] end) factors.

(** The factors that delta elimination is meant for: no access into a
    component tensor is left in them, the deltas among them relate indices
    of one extent, and no factor binds an index of such a delta. *)
Definition factors_ok (factors : list expr) : bool :=
  forallb (all_nodes no_tensor_access) factors
  && forallb delta_ok factors
  && forallb (fun x => forallb (fun f => negb (index_in x (binders f))) factors)
             (delta_operands factors).

Definition FactorsOk (factors : list expr) : Prop :=
  (forall f, In f factors -> all_nodes no_tensor_access f = true)
  /\ (forall a b, In (Delta a b) factors -> same_extent a b = true)
  /\ (forall a b f, In (Delta a b) factors -> In f factors ->
                    ~ In a (binders f) /\ ~ In b (binders f)).

Lemma factors_ok_spec (factors : list expr) : factors_ok factors = true -> FactorsOk factors.
Proof.
  unfold factors_ok. intros H. apply andb_true_iff in H as [H H3].
  apply andb_true_iff in H as [H1 H2].
  rewrite forallb_forall in H1, H2, H3. split; [exact H1|]. split.
  - intros a b Hin. apply (H2 _ Hin).
  - intros a b f Hd Hf.
    assert (Hop : forall x, In x [a; b] -> ~ In x (binders f)).
    { intros x Hx Hb. assert (Hx' : In x (delta_operands factors)).
      { unfold delta_operands. apply in_flat_map. exists (Delta a b). split; assumption. }
      specialize (H3 _ Hx'). rewrite forallb_forall in H3. specialize (H3 _ Hf).
      apply index_in_In in Hb. rewrite Hb in H3. discriminate. }
    split; apply Hop; simpl; auto.
Qed.

(** The assignments that keep every index within its extent. *)
Definition env_ok (rho : ienv) : Prop :=
  forall id n, 0 < n -> 0 <= rho (Index id (Some n)) < n.

Lemma env_ok_upd (rho : ienv) (m : index) (v : Z) :
  env_ok rho -> In v (range_of m) -> env_ok (upd rho m v).
Proof.
  intros Hok Hv id n Hn. unfold upd. destruct (index_eqb (Index id (Some n)) m) eqn:E.
  - apply index_eqb_eq in E. subst m. unfold range_of in Hv. simpl in Hv.
    apply range_In. exact Hv.
  - apply Hok. exact Hn.
Qed.

Lemma isum_ext_ok (mi : list index) (f g : ienv -> R) :
  (forall rho, env_ok rho -> f rho = g rho) ->
  forall rho, env_ok rho -> isum rho mi f = isum rho mi g.
Proof.
  intros H. induction mi as [|i mi IH]; intros rho Hok; simpl; [apply H; exact Hok|].
  apply rsum_ext. intros v Hv. apply IH. apply env_ok_upd; assumption.
Qed.

Lemma same_extent_inv (a b : index) :
  same_extent a b = true ->
  exists ia ib n, a = Index ia (Some n) /\ b = Index ib (Some n) /\ 0 < n.
Proof.
  destruct a as [|ia [n|]|]; simpl; try discriminate.
  destruct b as [|ib [m|]|]; simpl; try discriminate.
  intros H. apply andb_true_iff in H as [H Hn]. apply Z.eqb_eq in H. apply Z.ltb_lt in Hn.
  rewrite H in *. exists ia, ib, m. repeat split. exact Hn.
Qed.

Lemma same_extent_intro (ia ib : nat) (n : Z) :
  0 < n -> same_extent (Index ia (Some n)) (Index ib (Some n)) = true.
Proof.
  intros Hn. simpl. rewrite Z.eqb_refl. apply Z.ltb_lt. exact Hn.
Qed.

Lemma same_extent_sym (a b : index) : same_extent a b = true -> same_extent b a = true.
Proof.
  intros H. apply same_extent_inv in H as (ia & ib & n & -> & -> & Hn).
  apply same_extent_intro. exact Hn.
Qed.

Lemma rename_same_extent (i j a b : index) :
  same_extent i j = true -> same_extent a b = true ->
  same_extent (rename i j a) (rename i j b) = true.
Proof.
  intros Hij Hab. apply same_extent_inv in Hij as (ii & ij & m & -> & -> & Hm).
  apply same_extent_inv in Hab as (ia & ib & n & -> & -> & Hn). unfold rename.
  destruct (index_eqb (Index ii (Some m)) (Index ia (Some n))) eqn:Ea;
    destruct (index_eqb (Index ii (Some m)) (Index ib (Some n))) eqn:Eb;
    try (apply index_eqb_eq in Ea; injection Ea as _ Ea; rewrite Ea in *);
    try (apply index_eqb_eq in Eb; injection Eb as _ Eb; rewrite Eb in *);
    apply same_extent_intro; assumption.
Qed.

Lemma remove_index_perm (x : index) (l : list index) :
  forall l', remove_index x l = Ok l' -> Permutation l (x :: l').
Proof.
  induction l as [|y t IH]; simpl; intros l' H; [discriminate|].
  destruct (index_eqb y x) eqn:E.
  - apply index_eqb_eq in E. injection H as <-. subst. reflexivity.
  - apply bind_Ok in H as (t' & Ht & H). injection H as <-.
    rewrite (IH _ Ht). apply perm_swap.
Qed.

(** The index that a delta relates to the one that is eliminated. *)
Lemma other_indices_spec (a b from_ to_ : index) :
  other_indices (Delta a b) from_ = [to_] -> In from_ [a; b] ->
  (from_ = a /\ to_ = b \/ from_ = b /\ to_ = a) /\ a <> b.
Proof.
  unfold other_indices. simpl. intros H Hin.
  destruct (index_eqb a b) eqn:Eab; simpl in H.
  - apply index_eqb_eq in Eab. subst b.
    assert (from_ = a) as -> by (destruct Hin as [<- | [<- | []]]; reflexivity).
    rewrite index_eqb_refl in H. discriminate.
  - assert (Hab : a <> b) by (apply index_eqb_neq; exact Eab). split; [|exact Hab].
    destruct Hin as [E | [E | []]]; subst from_.
    + rewrite index_eqb_refl in H. simpl in H.
      destruct (index_eqb b a) eqn:E; simpl in H; [discriminate|].
      injection H as <-. left. split; reflexivity.
    + rewrite index_eqb_refl in H. rewrite Eab in H. simpl in H.
      injection H as <-. right. split; reflexivity.
Qed.

Lemma filtered_replace_indices_Delta (i j a b : index) (r : expr) :
  filtered_replace_indices (Delta a b) [(i, j)] = Ok r ->
  r = Delta a b \/ r = Delta_ a b \/ r = Delta_ (rename i j a) (rename i j b).
Proof.
  cbn [filtered_replace_indices]. rewrite filter_pair.
  destruct (index_in i (free_indices (Delta a b))); unfold replace_indices_delta;
    cbv zeta; intros H.
  - rewrite !dict_get_pair in H.
    destruct (index_eqb (rename i j a) a && index_eqb (rename i j b) b);
      injection H as <-; auto.
  - destruct (index_eqb (dict_get (dict_of []) a) a && index_eqb (dict_get (dict_of []) b) b);
      injection H as <-; auto.
Qed.

Lemma Delta__inv (x y a b : index) : Delta_ x y = Delta a b -> x = a /\ y = b.
Proof.
  unfold Delta_, one. destruct (index_eqb x y); intros H; [discriminate|].
  injection H as -> ->. split; reflexivity.
Qed.

(** One rewrite of all the factors by the rule of a delta among them keeps
    them fit for delta elimination. *)
Lemma FactorsOk_step (from_ to_ : index) (factors factors' : list expr) :
  FactorsOk factors ->
  same_extent from_ to_ = true ->
  In to_ (delta_operands factors) ->
  Forall2 (fun f f' => filtered_replace_indices f [(from_, to_)] = Ok f') factors factors' ->
  FactorsOk factors'.
Proof.
  intros (H1 & H2 & H3) Hft Hto Hf.
  assert (Hto' : forall f, In f factors -> ~ In to_ (binders f)).
  { intros f Hin. unfold delta_operands in Hto. apply in_flat_map in Hto as (d & Hd & Hx).
    destruct d; try contradiction. destruct (H3 _ _ _ Hd Hin) as [Ha Hb].
    destruct Hx as [<- | [<- | []]]; assumption. }
  assert (Hdelta : forall a' b', In (Delta a' b') factors' ->
            same_extent a' b' = true
            /\ forall f, In f factors -> ~ In a' (binders f) /\ ~ In b' (binders f)).
  { intros a' b' Hin. destruct (@Forall2_In_r _ _ _ _ _ _ Hf Hin) as (f & Hfin & Hr).
    destruct (@filtered_replace_indices_structure f _ _ (H1 _ Hfin) Hr) as (_ & _ & K).
    destruct f; simpl in K; try (destruct K as [K | [K _]]; discriminate).
    pose proof (H2 _ _ Hfin) as Hab.
    assert (Hren : forall x g, In x [i; j] -> In g factors -> ~ In (rename from_ to_ x) (binders g)).
    { intros x g Hx Hg. unfold rename. destruct (index_eqb from_ x); [apply Hto'; exact Hg|].
      destruct (H3 _ _ _ Hfin Hg) as [Ha Hb]. destruct Hx as [<- | [<- | []]]; assumption. }
    apply filtered_replace_indices_Delta in Hr as [Hr | [Hr | Hr]].
    - injection Hr as -> ->. split; [exact Hab|]. intros g Hg. eapply H3; eassumption.
    - symmetry in Hr. apply Delta__inv in Hr as [-> ->]. split; [exact Hab|].
      intros g Hg. eapply H3; eassumption.
    - symmetry in Hr. apply Delta__inv in Hr as [<- <-]. split; [apply rename_same_extent; assumption|].
      intros g Hg. split; apply Hren; simpl; auto. }
  split; [|split].
  - intros f' Hin. destruct (@Forall2_In_r _ _ _ _ _ _ Hf Hin) as (f & Hfin & Hr).
    destruct (@filtered_replace_indices_structure f _ _ (H1 _ Hfin) Hr) as (A & _). exact A.
  - intros a' b' Hin. apply (Hdelta _ _ Hin).
  - intros a' b' f' Hd Hin. destruct (@Forall2_In_r _ _ _ _ _ _ Hf Hin) as (f & Hfin & Hr).
    destruct (@filtered_replace_indices_structure f _ _ (H1 _ Hfin) Hr) as (_ & B & _).
    rewrite B. apply (Hdelta _ _ Hd). exact Hfin.
Qed.

(** The factors after the rewrite, under an assignment, are the factors
    before it under the assignment in which the eliminated index takes the
    value of the other one. *)
Lemma product_value_rename (from_ to_ : index) (factors factors' : list expr) :
  is_Index from_ = true ->
  (forall f, In f factors -> all_nodes no_tensor_access f = true) ->
  (forall f, In f factors -> ~ In to_ (binders f)) ->
  Forall2 (fun f f' => filtered_replace_indices f [(from_, to_)] = Ok f') factors factors' ->
  forall rho, product_value factors' rho = product_value factors (bind_to from_ to_ rho).
Proof.
  intros Hi Hn Hb Hf rho. unfold product_value. f_equal.
  eapply Forall2_map_eq; [exact Hf|]. intros f f' Hin Hr.
  apply (@filtered_replace_indices_eval from_ to_ f Hi (Hn _ Hin) (Hb _ Hin) _ Hr).
Qed.

(** One iteration of the loop: the contraction over the eliminated index
    picks the value of the other index of the delta. *)
Lemma delta_elimination_step_value (a b from_ : index)
    (sum_indices sum_indices' : list index) (factors factors' : list expr) :
  FactorsOk factors -> In (Delta a b) factors -> In from_ [a; b] ->
  delta_elimination_step (Delta a b) from_ sum_indices factors = Ok (sum_indices', factors') ->
  FactorsOk factors'
  /\ forall rho, env_ok rho ->
       isum rho sum_indices' (product_value factors')
       = isum rho sum_indices (product_value factors).
Proof.
  intros Hok Hd Hfrom H. unfold delta_elimination_step in H.
  destruct (other_indices (Delta a b) from_) as [|to_ [|]] eqn:Eo; try discriminate.
  apply bind_Ok in H as (si & Hsi & H). apply bind_Ok in H as (fs & Hfs & H).
  injection H as <- <-. apply mapM_Ok_Forall2 in Hfs.
  destruct (@other_indices_spec _ _ _ _ Eo Hfrom) as [Hcase Hab].
  pose proof Hok as (H1 & H2 & H3). pose proof (H2 _ _ Hd) as Hext.
  assert (Hft : same_extent from_ to_ = true).
  { destruct Hcase as [[-> ->] | [-> ->]]; [exact Hext | apply same_extent_sym; exact Hext]. }
  assert (Hto : In to_ (delta_operands factors)).
  { unfold delta_operands. apply in_flat_map. exists (Delta a b). split; [exact Hd|].
    destruct Hcase as [[_ ->] | [_ ->]]; simpl; auto. }
  assert (Hbind : forall f, In f factors -> ~ In to_ (binders f)).
  { intros f Hf. destruct (H3 _ _ _ Hd Hf) as [Ha Hb].
    destruct Hcase as [[_ ->] | [_ ->]]; assumption. }
  split; [eapply FactorsOk_step; eassumption|].
  intros rho Hrho. apply remove_index_perm in Hsi.
  rewrite (@isum_perm sum_indices (si ++ [from_]) (product_value factors)
             (product_value_extensional factors)).
  2: { rewrite Hsi. apply Permutation_cons_append. }
  rewrite isum_app. apply isum_ext_ok; [|exact Hrho]. intros r Hr. cbn [isum].
  destruct (@same_extent_inv _ _ Hft) as (i1 & i2 & n & Efrom & Eto & Hn).
  rewrite (@product_value_rename from_ to_ factors fs) by (subst; auto).
  unfold bind_to. symmetry.
  transitivity (rsum (range_of from_)
                  (fun v => if v =? ival r to_
                            then product_value factors (upd r from_ v) else rO)).
  - apply rsum_ext. intros v _. destruct (v =? ival r to_) eqn:Ev; [reflexivity|].
    apply rprod_zero. apply in_map_iff. exists (Delta a b). split; [|exact Hd].
    unfold value. cbn [eval].
    assert (E1 : ival (upd r from_ v) from_ = v).
    { subst from_. simpl. unfold upd. rewrite index_eqb_refl. reflexivity. }
    assert (E2 : ival (upd r from_ v) to_ = ival r to_).
    { apply ival_upd_other. apply index_eqb_neq.
      destruct Hcase as [[-> ->] | [-> ->]]; congruence. }
    destruct Hcase as [[<- <-] | [<- <-]]; rewrite E1, E2.
    + rewrite Ev. reflexivity.
    + rewrite Z.eqb_sym, Ev. reflexivity.
  - apply (@rsum_single (range_of from_) (ival r to_)
             (fun v => product_value factors (upd r from_ v))).
    + subst from_. unfold range_of. simpl. apply range_NoDup.
    + subst from_ to_. unfold range_of. simpl. apply range_In. apply Hr. exact Hn.
Qed.

Lemma delta_elimination_loop_value (fuel : nat) :
  forall sum_indices factors sum_indices' factors',
    FactorsOk factors ->
    delta_elimination_loop fuel sum_indices factors = Ok (sum_indices', factors') ->
    forall rho, env_ok rho ->
      isum rho sum_indices' (product_value factors')
      = isum rho sum_indices (product_value factors).
Proof.
  induction fuel as [|fuel IH]; intros si fs si' fs' Hok H rho Hrho;
    cbn [delta_elimination_loop] in H;
    destruct (delta_queue si fs) as [|[d f] q] eqn:Eq;
    try (injection H as <- <-; apply isum_ext; intros r; apply product_value_drop_ones);
    try discriminate.
  apply bind_Ok in H as ([si1 fs1] & Hstep & H). cbv beta iota in H.
  assert (Hin : In (d, f) (delta_queue si fs)) by (rewrite Eq; left; reflexivity).
  apply delta_queue_In in Hin as (_ & Hd & a & b & -> & Hf).
  destruct (@delta_elimination_step_value a b f si si1 fs fs1 Hok Hd) as [Hok1 Hval];
    [simpl; destruct Hf; auto | exact Hstep |].
  rewrite (IH _ _ _ _ Hok1 H rho Hrho). apply Hval. exact Hrho.
Qed.

(** [fast_sum_factorise] returns the contraction over the summation indices
    of the product of the factors. *)
Lemma fast_sum_factorise_value (sum_indices : list index) (factors : list expr) (e : expr) :
  FactorsOk factors ->
  fast_sum_factorise sum_indices factors = Ok e ->
  forall rho, env_ok rho -> value rho e = isum rho sum_indices (product_value factors).
Proof.
  intros Hok H rho Hrho. unfold fast_sum_factorise in H.
  apply bind_Ok in H as ([si fs] & Hd & H). cbv beta iota in H.
  rewrite (@sum_factorise_value _ _ _ H). unfold delta_elimination in Hd.
  rewrite (@delta_elimination_loop_value _ _ _ _ _ Hok Hd rho Hrho).
  apply isum_rev. apply product_value_extensional.
Qed.

(** *** The value of a sum of monomials *)

(** One monomial: the contraction over its summation indices of the product
    of its atomics and its rest. *)
Definition monomial_value (s : list index) (a : list expr) (r : expr) (rho : ienv) : R :=
  isum rho s (fun rho' => product_value a rho' [*] value rho' r).

(** A [MonomialSum]: the sum of its monomials, in the order of [ordering]. *)
Definition sum_value (self : MonomialSum.t) (rho : ienv) : R :=
  rsum (MonomialSum.ordering self)
       (fun kv => monomial_value (fst (snd kv)) (snd (snd kv))
                                 (MonomialSum.rest_of self (fst kv)) rho).

(** Every monomial of a [MonomialSum] is fit for delta elimination. *)
Definition monomials_ok (self : MonomialSum.t) : bool :=
  forallb (fun kv => factors_ok (snd (snd kv) ++ [MonomialSum.rest_of self (fst kv)]))
          (MonomialSum.ordering self).

Definition group_value (groups : list (MonomialSum.sum_indices_pair * list (list expr * expr)))
    (rho : ienv) : R :=
  rsum groups (fun g => rsum (snd g)
                          (fun ar => monomial_value (snd (fst g)) (fst ar) (snd ar) rho)).

Definition GroupsOk (groups : list (MonomialSum.sum_indices_pair * list (list expr * expr)))
    : Prop :=
  forall g ar, In g groups -> In ar (snd g) -> FactorsOk (fst ar ++ [snd ar]).

Lemma product_value_snoc (a : list expr) (r : expr) (rho : ienv) :
  product_value (a ++ [r]) rho = product_value a rho [*] value rho r.
Proof. rewrite product_value_app. unfold product_value at 2. simpl. ring. Qed.

Lemma monomial_value_factors (s : list index) (a : list expr) (r : expr) (rho : ienv) :
  isum rho s (product_value (a ++ [r])) = monomial_value s a r rho.
Proof. apply isum_ext. intros rho'. apply product_value_snoc. Qed.

Lemma group_add_value (groups : list (MonomialSum.sum_indices_pair * list (list expr * expr)))
    (set s : list index) (a : list expr) (r : expr) (rho : ienv) :
  group_value (group_add MonomialSum.group_key_eqb groups (set, s) (a, r)) rho
  = group_value groups rho [+] monomial_value s a r rho.
Proof.
  unfold group_value. induction groups as [|[gk xs] groups IH]; simpl.
  - ring.
  - destruct (MonomialSum.group_key_eqb gk (set, s)) eqn:E; simpl.
    + unfold MonomialSum.group_key_eqb in E. apply andb_true_iff in E as [_ E].
      apply list_eqb_index_eq in E. simpl in E. rewrite rsum_app, E. simpl. ring.
    + rewrite IH. ring.
Qed.

Lemma group_add_GroupsOk (groups : list (MonomialSum.sum_indices_pair * list (list expr * expr)))
    (gk : MonomialSum.sum_indices_pair) (a : list expr) (r : expr) :
  GroupsOk groups -> FactorsOk (a ++ [r]) ->
  GroupsOk (group_add MonomialSum.group_key_eqb groups gk (a, r)).
Proof.
  unfold GroupsOk. intros Hg Hf. induction groups as [|[k xs] groups IH]; simpl.
  - intros g ar [<- | []] [<- | []]. exact Hf.
  - destruct (MonomialSum.group_key_eqb k gk).
    + intros g ar [<- | Hin] Har.
      * simpl in Har. apply in_app_or in Har as [Har | [<- | []]]; [|exact Hf].
        apply (Hg (k, xs)); [left; reflexivity | exact Har].
      * apply (Hg g); [right; exact Hin | exact Har].
    + intros g ar [<- | Hin] Har.
      * apply (Hg (k, xs)); [left; reflexivity | exact Har].
      * eapply IH; [|exact Hin | exact Har].
        intros g' ar' Hg' Har'. apply (Hg g'); [right; exact Hg' | exact Har'].
Qed.

Lemma rsum_Forall2 (A B : Type) (P : A -> B -> Prop) (g : A -> R) (h : B -> R)
    (l : list A) (l' : list B) :
  Forall2 P l l' -> (forall x y, P x y -> h y = g x) -> rsum l' h = rsum l g.
Proof.
  intros H Hp. induction H as [|a b l l' Hab _ IH]; [reflexivity|].
  simpl. rewrite IH, (Hp _ _ Hab). reflexivity.
Qed.

Lemma rsum_snoc (A : Type) (l : list A) (x : A) (g : A -> R) :
  rsum (l ++ [x]) g = rsum l g [+] g x.
Proof. rewrite rsum_app. simpl. ring. Qed.

(** A group of several monomials: one contraction of the sum of their
    products. *)
Lemma group_sum_value (s : list index) (ms : list (list expr * expr)) (e : expr) :
  bind (mapM (fun ar => bind (associate_product (fst ar ++ [snd ar])) (fun p => Ok (fst p))) ms)
       (fun products => bind (associate_sum products)
                             (fun s' => Ok (IndexSum (fst s') s))) = Ok e ->
  forall rho, value rho e = rsum ms (fun ar => monomial_value s (fst ar) (snd ar) rho).
Proof.
  intros H rho. apply bind_Ok in H as (products & Hm & H).
  apply bind_Ok in H as ([t fl] & Hs & H). injection H as <-.
  apply mapM_Ok_Forall2 in Hm. unfold value. cbn [eval fst].
  rewrite (isum_ext s _ (fun r => rsum ms (fun ar => product_value (fst ar ++ [snd ar]) r))).
  - rewrite isum_rsum. apply rsum_ext. intros ar _. apply monomial_value_factors.
  - intros r. change (eval t r []) with (value r t).
    rewrite (@associate_sum_value _ _ _ Hs).
    eapply rsum_Forall2; [exact Hm|]. intros x y Hxy. cbv beta in Hxy.
    apply bind_Ok in Hxy as ([p fl'] & Hp & Hxy). injection Hxy as <-.
    apply (@associate_product_value _ _ _ Hp).
Qed.

Lemma to_expression_groups_value
    (groups : list (MonomialSum.sum_indices_pair * list (list expr * expr))) :
  forall indexsums indexsums',
    MonomialSum.to_expression_groups groups indexsums = Ok indexsums' ->
    GroupsOk groups ->
    forall rho, env_ok rho ->
      rsum indexsums' (value rho) = rsum indexsums (value rho) [+] group_value groups rho.
Proof.
  induction groups as [|[[set s] ms] groups IH]; intros indexsums indexsums' H Hok rho Hrho.
  - simpl in H. injection H as <-. unfold group_value. simpl. ring.
  - cbn [MonomialSum.to_expression_groups] in H.
    apply bind_Ok in H as (e & He & H).
    assert (Hok' : GroupsOk groups).
    { intros g ar Hg Har. apply (Hok g ar); [right; exact Hg | exact Har]. }
    rewrite (IH _ _ H Hok' rho Hrho), rsum_snoc.
    assert (Ee : value rho e = rsum ms (fun ar => monomial_value s (fst ar) (snd ar) rho)).
    { destruct ms as [|[a r] [|m2 ms']].
      - apply group_sum_value. exact He.
      - rewrite (@fast_sum_factorise_value s (a ++ [r]) e); [| |exact He|exact Hrho].
        + rewrite monomial_value_factors. simpl. ring.
        + apply (Hok (set, s, [(a, r)]) (a, r)); left; reflexivity.
      - apply group_sum_value. exact He. }
    rewrite Ee. unfold group_value. simpl. ring.
Qed.

Lemma to_expression_split_value (self : MonomialSum.t)
    (od : list (MonomialSum.key * (list index * list expr))) :
  forall indexsums groups indexsums' groups',
    MonomialSum.to_expression_split self od indexsums groups = Ok (indexsums', groups') ->
    (forall kv, In kv od ->
       FactorsOk (snd (snd kv) ++ [MonomialSum.rest_of self (fst kv)])) ->
    GroupsOk groups ->
    GroupsOk groups'
    /\ forall rho, env_ok rho ->
         rsum indexsums' (value rho) [+] group_value groups' rho
         = (rsum indexsums (value rho) [+] group_value groups rho)
           [+] rsum od (fun kv => monomial_value (fst (snd kv)) (snd (snd kv))
                                                 (MonomialSum.rest_of self (fst kv)) rho).
Proof.
  induction od as [|[k [s a]] od IH]; intros indexsums groups indexsums' groups' H Hf Hg.
  - simpl in H. injection H as <- <-. split; [exact Hg|]. intros rho _. simpl. ring.
  - cbn [MonomialSum.to_expression_split] in H. cbv zeta in H.
    assert (Hf' : forall kv, In kv od ->
              FactorsOk (snd (snd kv) ++ [MonomialSum.rest_of self (fst kv)])).
    { intros kv Hin. apply Hf. right. exact Hin. }
    pose proof (Hf _ (or_introl eq_refl)) as Hhere. simpl in Hhere.
    destruct (fst k) as [|i0 set] eqn:Ek.
    + apply bind_Ok in H as (e & He & H).
      destruct (IH _ _ _ _ H Hf' Hg) as [Hg' Hval]. split; [exact Hg'|].
      intros rho Hrho. rewrite (Hval rho Hrho), rsum_snoc.
      rewrite (@fast_sum_factorise_value s _ e Hhere He rho Hrho), monomial_value_factors.
      simpl. ring.
    + destruct (IH _ _ _ _ H Hf' (@group_add_GroupsOk _ _ _ _ Hg Hhere)) as [Hg' Hval].
      split; [exact Hg'|]. intros rho Hrho.
      rewrite (Hval rho Hrho), group_add_value. simpl. ring.
Qed.

(** [to_expression] returns an expression whose value is the sum of the
    monomials. *)
Lemma to_expression_value (self : MonomialSum.t) (e : expr) :
  MonomialSum.to_expression self = Ok e ->
  monomials_ok self = true ->
  forall rho, env_ok rho -> value rho e = sum_value self rho.
Proof.
  unfold MonomialSum.to_expression. intros H Hok rho Hrho.
  apply bind_Ok in H as ([indexsums groups] & Hsplit & H). cbv beta iota in H.
  apply bind_Ok in H as (indexsums' & Hgroups & H).
  apply bind_Ok in H as ([t fl] & Hs & H). injection H as <-.
  unfold monomials_ok in Hok. rewrite forallb_forall in Hok.
  destruct (@to_expression_split_value self _ _ _ _ _ Hsplit) as [Hg Hval].
  { intros kv Hin. apply factors_ok_spec. apply Hok. exact Hin. }
  { intros g ar []. }
  cbn [fst]. rewrite (@associate_sum_value _ _ _ Hs).
  rewrite (@to_expression_groups_value _ _ _ Hgroups Hg rho Hrho).
  rewrite (Hval rho Hrho). unfold sum_value, group_value. simpl. ring.
Qed.

(** *** Keys of monomials *)

Lemma index_set_eqb_spec (s1 s2 : list index) :
  index_set_eqb s1 s2 = true <-> (forall x, In x s1 <-> In x s2).
Proof.
  unfold index_set_eqb. rewrite andb_true_iff, !forallb_forall. split.
  - intros [H1 H2] x. split; intros Hx; apply index_in_In; auto.
  - intros H. split; intros x Hx; apply index_in_In; apply H; exact Hx.
Qed.

Lemma item_eqb_eq (x y : expr * nat) : MonomialSum.item_eqb x y = true <-> x = y.
Proof.
  destruct x as [e n], y as [e' n']. unfold MonomialSum.item_eqb. simpl.
  rewrite andb_true_iff, expr_eqb_eq, Nat.eqb_eq.
  split; [intros [-> ->]; reflexivity | intros E; injection E; auto].
Qed.

Lemma item_in_In (x : expr * nat) (l : list (expr * nat)) :
  MonomialSum.item_in x l = true <-> In x l.
Proof.
  unfold MonomialSum.item_in. rewrite existsb_exists. split.
  - intros (y & Hy & E). apply item_eqb_eq in E. subst. exact Hy.
  - intros H. exists x. split; [exact H | apply item_eqb_eq; reflexivity].
Qed.

Lemma items_eqb_spec (c1 c2 : list (expr * nat)) :
  MonomialSum.items_eqb c1 c2 = true <-> (forall x, In x c1 <-> In x c2).
Proof.
  unfold MonomialSum.items_eqb. rewrite andb_true_iff, !forallb_forall. split.
  - intros [H1 H2] x. split; intros Hx; apply item_in_In; auto.
  - intros H. split; intros x Hx; apply item_in_In; apply H; exact Hx.
Qed.

Lemma key_eqb_spec (k1 k2 : MonomialSum.key) :
  MonomialSum.key_eqb k1 k2 = true <->
  (forall x, In x (fst k1) <-> In x (fst k2)) /\ (forall x, In x (snd k1) <-> In x (snd k2)).
Proof.
  unfold MonomialSum.key_eqb. rewrite andb_true_iff, index_set_eqb_spec, items_eqb_spec.
  reflexivity.
Qed.

Lemma key_eqb_refl (k : MonomialSum.key) : MonomialSum.key_eqb k k = true.
Proof. apply key_eqb_spec. split; intros x; reflexivity. Qed.

Lemma key_eqb_sym (k1 k2 : MonomialSum.key) :
  MonomialSum.key_eqb k1 k2 = MonomialSum.key_eqb k2 k1.
Proof.
  destruct (MonomialSum.key_eqb k1 k2) eqn:E1, (MonomialSum.key_eqb k2 k1) eqn:E2;
    try reflexivity.
  - apply key_eqb_spec in E1 as [A B].
    assert (X : MonomialSum.key_eqb k2 k1 = true).
    { apply key_eqb_spec. split; intros x; symmetry; auto. }
    congruence.
  - apply key_eqb_spec in E2 as [A B].
    assert (X : MonomialSum.key_eqb k1 k2 = true).
    { apply key_eqb_spec. split; intros x; symmetry; auto. }
    congruence.
Qed.

Lemma key_eqb_trans (k1 k2 k3 : MonomialSum.key) :
  MonomialSum.key_eqb k1 k2 = true -> MonomialSum.key_eqb k2 k3 = true ->
  MonomialSum.key_eqb k1 k3 = true.
Proof.
  rewrite !key_eqb_spec. intros [A B] [C D].
  split; intros x; [rewrite A; apply C | rewrite B; apply D].
Qed.

(** Keys that are equal as keys agree with a third one in the same way. *)
Lemma key_eqb_congr (k1 k2 q : MonomialSum.key) :
  MonomialSum.key_eqb k1 k2 = true ->
  MonomialSum.key_eqb k1 q = MonomialSum.key_eqb k2 q.
Proof.
  intros H. destruct (MonomialSum.key_eqb k1 q) eqn:E1, (MonomialSum.key_eqb k2 q) eqn:E2;
    try reflexivity.
  - rewrite key_eqb_sym in H. rewrite (@key_eqb_trans _ _ _ H E1) in E2. discriminate.
  - rewrite (@key_eqb_trans _ _ _ H E2) in E1. discriminate.
Qed.

Lemma expr_eqb_sym (a b : expr) : expr_eqb a b = expr_eqb b a.
Proof.
  destruct (expr_eqb a b) eqn:E.
  - apply expr_eqb_eq in E. subst. symmetry. apply expr_eqb_refl.
  - destruct (expr_eqb b a) eqn:E'; [|reflexivity].
    apply expr_eqb_eq in E'. subst. rewrite expr_eqb_refl in E. discriminate.
Qed.

Lemma expr_eq_dec (x y : expr) : {x = y} + {x <> y}.
Proof.
  destruct (expr_eqb x y) eqn:E.
  - left. apply expr_eqb_eq. exact E.
  - right. apply expr_eqb_neq. exact E.
Defined.

(** The count a counter holds for an expression. *)
Fixpoint cget (c : list (expr * nat)) (x : expr) : nat :=
  match c with
  | [] => O
  | (y, n) :: t => if expr_eqb y x then n else cget t x
  end.

Lemma cget_counter_add (c : list (expr * nat)) (x y : expr) :
  cget (MonomialSum.counter_add c x) y
  = if expr_eqb x y then S (cget c y) else cget c y.
Proof.
  induction c as [|[z n] c IH]; simpl.
  - destruct (expr_eqb x y); reflexivity.
  - destruct (expr_eqb z x) eqn:Ezx; simpl.
    + apply expr_eqb_eq in Ezx. subst z. destruct (expr_eqb x y); reflexivity.
    + destruct (expr_eqb z y) eqn:Ezy; [|exact IH].
      apply expr_eqb_eq in Ezy. subst z. rewrite expr_eqb_sym in Ezx. rewrite Ezx.
      reflexivity.
Qed.

(** A counter holds every expression once, with a positive count. *)
Definition cwf (c : list (expr * nat)) : Prop :=
  NoDup (map fst c) /\ Forall (fun it => (0 < snd it)%nat) c.

Lemma counter_add_keys (c : list (expr * nat)) (x k : expr) :
  In k (map fst (MonomialSum.counter_add c x)) -> In k (map fst c) \/ k = x.
Proof.
  induction c as [|[y n] c IH]; simpl.
  - intros [<- | []]. right. reflexivity.
  - destruct (expr_eqb y x); simpl; [tauto|]. intros [H | H]; [tauto|].
    destruct (IH H); tauto.
Qed.

Lemma counter_add_wf (c : list (expr * nat)) (x : expr) :
  cwf c -> cwf (MonomialSum.counter_add c x).
Proof.
  unfold cwf. induction c as [|[y n] c IH]; simpl; intros [Hn Hp].
  - split; repeat constructor. intros [].
  - inversion Hn as [|? ? Hy Hn']; subst. inversion Hp as [|? ? Hpy Hp']; subst.
    destruct (expr_eqb y x) eqn:E; simpl.
    + split; [constructor; assumption|]. constructor; [simpl; lia | exact Hp'].
    + destruct (IH (conj Hn' Hp')) as [A B]. split.
      * constructor; [|exact A]. intros Hin. apply counter_add_keys in Hin as [Hin | ->].
        -- contradiction.
        -- rewrite expr_eqb_refl in E. discriminate.
      * constructor; assumption.
Qed.

Lemma fold_counter_add_wf (a : list expr) :
  forall c, cwf c -> cwf (fold_left MonomialSum.counter_add a c).
Proof.
  induction a as [|x a IH]; simpl; intros c H; [exact H|].
  apply IH. apply counter_add_wf. exact H.
Qed.

Lemma cget_fold (a : list expr) (y : expr) :
  forall c, cget (fold_left MonomialSum.counter_add a c) y
            = (cget c y + count_occ expr_eq_dec a y)%nat.
Proof.
  induction a as [|x a IH]; simpl; intros c; [lia|].
  rewrite IH, cget_counter_add. destruct (expr_eq_dec x y) as [-> | Hne].
  - rewrite expr_eqb_refl. lia.
  - destruct (expr_eqb x y) eqn:E; [|reflexivity].
    apply expr_eqb_eq in E. contradiction.
Qed.

Lemma cget_In (c : list (expr * nat)) (x : expr) (n : nat) :
  cwf c -> In (x, n) c -> cget c x = n.
Proof.
  unfold cwf. induction c as [|[y m] c IH]; simpl; intros [Hn Hp] Hin; [contradiction|].
  inversion Hn as [|? ? Hy Hn']; subst. inversion Hp as [|? ? _ Hp']; subst.
  destruct Hin as [E | Hin].
  - injection E as -> ->. rewrite expr_eqb_refl. reflexivity.
  - destruct (expr_eqb y x) eqn:E; [|apply IH; [split; assumption | exact Hin]].
    apply expr_eqb_eq in E. subst y. exfalso. apply Hy.
    apply in_map_iff. exists (x, n). split; [reflexivity | exact Hin].
Qed.

Lemma In_cget (c : list (expr * nat)) (x : expr) :
  (0 < cget c x)%nat -> In (x, cget c x) c.
Proof.
  induction c as [|[y m] c IH]; simpl; intros H; [lia|].
  destruct (expr_eqb y x) eqn:E.
  - apply expr_eqb_eq in E. subst. left. reflexivity.
  - right. apply IH. exact H.
Qed.

Lemma cwf_positive (c : list (expr * nat)) (x : expr) (n : nat) :
  cwf c -> In (x, n) c -> (0 < n)%nat.
Proof.
  intros [_ Hp] Hin. rewrite Forall_forall in Hp. apply (Hp _ Hin).
Qed.

(** Two tuples of atomics with the same counter are rearrangements of each
    other. *)
Lemma Counter_perm (a a' : list expr) :
  (forall it, In it (MonomialSum.Counter a) <-> In it (MonomialSum.Counter a')) ->
  Permutation a a'.
Proof.
  intros H. apply (Permutation_count_occ expr_eq_dec). intros x.
  assert (W : forall l, cwf (MonomialSum.Counter l)).
  { intros l. apply fold_counter_add_wf. split; constructor. }
  assert (G : forall l, cget (MonomialSum.Counter l) x = count_occ expr_eq_dec l x).
  { intros l. unfold MonomialSum.Counter. rewrite cget_fold. reflexivity. }
  rewrite <- !G.
  assert (Half : forall l l',
            (forall it, In it (MonomialSum.Counter l) -> In it (MonomialSum.Counter l')) ->
            (0 < cget (MonomialSum.Counter l) x)%nat ->
            cget (MonomialSum.Counter l') x = cget (MonomialSum.Counter l) x).
  { intros l l' Hsub Hpos. apply cget_In; [apply W|]. apply Hsub. apply In_cget. exact Hpos. }
  destruct (Nat.eq_dec (cget (MonomialSum.Counter a) x) 0) as [Z0 | NZ].
  - destruct (Nat.eq_dec (cget (MonomialSum.Counter a') x) 0) as [Z1 | NZ1]; [congruence|].
    rewrite <- (Half a' a); [reflexivity | intros it; apply H | lia].
  - symmetry. apply Half; [intros it; apply H | lia].
Qed.

Lemma key_perm (s s' : list index) (a a' : list expr) :
  MonomialSum.key_eqb (MonomialSum.make_key s a) (MonomialSum.make_key s' a') = true ->
  NoDup s -> NoDup s' -> Permutation s s' /\ Permutation a a'.
Proof.
  intros H Hs Hs'. apply key_eqb_spec in H as [A B]. simpl in A, B. split.
  - apply NoDup_Permutation; [exact Hs | exact Hs' |]. intros x.
    unfold MonomialSum.frozenset in A.
    rewrite <- (In_dedup_index_iff x s), <- (In_dedup_index_iff x s'). apply A.
  - apply Counter_perm. exact B.
Qed.

Lemma monomial_value_perm (s s' : list index) (a a' : list expr) (r : expr) (rho : ienv) :
  Permutation s s' -> Permutation a a' ->
  monomial_value s a r rho = monomial_value s' a' r rho.
Proof.
  intros Hs Ha. unfold monomial_value.
  rewrite (@isum_perm s s' (fun rho' => product_value a rho' [*] value rho' r)).
  - apply isum_ext. intros r'. rewrite (@product_value_perm a a' r' Ha). reflexivity.
  - intros r1 r2 E. rewrite (product_value_extensional a r1 r2 E).
    rewrite (value_extensional r r1 r2 E). reflexivity.
  - exact Hs.
Qed.

(** *** The two dictionaries of a [MonomialSum] *)

(** [monomials[key]] on the [defaultdict(Zero)]. *)
Definition lookup_or_zero (m : list (MonomialSum.key * expr)) (k : MonomialSum.key) : expr :=
  match MonomialSum.dict_lookup m k with
  | Some r => r
  | None => Zero []
  end.

Definition dict_value (m : list (MonomialSum.key * expr))
    (o : list (MonomialSum.key * (list index * list expr))) (rho : ienv) : R :=
  rsum o (fun kv => monomial_value (fst (snd kv)) (snd (snd kv))
                                   (lookup_or_zero m (fst kv)) rho).

(** The class invariant on the two dictionaries: they hold the same keys in
    the same order, the keys are pairwise different, each is the key of the
    representative stored under it, and no representative repeats a
    summation index. *)
Definition Inv (m : list (MonomialSum.key * expr))
    (o : list (MonomialSum.key * (list index * list expr))) : Prop :=
  map fst m = map fst o
  /\ MonomialSumFacts.distinct_keys o
  /\ MonomialSumFacts.consistent_keys o
  /\ Forall (fun kv => NoDup (fst (snd kv))) o.

Lemma dict_lookup_store (V : Type) (m : list (MonomialSum.key * V))
    (k q : MonomialSum.key) (v : V) :
  MonomialSum.dict_lookup (MonomialSum.dict_store m k v) q
  = if MonomialSum.key_eqb k q then Some v else MonomialSum.dict_lookup m q.
Proof.
  induction m as [|[k' v'] m IH]; simpl; [reflexivity|].
  destruct (MonomialSum.key_eqb k' k) eqn:E; simpl.
  - rewrite (@key_eqb_congr _ _ q E). destruct (MonomialSum.key_eqb k q); reflexivity.
  - rewrite IH. destruct (MonomialSum.key_eqb k' q) eqn:E1; [|reflexivity].
    destruct (MonomialSum.key_eqb k q) eqn:E2; [|reflexivity].
    rewrite key_eqb_sym in E2. rewrite (@key_eqb_trans _ _ _ E1 E2) in E. discriminate.
Qed.

Lemma dict_lookup_congr (V : Type) (m : list (MonomialSum.key * V)) (q q' : MonomialSum.key) :
  MonomialSum.key_eqb q q' = true ->
  MonomialSum.dict_lookup m q = MonomialSum.dict_lookup m q'.
Proof.
  intros H. induction m as [|[k v] m IH]; simpl; [reflexivity|].
  rewrite (key_eqb_sym k q), (key_eqb_sym k q'), (@key_eqb_congr _ _ k H), IH. reflexivity.
Qed.

Lemma dict_lookup_None_keys (V : Type) (m : list (MonomialSum.key * V)) (k : MonomialSum.key) :
  MonomialSum.dict_lookup m k = None
  <-> existsb (fun k' => MonomialSum.key_eqb k' k) (map fst m) = false.
Proof.
  induction m as [|[k' v] m IH]; simpl; [tauto|].
  destruct (MonomialSum.key_eqb k' k); simpl; [split; discriminate | exact IH].
Qed.

Lemma dict_store_keys (V : Type) (m : list (MonomialSum.key * V)) (k : MonomialSum.key) (v : V) :
  map fst (MonomialSum.dict_store m k v)
  = if existsb (fun k' => MonomialSum.key_eqb k' k) (map fst m)
    then map fst m else map fst m ++ [k].
Proof.
  induction m as [|[k' v'] m IH]; simpl; [reflexivity|].
  destruct (MonomialSum.key_eqb k' k); simpl; [reflexivity|].
  rewrite IH. destruct (existsb _ (map fst m)); reflexivity.
Qed.

Lemma dict_setdefault_keys (V : Type) (o : list (MonomialSum.key * V))
    (k : MonomialSum.key) (v : V) :
  map fst (MonomialSum.dict_setdefault o k v)
  = if existsb (fun k' => MonomialSum.key_eqb k' k) (map fst o)
    then map fst o else map fst o ++ [k].
Proof.
  unfold MonomialSum.dict_setdefault.
  destruct (MonomialSum.dict_lookup o k) eqn:E.
  - destruct (existsb _ (map fst o)) eqn:E'; [reflexivity|].
    apply dict_lookup_None_keys in E'. congruence.
  - pose proof (proj1 (dict_lookup_None_keys o k) E) as E'. rewrite E'.
    rewrite map_app. reflexivity.
Qed.

Lemma monomial_value_Sum (s : list index) (a : list expr) (r1 r2 : expr) (rho : ienv) :
  monomial_value s a (Sum r1 r2) rho
  = monomial_value s a r1 rho [+] monomial_value s a r2 rho.
Proof.
  unfold monomial_value. rewrite <- isum_add. apply isum_ext. intros r.
  unfold value. simpl. ring.
Qed.

Lemma monomial_value_Zero (s : list index) (a : list expr) (rho : ienv) :
  monomial_value s a (Zero []) rho = rO.
Proof.
  unfold monomial_value. transitivity (isum rho s (fun _ => rO)); [|apply isum_zero].
  apply isum_ext. intros r.
  unfold value. simpl. ring.
Qed.

(** Among pairwise different keys, exactly one is the key looked up. *)
Lemma rsum_unique_key (V : Type) (o : list (MonomialSum.key * V)) (k : MonomialSum.key)
    (c : R) (x : V) :
  MonomialSumFacts.distinct_keys o -> MonomialSum.dict_lookup o k = Some x ->
  rsum o (fun e => if MonomialSum.key_eqb k (fst e) then c else rO) = c.
Proof.
  unfold MonomialSumFacts.distinct_keys.
  induction 1 as [|[k1 v1] t Hk1 Ht IH]; simpl; intros Hl; [discriminate|].
  destruct (MonomialSum.key_eqb k1 k) eqn:E.
  - rewrite key_eqb_sym, E.
    assert (Z : rsum t (fun e => if MonomialSum.key_eqb k (fst e) then c else rO) = rO).
    { transitivity (rsum t (fun _ => rO)); [|apply rsum_zero]. apply rsum_ext. intros e He.
      rewrite Forall_forall in Hk1. specialize (Hk1 _ He). simpl in Hk1.
      rewrite <- (@key_eqb_congr _ _ (fst e) E), Hk1. reflexivity. }
    rewrite Z. ring.
  - rewrite key_eqb_sym, E, (IH Hl). ring.
Qed.

(** Adding one monomial to the two dictionaries adds its value. *)
Lemma merge_value (m : list (MonomialSum.key * expr))
    (o : list (MonomialSum.key * (list index * list expr)))
    (s : list index) (a : list expr) (r : expr) :
  Inv m o -> NoDup s ->
  Inv (MonomialSum.dict_store m (MonomialSum.make_key s a)
         (Sum (lookup_or_zero m (MonomialSum.make_key s a)) r))
      (MonomialSum.dict_setdefault o (MonomialSum.make_key s a) (s, a))
  /\ forall rho,
       dict_value (MonomialSum.dict_store m (MonomialSum.make_key s a)
                     (Sum (lookup_or_zero m (MonomialSum.make_key s a)) r))
                  (MonomialSum.dict_setdefault o (MonomialSum.make_key s a) (s, a)) rho
       = dict_value m o rho [+] monomial_value s a r rho.
Proof.
  intros (Ha & Hd & Hc & Hn) Hs. set (k := MonomialSum.make_key s a). split.
  - destruct (MonomialSumFacts.setdefault_wf s a Hd Hc) as [Hd' Hc'].
    split; [|split; [exact Hd'|split; [exact Hc'|]]].
    + rewrite dict_store_keys, dict_setdefault_keys, Ha. reflexivity.
    + unfold MonomialSum.dict_setdefault.
      destruct (MonomialSum.dict_lookup o k); [exact Hn|].
      apply Forall_app. split; [exact Hn | constructor; [exact Hs | constructor]].
  - intros rho. unfold dict_value.
    assert (LZ : forall q,
              lookup_or_zero (MonomialSum.dict_store m k (Sum (lookup_or_zero m k) r)) q
              = if MonomialSum.key_eqb k q then Sum (lookup_or_zero m k) r
                else lookup_or_zero m q).
    { intros q. unfold lookup_or_zero at 1. rewrite dict_lookup_store.
      destruct (MonomialSum.key_eqb k q); reflexivity. }
    unfold MonomialSum.dict_setdefault. destruct (MonomialSum.dict_lookup o k) eqn:El.
    + transitivity
        (rsum o (fun kv => monomial_value (fst (snd kv)) (snd (snd kv))
                                          (lookup_or_zero m (fst kv)) rho
                           [+] (if MonomialSum.key_eqb k (fst kv)
                                then monomial_value s a r rho else rO))).
      * apply rsum_ext. intros [q [s' a']] Hin. cbn [fst snd]. rewrite LZ.
        destruct (MonomialSum.key_eqb k q) eqn:E; [|ring].
        rewrite monomial_value_Sum. unfold lookup_or_zero.
        rewrite (@dict_lookup_congr _ m _ _ E). f_equal.
        unfold MonomialSumFacts.consistent_keys in Hc. rewrite Forall_forall in Hc, Hn.
        pose proof (Hc _ Hin) as Hq. pose proof (Hn _ Hin) as Hs'. cbn [fst snd] in Hq, Hs'.
        subst q. destruct (@key_perm _ _ _ _ E Hs Hs') as [P1 P2].
        symmetry. apply monomial_value_perm; assumption.
      * rewrite rsum_add, (@rsum_unique_key _ _ _ _ _ Hd El). reflexivity.
    + rewrite rsum_snoc. cbn [fst snd]. rewrite LZ, key_eqb_refl, monomial_value_Sum.
      assert (Em : lookup_or_zero m k = Zero []).
      { unfold lookup_or_zero.
        assert (X : MonomialSum.dict_lookup m k = None).
        { apply dict_lookup_None_keys. rewrite Ha. apply dict_lookup_None_keys. exact El. }
        rewrite X. reflexivity. }
      rewrite Em, monomial_value_Zero.
      assert (Eo : rsum o (fun kv => monomial_value (fst (snd kv)) (snd (snd kv))
                            (lookup_or_zero
                               (MonomialSum.dict_store m k (Sum (Zero []) r)) (fst kv)) rho)
                   = rsum o (fun kv => monomial_value (fst (snd kv)) (snd (snd kv))
                                         (lookup_or_zero m (fst kv)) rho)).
      { apply rsum_ext. intros kv Hin. rewrite <- Em, LZ.
        apply MonomialSumFacts.dict_lookup_None in El. rewrite Forall_forall in El.
        rewrite key_eqb_sym, (El _ Hin). reflexivity. }
      rewrite Eo. ring.
Qed.

(** The two loops of [MonomialSum.sum] over one argument add the monomials
    of the argument one by one. *)
Lemma sum_fold_value (oB : list (MonomialSum.key * (list index * list expr))) :
  forall (mB : list (MonomialSum.key * expr)),
    map fst mB = map fst oB ->
    MonomialSumFacts.consistent_keys oB ->
    Forall (fun kv => NoDup (fst (snd kv))) oB ->
    forall m o, Inv m o ->
      let m' := fold_left (fun ms kr =>
                   let r := match MonomialSum.dict_lookup ms (fst kr) with
                            | Some r => r
                            | None => Zero []
                            end in
                   MonomialSum.dict_store ms (fst kr) (Sum r (snd kr))) mB m in
      let o' := fold_left (fun od kv => MonomialSum.dict_setdefault od (fst kv) (snd kv)) oB o in
      Inv m' o'
      /\ forall rho,
           dict_value m' o' rho
           = dict_value m o rho
             [+] rsum (combine mB oB)
                   (fun p => monomial_value (fst (snd (snd p))) (snd (snd (snd p)))
                                            (snd (fst p)) rho).
Proof.
  induction oB as [|[k [s a]] oB IH]; intros mB Hk Hc Hn m o Hinv.
  - destruct mB; [|discriminate]. simpl. split; [exact Hinv|]. intros rho. ring.
  - destruct mB as [|[k' r] mB]; [discriminate|]. simpl in Hk. injection Hk as -> Hk.
    inversion Hc as [|? ? Hck Hc']; subst. inversion Hn as [|? ? Hs Hn']; subst.
    cbn [fst snd] in Hck, Hs. subst k.
    destruct (@merge_value m o s a r Hinv Hs) as [Hinv1 Hval1].
    destruct (IH mB Hk Hc' Hn' _ _ Hinv1) as [Hinv2 Hval2].
    cbn zeta in Hinv2, Hval2. cbn zeta. cbn [fold_left fst snd combine].
    split; [exact Hinv2|]. intros rho.
    unfold lookup_or_zero in Hval2, Hval1.
    rewrite Hval2, Hval1. simpl. ring.
Qed.

Lemma aligned_lookup (oB : list (MonomialSum.key * (list index * list expr))) :
  forall (mB : list (MonomialSum.key * expr)),
    map fst mB = map fst oB -> MonomialSumFacts.distinct_keys oB ->
    forall p, In p (combine mB oB) ->
              MonomialSum.dict_lookup mB (fst (snd p)) = Some (snd (fst p)).
Proof.
  induction oB as [|[k v] oB IH]; intros mB Hk Hd p Hin.
  - destruct mB; destruct Hin.
  - destruct mB as [|[k' r] mB]; [destruct Hin|]. simpl in Hk. injection Hk as -> Hk.
    inversion Hd as [|? ? Hhead Hd']; subst. destruct Hin as [<- | Hin].
    + simpl. rewrite key_eqb_refl. reflexivity.
    + destruct p as [p1 p2]. rewrite Forall_forall in Hhead.
      pose proof (Hhead _ (in_combine_r _ _ _ _ Hin)) as E.
      cbn [MonomialSum.dict_lookup fst snd] in E |- *. rewrite E.
      apply (IH mB Hk Hd' (p1, p2) Hin).
Qed.

Lemma rsum_combine_snd (A B : Type) (g : B -> R) (l2 : list B) :
  forall (l1 : list A), length l1 = length l2 ->
    rsum (combine l1 l2) (fun p => g (snd p)) = rsum l2 g.
Proof.
  induction l2 as [|y l2 IH]; intros [|x l1] H; try discriminate; [reflexivity|].
  simpl. rewrite IH by (simpl in H; lia). reflexivity.
Qed.

(** The class invariant, on the object. *)
Definition Invariant (self : MonomialSum.t) : Prop :=
  Inv (MonomialSum.monomials self) (MonomialSum.ordering self).

Lemma sum_step_value (X B : MonomialSum.t) :
  Invariant X -> Invariant B ->
  Invariant (MonomialSum.sum_step X B)
  /\ forall rho, sum_value (MonomialSum.sum_step X B) rho
                 = sum_value X rho [+] sum_value B rho.
Proof.
  intros HX (Ha & Hd & Hc & Hn).
  destruct (@sum_fold_value _ _ Ha Hc Hn _ _ HX) as [Hinv Hval]. cbn zeta in Hinv, Hval.
  split; [exact Hinv|]. intros rho.
  change (sum_value (MonomialSum.sum_step X B) rho)
    with (dict_value (MonomialSum.monomials (MonomialSum.sum_step X B))
                     (MonomialSum.ordering (MonomialSum.sum_step X B)) rho).
  unfold MonomialSum.sum_step. cbn [MonomialSum.monomials MonomialSum.ordering].
  rewrite Hval. f_equal.
  transitivity (rsum (combine (MonomialSum.monomials B) (MonomialSum.ordering B))
                  (fun p => monomial_value (fst (snd (snd p))) (snd (snd (snd p)))
                              (MonomialSum.rest_of B (fst (snd p))) rho)).
  - apply rsum_ext. intros p Hp. unfold MonomialSum.rest_of.
    rewrite (@aligned_lookup _ _ Ha Hd p Hp). reflexivity.
  - apply (@rsum_combine_snd _ _
             (fun kv => monomial_value (fst (snd kv)) (snd (snd kv))
                                       (MonomialSum.rest_of B (fst kv)) rho)).
    rewrite <- (length_map fst (MonomialSum.monomials B)), Ha. apply length_map.
Qed.

Lemma Invariant_empty : Invariant MonomialSum.empty.
Proof. repeat split; constructor. Qed.

(** The value of [MonomialSum.sum(A, B)] is the sum of the values. *)
Lemma sum_value_sum (A B : MonomialSum.t) :
  Invariant A -> Invariant B ->
  Invariant (MonomialSum.sum [A; B])
  /\ forall rho, sum_value (MonomialSum.sum [A; B]) rho = sum_value A rho [+] sum_value B rho.
Proof.
  intros HA HB. unfold MonomialSum.sum. cbn [fold_left].
  destruct (sum_step_value Invariant_empty HA) as [H1 V1].
  destruct (sum_step_value H1 HB) as [H2 V2].
  split; [exact H2|]. intros rho. rewrite V2, V1.
  unfold sum_value at 1. simpl. ring.
Qed.

(** The expression of a sum of two [MonomialSum]s has the value of the sum
    of their expressions. *)
Lemma to_expression_sum (A B : MonomialSum.t) (eA eB eS : expr) :
  Invariant A -> Invariant B ->
  monomials_ok A = true -> monomials_ok B = true ->
  monomials_ok (MonomialSum.sum [A; B]) = true ->
  MonomialSum.to_expression A = Ok eA ->
  MonomialSum.to_expression B = Ok eB ->
  MonomialSum.to_expression (MonomialSum.sum [A; B]) = Ok eS ->
  forall rho, env_ok rho -> value rho eS = value rho (Sum eA eB).
Proof.
  intros IA IB OA OB OS HA HB HS rho Hrho.
  destruct (sum_value_sum IA IB) as [_ V].
  rewrite (to_expression_value _ HS OS Hrho), V.
  rewrite <- (to_expression_value _ HA OA Hrho), <- (to_expression_value _ HB OB Hrho).
  reflexivity.
Qed.

End Semantics.

(** ** The value of [to_expression] on a sum (C4) *)

(** An interpretation in the integers. *)
Definition Z_interp : interp Z :=
  mk_interp (fun q => Qnum q / Zpos (Qden q))
            (fun _ pos => 2 + fold_left Z.add pos 0)
            0 Z.div Z.pow (fun _ x => x)
            (fun _ a b => if a <? b then 1 else 0)
            (fun a => 1 - a) Z.mul Z.max
            (fun c a b => if c =? 0 then b else a)
            (fun _ => 0).

Definition sum_i : index := Index 1 (Some 2).
Definition free_j : index := Index 2 (Some 2).
Definition x_i : expr := Indexed (Variable_ "x" [2]) [sum_i].
Definition y_i : expr := Indexed (Variable_ "y" [2]) [sum_i].

(** [delta(i, j) * x[i] * r] summed over [i], as [add] stores it. *)
Definition delta_monomial : MonomialSum.t :=
  MonomialSum.mk
    [(MonomialSum.make_key [sum_i] [Delta sum_i free_j; x_i],
      Sum (Zero []) (Variable_ "r" []))]
    [(MonomialSum.make_key [sum_i] [Delta sum_i free_j; x_i],
      ([sum_i], [Delta sum_i free_j; x_i]))]
    None.

(** [y[i] * 3] summed over [i]. *)
Definition scaled_monomial : MonomialSum.t :=
  MonomialSum.mk
    [(MonomialSum.make_key [sum_i] [y_i], Sum (Zero []) (Literal (scalar 3)))]
    [(MonomialSum.make_key [sum_i] [y_i], ([sum_i], [y_i]))]
    None.

(** [x[i]^33 * r] summed over [i]. *)
Definition heavy_monomial : MonomialSum.t :=
  MonomialSum.mk
    [(MonomialSum.make_key [sum_i] (repeat x_i 33), Sum (Zero []) (Variable_ "r" []))]
    [(MonomialSum.make_key [sum_i] (repeat x_i 33), ([sum_i], repeat x_i 33))]
    None.

Definition expression_of (self : MonomialSum.t) : expr :=
  match MonomialSum.to_expression self with
  | Ok e => e
  | _ => Failure [] "to_expression raised"
  end.

Definition delta_expression : expr := Eval vm_compute in expression_of delta_monomial.
Definition scaled_expression : expr := Eval vm_compute in expression_of scaled_monomial.
Definition sum_expression : expr :=
  Eval vm_compute in expression_of (MonomialSum.sum [delta_monomial; scaled_monomial]).

(** The assignment with [j = 1]. *)
Definition j_is_1 : ienv := fun k => if index_eqb k free_j then 1 else 0.


Lemma Invariant_single (k : MonomialSum.key) (s : list index) (a : list expr) (r : expr) :
  k = MonomialSum.make_key s a -> NoDup s ->
  Invariant (MonomialSum.mk [(k, r)] [(k, (s, a))] None).
Proof.
  intros Hk Hs. repeat split.
  - constructor; constructor.
  - constructor; [exact Hk | constructor].
  - constructor; [exact Hs | constructor].
Qed.

Lemma NoDup_sum_i : NoDup [sum_i].
Proof. constructor; [intros [] | constructor]. Qed.

Lemma env_ok_j_is_1 : env_ok j_is_1.
Proof.
  intros id n Hn. unfold j_is_1. destruct (index_eqb (Index id (Some n)) free_j) eqn:E.
  - apply index_eqb_eq in E. injection E as _ ->. lia.
  - lia.
Qed.



(** ** Delta elimination returns (C5) *)

(** The factors the loop of [delta_elimination] goes through without
    raising: no access into a component tensor, every flexibly indexed node
    on a terminal, and no delta of an index with itself among the factors. *)
Definition rewritable (f : expr) : bool :=
  all_nodes no_tensor_access f && all_nodes flexible_terminal f
  && match f with
     | Delta a b => negb (index_eqb a b)
     | _ => true
     end.

Lemma reuse_if_untouched_total (self : expr -> result expr) (node : expr) :
  (forall c, In c (children node) -> exists c', self c = Ok c') ->
  exists r, reuse_if_untouched self node = Ok r.
Proof.
  intros H.
  assert (O : outcome (fun _ => False) False (reuse_if_untouched self node)).
  { apply outcome_reuse_if_untouched. intros c Hc. destruct (H c Hc) as [c' ->]. exact I. }
  destruct (reuse_if_untouched self node) as [r | |]; [exists r; reflexivity | |];
    contradiction.
Qed.

(** The rewrite returns when every flexibly indexed node is on a terminal. *)
Lemma filtered_replace_indices_total (e : expr) :
  all_nodes flexible_terminal e = true ->
  forall subst, exists r, filtered_replace_indices e subst = Ok r.
Proof.
  induction e as [e IHc IHb] using expr_rewrite_ind. intros Hf subst.
  assert (Hc : forall s c, In c (children e) -> exists c', filtered_replace_indices c s = Ok c').
  { intros s c Hin. apply (IHc c Hin). eapply all_nodes_child; eassumption. }
  destruct e as [ | | | | | | | | | | | | | | | | | | e multiindex | e dim2idxs | i j];
    try (rewrite filtered_replace_indices_generic by discriminate;
         apply reuse_if_untouched_total; intros c Hin; apply Hc; exact Hin).
  - destruct (not_ComponentTensor e) eqn:Ect.
    + rewrite filtered_replace_indices_Indexed by exact Ect. cbn zeta.
      destruct (Hc (filter (fun kv => index_in (fst kv)
                                        (free_indices (Indexed e multiindex))) subst)
                   e (or_introl eq_refl)) as [nc ->].
      cbn [bind]. destruct (expr_eqb nc e && _); eexists; reflexivity.
    + destruct e; simpl in Ect; try discriminate.
      rewrite filtered_replace_indices_Indexed_tensor. cbn zeta.
      apply (IHb e multiindex0 multiindex eq_refl).
      eapply all_nodes_child; [eapply all_nodes_child; [exact Hf | left; reflexivity]|].
      left. reflexivity.
  - apply all_nodes_root in Hf. simpl in Hf.
    cbn [filtered_replace_indices]. unfold replace_indices_flexiblyindexed.
    rewrite Hf, (is_Terminal_free_indices _ Hf). simpl.
    destruct (dim2idxs_eqb _ dim2idxs); eexists; reflexivity.
  - cbn [filtered_replace_indices]. unfold replace_indices_delta. cbv zeta.
    destruct (index_eqb _ i && index_eqb _ j); eexists; reflexivity.
Qed.

(** The rewrite keeps the flexibly indexed nodes on terminals. *)
Lemma filtered_replace_indices_flexible (e : expr) :
  forall subst r,
    all_nodes no_tensor_access e = true -> all_nodes flexible_terminal e = true ->
    filtered_replace_indices e subst = Ok r ->
    all_nodes flexible_terminal r = true.
Proof.
  induction e as [e IHc _] using expr_rewrite_ind. intros subst r Hn Hf H.
  assert (Hc : forall s c c', In c (children e) -> filtered_replace_indices c s = Ok c' ->
                              all_nodes flexible_terminal c' = true).
  { intros s c c' Hin Hcc. apply (IHc c Hin s); [| |exact Hcc];
      eapply all_nodes_child; eassumption. }
  assert (Generic : kind e <> 18%nat -> kind e <> 19%nat -> kind e <> 20%nat ->
                    all_nodes flexible_terminal r = true).
  { intros K1 K2 K3. rewrite filtered_replace_indices_generic in H by assumption.
    apply reuse_if_untouched_Ok in H as [Hk Hch].
    apply all_nodes_intro.
    - apply flexible_terminal_kind. rewrite Hk. exact K2.
    - intros c' Hc'. destruct (@Forall2_In_r _ _ _ _ _ _ Hch Hc') as (c & Hin & Hcc).
      eapply Hc; eassumption. }
  destruct e as [ | | | | | | | | | | | | | | | | | | e multiindex | e dim2idxs | i j];
    try (apply Generic; discriminate); clear Generic.
  - rewrite filtered_replace_indices_Indexed in H
      by (eapply no_tensor_access_child; eapply all_nodes_root; exact Hn).
    cbn zeta in H. apply bind_Ok in H as (nc & Hnc & H).
    pose proof (Hc _ e nc (or_introl eq_refl) Hnc) as A.
    destruct (expr_eqb nc e && _); injection H as <-; [exact Hf|].
    apply all_nodes_intro; [reflexivity|]. intros c [<- | []]. exact A.
  - cbn [filtered_replace_indices] in H. unfold replace_indices_flexiblyindexed in H.
    apply bind_Ok in H as ([] & _ & H). apply bind_Ok in H as ([] & _ & H).
    destruct (dim2idxs_eqb _ dim2idxs); injection H as <-; [exact Hf|].
    apply all_nodes_intro.
    + apply all_nodes_root in Hf. exact Hf.
    + intros c [<- | []]. eapply all_nodes_child; [exact Hf | left; reflexivity].
  - cbn [filtered_replace_indices] in H. unfold replace_indices_delta in H.
    destruct (index_eqb _ i && index_eqb _ j); injection H as <-; [exact Hf|].
    unfold Delta_. destruct (index_eqb _ _); reflexivity.
Qed.

Lemma remove_index_total (x : index) (l : list index) :
  In x l -> exists l', remove_index x l = Ok l'.
Proof.
  induction l as [|y t IH]; simpl; intros H; [contradiction|].
  destruct (index_eqb y x) eqn:E; [eexists; reflexivity|].
  destruct H as [-> | H]; [rewrite index_eqb_refl in E; discriminate|].
  destruct (IH H) as [t' ->]. eexists. reflexivity.
Qed.

Lemma mapM_total (A B : Type) (f : A -> result B) (l : list A) :
  (forall x, In x l -> exists y, f x = Ok y) -> exists l', mapM f l = Ok l'.
Proof.
  induction l as [|x t IH]; simpl; intros H; [eexists; reflexivity|].
  destruct (H x (or_introl eq_refl)) as [y ->].
  destruct IH as [t' ->]; [intros z Hz; apply H; right; exact Hz|].
  eexists. reflexivity.
Qed.

Lemma Delta__distinct (x y a b : index) : Delta_ x y = Delta a b -> a <> b.
Proof.
  unfold Delta_, one. destruct (index_eqb x y) eqn:E; intros H; [discriminate|].
  injection H as <- <-. apply index_eqb_neq. exact E.
Qed.

Lemma rewritable_spec (f : expr) :
  rewritable f = true <->
  all_nodes no_tensor_access f = true /\ all_nodes flexible_terminal f = true
  /\ (forall a b, f = Delta a b -> a <> b).
Proof.
  unfold rewritable. rewrite !andb_true_iff. split.
  - intros [[H1 H2] H3]. split; [exact H1|]. split; [exact H2|].
    intros a b ->. apply index_eqb_neq. destruct (index_eqb a b); [discriminate|reflexivity].
  - intros (H1 & H2 & H3). split; [split; assumption|].
    destruct f; try reflexivity. specialize (H3 _ _ eq_refl).
    apply index_eqb_neq in H3. rewrite H3. reflexivity.
Qed.

(** One rewrite of all the factors keeps them so. *)
Lemma rewritable_step (from_ to_ : index) (factors factors' : list expr) :
  (forall f, In f factors -> rewritable f = true) ->
  Forall2 (fun f f' => filtered_replace_indices f [(from_, to_)] = Ok f') factors factors' ->
  forall f', In f' factors' -> rewritable f' = true.
Proof.
  intros Hrw Hf f' Hin. destruct (@Forall2_In_r _ _ _ _ _ _ Hf Hin) as (f & Hfin & Hr).
  destruct (proj1 (rewritable_spec f) (Hrw f Hfin)) as (H1 & H2 & H3).
  destruct (@filtered_replace_indices_structure f _ _ H1 Hr) as (A & _ & K).
  apply rewritable_spec. split; [exact A|]. split.
  - apply (@filtered_replace_indices_flexible f _ _ H1 H2 Hr).
  - intros a' b' ->. destruct f; simpl in K; try (destruct K as [K | [K _]]; discriminate).
    apply filtered_replace_indices_Delta in Hr as [Hr | [Hr | Hr]].
    + injection Hr as -> ->. apply (H3 _ _ eq_refl).
    + symmetry in Hr. eapply Delta__distinct. exact Hr.
    + symmetry in Hr. eapply Delta__distinct. exact Hr.
Qed.

Lemma delta_elimination_step_total (a b from_ : index) (sum_indices : list index)
    (factors : list expr) :
  In from_ sum_indices -> In from_ [a; b] -> a <> b ->
  (forall f, In f factors -> rewritable f = true) ->
  exists sum_indices' factors',
    delta_elimination_step (Delta a b) from_ sum_indices factors = Ok (sum_indices', factors')
    /\ forall f', In f' factors' -> rewritable f' = true.
Proof.
  intros Hsi Hfrom Hab Hrw.
  assert (Hto : exists to_, other_indices (Delta a b) from_ = [to_]).
  { unfold other_indices. simpl. apply index_eqb_neq in Hab. rewrite Hab. simpl.
    destruct Hfrom as [E | [E | []]]; subst from_.
    - rewrite index_eqb_refl. simpl. rewrite (index_eqb_sym b a), Hab. simpl.
      eexists. reflexivity.
    - rewrite Hab, index_eqb_refl. simpl. eexists. reflexivity. }
  destruct Hto as [to_ Hto]. unfold delta_elimination_step. rewrite Hto.
  destruct (remove_index_total _ _ Hsi) as [si' ->]. cbn [bind].
  destruct (@mapM_total _ _ (fun e => filtered_replace_indices e [(from_, to_)]) factors)
    as [fs' Hfs].
  { intros f Hf. apply filtered_replace_indices_total.
    apply (proj1 (rewritable_spec f) (Hrw f Hf)). }
  rewrite Hfs. cbn [bind]. exists si', fs'. split; [reflexivity|].
  apply mapM_Ok_Forall2 in Hfs. eapply rewritable_step; eassumption.
Qed.

Lemma delta_elimination_loop_total (fuel : nat) :
  forall sum_indices factors,
    (length sum_indices <= fuel)%nat ->
    (forall f, In f factors -> rewritable f = true) ->
    exists sum_indices' factors',
      delta_elimination_loop fuel sum_indices factors = Ok (sum_indices', factors').
Proof.
  induction fuel as [|fuel IH]; intros si fs Hlen Hrw; cbn [delta_elimination_loop];
    destruct (delta_queue si fs) as [|[d f] q] eqn:Eq;
    try (eexists; eexists; reflexivity);
    assert (Hin : In (d, f) (delta_queue si fs)) by (rewrite Eq; left; reflexivity);
    apply delta_queue_In in Hin as (Hf & Hd & a & b & -> & Hab).
  - destruct si; [destruct Hf | simpl in Hlen; lia].
  - assert (Hne : a <> b).
    { destruct (proj1 (rewritable_spec _) (Hrw _ Hd)) as (_ & _ & H3).
      apply (H3 _ _ eq_refl). }
    destruct (@delta_elimination_step_total a b f si fs Hf) as (si1 & fs1 & Hstep & Hrw1);
      [simpl; destruct Hab; auto | exact Hne | exact Hrw |].
    rewrite Hstep. cbn [bind]. apply IH; [|exact Hrw1].
    apply delta_elimination_step_Ok in Hstep as [L _]. lia.
Qed.

(** The factors after the rules have been applied one after the other, each
    to every factor. *)
Fixpoint rewritten_by (rules : list (index * index)) (factors : list expr)
    : result (list expr) :=
  match rules with
  | [] => Ok factors
  | rule :: rules' =>
      factors' <- mapM (fun e => filtered_replace_indices e [rule]) factors ;;
      rewritten_by rules' factors'
  end.

(** The summation indices after the removal of the given ones, one after the
    other. *)
Fixpoint removed (froms : list index) (sum_indices : list index) : result (list index) :=
  match froms with
  | [] => Ok sum_indices
  | from_ :: froms' =>
      sum_indices' <- remove_index from_ sum_indices ;;
      removed froms' sum_indices'
  end.

(** What the loop returns: the factors rewritten by the rules of the
    iterations, less the units, and the summation indices less the replaced
    ones; no delta of the rewritten factors has an operand among the
    summation indices that are left. *)
Lemma delta_elimination_loop_result (fuel : nat) :
  forall sum_indices factors sum_indices' factors',
    delta_elimination_loop fuel sum_indices factors = Ok (sum_indices', factors') ->
    exists rules rewritten,
      removed (map fst rules) sum_indices = Ok sum_indices'
      /\ rewritten_by rules factors = Ok rewritten
      /\ delta_queue sum_indices' rewritten = []
      /\ factors' = filter (fun e => negb (expr_eqb e one)) rewritten.
Proof.
  induction fuel as [|fuel IH]; intros si fs si' fs' H; cbn [delta_elimination_loop] in H;
    destruct (delta_queue si fs) as [|[d f] q] eqn:Eq; try discriminate;
    try (injection H as <- <-; exists [], fs; simpl; auto).
  apply bind_Ok in H as ([s1 f1] & Hs & H). cbv beta iota in H.
  destruct (IH _ _ _ _ H) as (rules & rewritten & Hr & Hw & Hq & Hf).
  unfold delta_elimination_step in Hs.
  destruct (other_indices d f) as [|to_ [|? ?]]; try discriminate.
  apply bind_Ok in Hs as (s' & Hrm & Hs). apply bind_Ok in Hs as (f' & Hmap & Hs).
  injection Hs as <- <-. exists ((f, to_) :: rules), rewritten.
  cbn [map fst removed rewritten_by]. rewrite Hrm, Hmap. cbn [bind]. auto.
Qed.

Lemma removed_length (froms : list index) :
  forall sum_indices sum_indices',
    removed froms sum_indices = Ok sum_indices' ->
    (length sum_indices' + length froms = length sum_indices)%nat.
Proof.
  induction froms as [|x froms IH]; intros si si' H; simpl in H.
  - injection H as <-. simpl. lia.
  - apply bind_Ok in H as (s1 & H1 & H). apply remove_index_Ok in H1 as [L _].
    specialize (IH _ _ H). simpl. lia.
Qed.

(** C5.  [delta_elimination] terminates on every input: its loop never
    exhausts a counter of the length of [sum_indices] (and any larger counter
    gives the same result), because every iteration that goes through leaves
    strictly fewer summation indices.  When it returns, the summation indices
    it returns are among those it was given: they are the given ones less one
    replaced index for every iteration.  The factors it returns are the given
    factors, rewritten by the rules of the iterations, with the units [one]
    dropped and nothing else: no returned factor is [one], and no delta of
    the rewritten factors has an operand among the returned summation
    indices.  It does return on factors without accesses into component
    tensors, whose flexibly indexed nodes are on terminals and none of which
    is the delta of an index with itself. *)
Theorem delta_elimination_terminates (sum_indices : list index) (factors : list expr) :
  delta_elimination sum_indices factors <> OutOfFuel
  /\ (forall fuel, (length sum_indices <= fuel)%nat ->
        delta_elimination_loop fuel sum_indices factors
        = delta_elimination sum_indices factors)
  /\ (forall delta from_ sum_indices' factors',
        delta_elimination_step delta from_ sum_indices factors = Ok (sum_indices', factors') ->
        (length sum_indices' < length sum_indices)%nat /\ incl sum_indices' sum_indices)
  /\ (forall sum_indices' factors',
        delta_elimination sum_indices factors = Ok (sum_indices', factors') ->
        incl sum_indices' sum_indices /\ ~ In one factors'
        /\ exists rules rewritten,
             removed (map fst rules) sum_indices = Ok sum_indices'
             /\ (length sum_indices' + length rules = length sum_indices)%nat
             /\ rewritten_by rules factors = Ok rewritten
             /\ delta_queue sum_indices' rewritten = []
             /\ factors' = filter (fun e => negb (expr_eqb e one)) rewritten)
  /\ (forallb rewritable factors = true ->
      exists sum_indices' factors',
        delta_elimination sum_indices factors = Ok (sum_indices', factors')).
Proof.
  unfold delta_elimination. split; [|split; [|split; [|split]]].
  - apply delta_elimination_loop_terminates. lia.
  - intros fuel H. apply delta_elimination_loop_fuel. exact H.
  - intros delta from_ si' fs' H. apply delta_elimination_step_Ok in H as [L I].
    split; [lia | exact I].
  - intros si' fs' H. destruct (delta_elimination_loop_Ok _ _ _ H) as [I N].
    split; [exact I|]. split; [exact N|].
    destruct (delta_elimination_loop_result _ _ _ H) as (rules & rewritten & Hr & Hw & Hq & Hf).
    exists rules, rewritten. split; [exact Hr|]. split; [|auto].
    rewrite <- (length_map fst rules). exact (removed_length _ _ Hr).
  - intros H. rewrite forallb_forall in H.
    apply delta_elimination_loop_total; [lia | exact H].
Qed.

(** * Further properties of the passes *)

(** ** Values kept by the passes of [gem/optimise.py] *)

Section Values.

Variable R : Type.
Variables rO rI : R.
Variables radd rmul rsub : R -> R -> R.
Variable ropp : R -> R.
Hypothesis Rth : ring_theory rO rI radd rmul rsub ropp eq.
Variable mu : interp R.
Hypothesis of_Q_one : literal_one_is_unit rI mu.

Add Ring Rvalues : Rth.

Local Notation "x [+] y" := (radd x y) (at level 50, left associativity).
Local Notation "x [*] y" := (rmul x y) (at level 40, left associativity).
Local Abbreviation eval_ := (eval rO rI radd rmul mu).
Local Abbreviation value_ := (value rO rI radd rmul mu).
Local Abbreviation product_ := (product_value rO rI radd rmul mu).
Local Abbreviation isum_ := (isum rO radd).
Local Abbreviation rsum_ := (rsum rO radd).
Local Abbreviation monomial_ := (monomial_value rO rI radd rmul mu).
Local Abbreviation sum_value_ := (sum_value rO rI radd rmul mu).

(** X1.  The tree [associate_product] returns has, under every assignment,
    the value of the product of the factors it was given. *)
Theorem associate_product_keeps_product (factors : list expr) (t : expr) (flops : Z)
    (rho : ienv) :
  associate_product factors = Ok (t, flops) ->
  value_ rho t = product_ factors rho.
Proof. intros H. exact (associate_product_value Rth mu factors H rho). Qed.

(** X2.  The tree [associate_sum] returns has, under every assignment, the
    value of the sum of the summands it was given: the [Zero()] it starts
    every group with adds nothing. *)
Theorem associate_sum_keeps_sum (summands : list expr) (t : expr) (flops : Z) (rho : ienv) :
  associate_sum summands = Ok (t, flops) ->
  value_ rho t = rsum_ summands (value_ rho).
Proof. intros H. exact (associate_sum_value Rth mu summands H rho). Qed.

(** X3.  Whatever ordering of the contractions [sum_factorise] settles on,
    the expression it returns has the value of the product of the factors
    summed over all the summation indices. *)
Theorem sum_factorise_is_contraction (sum_indices : list index) (factors : list expr)
    (e : expr) (rho : ienv) :
  sum_factorise sum_indices factors = Ok e ->
  value_ rho e = isum_ rho sum_indices (product_ factors).
Proof. intros H. exact (sum_factorise_value Rth of_Q_one sum_indices factors H rho). Qed.

(** X4.  [delta_elimination] keeps the contraction: on factors fit for it,
    the product of the returned factors summed over the returned indices is
    the product of the given factors summed over the given indices, under
    every assignment within the extents. *)
Theorem delta_elimination_keeps_contraction (sum_indices sum_indices' : list index)
    (factors factors' : list expr) (rho : ienv) :
  factors_ok factors = true ->
  delta_elimination sum_indices factors = Ok (sum_indices', factors') ->
  env_ok rho ->
  isum_ rho sum_indices' (product_ factors') = isum_ rho sum_indices (product_ factors).
Proof.
  intros Hok H Hrho. unfold delta_elimination in H.
  exact (delta_elimination_loop_value Rth of_Q_one _ _ (factors_ok_spec _ Hok) H Hrho).
Qed.

(** X5.  Replacing the free index [i] by [j] with [filtered_replace_indices]
    gives an expression whose value is that of the argument with [i] set to
    the value of [j], when the argument has no access into a component
    tensor and binds [j] nowhere. *)
Theorem filtered_replace_indices_substitutes (i j : index) (e e' : expr) (rho : ienv)
    (pos : list Z) :
  is_Index i = true ->
  all_nodes no_tensor_access e = true ->
  index_in j (binders e) = false ->
  filtered_replace_indices e [(i, j)] = Ok e' ->
  eval_ e' rho pos = eval_ e (upd rho i (ival mu rho j)) pos.
Proof.
  intros Hi Hn Hj H.
  apply (filtered_replace_indices_eval rO radd rmul of_Q_one i j e Hi Hn); [|exact H].
  intros Hin. apply index_in_In in Hin. congruence.
Qed.

(** X6.  On a [MonomialSum] whose monomials are fit for delta elimination
    ([monomials_ok]: the atomics and the rest of every monomial hold no
    access into a component tensor, the deltas among them relate index
    objects of one known, positive extent, and none of them binds an index of
    such a delta), and under an assignment that keeps every index within its
    extent ([env_ok]), the expression that [to_expression] returns has the
    value of the sum, over the monomials in insertion order, of the product
    of the atomics and the rest of the monomial summed over its summation
    indices. *)
Theorem to_expression_is_sum_of_monomials (self : MonomialSum.t) (e : expr) (rho : ienv) :
  monomials_ok self = true ->
  MonomialSum.to_expression self = Ok e ->
  env_ok rho ->
  value_ rho e
  = rsum_ (MonomialSum.iter self)
          (fun m => isum_ rho (m_sum_indices m)
                      (fun rho' => product_ (m_atomics m) rho' [*] value_ rho' (m_rest m))).
Proof.
  intros Hok H Hrho. rewrite (to_expression_value Rth of_Q_one self H Hok Hrho).
  unfold sum_value, MonomialSum.iter.
  induction (MonomialSum.ordering self) as [|kv od IH]; [reflexivity|].
  simpl. rewrite IH. reflexivity.
Qed.

(** ** Values kept by the operations of [MonomialSum] *)

Lemma dedup_index_length (l : list index) : (length (dedup_index l) <= length l)%nat.
Proof.
  induction l as [|i t IH]; simpl; [lia|].
  pose proof (filter_length_le (fun j => negb (index_eqb i j)) (dedup_index t)). lia.
Qed.

Lemma filter_length_all (A : Type) (p : A -> bool) (l : list A) :
  length (filter p l) = length l -> forall x, In x l -> p x = true.
Proof.
  induction l as [|y t IH]; simpl; intros H x Hx; [contradiction|].
  pose proof (filter_length_le p t) as Hle.
  destruct (p y) eqn:E; simpl in H; [|lia].
  destruct Hx as [<- | Hx]; [exact E | apply IH; [lia | exact Hx]].
Qed.

(** The assertion of [add] holds on the tuples without a repeated index. *)
Lemma dedup_index_length_NoDup (l : list index) :
  length l = length (dedup_index l) <-> NoDup l.
Proof.
  induction l as [|i t IH]; simpl.
  - split; [constructor | reflexivity].
  - pose proof (filter_length_le (fun j => negb (index_eqb i j)) (dedup_index t)) as Hf.
    pose proof (dedup_index_length t) as Hd. split.
    + intros H. constructor.
      * intros Hin. apply In_dedup_index_iff in Hin.
        assert (E : negb (index_eqb i i) = true).
        { apply (@filter_length_all _ (fun j => negb (index_eqb i j)) (dedup_index t));
            [lia | exact Hin]. }
        rewrite index_eqb_refl in E. discriminate.
      * apply IH. lia.
    + intros H. inversion H as [|? ? Hi Ht]; subst. f_equal.
      apply IH in Ht. rewrite Ht.
      symmetry. f_equal. clear - Hi. 
      assert (Hi' : ~ In i (dedup_index t)) by (rewrite In_dedup_index_iff; exact Hi).
      induction (dedup_index t) as [|y l IHl]; simpl; [reflexivity|].
      destruct (index_eqb i y) eqn:E; simpl.
      * apply index_eqb_eq in E. subst. exfalso. apply Hi'. left. reflexivity.
      * f_equal. apply IHl. intros X. apply Hi'. right. exact X.
Qed.

Lemma add_Ok_inv (self self' : MonomialSum.t) (s : list index) (a : list expr) (r : expr) :
  MonomialSum.add self s a r = Ok self' ->
  NoDup s
  /\ self' = MonomialSum.mk
               (MonomialSum.dict_store (MonomialSum.monomials self) (MonomialSum.make_key s a)
                  (Sum (MonomialSum.rest_of self (MonomialSum.make_key s a)) r))
               (MonomialSum.dict_setdefault (MonomialSum.ordering self)
                  (MonomialSum.make_key s a) (s, a))
               (MonomialSum.argument_indices self).
Proof.
  unfold MonomialSum.add. intros H. apply bind_Ok in H as ([] & Ha & H).
  unfold assert in Ha.
  destruct (Nat.eqb (length s) (length (MonomialSum.frozenset s))) eqn:E; [|discriminate].
  apply Nat.eqb_eq in E. split; [apply dedup_index_length_NoDup; exact E|].
  injection H as <-. reflexivity.
Qed.

(** X7.  [add] on a [MonomialSum] that satisfies the class invariant keeps
    the invariant and adds the value of the monomial it is given: the
    summation over [sum_indices] of the product of [atomics] and [rest]. *)
Theorem add_adds_monomial (self self' : MonomialSum.t) (sum_indices : list index)
    (atomics : list expr) (rest : expr) :
  Invariant self ->
  MonomialSum.add self sum_indices atomics rest = Ok self' ->
  Invariant self'
  /\ forall rho, sum_value_ self' rho
                 = sum_value_ self rho [+] monomial_ sum_indices atomics rest rho.
Proof.
  intros Hinv H. apply add_Ok_inv in H as [Hs ->].
  exact (@merge_value _ _ _ _ _ _ _ Rth mu _ _ sum_indices atomics rest Hinv Hs).
Qed.

Lemma sum_list_value (args : list MonomialSum.t) :
  Forall Invariant args ->
  Invariant (MonomialSum.sum args)
  /\ forall rho, sum_value_ (MonomialSum.sum args) rho
                 = rsum_ args (fun arg => sum_value_ arg rho).
Proof.
  unfold MonomialSum.sum. intros Hall.
  assert (G : forall acc, Invariant acc ->
            Invariant (fold_left MonomialSum.sum_step args acc)
            /\ forall rho, sum_value_ (fold_left MonomialSum.sum_step args acc) rho
                           = sum_value_ acc rho [+] rsum_ args (fun arg => sum_value_ arg rho)).
  { induction Hall as [|x l Hx _ IH]; intros acc Hacc; simpl.
    - split; [exact Hacc|]. intros rho. ring.
    - destruct (sum_step_value Rth mu Hacc Hx) as [H1 V1].
      destruct (IH _ H1) as [H2 V2]. split; [exact H2|].
      intros rho. rewrite V2, V1. ring. }
  destruct (G MonomialSum.empty Invariant_empty) as [H V]. split; [exact H|].
  intros rho. rewrite V. unfold sum_value at 1. simpl. ring.
Qed.

(** X8.  [MonomialSum.sum] of any number of arguments that satisfy the class
    invariant satisfies it, and its value is the sum of the values of the
    arguments. *)
Theorem sum_adds_values (args : list MonomialSum.t) :
  Forall Invariant args ->
  Invariant (MonomialSum.sum args)
  /\ forall rho, sum_value_ (MonomialSum.sum args) rho
                 = rsum_ args (fun arg => sum_value_ arg rho).
Proof. apply sum_list_value. Qed.

End Values.

(** *** Instances in the integers *)

Definition returned {A : Type} (default : A) (r : result A) : A :=
  match r with
  | Ok x => x
  | _ => default
  end.

Definition r_scalar : expr := Variable_ "r" [].

Definition product_tree : expr * Z :=
  Eval vm_compute in returned (Zero [], 0) (associate_product [x_i; y_i; r_scalar]).

Definition sum_tree : expr * Z :=
  Eval vm_compute in returned (Zero [], 0) (associate_sum [x_i; y_i; r_scalar]).

Definition contracted : expr :=
  Eval vm_compute in returned (Zero []) (sum_factorise [sum_i] [x_i; y_i; r_scalar]).

Definition eliminated : list index * list expr :=
  Eval vm_compute in
    returned ([], []) (delta_elimination [sum_i] [Delta sum_i free_j; x_i; r_scalar]).

Definition x_j : expr :=
  Eval vm_compute in returned (Zero []) (filtered_replace_indices x_i [(sum_i, free_j)]).

Definition one_added : MonomialSum.t :=
  Eval vm_compute in
    returned MonomialSum.empty (MonomialSum.add delta_monomial [sum_i] [y_i] r_scalar).

Lemma Invariant_delta_monomial : Invariant delta_monomial.
Proof. apply Invariant_single; [reflexivity | exact NoDup_sum_i]. Qed.

Lemma Invariant_scaled_monomial : Invariant scaled_monomial.
Proof. apply Invariant_single; [reflexivity | exact NoDup_sum_i]. Qed.

Lemma associate_product_keeps_product_witness :
  value 0 1 Z.add Z.mul Z_interp j_is_1 (fst product_tree)
  = product_value 0 1 Z.add Z.mul Z_interp [x_i; y_i; r_scalar] j_is_1.
Proof.
  apply (@associate_product_keeps_product Z 0 1 Z.add Z.mul Z.sub Z.opp Zth Z_interp
           [x_i; y_i; r_scalar] (fst product_tree) (snd product_tree) j_is_1).
  vm_compute. reflexivity.
Defined.

Lemma associate_sum_keeps_sum_witness :
  value 0 1 Z.add Z.mul Z_interp j_is_1 (fst sum_tree)
  = rsum 0 Z.add [x_i; y_i; r_scalar] (value 0 1 Z.add Z.mul Z_interp j_is_1).
Proof.
  apply (@associate_sum_keeps_sum Z 0 1 Z.add Z.mul Z.sub Z.opp Zth Z_interp
           [x_i; y_i; r_scalar] (fst sum_tree) (snd sum_tree) j_is_1).
  vm_compute. reflexivity.
Defined.

Lemma sum_factorise_is_contraction_witness :
  value 0 1 Z.add Z.mul Z_interp j_is_1 contracted
  = isum 0 Z.add j_is_1 [sum_i] (product_value 0 1 Z.add Z.mul Z_interp [x_i; y_i; r_scalar]).
Proof.
  apply (@sum_factorise_is_contraction Z 0 1 Z.add Z.mul Z.sub Z.opp Zth Z_interp eq_refl
           [sum_i] [x_i; y_i; r_scalar] contracted j_is_1).
  vm_compute. reflexivity.
Defined.

Lemma delta_elimination_keeps_contraction_witness :
  isum 0 Z.add j_is_1 (fst eliminated) (product_value 0 1 Z.add Z.mul Z_interp (snd eliminated))
  = isum 0 Z.add j_is_1 [sum_i]
      (product_value 0 1 Z.add Z.mul Z_interp [Delta sum_i free_j; x_i; r_scalar]).
Proof.
  apply (@delta_elimination_keeps_contraction Z 0 1 Z.add Z.mul Z.sub Z.opp Zth Z_interp
           eq_refl [sum_i] (fst eliminated) [Delta sum_i free_j; x_i; r_scalar]
           (snd eliminated) j_is_1).
  - vm_compute. reflexivity.
  - vm_compute. reflexivity.
  - exact env_ok_j_is_1.
Defined.

Lemma filtered_replace_indices_substitutes_witness :
  eval 0 1 Z.add Z.mul Z_interp x_j j_is_1 []
  = eval 0 1 Z.add Z.mul Z_interp x_i (upd j_is_1 sum_i (ival Z_interp j_is_1 free_j)) [].
Proof.
  apply (@filtered_replace_indices_substitutes Z 0 1 Z.add Z.mul Z_interp eq_refl
           sum_i free_j x_i x_j j_is_1 []).
  - reflexivity.
  - reflexivity.
  - reflexivity.
  - vm_compute. reflexivity.
Defined.

Lemma to_expression_is_sum_of_monomials_witness :
  value 0 1 Z.add Z.mul Z_interp j_is_1 delta_expression
  = rsum 0 Z.add (MonomialSum.iter delta_monomial)
      (fun m => isum 0 Z.add j_is_1 (m_sum_indices m)
                  (fun rho' => product_value 0 1 Z.add Z.mul Z_interp (m_atomics m) rho'
                               * value 0 1 Z.add Z.mul Z_interp rho' (m_rest m))).
Proof.
  apply (@to_expression_is_sum_of_monomials Z 0 1 Z.add Z.mul Z.sub Z.opp Zth Z_interp
           eq_refl delta_monomial delta_expression j_is_1).
  - vm_compute. reflexivity.
  - vm_compute. reflexivity.
  - exact env_ok_j_is_1.
Defined.

Lemma add_adds_monomial_witness :
  Invariant one_added
  /\ forall rho, sum_value 0 1 Z.add Z.mul Z_interp one_added rho
                 = sum_value 0 1 Z.add Z.mul Z_interp delta_monomial rho
                   + monomial_value 0 1 Z.add Z.mul Z_interp [sum_i] [y_i] r_scalar rho.
Proof.
  apply (@add_adds_monomial Z 0 1 Z.add Z.mul Z.sub Z.opp Zth Z_interp
           delta_monomial one_added [sum_i] [y_i] r_scalar).
  - exact Invariant_delta_monomial.
  - vm_compute. reflexivity.
Defined.

Lemma sum_adds_values_witness :
  Invariant (MonomialSum.sum [delta_monomial; scaled_monomial])
  /\ forall rho,
       sum_value 0 1 Z.add Z.mul Z_interp (MonomialSum.sum [delta_monomial; scaled_monomial]) rho
       = rsum 0 Z.add [delta_monomial; scaled_monomial]
           (fun arg => sum_value 0 1 Z.add Z.mul Z_interp arg rho).
Proof.
  apply (@sum_adds_values Z 0 1 Z.add Z.mul Z.sub Z.opp Zth Z_interp
           [delta_monomial; scaled_monomial]).
  constructor; [exact Invariant_delta_monomial|].
  constructor; [exact Invariant_scaled_monomial | constructor].
Defined.

(** ** Flattening of sums and products *)

(** The summands of a sum tree, left to right; a node on which [stop_at]
    holds is not split. *)
Fixpoint summands_of (stop_at : option (expr -> bool)) (e : expr) : list expr :=
  if stop_here stop_at e then [e]
  else match e with
       | Sum a b => summands_of stop_at a ++ summands_of stop_at b
       | _ => [e]
       end.

(** The number of iterations the loop of [traverse_sum] spends on a node. *)
Fixpoint sum_steps (stop_at : option (expr -> bool)) (e : expr) : nat :=
  if stop_here stop_at e then 1
  else match e with
       | Sum a b => S (sum_steps stop_at a + sum_steps stop_at b)
       | _ => 1
       end.

Definition is_Sum (e : expr) : bool :=
  match e with Sum _ _ => true | _ => false end.

Lemma sum_steps_size (stop_at : option (expr -> bool)) (e : expr) :
  (1 <= sum_steps stop_at e <= size e)%nat.
Proof.
  induction e; simpl; destruct (stop_here stop_at _); simpl; try lia.
Qed.

Lemma traverse_sum_loop_flattens (stop_at : option (expr -> bool)) (fuel : nat) :
  forall stack result_,
    (fold_right (fun x n => sum_steps stop_at x + n) 0 stack <= fuel)%nat ->
    traverse_sum_loop fuel stop_at stack result_
    = Ok (result_ ++ flat_map (summands_of stop_at) stack).
Proof.
  induction fuel as [|fuel IH]; intros [|e stack] result_ Hfuel;
    try (simpl; rewrite app_nil_r; reflexivity).
  - simpl in Hfuel. pose proof (sum_steps_size stop_at e). lia.
  - cbn [traverse_sum_loop flat_map fold_right] in *.
    destruct (stop_here stop_at e) eqn:Estop.
    + assert (E1 : summands_of stop_at e = [e]) by (destruct e; simpl; rewrite Estop; reflexivity).
      assert (E2 : sum_steps stop_at e = 1%nat)
        by (destruct e; simpl; rewrite Estop; reflexivity).
      rewrite E1. rewrite IH by lia. rewrite <- app_assoc. reflexivity.
    + destruct e;
        try (match goal with
             | |- traverse_sum_loop _ _ _ (_ ++ [?x]) = _ =>
                 assert (E2 : summands_of stop_at x = [x]) by (simpl; rewrite Estop; reflexivity);
                 assert (E3 : sum_steps stop_at x = 1%nat) by (simpl; rewrite Estop; reflexivity);
                 rewrite E2; rewrite IH by lia; rewrite <- app_assoc; reflexivity
             end).
      assert (E2 : summands_of stop_at (Sum e1 e2)
                   = summands_of stop_at e1 ++ summands_of stop_at e2)
        by (simpl; rewrite Estop; reflexivity).
      assert (E3 : sum_steps stop_at (Sum e1 e2)
                   = S (sum_steps stop_at e1 + sum_steps stop_at e2))
        by (simpl; rewrite Estop; reflexivity).
      rewrite E2. rewrite IH by (simpl; lia). simpl. rewrite <- !app_assoc. reflexivity.
Qed.

Lemma summands_of_BuiltFrom (stop_at : option (expr -> bool)) (e : expr) :
  BuiltFrom Sum e (summands_of stop_at e).
Proof.
  induction e; simpl; destruct (stop_here stop_at _); try apply built_leaf.
  econstructor; [exact IHe1 | exact IHe2 | reflexivity].
Qed.

Lemma summands_of_final (stop_at : option (expr -> bool)) (e : expr) :
  Forall (fun s => stop_here stop_at s = true \/ is_Sum s = false) (summands_of stop_at e).
Proof.
  induction e; simpl; destruct (stop_here stop_at _) eqn:E;
    try (constructor; [auto | constructor]).
  apply Forall_app. split; assumption.
Qed.

Lemma traverse_sum_returns (stop_at : option (expr -> bool)) (e : expr) :
  traverse_sum e stop_at = Ok (summands_of stop_at e).
Proof.
  unfold traverse_sum. rewrite traverse_sum_loop_flattens.
  - simpl. rewrite app_nil_r. reflexivity.
  - simpl. pose proof (sum_steps_size stop_at e). lia.
Qed.

(** X9.  [traverse_sum] returns on every expression, within as many
    iterations as the expression has nodes.  It returns the summands of the
    sum tree from left to right: the expression is built from them by [Sum],
    each used once, and a returned summand is a [Sum] only where [stop_at]
    holds on it. *)
Theorem traverse_sum_flattens (stop_at : option (expr -> bool)) (e : expr) :
  traverse_sum e stop_at = Ok (summands_of stop_at e)
  /\ BuiltFrom Sum e (summands_of stop_at e)
  /\ Forall (fun s => stop_here stop_at s = true \/ is_Sum s = false)
            (summands_of stop_at e).
Proof.
  split; [apply traverse_sum_returns|].
  split; [apply summands_of_BuiltFrom | apply summands_of_final].
Qed.

(** The factors of a product tree, left to right, and the summation indices
    met on the way, outermost first; [stop_at] as above. *)
Fixpoint factors_of (stop_at : option (expr -> bool)) (e : expr) : list expr :=
  if stop_here stop_at e then [e]
  else match e with
       | IndexSum a _ => factors_of stop_at a
       | Product a b => factors_of stop_at a ++ factors_of stop_at b
       | Division a b =>
           if expr_eqb a one then [e] else factors_of stop_at a ++ [Division one b]
       | _ => [e]
       end.

Fixpoint indices_of (stop_at : option (expr -> bool)) (e : expr) : list index :=
  if stop_here stop_at e then []
  else match e with
       | IndexSum a mi => mi ++ indices_of stop_at a
       | Product a b => indices_of stop_at a ++ indices_of stop_at b
       | Division a b => if expr_eqb a one then [] else indices_of stop_at a
       | _ => []
       end.

(** The number of iterations the loop of [traverse_product] spends on a
    node. *)
Fixpoint product_steps (stop_at : option (expr -> bool)) (e : expr) : nat :=
  if stop_here stop_at e then 1
  else match e with
       | IndexSum a _ => S (product_steps stop_at a)
       | Product a b => S (product_steps stop_at a + product_steps stop_at b)
       | Division a b => if expr_eqb a one then 1 else S (S (product_steps stop_at a))
       | _ => 1
       end.

(** What the loop breaks up. *)
Definition splits (e : expr) : bool :=
  match e with
  | IndexSum _ _ | Product _ _ => true
  | Division a _ => negb (expr_eqb a one)
  | _ => false
  end.

Lemma product_steps_size (stop_at : option (expr -> bool)) (e : expr) :
  (1 <= product_steps stop_at e <= 2 * size e)%nat.
Proof.
  induction e; simpl; destruct (stop_here stop_at _); simpl; try lia.
  destruct (expr_eqb e1 one); lia.
Qed.

Lemma unit_division (stop_at : option (expr -> bool)) (b : expr) :
  factors_of stop_at (Division one b) = [Division one b]
  /\ indices_of stop_at (Division one b) = []
  /\ product_steps stop_at (Division one b) = 1%nat.
Proof.
  cbn [factors_of indices_of product_steps].
  destruct (stop_here stop_at (Division one b)); repeat split; reflexivity.
Qed.

Lemma traverse_product_loop_flattens (stop_at : option (expr -> bool)) (fuel : nat) :
  forall stack sum_indices terms,
    (fold_right (fun x n => product_steps stop_at x + n) 0 stack <= fuel)%nat ->
    traverse_product_loop fuel stop_at stack sum_indices terms
    = Ok (sum_indices ++ flat_map (indices_of stop_at) stack,
          terms ++ flat_map (factors_of stop_at) stack).
Proof.
  induction fuel as [|fuel IH]; intros [|e stack] si terms Hfuel;
    try (simpl; rewrite !app_nil_r; reflexivity).
  - simpl in Hfuel. pose proof (product_steps_size stop_at e). lia.
  - cbn [traverse_product_loop flat_map fold_right] in *.
    assert (Leaf : factors_of stop_at e = [e] -> indices_of stop_at e = [] ->
                   product_steps stop_at e = 1%nat ->
                   traverse_product_loop fuel stop_at stack si (terms ++ [e])
                   = Ok (si ++ indices_of stop_at e ++ flat_map (indices_of stop_at) stack,
                         terms ++ factors_of stop_at e ++ flat_map (factors_of stop_at) stack)).
    { intros E1 E2 E3. rewrite E1, E2. rewrite IH by lia. rewrite <- app_assoc. reflexivity. }
    destruct (stop_here stop_at e) eqn:Estop.
    + apply Leaf; destruct e; simpl; rewrite Estop; reflexivity.
    + destruct e; try (apply Leaf; simpl; rewrite Estop; reflexivity).
      * (* Product *)
        cbn [factors_of indices_of product_steps] in *. rewrite Estop in *.
        rewrite IH by (simpl; lia). simpl. rewrite <- !app_assoc. reflexivity.
      * (* Division *)
        cbn [factors_of indices_of product_steps] in *. rewrite Estop in *.
        destruct (expr_eqb e1 one) eqn:Eone.
        -- rewrite IH by lia. rewrite <- app_assoc. reflexivity.
        -- destruct (unit_division stop_at e2) as (U1 & U2 & U3).
           rewrite IH by (cbn [fold_right]; rewrite U3; lia).
           cbn [flat_map]. rewrite U1, U2. simpl. rewrite <- !app_assoc. reflexivity.
      * (* IndexSum *)
        cbn [factors_of indices_of product_steps] in *. rewrite Estop in *.
        rewrite IH by (simpl; lia). simpl. rewrite <- !app_assoc. reflexivity.
Qed.

Lemma factors_of_final (stop_at : option (expr -> bool)) (e : expr) :
  Forall (fun f => stop_here stop_at f = true \/ splits f = false) (factors_of stop_at e).
Proof.
  induction e; simpl; destruct (stop_here stop_at _) eqn:E;
    try (constructor; [auto | constructor]);
    try (apply Forall_app; split; assumption); try assumption.
  destruct (expr_eqb e1 one) eqn:E1.
  - constructor; [|constructor]. right. simpl. rewrite E1. reflexivity.
  - apply Forall_app. split; [exact IHe1|]. constructor; [|constructor]. right. reflexivity.
Qed.

Lemma traverse_product_returns (stop_at : option (expr -> bool)) (e : expr) :
  traverse_product e stop_at = Ok (indices_of stop_at e, factors_of stop_at e).
Proof.
  unfold traverse_product. rewrite traverse_product_loop_flattens.
  - simpl. rewrite !app_nil_r. reflexivity.
  - simpl. pose proof (product_steps_size stop_at e). lia.
Qed.

(** X10.  [traverse_product] returns on every expression, within twice as
    many iterations as the expression has nodes.  It returns the factors of
    the product tree from left to right, descending into contractions and
    into the dividends of divisions, together with the summation indices of
    the contractions it went through, outermost first; a returned factor is
    a product, a contraction or a division by more than the unit only where
    [stop_at] holds on it. *)
Theorem traverse_product_flattens (stop_at : option (expr -> bool)) (e : expr) :
  traverse_product e stop_at = Ok (indices_of stop_at e, factors_of stop_at e)
  /\ Forall (fun f => stop_here stop_at f = true \/ splits f = false)
            (factors_of stop_at e).
Proof. split; [apply traverse_product_returns | apply factors_of_final]. Qed.

(** ** The value of a flattened product *)

(** No index of [l] is free in an expression of [es]. *)
Definition apart (l : list index) (es : list expr) : bool :=
  forallb (fun i => forallb (fun f => negb (index_in i (free_indices f))) es) l.

(** Every contraction that [traverse_product] opens binds indices that occur
    nowhere outside it: not in the other operand of a product or in the
    divisor of a division, nor in the factors of the operand to its left. *)
Fixpoint bound_once (stop_at : option (expr -> bool)) (e : expr) : bool :=
  if stop_here stop_at e then true
  else match e with
       | IndexSum a _ => bound_once stop_at a
       | Product a b =>
           bound_once stop_at a && bound_once stop_at b
           && apart (indices_of stop_at a) [b]
           && apart (indices_of stop_at b) (factors_of stop_at a)
       | Division a b =>
           if expr_eqb a one then true
           else bound_once stop_at a && apart (indices_of stop_at a) [b]
       | _ => true
       end.

Section FlattenedValues.

Variable R : Type.
Variables rO rI : R.
Variables radd rmul rsub : R -> R -> R.
Variable ropp : R -> R.
Hypothesis Rth : ring_theory rO rI radd rmul rsub ropp eq.
Variable mu : interp R.
Hypothesis of_Q_one : literal_one_is_unit rI mu.

(** Dividing is multiplying by the inverse. *)
Definition division_by_inverse : Prop :=
  forall x y, division mu x y = rmul x (division mu rI y).

Hypothesis division_law : division_by_inverse.

Add Ring Rflattened : Rth.

Local Notation "x [+] y" := (radd x y) (at level 50, left associativity).
Local Notation "x [*] y" := (rmul x y) (at level 40, left associativity).
Local Abbreviation value_ := (value rO rI radd rmul mu).
Local Abbreviation product_ := (product_value rO rI radd rmul mu).
Local Abbreviation isum_ := (isum rO radd).

Lemma value_upd_apart (e : expr) (i : index) (v : Z) (rho : ienv) :
  index_in i (free_indices e) = false -> value_ (upd rho i v) e = value_ rho e.
Proof.
  intros H. apply eval_agree. intros k Hk. unfold upd.
  destruct (index_eqb k i) eqn:E; [|reflexivity].
  apply index_eqb_eq in E. subst k. apply index_in_In in Hk. congruence.
Qed.

Lemma product_upd_apart (l : list index) (es : list expr) (i : index) (v : Z) (rho : ienv) :
  apart l es = true -> In i l -> product_ es (upd rho i v) = product_ es rho.
Proof.
  intros H Hi. unfold apart in H. rewrite forallb_forall in H. specialize (H i Hi).
  rewrite forallb_forall in H. unfold product_value. f_equal. apply map_ext_in.
  intros e He. apply value_upd_apart. specialize (H e He).
  destruct (index_in i (free_indices e)); [discriminate | reflexivity].
Qed.

(** A factor that does not depend on the summation indices leaves the
    contraction. *)
Lemma isum_factor (mi : list index) (f g : ienv -> R) :
  (forall i, In i mi -> forall rho v, g (upd rho i v) = g rho) ->
  forall rho, isum_ rho mi (fun r => f r [*] g r) = isum_ rho mi f [*] g rho.
Proof.
  induction mi as [|i mi IH]; intros Hg rho; simpl; [reflexivity|].
  rewrite (@rsum_ext _ rO radd _ (range_of i) _
             (fun v => g rho [*] isum_ (upd rho i v) mi f)).
  - rewrite (rsum_scale Rth). ring.
  - intros v _. rewrite IH by (intros k Hk; apply Hg; right; exact Hk).
    rewrite Hg by (left; reflexivity). ring.
Qed.

Lemma traverse_product_value (stop_at : option (expr -> bool)) (e : expr) :
  bound_once stop_at e = true ->
  forall rho, isum_ rho (indices_of stop_at e) (product_ (factors_of stop_at e)) = value_ rho e.
Proof.
  assert (Leaf : forall x rho, isum_ rho [] (product_ [x]) = value_ rho x).
  { intros x rho. simpl. unfold product_value. simpl. ring. }
  induction e; intros Hok rho; cbn [bound_once indices_of factors_of] in *;
    destruct (stop_here stop_at _) eqn:Estop; try apply Leaf.
  - (* Product *)
    apply andb_true_iff in Hok as [Hok Hba]. apply andb_true_iff in Hok as [Hok Hab].
    apply andb_true_iff in Hok as [Ha Hb].
    rewrite isum_app.
    transitivity (isum_ rho (indices_of stop_at e1)
                    (fun r => product_ (factors_of stop_at e1) r [*] value_ r e2)).
    + apply isum_ext. intros r.
      rewrite (@isum_ext _ rO radd _ _
                 (fun r' => product_ (factors_of stop_at e2) r'
                            [*] product_ (factors_of stop_at e1) r')).
      * rewrite isum_factor.
        -- rewrite IHe2 by exact Hb. ring.
        -- intros i Hi rho' v. eapply product_upd_apart; eassumption.
      * intros r'. rewrite (product_value_app Rth). ring.
    + rewrite isum_factor.
      * rewrite IHe1 by exact Ha. reflexivity.
      * intros i Hi rho' v. apply value_upd_apart.
        unfold apart in Hab. rewrite forallb_forall in Hab. specialize (Hab i Hi).
        simpl in Hab. destruct (index_in i (free_indices e2)); [discriminate | reflexivity].
  - (* Division *)
    destruct (expr_eqb e1 one) eqn:Eone; [apply Leaf|].
    apply andb_true_iff in Hok as [Ha Hab].
    transitivity (isum_ rho (indices_of stop_at e1)
                    (fun r => product_ (factors_of stop_at e1) r
                              [*] division mu rI (value_ r e2))).
    + apply isum_ext. intros r. rewrite (product_value_app Rth).
      unfold product_value at 2. simpl. unfold value at 1. simpl.
      replace (of_Q mu 1) with rI by (symmetry; exact of_Q_one).
      unfold value. ring.
    + rewrite (isum_factor _ _ (fun r => division mu rI (value_ r e2))).
      * rewrite IHe1 by exact Ha. unfold value. simpl. symmetry. apply division_law.
      * intros i Hi rho' v. f_equal. apply value_upd_apart.
        unfold apart in Hab. rewrite forallb_forall in Hab. specialize (Hab i Hi).
        simpl in Hab. destruct (index_in i (free_indices e2)); [discriminate | reflexivity].
  - (* IndexSum *)
    rewrite isum_app. unfold value. simpl. apply isum_ext. intros r.
    apply IHe. exact Hok.
Qed.

(** X11.  The factors [traverse_product] returns, multiplied and summed over
    the indices it returns, have the value of the expression, when every
    contraction it opens binds indices that occur nowhere outside it and
    dividing is multiplying by the inverse. *)
Theorem traverse_product_keeps_value (stop_at : option (expr -> bool)) (e : expr)
    (sum_indices : list index) (factors : list expr) (rho : ienv) :
  bound_once stop_at e = true ->
  traverse_product e stop_at = Ok (sum_indices, factors) ->
  isum_ rho sum_indices (product_ factors) = value_ rho e.
Proof.
  intros Hok H. rewrite traverse_product_returns in H. injection H as <- <-.
  apply traverse_product_value. exact Hok.
Qed.

(** X12.  [contraction] keeps the value: on an expression without access
    into a component tensor, whose contractions bind their indices once and
    whose factors are fit for delta elimination, what it returns has the
    value of the expression under every assignment within the extents. *)
Theorem contraction_keeps_value (e r : expr) (rho : ienv) :
  all_nodes no_tensor_access e = true ->
  all_nodes flexible_terminal e = true ->
  bound_once None e = true ->
  factors_ok (factors_of None e) = true ->
  contraction e = Ok r ->
  env_ok rho ->
  value_ rho r = value_ rho e.
Proof.
  intros Hn Hf Hb Hok H Hrho. unfold contraction, remove_componenttensors in H.
  cbn [mapM] in H. rewrite (filtered_replace_indices_fixpoint e Hn Hf) in H.
  cbn [bind unpack1] in H. rewrite traverse_product_returns in H. cbn [bind] in H.
  destruct (delta_elimination (indices_of None e) (factors_of None e))
    as [[si' fs'] | x |] eqn:Ed; try discriminate.
  cbn [bind] in H.
  rewrite (sum_factorise_value Rth of_Q_one si' fs' H rho).
  unfold delta_elimination in Ed.
  rewrite (delta_elimination_loop_value Rth of_Q_one _ _ (factors_ok_spec _ Hok) Ed Hrho).
  apply traverse_product_value. exact Hb.
Qed.

End FlattenedValues.

(** *** An instance in the integers *)

(** The integers with division by a unit: [x / y] is [x] times the inverse
    of [y], taken as [0] where [y] has none. *)
Definition unit_interp : interp Z :=
  {| of_Q := of_Q Z_interp;
     variable_value := variable_value Z_interp;
     failure_value := failure_value Z_interp;
     division := fun x y => x * Z.quot 1 y;
     power := power Z_interp;
     math_function := math_function Z_interp;
     comparison := comparison Z_interp;
     logical_not := logical_not Z_interp;
     logical_and := logical_and Z_interp;
     logical_or := logical_or Z_interp;
     conditional := conditional Z_interp;
     variable_index_value := variable_index_value Z_interp |}.

Lemma unit_interp_division : division_by_inverse 1 Z.mul unit_interp.
Proof. intros x y. cbn [division unit_interp]. f_equal. symmetry. apply Z.mul_1_l. Qed.

(** [(sum_i delta(i, j) * x[i]) / -1]. *)
Definition negated_contraction : expr :=
  Division (IndexSum (Product (Delta sum_i free_j) x_i) [sum_i])
           (Literal (scalar (inject_Z (-1)))).

Definition contracted_negation : expr :=
  Eval vm_compute in returned (Zero []) (contraction negated_contraction).

Lemma traverse_product_keeps_value_witness :
  isum 0 Z.add j_is_1 [sum_i]
    (product_value 0 1 Z.add Z.mul unit_interp
       [Delta sum_i free_j; x_i; Division one (Literal (scalar (inject_Z (-1))))])
  = value 0 1 Z.add Z.mul unit_interp j_is_1 negated_contraction.
Proof.
  apply (@traverse_product_keeps_value Z 0 1 Z.add Z.mul Z.sub Z.opp Zth unit_interp
           eq_refl unit_interp_division None negated_contraction
           [sum_i] [Delta sum_i free_j; x_i; Division one (Literal (scalar (inject_Z (-1))))]
           j_is_1).
  - reflexivity.
  - vm_compute. reflexivity.
Defined.

Lemma contraction_keeps_value_witness :
  value 0 1 Z.add Z.mul unit_interp j_is_1 contracted_negation
  = value 0 1 Z.add Z.mul unit_interp j_is_1 negated_contraction.
Proof.
  apply (@contraction_keeps_value Z 0 1 Z.add Z.mul Z.sub Z.opp Zth unit_interp
           eq_refl unit_interp_division negated_contraction contracted_negation j_is_1).
  - reflexivity.
  - reflexivity.
  - reflexivity.
  - vm_compute. reflexivity.
  - vm_compute. reflexivity.
  - exact env_ok_j_is_1.
Defined.

(** ** Keys and insertion in a [MonomialSum] *)

Lemma In_Counter_iff (a : list expr) (x : expr) (n : nat) :
  In (x, n) (MonomialSum.Counter a) <-> (0 < n)%nat /\ n = count_occ expr_eq_dec a x.
Proof.
  assert (W : cwf (MonomialSum.Counter a)).
  { apply fold_counter_add_wf. split; constructor. }
  assert (G : cget (MonomialSum.Counter a) x = count_occ expr_eq_dec a x).
  { unfold MonomialSum.Counter. rewrite cget_fold. reflexivity. }
  split.
  - intros H. split; [eapply cwf_positive; eassumption|].
    rewrite <- G. symmetry. apply cget_In; assumption.
  - intros [Hp ->]. rewrite <- G. apply In_cget. rewrite G. exact Hp.
Qed.

(** X13.  Two monomials share their key, and so are merged into one entry
    of a [MonomialSum], exactly when their summation indices are the same
    set and their atomics are the same up to order, multiplicities
    counted. *)
Theorem same_key_iff (s s' : list index) (a a' : list expr) :
  MonomialSum.key_eqb (MonomialSum.make_key s a) (MonomialSum.make_key s' a') = true
  <-> (forall x, In x s <-> In x s') /\ Permutation a a'.
Proof.
  rewrite key_eqb_spec. unfold MonomialSum.make_key, MonomialSum.frozenset. simpl. split.
  - intros [A B]. split.
    + intros x. rewrite <- (In_dedup_index_iff x s), <- (In_dedup_index_iff x s'). apply A.
    + apply Counter_perm. exact B.
  - intros [A B]. split.
    + intros x. rewrite (In_dedup_index_iff x s), (In_dedup_index_iff x s'). apply A.
    + intros [x n]. rewrite !In_Counter_iff.
      rewrite (Permutation_count_occ expr_eq_dec a a') in B. rewrite (B x). reflexivity.
Qed.

(** X14.  [add] raises its assertion error exactly on summation indices with
    a repetition.  Otherwise it returns: the rest stored under the key of
    the monomial becomes the sum of what was stored there ([Zero()] if
    nothing was) and the given rest, the rest under every other key is
    unchanged, and the order of insertion gets a new last entry exactly when
    the key was not yet present, the entries before it being kept as they
    were. *)
Theorem add_merges_by_key (self : MonomialSum.t) (sum_indices : list index)
    (atomics : list expr) (rest : expr) :
  (~ NoDup sum_indices ->
   MonomialSum.add self sum_indices atomics rest
   = Raise (AssertionError "len(sum_indices) == len(sum_indices_set)"))
  /\ (NoDup sum_indices ->
      exists self',
        MonomialSum.add self sum_indices atomics rest = Ok self'
        /\ (forall q, MonomialSum.rest_of self' q
                      = if MonomialSum.key_eqb (MonomialSum.make_key sum_indices atomics) q
                        then Sum (MonomialSum.rest_of
                                    self (MonomialSum.make_key sum_indices atomics)) rest
                        else MonomialSum.rest_of self q)
        /\ MonomialSum.ordering self'
           = match MonomialSum.dict_lookup (MonomialSum.ordering self)
                     (MonomialSum.make_key sum_indices atomics) with
             | Some _ => MonomialSum.ordering self
             | None => MonomialSum.ordering self
                       ++ [(MonomialSum.make_key sum_indices atomics, (sum_indices, atomics))]
             end).
Proof.
  unfold MonomialSum.add, assert. fold (MonomialSum.make_key sum_indices atomics).
  set (k := MonomialSum.make_key sum_indices atomics). split.
  - intros H.
    destruct (Nat.eqb (length sum_indices) (length (MonomialSum.frozenset sum_indices))) eqn:E;
      [|reflexivity].
    apply Nat.eqb_eq in E. apply dedup_index_length_NoDup in E. contradiction.
  - intros H. apply dedup_index_length_NoDup in H. apply Nat.eqb_eq in H.
    unfold MonomialSum.frozenset. rewrite H. cbn [bind]. eexists. split; [reflexivity|].
    split; [|reflexivity].
    intros q. unfold MonomialSum.rest_of at 1. cbn [MonomialSum.monomials].
    rewrite dict_lookup_store. destruct (MonomialSum.key_eqb k q); reflexivity.
Qed.

(** ** The product of monomial sums *)

(** The summation indices of each of two monomials are free in no atomic and
    not in the rest of the other. *)
Definition monomial_apart (m m' : Monomial) : bool :=
  apart (m_sum_indices m) (m_atomics m' ++ [m_rest m'])
  && apart (m_sum_indices m') (m_atomics m ++ [m_rest m]).

Fixpoint pairwise_apart (ms : list Monomial) : bool :=
  match ms with
  | [] => true
  | m :: ms' => forallb (monomial_apart m) ms' && pairwise_apart ms'
  end.

Lemma apart_spec (l : list index) (es : list expr) :
  apart l es = true
  <-> forall i, In i l -> forall f, In f es -> index_in i (free_indices f) = false.
Proof.
  unfold apart. rewrite forallb_forall. split.
  - intros H i Hi f Hf. specialize (H i Hi). rewrite forallb_forall in H.
    specialize (H f Hf). destruct (index_in i (free_indices f)); [discriminate | reflexivity].
  - intros H i Hi. apply forallb_forall. intros f Hf. rewrite (H i Hi f Hf). reflexivity.
Qed.

Lemma cartesian_nil (A : Type) (ls : list (list A)) : In [] ls -> MonomialSum.cartesian ls = [].
Proof.
  induction ls as [|l ls IH]; simpl; [tauto|].
  intros [-> | H]; [reflexivity|]. rewrite IH by exact H.
  induction l as [|x l IHl]; [reflexivity | exact IHl].
Qed.

Section ProductValues.

Variable R : Type.
Variables rO rI : R.
Variables radd rmul rsub : R -> R -> R.
Variable ropp : R -> R.
Hypothesis Rth : ring_theory rO rI radd rmul rsub ropp eq.
Variable mu : interp R.
Hypothesis of_Q_one : literal_one_is_unit rI mu.

Add Ring Rproducts : Rth.

Local Notation "x [+] y" := (radd x y) (at level 50, left associativity).
Local Notation "x [*] y" := (rmul x y) (at level 40, left associativity).
Local Abbreviation value_ := (value rO rI radd rmul mu).
Local Abbreviation product_ := (product_value rO rI radd rmul mu).
Local Abbreviation isum_ := (isum rO radd).
Local Abbreviation rsum_ := (rsum rO radd).
Local Abbreviation rprod_ := (rprod rI rmul).
Local Abbreviation monomial_ := (monomial_value rO rI radd rmul mu).
Local Abbreviation sum_value_ := (sum_value rO rI radd rmul mu).

(** The value of a monomial. *)
Definition monomial_of (rho : ienv) (m : Monomial) : R :=
  monomial_ (m_sum_indices m) (m_atomics m) (m_rest m) rho.

Lemma rsum_map (A B : Type) (f : A -> B) (l : list A) (g : B -> R) :
  rsum_ (map f l) g = rsum_ l (fun x => g (f x)).
Proof. induction l as [|x l IH]; simpl; [reflexivity | rewrite IH; reflexivity]. Qed.

Lemma rsum_flat_map (A B : Type) (f : A -> list B) (l : list A) (g : B -> R) :
  rsum_ (flat_map f l) g = rsum_ l (fun x => rsum_ (f x) g).
Proof.
  induction l as [|x l IH]; simpl; [reflexivity|].
  rewrite (rsum_app Rth), IH. reflexivity.
Qed.

(** Distributivity: the sum over all the choices of one element per list of
    the products is the product of the sums. *)
Lemma rsum_cartesian (A : Type) (g : A -> R) (ls : list (list A)) :
  rsum_ (MonomialSum.cartesian ls) (fun ms => rprod_ (map g ms))
  = rprod_ (map (fun l => rsum_ l g) ls).
Proof.
  induction ls as [|l ls IH]; simpl; [ring|].
  rewrite rsum_flat_map. rewrite <- IH.
  rewrite (@rsum_ext _ rO radd _ l _
             (fun x => rsum_ (MonomialSum.cartesian ls) (fun ms => rprod_ (map g ms)) [*] g x)).
  - rewrite (rsum_scale Rth). ring.
  - intros x _. rewrite rsum_map. simpl. rewrite (rsum_scale Rth). ring.
Qed.

Lemma sum_value_iter (self : MonomialSum.t) (rho : ienv) :
  sum_value_ self rho = rsum_ (MonomialSum.iter self) (monomial_of rho).
Proof. unfold sum_value, MonomialSum.iter. rewrite rsum_map. reflexivity. Qed.

Lemma add_value (self self' : MonomialSum.t) (s : list index) (a : list expr) (r : expr) :
  Invariant self ->
  MonomialSum.add self s a r = Ok self' ->
  Invariant self'
  /\ forall rho, sum_value_ self' rho = sum_value_ self rho [+] monomial_ s a r rho.
Proof.
  intros Hinv H. apply add_Ok_inv in H as [Hs ->].
  exact (@merge_value _ _ _ _ _ _ _ Rth mu _ _ s a r Hinv Hs).
Qed.

Lemma add_all_value (l : list (list index * list expr * expr)) :
  forall self self',
    Invariant self ->
    MonomialSum.add_all self l = Ok self' ->
    Invariant self'
    /\ forall rho, sum_value_ self' rho
                   = sum_value_ self rho
                     [+] rsum_ l (fun sar => monomial_ (fst (fst sar)) (snd (fst sar))
                                                         (snd sar) rho).
Proof.
  induction l as [|[[s a] r] l IH]; intros self self' Hinv H; simpl in H.
  - injection H as <-. split; [exact Hinv|]. intros rho. simpl. ring.
  - apply bind_Ok in H as (self1 & H1 & H).
    destruct (@add_value self self1 s a r Hinv H1) as [Hinv1 V1].
    destruct (IH _ _ Hinv1 H) as [Hinv' V']. split; [exact Hinv'|].
    intros rho. rewrite V', V1. simpl. ring.
Qed.

Lemma product_agree (l : list expr) (rho1 rho2 : ienv) :
  agree_on (flat_map free_indices l) rho1 rho2 -> product_ l rho1 = product_ l rho2.
Proof.
  intros H. unfold product_value. f_equal. apply map_ext_in. intros e He.
  apply eval_agree. intros k Hk. apply H. apply in_flat_map. exists e. auto.
Qed.

Lemma factors_upd_apart (l : list index) (a : list expr) (r : expr) (i : index) (v : Z)
    (rho : ienv) :
  apart l (a ++ [r]) = true -> In i l ->
  product_ a (upd rho i v) [*] value_ (upd rho i v) r = product_ a rho [*] value_ rho r.
Proof.
  intros H Hi. rewrite apart_spec in H. f_equal.
  - apply product_agree. intros k Hk. apply in_flat_map in Hk as (f & Hf & Hk).
    unfold upd. destruct (index_eqb k i) eqn:E; [|reflexivity].
    apply index_eqb_eq in E. subst k. apply index_in_In in Hk.
    rewrite (H i Hi f) in Hk; [discriminate | apply in_or_app; auto].
  - apply eval_agree. intros k Hk.
    unfold upd. destruct (index_eqb k i) eqn:E; [|reflexivity].
    apply index_eqb_eq in E. subst k. apply index_in_In in Hk.
    rewrite (H i Hi r) in Hk; [discriminate | apply in_or_app; right; left; reflexivity].
Qed.

Lemma monomial_upd_apart (l s : list index) (a : list expr) (r : expr) (i : index) (v : Z)
    (rho : ienv) :
  apart l (a ++ [r]) = true -> In i l ->
  monomial_ s a r (upd rho i v) = monomial_ s a r rho.
Proof.
  intros H Hi. unfold monomial_value.
  apply isum_ext_on with (L := flat_map free_indices (a ++ [r])).
  - intros r1 r2 Hag. f_equal.
    + apply product_agree. intros k Hk. apply Hag. rewrite flat_map_app.
      apply in_or_app. left. exact Hk.
    + apply eval_agree. intros k Hk. apply Hag. rewrite flat_map_app.
      apply in_or_app. right. simpl. rewrite app_nil_r. exact Hk.
  - intros k Hk. right. unfold upd. destruct (index_eqb k i) eqn:E; [|reflexivity].
    apply index_eqb_eq in E. subst k. apply in_flat_map in Hk as (f & Hf & Hk).
    rewrite apart_spec in H. apply index_in_In in Hk. rewrite (H i Hi f Hf) in Hk.
    discriminate.
Qed.

(** Two monomials apart from each other multiply into the monomial over
    both lists of indices. *)
Lemma monomial_value_product (S s : list index) (A a : list expr) (Rr r : expr) (rho : ienv) :
  apart s (A ++ [Rr]) = true -> apart S (a ++ [r]) = true ->
  monomial_ (S ++ s) (A ++ a) (Product r Rr) rho
  = monomial_ S A Rr rho [*] monomial_ s a r rho.
Proof.
  intros H1 H2. unfold monomial_value at 1. rewrite isum_app.
  transitivity (isum_ rho S (fun r1 => (product_ A r1 [*] value_ r1 Rr)
                                       [*] monomial_ s a r r1)).
  - apply isum_ext. intros r1.
    rewrite (@isum_ext _ rO radd _ _
               (fun r2 => (product_ a r2 [*] value_ r2 r)
                          [*] (product_ A r2 [*] value_ r2 Rr))).
    + rewrite (isum_factor Rth).
      * unfold monomial_value. ring.
      * intros i Hi rho' v. eapply factors_upd_apart; eassumption.
    + intros r2. rewrite (product_value_app Rth). unfold value. simpl. ring.
  - rewrite (isum_factor Rth).
    + reflexivity.
    + intros i Hi rho' v. eapply monomial_upd_apart; eassumption.
Qed.

Definition step_of (acc : list index * list expr * expr) (m : Monomial)
    : list index * list expr * expr :=
  let '(s, a, r) := acc in (s ++ m_sum_indices m, a ++ m_atomics m, Product (m_rest m) r).

Definition value_of (rho : ienv) (sar : list index * list expr * expr) : R :=
  monomial_ (fst (fst sar)) (snd (fst sar)) (snd sar) rho.

Lemma apart_app_l (l l' : list index) (es : list expr) :
  apart (l ++ l') es = apart l es && apart l' es.
Proof. unfold apart. apply forallb_app. Qed.

Lemma apart_product (l : list index) (A a : list expr) (Rr r : expr) :
  apart l (A ++ [Rr]) = true -> apart l (a ++ [r]) = true ->
  apart l ((A ++ a) ++ [Product r Rr]) = true.
Proof.
  rewrite !apart_spec. intros H1 H2 i Hi f Hf.
  apply in_app_or in Hf as [Hf | [<- | []]].
  - apply in_app_or in Hf as [Hf | Hf]; [apply (H1 i Hi) | apply (H2 i Hi)];
      apply in_or_app; auto.
  - destruct (index_in i (free_indices (Product r Rr))) eqn:E; [|reflexivity].
    apply index_in_In in E. cbn [free_indices] in E.
    apply (proj1 (In_unique_iff _ _)) in E.
    apply in_app_or in E as [E | E]; apply index_in_In in E.
    + rewrite (H2 i Hi r) in E; [discriminate | apply in_or_app; right; left; reflexivity].
    + rewrite (H1 i Hi Rr) in E; [discriminate | apply in_or_app; right; left; reflexivity].
Qed.

Lemma fold_step_value (ms : list Monomial) :
  forall S A Rr,
    forallb (fun m => apart (m_sum_indices m) (A ++ [Rr])
                      && apart S (m_atomics m ++ [m_rest m])) ms = true ->
    pairwise_apart ms = true ->
    forall rho,
      value_of rho (fold_left step_of ms (S, A, Rr))
      = monomial_ S A Rr rho [*] rprod_ (map (monomial_of rho) ms).
Proof.
  induction ms as [|m ms IH]; intros S A Rr Hacc Hpw rho.
  - simpl. unfold value_of. simpl. ring.
  - cbn [fold_left step_of]. simpl in Hacc, Hpw.
    apply andb_true_iff in Hacc as [Hm Hacc]. apply andb_true_iff in Hm as [Hm1 Hm2].
    apply andb_true_iff in Hpw as [Hmm Hpw].
    rewrite IH; [| |exact Hpw].
    + rewrite (@monomial_value_product S _ A _ Rr _ rho Hm1 Hm2).
      simpl. unfold monomial_of at 2. ring.
    + apply forallb_forall. intros m' Hm'.
      rewrite forallb_forall in Hacc, Hmm. specialize (Hacc m' Hm'). specialize (Hmm m' Hm').
      apply andb_true_iff in Hacc as [Ha1 Ha2]. unfold monomial_apart in Hmm.
      apply andb_true_iff in Hmm as [Hb1 Hb2].
      rewrite apart_app_l, Ha2, Hb1. rewrite andb_true_r.
      apply apart_product; assumption.
Qed.

Lemma product_monomial_value (ms : list Monomial) (rho : ienv) :
  pairwise_apart ms = true ->
  value_of rho (MonomialSum.product_monomial ms) = rprod_ (map (monomial_of rho) ms).
Proof.
  intros H.
  change (MonomialSum.product_monomial ms) with (fold_left step_of ms ([], [], one)).
  rewrite fold_step_value; [| |exact H].
  - unfold monomial_value. simpl. unfold product_value. simpl.
    fold (value rO rI radd rmul mu rho one). rewrite (value_one rO radd rmul of_Q_one). ring.
  - apply forallb_forall. intros m _. apply andb_true_iff. split.
    + apply apart_spec. intros i _ f [<- | []]. reflexivity.
    + reflexivity.
Qed.

Lemma product_list_value (args : list MonomialSum.t) (p : MonomialSum.t) :
  forallb pairwise_apart (MonomialSum.cartesian (map MonomialSum.iter args)) = true ->
  MonomialSum.product args = Ok p ->
  Invariant p
  /\ forall rho, sum_value_ p rho = rprod_ (map (fun arg => sum_value_ arg rho) args).
Proof.
  intros Hap H. unfold MonomialSum.product in H.
  destruct (@add_all_value _ _ _ Invariant_empty H) as [Hinv V]. split; [exact Hinv|].
  intros rho. rewrite V. unfold sum_value at 1. simpl.
  rewrite rsum_map.
  rewrite (@rsum_ext _ rO radd _ _ _ (fun ms => rprod_ (map (monomial_of rho) ms))).
  - rewrite rsum_cartesian, map_map.
    replace (map (fun x => rsum_ (MonomialSum.iter x) (monomial_of rho)) args)
      with (map (fun arg => sum_value_ arg rho) args); [ring|].
    apply map_ext. intros arg. apply sum_value_iter.
  - intros ms Hms. rewrite forallb_forall in Hap.
    apply (@product_monomial_value ms rho (Hap ms Hms)).
Qed.

(** X15.  The value of [MonomialSum.product] is the product of the values of
    its arguments, and the class invariant holds of it, provided that in
    every choice of one monomial per argument the summation indices of each
    monomial occur free in no other. *)
Theorem product_multiplies_values (args : list MonomialSum.t) (p : MonomialSum.t) :
  forallb pairwise_apart (MonomialSum.cartesian (map MonomialSum.iter args)) = true ->
  MonomialSum.product args = Ok p ->
  Invariant p
  /\ forall rho, sum_value_ p rho = rprod_ (map (fun arg => sum_value_ arg rho) args).
Proof. apply product_list_value. Qed.

End ProductValues.

(** X16.  A product one of whose arguments has no monomial has none, and
    [to_expression] raises on a [MonomialSum] without monomials: it has no
    summand to return. *)
Theorem empty_product_has_no_expression (args : list MonomialSum.t) (a : MonomialSum.t) :
  In a args -> MonomialSum.ordering a = [] ->
  MonomialSum.product args = Ok MonomialSum.empty
  /\ forall self, MonomialSum.ordering self = [] ->
       MonomialSum.to_expression self
       = Raise (ValueError "not enough values to unpack (expected 1, got 0)").
Proof.
  intros Hin Ha. split.
  - unfold MonomialSum.product. rewrite cartesian_nil; [reflexivity|].
    apply in_map_iff. exists a. split; [|exact Hin]. unfold MonomialSum.iter.
    rewrite Ha. reflexivity.
  - intros self Hs. unfold MonomialSum.to_expression. rewrite Hs. reflexivity.
Qed.

(** *** Instances in the integers *)

Definition sum_k : index := Index 3 (Some 2).
Definition x_k : expr := Indexed (Variable_ "x" [2]) [sum_k].

(** [x[k] * r] summed over [k]. *)
Definition k_monomial : MonomialSum.t :=
  MonomialSum.mk
    [(MonomialSum.make_key [sum_k] [x_k], Sum (Zero []) (Variable_ "r" []))]
    [(MonomialSum.make_key [sum_k] [x_k], ([sum_k], [x_k]))]
    None.

Definition pair_product : MonomialSum.t :=
  Eval vm_compute in
    returned MonomialSum.empty (MonomialSum.product [scaled_monomial; k_monomial]).

Lemma product_multiplies_values_witness :
  Invariant pair_product
  /\ forall rho,
       sum_value 0 1 Z.add Z.mul Z_interp pair_product rho
       = rprod 1 Z.mul (map (fun arg => sum_value 0 1 Z.add Z.mul Z_interp arg rho)
                            [scaled_monomial; k_monomial]).
Proof.
  apply (@product_multiplies_values Z 0 1 Z.add Z.mul Z.sub Z.opp Zth Z_interp eq_refl
           [scaled_monomial; k_monomial] pair_product).
  - vm_compute. reflexivity.
  - vm_compute. reflexivity.
Defined.

Lemma empty_product_has_no_expression_witness :
  MonomialSum.product [delta_monomial; MonomialSum.empty] = Ok MonomialSum.empty
  /\ forall self, MonomialSum.ordering self = [] ->
       MonomialSum.to_expression self
       = Raise (ValueError "not enough values to unpack (expected 1, got 0)").
Proof.
  apply (@empty_product_has_no_expression [delta_monomial; MonomialSum.empty]
           MonomialSum.empty).
  - right. left. reflexivity.
  - reflexivity.
Defined.

(** ** Sum factorisation over an index that no factor has *)

Lemma numpy_prod_terminates (l : list (option Z)) : numpy_prod l <> OutOfFuel.
Proof.
  induction l as [|[x|] t IH]; simpl; try discriminate.
  destruct (numpy_prod t); simpl; congruence.
Qed.

Lemma remove_expr_terminates (x : expr) (l : list expr) : remove_expr x l <> OutOfFuel.
Proof.
  induction l as [|y t IH]; simpl; [discriminate|].
  destruct (expr_eqb y x); [discriminate|].
  destruct (remove_expr x t); simpl; congruence.
Qed.

(** Every iteration of the greedy loop that goes through leaves one operand
    fewer. *)
Lemma associate_loop_terminates (op : expr -> expr -> expr) (fuel : nat) :
  forall factors flops,
    (length factors <= S fuel)%nat -> associate_loop op fuel factors flops <> OutOfFuel.
Proof.
  induction fuel as [|fuel IH]; intros factors flops Hlen; cbn [associate_loop].
  - assert (E : (length factors <=? 1)%nat = true) by (apply Nat.leb_le; lia).
    rewrite E. discriminate.
  - destruct (length factors <=? 1)%nat eqn:E; [discriminate|].
    destruct (mapM _ (combinations2 factors)) as [keyed| |] eqn:Ek; cbn [bind];
      [|discriminate|].
    + destruct (min_by_key keyed) as [[[a b] k]|]; [|discriminate].
      pose proof (numpy_prod_terminates
                    (map extent (dedup_index (free_indices a ++ free_indices b)))) as Hc.
      unfold count. destruct (numpy_prod _) as [c| |]; cbn [bind]; [|discriminate|congruence].
      pose proof (remove_expr_terminates a factors) as H1.
      destruct (remove_expr a factors) as [f1| |] eqn:E1; cbn [bind];
        [|discriminate|congruence].
      pose proof (remove_expr_terminates b f1) as H2.
      destruct (remove_expr b f1) as [f2| |] eqn:E2; cbn [bind];
        [|discriminate|congruence].
      apply IH. apply remove_expr_Ok in E1, E2.
      apply Permutation_length in E1, E2. simpl in E1, E2.
      rewrite length_app. simpl. lia.
    + exfalso. revert Ek. apply mapM_terminates. intros [a b]. unfold count.
      pose proof (numpy_prod_terminates
                    (map extent (dedup_index (free_indices a ++ free_indices b)))) as Hc.
      destruct (numpy_prod _); simpl; congruence.
Qed.

Lemma associate_product_terminates (factors : list expr) :
  associate_product factors <> OutOfFuel.
Proof.
  unfold associate_product. destruct (32 <? length factors)%nat; [discriminate|].
  pose proof (@associate_loop_terminates Product (length factors) factors 0 ltac:(lia)) as H.
  destruct (associate_loop Product (length factors) factors 0) as [[fs fl]| |];
    cbn [bind]; [|discriminate|congruence].
  destruct fs as [|x [|y fs]]; simpl; discriminate.
Qed.

Lemma contract_ordering_terminates (ordering : list index) :
  forall terms flops, contract_ordering ordering terms flops <> OutOfFuel.
Proof.
  induction ordering as [|j ordering IH]; intros terms flops; cbn [contract_ordering];
    [discriminate|].
  pose proof (associate_product_terminates
                (filter (fun t => index_in j (free_indices t)) terms)) as H.
  destruct (associate_product _) as [[product flops_]| |]; cbn [bind];
    [|discriminate|congruence].
  pose proof (numpy_prod_terminates (map extent (free_indices product))) as Hp.
  destruct (numpy_prod _); cbn [bind]; [apply IH|discriminate|congruence].
Qed.

Lemma BuiltFrom_Product_free (t : expr) (l : list expr) :
  BuiltFrom Product t l ->
  forall x, In x (free_indices t) -> exists f, In f l /\ In x (free_indices f).
Proof.
  induction 1 as [e | a b la lb l _ IHa _ IHb Hp]; intros x Hx.
  - exists e. split; [left; reflexivity | exact Hx].
  - cbn [free_indices] in Hx. apply (proj1 (In_unique_iff _ _)) in Hx.
    apply in_app_or in Hx as [Hx | Hx];
      [destruct (IHa x Hx) as (f & Hf & Hxf) | destruct (IHb x Hx) as (f & Hf & Hxf)];
      exists f; (split; [|exact Hxf]);
      apply (Permutation_in _ Hp); apply in_or_app; auto.
Qed.

Lemma fold_left_Product_free (ts : list expr) :
  forall t x, In x (free_indices (fold_left Product ts t)) ->
              exists f, In f (t :: ts) /\ In x (free_indices f).
Proof.
  induction ts as [|y ts IH]; intros t x Hx; simpl in Hx.
  - exists t. split; [left; reflexivity | exact Hx].
  - destruct (IH _ _ Hx) as (f & [<- | Hf] & Hxf).
    + cbn [free_indices] in Hxf. apply (proj1 (In_unique_iff _ _)) in Hxf.
      apply in_app_or in Hxf as [Hxf | Hxf].
      * exists t. split; [left; reflexivity | exact Hxf].
      * exists y. split; [right; left; reflexivity | exact Hxf].
    + exists f. split; [right; right; exact Hf | exact Hxf].
Qed.

(** The index [i] is free in none of the terms. *)
Definition absent (i : index) (terms : list expr) : Prop :=
  forall t, In t terms -> index_in i (free_indices t) = false.

Lemma contract_ordering_absent (i : index) (ordering : list index) :
  forall terms flops r,
    In i ordering -> absent i terms -> contract_ordering ordering terms flops <> Ok r.
Proof.
  induction ordering as [|j ordering IH]; intros terms flops r Hin Hab;
    [destruct Hin|]. cbn [contract_ordering].
  destruct (associate_product (filter (fun t => index_in j (free_indices t)) terms))
    as [[product flops_]| |] eqn:Ea; cbn [bind]; try discriminate.
  destruct (numpy_prod (map extent (free_indices product))) as [p| |]; cbn [bind];
    try discriminate.
  destruct Hin as [-> | Hin].
  - exfalso.
    assert (E : filter (fun t => index_in i (free_indices t)) terms = []).
    { clear Ea. induction terms as [|t terms IHt]; [reflexivity|]. simpl.
      rewrite (Hab t (or_introl eq_refl)). apply IHt.
      intros t' Ht'. apply Hab. right. exact Ht'. }
    rewrite E in Ea. discriminate.
  - apply IH; [exact Hin|]. intros t Ht. apply in_app_or in Ht as [Ht | [<- | []]].
    + apply filter_In in Ht as [Ht _]. apply Hab. exact Ht.
    + destruct (index_in i (free_indices (IndexSum product [j]))) eqn:E; [|reflexivity].
      apply index_in_In in E. cbn [free_indices] in E. apply filter_In in E as [E _].
      apply associate_product_BuiltFrom in Ea.
      destruct (BuiltFrom_Product_free Ea _ E) as (f & Hf & Hif).
      apply filter_In in Hf as [Hf _]. apply index_in_In in Hif.
      rewrite (Hab f Hf) in Hif. discriminate.
Qed.

Lemma permutations_n_nonempty (A : Type) (n : nat) :
  forall l : list A, (n <= length l)%nat -> permutations_n n l <> [].
Proof.
  induction n as [|n IH]; intros l Hl; simpl; [discriminate|].
  destruct l as [|x t]; [simpl in Hl; lia|]. simpl.
  specialize (IH t ltac:(simpl in Hl; lia)).
  destruct (permutations_n n t); [contradiction | discriminate].
Qed.

Lemma groups_absent (i : index) (factors groups : list expr) :
  absent i factors ->
  mapM (fun g => reduce_Product (snd g))
       (group_by (list_eqb index_eqb) free_indices factors) = Ok groups ->
  absent i groups.
Proof.
  intros Hab H. apply mapM_Ok_Forall2 in H.
  pose proof (group_by_perm (list_eqb index_eqb) free_indices factors) as Hp.
  assert (Hall : forall g, In g (group_by (list_eqb index_eqb) free_indices factors) ->
                           absent i (snd g)).
  { intros g Hg f Hf. apply Hab. apply (Permutation_in _ Hp).
    apply in_concat. exists (snd g). split; [apply in_map; exact Hg | exact Hf]. }
  clear Hp. induction H as [|g e gs es He _ IH]; intros t Ht; [destruct Ht|].
  destruct Ht as [<- | Ht].
  - destruct (snd g) as [|t0 ts] eqn:Eg; simpl in He; [discriminate|].
    injection He as <-.
    destruct (index_in i (free_indices (fold_left Product ts t0))) eqn:E; [|reflexivity].
    apply index_in_In in E. destruct (fold_left_Product_free _ _ _ E) as (f & Hf & Hif).
    apply index_in_In in Hif. rewrite (Hall g (or_introl eq_refl) f) in Hif;
      [discriminate | rewrite Eg; exact Hf].
  - apply IH; [|exact Ht]. intros g' Hg'. apply Hall. right. exact Hg'.
Qed.

(** X17.  [sum_factorise] raises whenever one of the summation indices is
    free in no factor: the contraction over that index has nothing to
    contract, whatever the ordering. *)
Theorem sum_factorise_absent_index (sum_indices : list index) (factors : list expr)
    (i : index) :
  In i sum_indices ->
  (forall f, In f factors -> index_in i (free_indices f) = false) ->
  exists x, sum_factorise sum_indices factors = Raise x.
Proof.
  intros Hin Hab. unfold sum_factorise.
  assert (E0 : Nat.eqb (length sum_indices) 0 = false).
  { destruct sum_indices; [destruct Hin | reflexivity]. }
  rewrite E0, andb_false_r.
  destruct (5 <? length sum_indices)%nat; [eexists; reflexivity|].
  destruct (mapM _ (group_by (list_eqb index_eqb) free_indices factors))
    as [groups| x |] eqn:Eg; cbn [bind]; [|eexists; reflexivity|].
  - pose proof (groups_absent Hab Eg) as Hg.
    pose proof (@permutations_n_nonempty _ (length sum_indices) sum_indices (le_n _)) as Hne.
    fold (permutations sum_indices) in Hne.
    destruct (permutations sum_indices) as [|o os] eqn:Ep; [contradiction|].
    assert (Ho : In i o).
    { apply (Permutation_in i (Permutation_sym (@permutations_perm _ sum_indices o
               ltac:(rewrite Ep; left; reflexivity)))). exact Hin. }
    cbn [sum_factorise_orderings].
    pose proof (@contract_ordering_absent i o groups 0) as Hno.
    pose proof (contract_ordering_terminates o groups 0) as Ht.
    destruct (contract_ordering o groups 0) as [r| x |]; cbn [bind].
    + exfalso. apply (Hno r Ho Hg). reflexivity.
    + eexists. reflexivity.
    + congruence.
  - exfalso. revert Eg. apply mapM_terminates. intros g.
    unfold reduce_Product. destruct (snd g); discriminate.
Qed.

Lemma sum_factorise_absent_index_witness :
  exists x, sum_factorise [sum_i] [r_scalar] = Raise x.
Proof.
  apply (@sum_factorise_absent_index [sum_i] [r_scalar] sum_i).
  - left. reflexivity.
  - intros f [<- | []]. reflexivity.
Defined.

(** ** Collection of monomials *)

(** The predicate [stop_at] of [_collect_monomials]: break up compounds
    only. *)
Definition stop_at_of (classifier : expr -> string) : option (expr -> bool) :=
  Some (fun expr_ => negb (String.eqb (classifier expr_) COMPOUND)).

Lemma leaf_factors (stop_at : option (expr -> bool)) (e : expr) :
  stop_here stop_at e = false -> splits e = false ->
  factors_of stop_at e = [e] /\ indices_of stop_at e = [].
Proof.
  intros Hs Hp. destruct e; simpl in *; rewrite Hs; try discriminate; auto.
  destruct (expr_eqb e1 one); [auto | discriminate].
Qed.

Lemma leaf_summands (stop_at : option (expr -> bool)) (e : expr) :
  is_Sum e = false -> summands_of stop_at e = [e].
Proof.
  intros H. destruct e; simpl in *; try discriminate;
    destruct (stop_here stop_at _); reflexivity.
Qed.

(** X18.  [_collect_monomials] raises [FactorisationError] on an expression
    labelled [COMPOUND] that is neither a product, a contraction or a
    division to break up, nor a sum: the error carries the expression. *)
Theorem collect_monomials_fails_on_compound (fuel : nat) (classifier : expr -> string)
    (e : expr) :
  classifier e = COMPOUND -> splits e = false -> is_Sum e = false ->
  _collect_monomials (S fuel) classifier e = Raise (FactorisationError e).
Proof.
  intros Hc Hp Hs. cbn [_collect_monomials].
  fold (stop_at_of classifier).
  assert (Hstop : stop_here (stop_at_of classifier) e = false).
  { simpl. rewrite Hc. reflexivity. }
  rewrite traverse_product_returns.
  destruct (leaf_factors _ _ Hstop Hp) as [-> ->]. cbn [bind categorise].
  rewrite Hc. cbn [String.eqb ATOMIC COMPOUND Ascii.eqb Bool.eqb]. cbn.
  rewrite traverse_sum_returns, (leaf_summands _ _ Hs). reflexivity.
Qed.

(** *** The atomics of the collected monomials *)

(** Every atomic of every monomial carries the label [ATOMIC]. *)
Definition atomics_labelled (classifier : expr -> string) (self : MonomialSum.t) : Prop :=
  forall kv, In kv (MonomialSum.ordering self) ->
             Forall (fun a => classifier a = ATOMIC) (snd (snd kv)).

Lemma dict_setdefault_In (V : Type) (od : list (MonomialSum.key * V)) (k : MonomialSum.key)
    (v : V) (kv : MonomialSum.key * V) :
  In kv (MonomialSum.dict_setdefault od k v) -> In kv od \/ kv = (k, v).
Proof.
  unfold MonomialSum.dict_setdefault. destruct (MonomialSum.dict_lookup od k); [auto|].
  intros H. apply in_app_or in H as [H | [<- | []]]; auto.
Qed.

Lemma add_labelled (classifier : expr -> string) (self self' : MonomialSum.t)
    (s : list index) (a : list expr) (r : expr) :
  atomics_labelled classifier self -> Forall (fun x => classifier x = ATOMIC) a ->
  MonomialSum.add self s a r = Ok self' -> atomics_labelled classifier self'.
Proof.
  intros Hl Ha H. apply add_Ok_inv in H as [_ ->]. intros kv Hkv. simpl in Hkv.
  apply dict_setdefault_In in Hkv as [Hkv | ->]; [apply Hl; exact Hkv | exact Ha].
Qed.

Lemma add_all_labelled (classifier : expr -> string)
    (l : list (list index * list expr * expr)) :
  forall self self',
    atomics_labelled classifier self ->
    Forall (fun sar => Forall (fun x => classifier x = ATOMIC) (snd (fst sar))) l ->
    MonomialSum.add_all self l = Ok self' -> atomics_labelled classifier self'.
Proof.
  induction l as [|[[s a] r] l IH]; intros self self' Hl Hall H; simpl in H.
  - injection H as <-. exact Hl.
  - apply bind_Ok in H as (self1 & H1 & H). inversion Hall as [|? ? Ha Hall']; subst.
    apply (IH self1 self'); [|exact Hall' | exact H].
    eapply add_labelled; eassumption.
Qed.

Lemma fold_setdefault_In (V : Type) (P : MonomialSum.key * V -> Prop)
    (ox : list (MonomialSum.key * V)) :
  forall od,
    (forall q, In q ox -> P q) -> (forall q, In q od -> P q) ->
    forall q, In q (fold_left (fun od kv => MonomialSum.dict_setdefault od (fst kv) (snd kv))
                              ox od) -> P q.
Proof.
  induction ox as [|[k v] ox IH]; intros od Hx Hod q Hq; simpl in Hq; [apply Hod; exact Hq|].
  apply (IH (MonomialSum.dict_setdefault od k v)); [| |exact Hq].
  - intros q' Hq'. apply Hx. right. exact Hq'.
  - intros q' Hq'. apply dict_setdefault_In in Hq' as [Hq' | ->]; [apply Hod; exact Hq'|].
    apply Hx. left. reflexivity.
Qed.

Lemma sum_labelled (classifier : expr -> string) (args : list MonomialSum.t) :
  Forall (atomics_labelled classifier) args ->
  atomics_labelled classifier (MonomialSum.sum args).
Proof.
  unfold MonomialSum.sum. intros Hall.
  assert (G : forall acc, atomics_labelled classifier acc ->
                          atomics_labelled classifier (fold_left MonomialSum.sum_step args acc)).
  { induction Hall as [|x l Hx _ IH]; intros acc Hacc; simpl; [exact Hacc|].
    apply IH. intros kv Hkv. unfold MonomialSum.sum_step in Hkv.
    cbn [MonomialSum.ordering] in Hkv.
    exact (@fold_setdefault_In _ (fun q => Forall (fun a => classifier a = ATOMIC) (snd (snd q)))
             _ _ Hx Hacc kv Hkv). }
  apply G. intros kv [].
Qed.

Lemma cartesian_In (A : Type) (ls : list (list A)) :
  forall ms, In ms (MonomialSum.cartesian ls) ->
             forall m, In m ms -> exists l, In l ls /\ In m l.
Proof.
  induction ls as [|l ls IH]; simpl; intros ms Hms m Hm.
  - destruct Hms as [<- | []]. destruct Hm.
  - apply in_flat_map in Hms as (x & Hx & Hms). apply in_map_iff in Hms as (ms' & <- & Hms').
    destruct Hm as [<- | Hm].
    + exists l. auto.
    + destruct (IH ms' Hms' m Hm) as (l' & Hl' & Hml'). exists l'. auto.
Qed.

Lemma product_monomial_atomics (ms : list Monomial) :
  snd (fst (MonomialSum.product_monomial ms)) = concat (map m_atomics ms).
Proof.
  unfold MonomialSum.product_monomial.
  assert (G : forall s a r,
            snd (fst (fold_left (fun acc m => let '(s, a, r) := acc in
                                   (s ++ m_sum_indices m, a ++ m_atomics m,
                                    Product (m_rest m) r)) ms (s, a, r)))
            = a ++ concat (map m_atomics ms)).
  { induction ms as [|m ms IH]; intros s a r; simpl; [rewrite app_nil_r; reflexivity|].
    rewrite IH, <- app_assoc. reflexivity. }
  apply G.
Qed.

Lemma iter_labelled (classifier : expr -> string) (self : MonomialSum.t) (m : Monomial) :
  atomics_labelled classifier self -> In m (MonomialSum.iter self) ->
  Forall (fun a => classifier a = ATOMIC) (m_atomics m).
Proof.
  intros Hl Hm. unfold MonomialSum.iter in Hm. apply in_map_iff in Hm as (kv & <- & Hkv).
  simpl. apply Hl. exact Hkv.
Qed.

Lemma product_labelled (classifier : expr -> string) (args : list MonomialSum.t)
    (p : MonomialSum.t) :
  Forall (atomics_labelled classifier) args ->
  MonomialSum.product args = Ok p -> atomics_labelled classifier p.
Proof.
  intros Hall H. unfold MonomialSum.product in H.
  apply (@add_all_labelled classifier _ MonomialSum.empty p) in H; [exact H | intros kv [] |].
  apply Forall_forall. intros sar Hsar. apply in_map_iff in Hsar as (ms & <- & Hms).
  rewrite product_monomial_atomics. apply Forall_forall. intros a Ha.
  apply in_concat in Ha as (l & Hl & Ha). apply in_map_iff in Hl as (m & <- & Hm).
  destruct (@cartesian_In _ _ ms Hms m Hm) as (it & Hit & Hmit).
  apply in_map_iff in Hit as (arg & <- & Harg).
  rewrite Forall_forall in Hall.
  pose proof (@iter_labelled classifier arg m (Hall arg Harg) Hmit) as Hf.
  rewrite Forall_forall in Hf. apply Hf. exact Ha.
Qed.

Lemma categorise_labelled (classifier : expr -> string) (terms : list expr) :
  forall ca co cp ca' co' cp',
    categorise classifier terms ca co cp = Ok (ca', co', cp') ->
    Forall (fun a => classifier a = ATOMIC) ca ->
    Forall (fun a => classifier a = ATOMIC) ca'.
Proof.
  induction terms as [|t terms IH]; intros ca co cp ca' co' cp' H Hca; simpl in H.
  - injection H as <- _ _. exact Hca.
  - destruct (String.eqb (classifier t) ATOMIC) eqn:Ea.
    + apply (IH _ _ _ _ _ _ H). apply Forall_app. split; [exact Hca|].
      constructor; [apply String.eqb_eq; exact Ea | constructor].
    + destruct (String.eqb (classifier t) COMPOUND).
      * apply (IH _ _ _ _ _ _ H). exact Hca.
      * destruct (String.eqb (classifier t) OTHER); [|discriminate].
        apply (IH _ _ _ _ _ _ H). exact Hca.
Qed.

Lemma expand_labelled (classifier : expr -> string) (ci : list index) (ca co : list expr)
    (products : list Monomial) :
  forall result_ r,
    Forall (fun a => classifier a = ATOMIC) ca ->
    (forall m, In m products -> Forall (fun a => classifier a = ATOMIC) (m_atomics m)) ->
    atomics_labelled classifier result_ ->
    expand ci ca co products result_ = Ok r -> atomics_labelled classifier r.
Proof.
  induction products as [|m products IH]; intros result_ r Hca Hp Hl H; simpl in H.
  - injection H as <-. exact Hl.
  - apply bind_Ok in H as (rest & _ & H). apply bind_Ok in H as (result' & Hadd & H).
    apply (IH result' r Hca); [intros m' Hm'; apply Hp; right; exact Hm' | | exact H].
    eapply add_labelled; [exact Hl | | exact Hadd].
    apply Forall_app. split; [exact Hca | apply Hp; left; reflexivity].
Qed.

Lemma _collect_monomials_labelled (classifier : expr -> string) (fuel : nat) :
  forall e ms, _collect_monomials fuel classifier e = Ok ms -> atomics_labelled classifier ms.
Proof.
  induction fuel as [|fuel IH]; intros e ms H; [discriminate|].
  cbn [_collect_monomials] in H.
  apply bind_Ok in H as ([ci terms] & _ & H).
  apply bind_Ok in H as ([[ca co] cp] & Hcat & H).
  apply bind_Ok in H as (sums & Hsums & H).
  apply bind_Ok in H as (p & Hp & H).
  apply categorise_labelled in Hcat; [|constructor].
  assert (Hall : Forall (atomics_labelled classifier) sums).
  { apply mapM_Ok_Forall2 in Hsums. clear Hp H.
    induction Hsums as [|c s cs ss Hc _ IHs]; constructor; [|exact IHs].
    apply bind_Ok in Hc as (summands & _ & Hc).
    destruct (length summands <=? 1)%nat; [discriminate|].
    apply bind_Ok in Hc as (mss & Hm & Hc). injection Hc as <-.
    apply sum_labelled. apply mapM_Ok_Forall2 in Hm. clear - Hm IH.
    induction Hm as [|x y xs ys Hxy _ IHm]; constructor; [|exact IHm].
    apply (IH _ _ Hxy). }
  apply (@expand_labelled classifier ci ca co (MonomialSum.iter p) MonomialSum.empty ms Hcat);
    [|intros kv [] | exact H].
  intros m Hm. apply (@iter_labelled classifier p m); [|exact Hm].
  eapply product_labelled; eassumption.
Qed.

(** X19.  Every atomic of every monomial that [collect_monomials] returns is
    an expression that the classifier labels [ATOMIC]. *)
Theorem collect_monomials_atomics (expressions : list expr) (classifier : expr -> string)
    (sums : list MonomialSum.t) :
  collect_monomials expressions classifier = Ok sums ->
  Forall (fun self =>
            Forall (fun m => Forall (fun a => classifier a = ATOMIC) (m_atomics m))
                   (MonomialSum.iter self)) sums.
Proof.
  intros H. unfold collect_monomials in H.
  apply bind_Ok in H as (es1 & _ & H). apply bind_Ok in H as (es2 & _ & H).
  apply mapM_Ok_Forall2 in H.
  induction H as [|x y xs ys Hxy _ IH]; constructor; [|exact IH].
  apply Forall_forall. intros m Hm.
  apply (@iter_labelled classifier y m); [|exact Hm].
  eapply _collect_monomials_labelled. exact Hxy.
Qed.

(** *** The recursion of [_collect_monomials] ends *)

(** A call that returns or raises. *)
Definition halts {A : Type} (r : result A) : Prop := outcome (fun _ => True) False r.

Lemma halts_iff (A : Type) (r : result A) : halts r <-> r <> OutOfFuel.
Proof. destruct r; simpl; split; intros H; try exact I; try discriminate; tauto. Qed.

Lemma halts_sum_factorise (sum_indices : list index) (factors : list expr) :
  halts (sum_factorise sum_indices factors).
Proof.
  unfold sum_factorise.
  destruct (Nat.eqb (length factors) 0 && Nat.eqb (length sum_indices) 0); [exact I|].
  destruct (5 <? length sum_indices)%nat; [exact I|].
  apply outcome_bind.
  { apply outcome_mapM_all. intros g. unfold reduce_Product. destruct (snd g); exact I. }
  intros groups _. apply outcome_bind.
  - generalize (@None (expr * Z)) as best.
    induction (permutations sum_indices) as [|o os IH]; intros best; simpl; [exact I|].
    apply outcome_bind; [apply halts_iff, contract_ordering_terminates|].
    intros [terms flops] _. apply outcome_bind; [apply halts_iff, associate_product_terminates|].
    intros [expr_ flops_] _. apply IH.
  - intros [[expression fl]|] _; exact I.
Qed.

Lemma halts_add (self : MonomialSum.t) (s : list index) (a : list expr) (r : expr) :
  halts (MonomialSum.add self s a r).
Proof. unfold MonomialSum.add. apply outcome_bind; [apply outcome_assert; exact I|]. intros; exact I. Qed.

Lemma halts_add_all (l : list (list index * list expr * expr)) :
  forall self, halts (MonomialSum.add_all self l).
Proof.
  induction l as [|[[s a] r] l IH]; intros self; simpl; [exact I|].
  apply outcome_bind; [apply halts_add | intros self' _; apply IH].
Qed.

Lemma halts_expand (ci : list index) (ca co : list expr) (products : list Monomial) :
  forall result_, halts (expand ci ca co products result_).
Proof.
  induction products as [|m products IH]; intros result_; simpl; [exact I|].
  apply outcome_bind; [apply halts_sum_factorise | intros rest _].
  apply outcome_bind; [apply halts_add | intros result' _; apply IH].
Qed.

Lemma halts_categorise (classifier : expr -> string) (terms : list expr) :
  forall ca co cp, halts (categorise classifier terms ca co cp).
Proof.
  induction terms as [|t terms IH]; intros ca co cp; simpl; [exact I|].
  destruct (String.eqb (classifier t) ATOMIC); [apply IH|].
  destruct (String.eqb (classifier t) COMPOUND); [apply IH|].
  destruct (String.eqb (classifier t) OTHER); [apply IH | exact I].
Qed.

Lemma size_positive (e : expr) : (1 <= size e)%nat.
Proof. destruct e; simpl; lia. Qed.

Lemma factors_of_size (stop_at : option (expr -> bool)) (e : expr) :
  forall f, In f (factors_of stop_at e) -> (size f <= size e)%nat.
Proof.
  induction e; intros f Hf; simpl in Hf; destruct (stop_here stop_at _);
    try (destruct Hf as [<- | []]; lia).
  - apply in_app_or in Hf as [Hf | Hf]; [apply IHe1 in Hf | apply IHe2 in Hf]; simpl; lia.
  - destruct (expr_eqb e1 one); [destruct Hf as [<- | []]; lia|].
    apply in_app_or in Hf as [Hf | [<- | []]].
    + apply IHe1 in Hf. simpl. lia.
    + pose proof (size_positive e1). simpl. lia.
  - apply IHe in Hf. simpl. lia.
Qed.

Lemma summands_of_size (stop_at : option (expr -> bool)) (e : expr) :
  forall s, In s (summands_of stop_at e) ->
            (size s <= size e)%nat
            /\ ((1 < length (summands_of stop_at e))%nat -> (size s < size e)%nat).
Proof.
  induction e; intros s Hs; simpl in *; destruct (stop_here stop_at _);
    try (destruct Hs as [<- | []]; simpl; split; lia).
  apply in_app_or in Hs as [Hs | Hs];
    [apply IHe1 in Hs | apply IHe2 in Hs]; destruct Hs as [Hs _]; split; simpl; lia.
Qed.

Lemma categorise_compounds (classifier : expr -> string) (terms : list expr) :
  forall ca co cp ca' co' cp',
    categorise classifier terms ca co cp = Ok (ca', co', cp') ->
    forall c, In c cp' -> In c cp \/ In c terms.
Proof.
  induction terms as [|t terms IH]; intros ca co cp ca' co' cp' H c Hc; simpl in H.
  - injection H as _ _ <-. left. exact Hc.
  - destruct (String.eqb (classifier t) ATOMIC).
    + destruct (IH _ _ _ _ _ _ H c Hc); [left | right; right]; assumption.
    + destruct (String.eqb (classifier t) COMPOUND).
      * destruct (IH _ _ _ _ _ _ H c Hc) as [X | X]; [|right; right; exact X].
        apply in_app_or in X as [X | [<- | []]]; [left; exact X | right; left; reflexivity].
      * destruct (String.eqb (classifier t) OTHER); [|discriminate].
        destruct (IH _ _ _ _ _ _ H c Hc); [left | right; right]; assumption.
Qed.

Lemma mapM_ext_in (A B : Type) (f g : A -> result B) (l : list A) :
  (forall x, In x l -> f x = g x) -> mapM f l = mapM g l.
Proof.
  induction l as [|x t IH]; intros H; simpl; [reflexivity|].
  rewrite (H x (or_introl eq_refl)), IH; [reflexivity|].
  intros y Hy. apply H. right. exact Hy.
Qed.

(** The summands that the recursion goes into are smaller than the
    expression. *)
Lemma recursion_smaller (classifier : expr -> string) (e c s : expr)
    (ca co cp : list expr) :
  categorise classifier (factors_of (stop_at_of classifier) e) [] [] [] = Ok (ca, co, cp) ->
  In c cp ->
  (length (summands_of (stop_at_of classifier) c) <=? 1)%nat = false ->
  In s (summands_of (stop_at_of classifier) c) ->
  (size s < size e)%nat.
Proof.
  intros Hcat Hc Hlen Hs. apply Nat.leb_gt in Hlen.
  destruct (categorise_compounds _ _ _ _ _ Hcat c Hc) as [[] | Hf].
  apply factors_of_size in Hf. apply summands_of_size in Hs as [_ Hs]. specialize (Hs Hlen). lia.
Qed.

Lemma _collect_monomials_halts (classifier : expr -> string) (fuel : nat) :
  forall e, (size e <= fuel)%nat -> halts (_collect_monomials fuel classifier e).
Proof.
  induction fuel as [|fuel IH]; intros e He.
  - pose proof (size_positive e). lia.
  - cbn [_collect_monomials]. fold (stop_at_of classifier).
    rewrite traverse_product_returns. cbn [bind].
    destruct (categorise classifier (factors_of (stop_at_of classifier) e) [] [] [])
      as [[[ca co] cp]| x |] eqn:Hcat; cbn [bind]; [|exact I|].
    + apply outcome_bind.
      * apply outcome_mapM. apply Forall_forall. intros c Hc.
        rewrite traverse_sum_returns. cbn [bind].
        destruct (length (summands_of (stop_at_of classifier) c) <=? 1)%nat eqn:Hlen;
          [exact I|].
        apply outcome_bind; [|intros; exact I].
        apply outcome_mapM. apply Forall_forall. intros s Hs. apply IH.
        pose proof (@recursion_smaller classifier e c s ca co cp Hcat Hc Hlen Hs). lia.
      * intros sums _. apply outcome_bind; [apply halts_add_all|].
        intros p _. apply halts_expand.
    + pose proof (halts_categorise classifier (factors_of (stop_at_of classifier) e) [] [] [])
        as X. rewrite Hcat in X. exact X.
Qed.

Lemma _collect_monomials_S (classifier : expr -> string) (fuel : nat) (e : expr) :
  _collect_monomials (S fuel) classifier e
  = ('(common_indices, terms) <- traverse_product e (stop_at_of classifier) ;;
     '(common_atomics, common_others, compounds) <- categorise classifier terms [] [] [] ;;
     sums <- mapM (fun expr_ =>
                     summands <- traverse_sum expr_ (stop_at_of classifier) ;;
                     if (length summands <=? 1)%nat then Raise (FactorisationError expr_)
                     else
                       ms <- mapM (_collect_monomials fuel classifier) summands ;;
                       Ok (MonomialSum.sum ms)) compounds ;;
     p <- MonomialSum.product sums ;;
     expand common_indices common_atomics common_others (MonomialSum.iter p)
            MonomialSum.empty).
Proof. reflexivity. Qed.

Lemma _collect_monomials_stable (classifier : expr -> string) (fuel : nat) :
  forall e, (size e <= fuel)%nat ->
            _collect_monomials (S fuel) classifier e = _collect_monomials fuel classifier e.
Proof.
  induction fuel as [|fuel IH]; intros e He.
  - pose proof (size_positive e). lia.
  - rewrite (_collect_monomials_S classifier (S fuel)), (_collect_monomials_S classifier fuel).
    rewrite traverse_product_returns. cbn [bind].
    destruct (categorise classifier (factors_of (stop_at_of classifier) e) [] [] [])
      as [[[ca co] cp]| x |] eqn:Hcat; cbn [bind]; try reflexivity.
    f_equal. apply mapM_ext_in. intros c Hc.
    rewrite traverse_sum_returns. cbn [bind].
    destruct (length (summands_of (stop_at_of classifier) c) <=? 1)%nat eqn:Hlen;
      [reflexivity|].
    f_equal. apply mapM_ext_in. intros s Hs. apply IH.
    pose proof (@recursion_smaller classifier e c s ca co cp Hcat Hc Hlen Hs). lia.
Qed.

Lemma halts_unroll_indexsum (predicate : index -> bool) (e : expr) :
  halts (_unroll_indexsum predicate e).
Proof.
  induction e as [e IHc _] using expr_rewrite_ind.
  destruct e; try (apply outcome_reuse_if_untouched; exact IHc).
  cbn [_unroll_indexsum]. destruct (filter predicate multiindex) as [|i unroll] eqn:Eu.
  - apply outcome_reuse_if_untouched. exact IHc.
  - apply outcome_bind; [apply IHc; left; reflexivity | intros summand _].
    apply outcome_bind; [|intros; exact I].
    apply outcome_mapM_all. intros j. destruct j as [|? [?|]|]; exact I.
Qed.

Lemma halts_remove_componenttensors (expressions : list expr) :
  halts (remove_componenttensors expressions).
Proof.
  apply outcome_mapM_all. intros e. apply filtered_replace_indices_outcome; exact I.
Qed.

(** X20.  The recursion of [collect_monomials] ends on every input: a
    counter of the size of the expression is never exhausted, and any larger
    counter gives the same result, because the recursion goes only into the
    summands of a compound factor that has at least two of them, which are
    smaller than the expression. *)
Theorem collect_monomials_terminates (classifier : expr -> string) :
  (forall expressions, collect_monomials expressions classifier <> OutOfFuel)
  /\ (forall e, _collect_monomials (size e) classifier e <> OutOfFuel)
  /\ (forall fuel e, (size e <= fuel)%nat ->
        _collect_monomials fuel classifier e = _collect_monomials (size e) classifier e).
Proof.
  split; [|split].
  - intros expressions. apply halts_iff. unfold collect_monomials.
    apply outcome_bind; [apply halts_remove_componenttensors | intros es1 _].
    apply outcome_bind.
    + destruct (flat_map _ _); [exact I|].
      apply outcome_bind; [|intros; apply halts_remove_componenttensors].
      apply outcome_mapM_all. intros e. apply halts_unroll_indexsum.
    + intros es2 _. apply outcome_mapM_all. intros e.
      apply _collect_monomials_halts. lia.
  - intros e. apply halts_iff. apply _collect_monomials_halts. lia.
  - intros fuel e He. induction He as [|fuel He IH]; [reflexivity|].
    rewrite _collect_monomials_stable by exact He. exact IH.
Qed.

(** *** Instances *)

(** [x[j] ** x[j]], a compound for the argument index [j] that no expansion
    breaks up. *)
Definition power_of_x : expr := Power x_j x_j.

Lemma collect_monomials_fails_on_compound_witness :
  _collect_monomials 1 (classify [free_j]) power_of_x
  = Raise (FactorisationError power_of_x).
Proof.
  apply (@collect_monomials_fails_on_compound 0 (classify [free_j]) power_of_x);
    reflexivity.
Defined.

Definition y_j : expr := Indexed (Variable_ "y" [2]) [free_j].

(** [x[j] * (y[j] + r)]. *)
Definition distributive : expr := Product x_j (Sum y_j r_scalar).

Definition collected : list MonomialSum.t :=
  Eval vm_compute in returned [] (collect_monomials [distributive] (classify [free_j])).

Lemma collect_monomials_atomics_witness :
  Forall (fun self =>
            Forall (fun m => Forall (fun a => classify [free_j] a = ATOMIC) (m_atomics m))
                   (MonomialSum.iter self)) collected.
Proof.
  apply (@collect_monomials_atomics [distributive] (classify [free_j]) collected).
  vm_compute. reflexivity.
Defined.

(** ** Rewrites that keep the value at every node *)

(** *** Division by multiplication ([_replace_div], [replace_division]) *)

(** [Memoizer(_replace_div)]: a division becomes the product of the rewritten
    dividend and the unit over the rewritten divisor; every other node goes
    to the default handler. *)
Fixpoint _replace_div (node : expr) : result expr :=
  match node with
  | Division a b =>
      a' <- _replace_div a ;;
      b' <- _replace_div b ;;
      Ok (Product a' (Division one b'))
  | _ => reuse_if_untouched _replace_div node
  end.

Definition replace_division (expressions : list expr) : result (list expr) :=
  mapM _replace_div expressions.

(** A division divides the unit. *)
Definition unit_dividend (e : expr) : bool :=
  match e with
  | Division a _ => expr_eqb a one
  | _ => true
  end.

Definition is_Division (e : expr) : bool :=
  match e with Division _ _ => true | _ => false end.

Lemma _replace_div_default (node : expr) :
  is_Division node = false -> _replace_div node = reuse_if_untouched _replace_div node.
Proof. destruct node; simpl; intros H; try discriminate; reflexivity. Qed.

Lemma _replace_div_total (e : expr) : exists e', _replace_div e = Ok e'.
Proof.
  induction e as [e IHc _] using expr_rewrite_ind.
  destruct (is_Division e) eqn:Ed.
  - destruct e; try discriminate. simpl.
    destruct (IHc e1 (or_introl eq_refl)) as [a' ->].
    destruct (IHc e2 (or_intror (or_introl eq_refl))) as [b' ->].
    eexists. reflexivity.
  - rewrite _replace_div_default by exact Ed. apply reuse_if_untouched_total. exact IHc.
Qed.

Lemma all_nodes_rebuilt (p : expr -> bool) (self : expr -> result expr) (node r : expr) :
  (forall x, kind x = kind node -> p x = true) ->
  (forall c c', In c (children node) -> self c = Ok c' -> all_nodes p c' = true) ->
  reuse_if_untouched self node = Ok r -> all_nodes p r = true.
Proof.
  intros Hk Hc H. destruct (reuse_if_untouched_Ok _ _ H) as [K F2].
  apply all_nodes_intro; [apply Hk; exact K|].
  intros c' Hc'. destruct (@Forall2_In_r _ _ _ _ _ c' F2 Hc') as (c & Hin & Hcc).
  exact (Hc c c' Hin Hcc).
Qed.

Lemma _replace_div_units (e : expr) :
  forall e', _replace_div e = Ok e' -> all_nodes unit_dividend e' = true.
Proof.
  induction e as [e IHc _] using expr_rewrite_ind. intros e' H.
  destruct (is_Division e) eqn:Ed.
  - destruct e; try discriminate. simpl in H.
    apply bind_Ok in H as (a' & Ha & H). apply bind_Ok in H as (b' & Hb & H).
    injection H as <-.
    apply all_nodes_intro; [reflexivity|]. intros c [<- | [<- | []]].
    + apply (IHc e1); [left; reflexivity | exact Ha].
    + apply all_nodes_intro; [reflexivity|]. intros c [<- | [<- | []]].
      * reflexivity.
      * apply (IHc e2); [right; left; reflexivity | exact Hb].
  - rewrite _replace_div_default in H by exact Ed.
    apply (@all_nodes_rebuilt unit_dividend _replace_div e e'); [| |exact H].
    + intros x Hx. destruct x; try reflexivity. destruct e; simpl in *; congruence.
    + intros c c' Hin Hcc. apply (IHc c Hin). exact Hcc.
Qed.

(** X21.  [replace_division] returns on every input, and in every expression
    it returns each division that is left divides the unit [one]. *)
Theorem replace_division_leaves_unit_dividends (expressions : list expr) :
  exists expressions',
    replace_division expressions = Ok expressions'
    /\ length expressions' = length expressions
    /\ Forall (fun e' => all_nodes unit_dividend e' = true) expressions'.
Proof.
  unfold replace_division.
  destruct (@mapM_total _ _ _replace_div expressions) as [es' H].
  { intros x _. apply _replace_div_total. }
  exists es'. split; [exact H|]. split; [apply (mapM_Ok_length _ _ H)|].
  apply mapM_Ok_Forall2 in H. induction H as [|x y xs ys Hxy _ IH]; constructor; [|exact IH].
  apply (_replace_div_units x). exact Hxy.
Qed.

Section RewriteValues.

Variable R : Type.
Variables rO rI : R.
Variables radd rmul rsub : R -> R -> R.
Variable ropp : R -> R.
Hypothesis Rth : ring_theory rO rI radd rmul rsub ropp eq.
Variable mu : interp R.
Hypothesis of_Q_one : literal_one_is_unit rI mu.

Add Ring Rrewrites : Rth.

Local Notation "x [+] y" := (radd x y) (at level 50, left associativity).
Local Notation "x [*] y" := (rmul x y) (at level 40, left associativity).
Local Abbreviation eval_ := (eval rO rI radd rmul mu).
Local Abbreviation isum_ := (isum rO radd).
Local Abbreviation rsum_ := (rsum rO radd).

(** Two expressions with the same value at every position under every
    assignment. *)
Definition same_value (e e' : expr) : Prop :=
  forall rho pos, eval_ e' rho pos = eval_ e rho pos.

(** The default handler keeps the value when the rewrite keeps that of every
    child. *)
Lemma reuse_if_untouched_value (self : expr -> result expr) (node e' : expr) :
  (forall c c', In c (children node) -> self c = Ok c' -> same_value c c') ->
  reuse_if_untouched self node = Ok e' -> same_value node e'.
Proof.
  intros Hc H rho pos.
  destruct (Nat.eq_dec (kind node) 18) as [K18 | K18];
    [|destruct (Nat.eq_dec (kind node) 19) as [K19 | K19];
      [|destruct (Nat.eq_dec (kind node) 20) as [K20 | K20]]].
  - destruct node; try discriminate. simpl in H.
    apply bind_Ok in H as (a' & Ha & H). injection H as <-.
    destruct (expr_eqb a' node) eqn:E.
    + apply expr_eqb_eq in E. subst a'. reflexivity.
    + simpl. apply (Hc node a' (or_introl eq_refl) Ha).
  - destruct node; try discriminate. simpl in H.
    apply bind_Ok in H as (a' & Ha & H). injection H as <-.
    destruct (expr_eqb a' node) eqn:E.
    + apply expr_eqb_eq in E. subst a'. reflexivity.
    + simpl. apply (Hc node a' (or_introl eq_refl) Ha).
  - destruct node; try discriminate. simpl in H. injection H as <-. reflexivity.
  - apply (@reuse_if_untouched_eval _ rO rI radd rmul mu (fun r => r) self node e'
             K18 K19 K20); [| |exact H].
    + intros c c' Hin Hcc. apply (Hc c c' Hin Hcc).
    + intros m _ r v k. reflexivity.
Qed.

Lemma eval_one (rho : ienv) (pos : list Z) : eval_ one rho pos = rI.
Proof.
  simpl. unfold flat_index. simpl. exact of_Q_one.
Qed.

Lemma _replace_div_value (e : expr) :
  division_by_inverse rI rmul mu ->
  forall e', _replace_div e = Ok e' -> same_value e e'.
Proof.
  intros Hdiv. induction e as [e IHc _] using expr_rewrite_ind. intros e' H.
  destruct (is_Division e) eqn:Ed.
  - destruct e; try discriminate. simpl in H.
    apply bind_Ok in H as (a' & Ha & H). apply bind_Ok in H as (b' & Hb & H).
    injection H as <-. intros rho pos.
    change (eval_ a' rho pos [*] division mu (eval_ one rho pos) (eval_ b' rho pos)
            = division mu (eval_ e1 rho pos) (eval_ e2 rho pos)).
    rewrite eval_one.
    rewrite (IHc e1 (or_introl eq_refl) a' Ha rho pos).
    rewrite (IHc e2 (or_intror (or_introl eq_refl)) b' Hb rho pos).
    symmetry. apply Hdiv.
  - rewrite _replace_div_default in H by exact Ed.
    apply (@reuse_if_untouched_value _replace_div e e'); [|exact H].
    intros c c' Hin Hcc. apply (IHc c Hin c' Hcc).
Qed.

(** X22.  [replace_division] keeps the value of every expression, at every
    position and under every assignment, when dividing is multiplying by the
    inverse. *)
Theorem replace_division_keeps_values (expressions expressions' : list expr) :
  division_by_inverse rI rmul mu ->
  replace_division expressions = Ok expressions' ->
  Forall2 same_value expressions expressions'.
Proof.
  intros Hdiv H. unfold replace_division in H. apply mapM_Ok_Forall2 in H.
  induction H as [|x y xs ys Hxy _ IH]; constructor; [|exact IH].
  apply (_replace_div_value x Hdiv). exact Hxy.
Qed.

(** *** Unrolling of index sums *)

Lemma fold_left_Sum_eval (l : list expr) :
  forall z rho pos,
    eval_ (fold_left Sum l z) rho pos
    = eval_ z rho pos [+] rsum_ l (fun x => eval_ x rho pos).
Proof.
  induction l as [|x l IH]; intros z rho pos; simpl; [ring|].
  rewrite IH. simpl. ring.
Qed.

Lemma ndindex_length (shape : list Z) :
  forall alpha, In alpha (ndindex shape) -> length alpha = length shape.
Proof.
  induction shape as [|n shape IH]; simpl; intros alpha H.
  - destruct H as [<- | []]. reflexivity.
  - apply in_flat_map in H as (k & _ & H). apply in_map_iff in H as (a & <- & Ha).
    simpl. f_equal. apply IH. exact Ha.
Qed.

(** A contraction is the sum over all the values of its indices. *)
Lemma isum_ndindex (unroll : list index) :
  forall shape f rho,
    mapM extent_attr unroll = Ok shape ->
    isum_ rho unroll f
    = rsum_ (ndindex shape) (fun alpha => f (upd_list rho (combine unroll alpha))).
Proof.
  induction unroll as [|i unroll IH]; intros shape f rho H; simpl in H.
  - injection H as <-. simpl. ring.
  - apply bind_Ok in H as (n & Hn & H). apply bind_Ok in H as (shape' & Hs & H).
    injection H as <-. cbn [isum ndindex].
    rewrite (rsum_flat_map Rth).
    assert (Er : range_of i = range n).
    { destruct i as [|? [?|]|]; simpl in Hn; try discriminate. injection Hn as <-.
      reflexivity. }
    rewrite Er. apply rsum_ext. intros k _.
    rewrite rsum_map. rewrite (IH shape' f (upd rho i k) Hs). reflexivity.
Qed.

Lemma index_in_filter (p : index -> bool) (mi : list index) (i : index) :
  In i mi -> index_in i (filter p mi) = p i.
Proof.
  intros Hi. destruct (p i) eqn:E.
  - apply index_in_In. apply filter_In. auto.
  - destruct (index_in i (filter p mi)) eqn:E'; [|reflexivity].
    apply index_in_In in E'. apply filter_In in E' as [_ E']. congruence.
Qed.

Lemma combine_app_l (A B : Type) (l : list A) (l1 l2 : list B) :
  length l = length l1 -> combine l (l1 ++ l2) = combine l l1.
Proof.
  revert l1. induction l as [|x l IH]; intros [|y l1] H; simpl in *; try reflexivity;
    try discriminate.
  f_equal. apply IH. lia.
Qed.

Lemma skipn_app_l (A : Type) (l1 l2 : list A) (n : nat) :
  n = length l1 -> skipn n (l1 ++ l2) = l2.
Proof. intros ->. induction l1 as [|x l1 IH]; simpl; [reflexivity | exact IH]. Qed.

Lemma _unroll_indexsum_default (predicate : index -> bool) (node : expr) :
  match node with
  | IndexSum _ mi => filter predicate mi = []
  | _ => True
  end ->
  _unroll_indexsum predicate node
  = reuse_if_untouched (_unroll_indexsum predicate) node.
Proof. destruct node; simpl; intros H; try reflexivity. rewrite H. reflexivity. Qed.

Lemma _unroll_indexsum_value (predicate : index -> bool) (e : expr) :
  forall e', _unroll_indexsum predicate e = Ok e' -> same_value e e'.
Proof.
  induction e as [e IHc _] using expr_rewrite_ind. intros e' H.
  assert (Default : reuse_if_untouched (_unroll_indexsum predicate) e = Ok e' ->
                    same_value e e').
  { intros H'. apply (@reuse_if_untouched_value (_unroll_indexsum predicate) e e');
      [|exact H']. intros c c' Hin Hcc. apply (IHc c Hin c' Hcc). }
  destruct e; try (apply Default; exact H).
  cbn [_unroll_indexsum] in H.
  destruct (filter predicate multiindex) as [|i0 unroll0] eqn:Eu; [apply Default; exact H|].
  rewrite <- Eu in H. set (unroll := filter predicate multiindex) in *.
  apply bind_Ok in H as (summand & Hs & H). apply bind_Ok in H as (shape & Hshape & H).
  injection H as <-. intros rho pos.
  pose proof (IHc e (or_introl eq_refl) summand Hs) as Hsum.
  cbn [eval].
  transitivity (isum_ rho (filter (fun i => negb (predicate i)) multiindex ++ unroll)
                  (fun r => eval_ e r pos)).
  - rewrite (@filter_ext_in _ (fun index_ => negb (index_in index_ unroll))
               (fun i => negb (predicate i)) multiindex)
      by (intros a Ha; unfold unroll; rewrite index_in_filter by exact Ha; reflexivity).
    rewrite isum_app. apply isum_ext. intros r.
    rewrite fold_left_Sum_eval, rsum_map.
    rewrite (@isum_ndindex unroll shape (fun r' => eval_ e r' pos) r Hshape).
    rewrite (@rsum_ext _ rO radd _ (ndindex shape) _
               (fun alpha => eval_ e (upd_list r (combine unroll alpha)) pos));
      [cbn [eval]; ring|].
    intros alpha Ha. cbn [eval].
    assert (Hl : length unroll = length alpha).
    { rewrite (@ndindex_length shape alpha Ha). symmetry.
      apply (@mapM_Ok_length _ _ extent_attr unroll shape Hshape). }
    rewrite map_map. cbn [ival]. rewrite map_id.
    rewrite <- !app_assoc. rewrite (@combine_app_l _ _ unroll alpha _ Hl).
    rewrite (@skipn_app_l _ alpha _ (length unroll) Hl). apply Hsum.
  - apply (isum_perm Rth).
    + intros r1 r2 E. apply eval_ext. exact E.
    + eapply Permutation_trans; [apply Permutation_app_comm|].
      apply filter_partition_perm.
Qed.

(** X23.  [unroll_indexsum] keeps the value of every expression, at every
    position and under every assignment: the unrolled indices run over their
    extents in the sum that takes the place of the contraction. *)
Theorem unroll_indexsum_keeps_values (predicate : index -> bool)
    (expressions expressions' : list expr) :
  unroll_indexsum expressions predicate = Ok expressions' ->
  Forall2 same_value expressions expressions'.
Proof.
  intros H. unfold unroll_indexsum in H. apply mapM_Ok_Forall2 in H.
  induction H as [|x y xs ys Hxy _ IH]; constructor; [|exact IH].
  apply (_unroll_indexsum_value predicate x). exact Hxy.
Qed.

End RewriteValues.

(** *** Instances in the integers *)

Definition division_replaced : list expr :=
  Eval vm_compute in returned [] (replace_division [negated_contraction]).

Lemma replace_division_keeps_values_witness :
  Forall2 (same_value 0 1 Z.add Z.mul unit_interp) [negated_contraction] division_replaced.
Proof.
  apply (@replace_division_keeps_values Z 0 1 Z.add Z.mul unit_interp eq_refl
           [negated_contraction] division_replaced).
  - exact unit_interp_division.
  - vm_compute. reflexivity.
Defined.

(** [x[i] * y[i]] summed over [i]. *)
Definition inner_product : expr := IndexSum (Product x_i y_i) [sum_i].

Definition inner_product_unrolled : list expr :=
  Eval vm_compute in returned [] (unroll_indexsum [inner_product] (fun _ => true)).

Lemma unroll_indexsum_keeps_values_witness :
  Forall2 (same_value 0 1 Z.add Z.mul Z_interp) [inner_product] inner_product_unrolled.
Proof.
  apply (@unroll_indexsum_keeps_values Z 0 1 Z.add Z.mul Z.sub Z.opp Zth Z_interp
           (fun _ => true) [inner_product] inner_product_unrolled).
  vm_compute. reflexivity.
Defined.

(** ** What delta elimination leaves *)

Lemma delta_queue_nil (sum_indices : list index) (factors : list expr) :
  delta_queue sum_indices factors = [] ->
  forall i j, In (Delta i j) factors -> ~ In i sum_indices /\ ~ In j sum_indices.
Proof.
  intros H i j Hin.
  assert (E : filter (fun index => index_in index sum_indices) [i; j] = []).
  { unfold delta_queue in H.
    assert (G : forall x, In x (flat_map (fun f =>
                  match f with
                  | Delta i j => map (fun index => (f, index))
                                     (filter (fun index => index_in index sum_indices) [i; j])
                  | _ => []
                  end) factors) -> False) by (rewrite H; intros x []).
    destruct (filter (fun index => index_in index sum_indices) [i; j]) as [|k l] eqn:E;
      [reflexivity|].
    exfalso. apply (G (Delta i j, k)). apply in_flat_map. exists (Delta i j).
    split; [exact Hin|]. rewrite E. left. reflexivity. }
  simpl in E.
  destruct (index_in i sum_indices) eqn:Ei; [discriminate|].
  destruct (index_in j sum_indices) eqn:Ej; [discriminate|].
  split; intros X; apply index_in_In in X; congruence.
Qed.

Lemma delta_elimination_loop_complete (fuel : nat) :
  forall sum_indices factors sum_indices' factors',
    delta_elimination_loop fuel sum_indices factors = Ok (sum_indices', factors') ->
    forall i j, In (Delta i j) factors' -> ~ In i sum_indices' /\ ~ In j sum_indices'.
Proof.
  induction fuel as [|fuel IH]; intros si fs si' fs' H; cbn [delta_elimination_loop] in H;
    destruct (delta_queue si fs) as [|[d f] q] eqn:Eq; try discriminate.
  - injection H as <- <-. intros i j Hin. apply filter_In in Hin as [Hin _].
    exact (delta_queue_nil _ _ Eq i j Hin).
  - injection H as <- <-. intros i j Hin. apply filter_In in Hin as [Hin _].
    exact (delta_queue_nil _ _ Eq i j Hin).
  - apply bind_Ok in H as ([si1 fs1] & _ & H). exact (IH _ _ _ _ H).
Qed.

(** X24.  When [delta_elimination] returns, no delta among the factors it
    returns has an operand among the summation indices it returns: every
    delta that could cancel a contraction has done so. *)
Theorem delta_elimination_complete (sum_indices sum_indices' : list index)
    (factors factors' : list expr) :
  delta_elimination sum_indices factors = Ok (sum_indices', factors') ->
  Forall (fun f => match f with
                   | Delta i j => ~ In i sum_indices' /\ ~ In j sum_indices'
                   | _ => True
                   end) factors'.
Proof.
  intros H. unfold delta_elimination in H. apply Forall_forall. intros f Hf.
  destruct f; try exact I.
  exact (delta_elimination_loop_complete _ _ _ H i j Hf).
Qed.

(** [delta(i, j) * delta(j, k) * x[i]] summed over [i] only: the second
    delta stays. *)
Definition partly_eliminated : list index * list expr :=
  Eval vm_compute in
    returned ([], [])
      (delta_elimination [sum_i] [Delta sum_i free_j; Delta free_j sum_k; x_i]).

Lemma delta_elimination_complete_witness :
  Forall (fun f => match f with
                   | Delta i j => ~ In i (fst partly_eliminated)
                                  /\ ~ In j (fst partly_eliminated)
                   | _ => True
                   end) (snd partly_eliminated).
Proof.
  apply (@delta_elimination_complete [sum_i] (fst partly_eliminated)
           [Delta sum_i free_j; Delta free_j sum_k; x_i] (snd partly_eliminated)).
  vm_compute. reflexivity.
Defined.

(** ** The distinct sets of summation indices of a [MonomialSum] *)

Lemma index_set_eqb_refl (s : list index) : index_set_eqb s s = true.
Proof. apply index_set_eqb_spec. intros x. reflexivity. Qed.

Lemma index_set_eqb_sym (s s' : list index) : index_set_eqb s s' = index_set_eqb s' s.
Proof.
  unfold index_set_eqb. apply andb_comm.
Qed.

Lemma index_set_eqb_trans (s1 s2 s3 : list index) :
  index_set_eqb s1 s2 = true -> index_set_eqb s2 s3 = true -> index_set_eqb s1 s3 = true.
Proof.
  intros A B. apply index_set_eqb_spec. intros x.
  rewrite (proj1 (index_set_eqb_spec s1 s2) A x). apply (proj1 (index_set_eqb_spec s2 s3) B).
Qed.

Lemma unique_sum_indices_loop_covers
    (od : list (MonomialSum.key * (list index * list expr))) :
  forall seen kv,
    In kv od ->
    existsb (index_set_eqb (fst (fst kv))) seen = true
    \/ existsb (fun p => index_set_eqb (fst (fst kv)) (fst p))
               (MonomialSum.unique_sum_indices_loop seen od) = true.
Proof.
  induction od as [|[[s0 c0] [si0 a0]] od IH]; intros seen kv Hin; [destruct Hin|].
  cbn [MonomialSum.unique_sum_indices_loop].
  destruct (existsb (index_set_eqb s0) seen) eqn:Es.
  - destruct Hin as [<- | Hin]; [left; exact Es | apply IH; exact Hin].
  - destruct Hin as [<- | Hin].
    + right. simpl. rewrite index_set_eqb_refl. reflexivity.
    + destruct (IH (seen ++ [s0]) kv Hin) as [H | H].
      * rewrite existsb_app in H. apply orb_true_iff in H as [H | H]; [left; exact H|].
        right. simpl in H. rewrite orb_false_r in H. simpl. rewrite H. reflexivity.
      * right. simpl. rewrite H. apply orb_true_r.
Qed.

Lemma unique_sum_indices_loop_once
    (od : list (MonomialSum.key * (list index * list expr))) :
  forall seen,
    ForallOrdPairs (fun p q => index_set_eqb (fst p) (fst q) = false)
                   (MonomialSum.unique_sum_indices_loop seen od)
    /\ Forall (fun p => existsb (index_set_eqb (fst p)) seen = false)
              (MonomialSum.unique_sum_indices_loop seen od).
Proof.
  induction od as [|[[s0 c0] [si0 a0]] od IH]; intros seen;
    cbn [MonomialSum.unique_sum_indices_loop]; [split; constructor|].
  destruct (existsb (index_set_eqb s0) seen) eqn:Es; [apply IH|].
  destruct (IH (seen ++ [s0])) as [H1 H2]. split.
  - constructor; [|exact H1]. apply Forall_forall. intros q Hq.
    rewrite Forall_forall in H2. specialize (H2 q Hq). rewrite existsb_app in H2.
    apply orb_false_iff in H2 as [_ H2]. simpl in H2. rewrite orb_false_r in H2.
    rewrite index_set_eqb_sym. exact H2.
  - constructor; [exact Es|]. apply Forall_forall. intros q Hq.
    rewrite Forall_forall in H2. specialize (H2 q Hq). rewrite existsb_app in H2.
    apply orb_false_iff in H2 as [H2 _]. exact H2.
Qed.

Lemma unique_sum_indices_loop_from
    (od : list (MonomialSum.key * (list index * list expr))) :
  forall seen p,
    In p (MonomialSum.unique_sum_indices_loop seen od) ->
    In p (map (fun kv => (fst (fst kv), fst (snd kv))) od).
Proof.
  induction od as [|[[s0 c0] [si0 a0]] od IH]; intros seen p Hp;
    cbn [MonomialSum.unique_sum_indices_loop] in Hp; [destruct Hp|].
  destruct (existsb (index_set_eqb s0) seen).
  - right. exact (IH _ _ Hp).
  - destruct Hp as [<- | Hp]; [left; reflexivity | right; exact (IH _ _ Hp)].
Qed.

(** X25.  [unique_sum_indices] yields every set of summation indices of the
    [MonomialSum] once: the set of every monomial is among those yielded, no
    two yielded sets are equal, and each comes with the ordered summation
    indices of a monomial that has this set. *)
Theorem unique_sum_indices_once (self : MonomialSum.t) :
  Forall (fun kv => existsb (fun p => index_set_eqb (fst (fst kv)) (fst p))
                            (MonomialSum.unique_sum_indices self) = true)
         (MonomialSum.ordering self)
  /\ ForallOrdPairs (fun p q => index_set_eqb (fst p) (fst q) = false)
                    (MonomialSum.unique_sum_indices self)
  /\ Forall (fun p => In p (map (fun kv => (fst (fst kv), fst (snd kv)))
                                (MonomialSum.ordering self)))
            (MonomialSum.unique_sum_indices self).
Proof.
  unfold MonomialSum.unique_sum_indices. split; [|split].
  - apply Forall_forall. intros kv Hkv.
    destruct (unique_sum_indices_loop_covers _ [] _ Hkv) as [H | H];
      [discriminate | exact H].
  - apply unique_sum_indices_loop_once.
  - apply Forall_forall. intros p Hp. exact (unique_sum_indices_loop_from _ _ _ Hp).
Qed.

(** ** The labels of the classifier *)

(** One of the three labels. *)
Definition legal_label (classifier : expr -> string) (e : expr) : bool :=
  String.eqb (classifier e) ATOMIC || String.eqb (classifier e) COMPOUND
  || String.eqb (classifier e) OTHER.

Lemma categorise_filters (classifier : expr -> string) (terms : list expr) :
  forall ca co cp,
    categorise classifier terms ca co cp
    = if forallb (legal_label classifier) terms
      then Ok (ca ++ filter (fun t => String.eqb (classifier t) ATOMIC) terms,
               co ++ filter (fun t => String.eqb (classifier t) OTHER) terms,
               cp ++ filter (fun t => String.eqb (classifier t) COMPOUND) terms)
      else Raise (ValueError "Classifier returned illegal value.").
Proof.
  induction terms as [|t terms IH]; intros ca co cp; cbn [categorise forallb filter].
  - rewrite !app_nil_r. reflexivity.
  - unfold legal_label at 1.
    destruct (String.eqb_spec (classifier t) ATOMIC) as [Ea | Ea].
    + replace (String.eqb (classifier t) OTHER) with false by (rewrite Ea; reflexivity).
      replace (String.eqb (classifier t) COMPOUND) with false by (rewrite Ea; reflexivity).
      cbn [orb andb]. rewrite IH, <- !app_assoc. reflexivity.
    + destruct (String.eqb_spec (classifier t) COMPOUND) as [Ec | Ec].
      * replace (String.eqb (classifier t) OTHER) with false by (rewrite Ec; reflexivity).
        cbn [orb andb]. rewrite IH, <- !app_assoc. reflexivity.
      * destruct (String.eqb_spec (classifier t) OTHER) as [Eo | Eo].
        -- cbn [orb andb]. rewrite IH, <- !app_assoc. reflexivity.
        -- reflexivity.
Qed.

(** X26.  The first phase of [_collect_monomials] splits the terms by label,
    each list in the order of the terms, and raises its [ValueError] exactly
    when the classifier gives some term none of the three labels; the
    classifier of [optimise] always gives one of the three. *)
Theorem categorise_by_label (classifier : expr -> string) (terms : list expr) :
  categorise classifier terms [] [] []
  = (if forallb (legal_label classifier) terms
     then Ok (filter (fun t => String.eqb (classifier t) ATOMIC) terms,
              filter (fun t => String.eqb (classifier t) OTHER) terms,
              filter (fun t => String.eqb (classifier t) COMPOUND) terms)
     else Raise (ValueError "Classifier returned illegal value."))
  /\ forall argument_indices e, legal_label (classify argument_indices) e = true.
Proof.
  split; [apply categorise_filters|].
  intros ai e. unfold legal_label, classify.
  destruct e; try reflexivity;
    repeat match goal with
           | |- context [Nat.eqb ?n ?m] => destruct (Nat.eqb n m)
           end; reflexivity.
Qed.

(** ** The value of the collected monomials *)

(** *** Expressions that bind every index once *)

Definition distinct_indices (l : list index) : bool :=
  Nat.eqb (length l) (length (dedup_index l)).

(** Every contraction and every component tensor binds indices of its own,
    and no bound index is free in the expression. *)
Definition hygienic (e : expr) : bool :=
  distinct_indices (binders e) && apart (binders e) [e].

Definition Hygienic (e : expr) : Prop :=
  NoDup (binders e) /\ forall i, In i (binders e) -> ~ In i (free_indices e).

Lemma hygienic_spec (e : expr) : hygienic e = true <-> Hygienic e.
Proof.
  unfold hygienic, Hygienic, distinct_indices.
  rewrite andb_true_iff, Nat.eqb_eq, dedup_index_length_NoDup, apart_spec. split.
  - intros [H1 H2]. split; [exact H1|]. intros i Hi Hf. apply index_in_In in Hf.
    rewrite (H2 i Hi e (or_introl eq_refl)) in Hf. discriminate.
  - intros [H1 H2]. split; [exact H1|]. intros i Hi f [<- | []].
    destruct (index_in i (free_indices e)) eqn:E; [|reflexivity].
    apply index_in_In in E. destruct (H2 i Hi E).
Qed.

Lemma binders_Product (a b : expr) : binders (Product a b) = binders a ++ binders b.
Proof. rewrite binders_unfold. simpl. rewrite app_nil_r. reflexivity. Qed.

Lemma binders_Division (a b : expr) : binders (Division a b) = binders a ++ binders b.
Proof. rewrite binders_unfold. simpl. rewrite app_nil_r. reflexivity. Qed.

Lemma binders_Sum (a b : expr) : binders (Sum a b) = binders a ++ binders b.
Proof. rewrite binders_unfold. simpl. rewrite app_nil_r. reflexivity. Qed.

Lemma binders_IndexSum (a : expr) (mi : list index) :
  binders (IndexSum a mi) = mi ++ binders a.
Proof. rewrite binders_unfold. simpl. rewrite app_nil_r. reflexivity. Qed.

Lemma free_Product (a b : expr) (x : index) :
  In x (free_indices (Product a b)) <-> In x (free_indices a) \/ In x (free_indices b).
Proof. cbn [free_indices]. rewrite In_unique_iff, in_app_iff. reflexivity. Qed.

Lemma free_Division (a b : expr) (x : index) :
  In x (free_indices (Division a b)) <-> In x (free_indices a) \/ In x (free_indices b).
Proof. cbn [free_indices]. rewrite In_unique_iff, in_app_iff. reflexivity. Qed.

Lemma free_Sum (a b : expr) (x : index) :
  In x (free_indices (Sum a b)) <-> In x (free_indices a) \/ In x (free_indices b).
Proof. cbn [free_indices]. rewrite In_unique_iff, in_app_iff. reflexivity. Qed.

Lemma free_IndexSum (a : expr) (mi : list index) (x : index) :
  In x (free_indices (IndexSum a mi)) <-> In x (free_indices a) /\ ~ In x mi.
Proof.
  cbn [free_indices]. rewrite filter_In. split; intros [H1 H2]; (split; [exact H1|]).
  - intros Hx. apply index_in_In in Hx. rewrite Hx in H2. discriminate.
  - destruct (index_in x mi) eqn:E; [|reflexivity]. apply index_in_In in E. contradiction.
Qed.

(** The binders of an expression are those that [traverse_product] opens and
    those of the factors. *)
Lemma binders_flattened (stop_at : option (expr -> bool)) (e : expr) :
  Permutation (binders e)
              (indices_of stop_at e ++ flat_map binders (factors_of stop_at e)).
Proof.
  assert (Leaf : forall x, Permutation (binders x) ([] ++ flat_map binders [x])).
  { intros x. simpl. rewrite app_nil_r. reflexivity. }
  induction e; cbn [indices_of factors_of]; destruct (stop_here stop_at _);
    try apply Leaf.
  - (* Product *)
    rewrite binders_Product, flat_map_app.
    rewrite IHe1, IHe2 at 1. rewrite <- !app_assoc. apply Permutation_app_head.
    rewrite !app_assoc. apply Permutation_app_tail. apply Permutation_app_comm.
  - (* Division *)
    destruct (expr_eqb e1 one); [apply Leaf|].
    rewrite binders_Division, flat_map_app.
    rewrite IHe1 at 1. rewrite <- !app_assoc. apply Permutation_app_head.
    apply Permutation_app_head. simpl. rewrite app_nil_r.
    rewrite binders_Division. reflexivity.
  - (* IndexSum *)
    rewrite binders_IndexSum. rewrite IHe at 1. rewrite <- app_assoc. reflexivity.
Qed.

(** A free index of a factor is free in the expression or among the indices
    that [traverse_product] opens. *)
Lemma factors_of_free (stop_at : option (expr -> bool)) (e : expr) :
  forall f x, In f (factors_of stop_at e) -> In x (free_indices f) ->
              In x (free_indices e) \/ In x (indices_of stop_at e).
Proof.
  induction e; intros f x Hf Hx; cbn [indices_of factors_of] in *;
    destruct (stop_here stop_at _);
    try (destruct Hf as [<- | []]; left; exact Hx).
  - (* Product *)
    apply in_app_or in Hf as [Hf | Hf];
      [destruct (IHe1 f x Hf Hx) | destruct (IHe2 f x Hf Hx)];
      rewrite free_Product, in_app_iff; tauto.
  - (* Division *)
    destruct (expr_eqb e1 one); [destruct Hf as [<- | []]; left; exact Hx|].
    apply in_app_or in Hf as [Hf | [<- | []]].
    + destruct (IHe1 f x Hf Hx); rewrite free_Division; tauto.
    + left. apply free_Division in Hx as [[] | Hx]. apply free_Division. tauto.
  - (* IndexSum *)
    destruct (IHe f x Hf Hx) as [H | H]; [|right; apply in_or_app; tauto].
    destruct (in_dec (fun a b => match index_eqb a b as c
                                       return index_eqb a b = c -> {a = b} + {a <> b} with
                                 | true => fun E => left (proj1 (index_eqb_eq a b) E)
                                 | false => fun E => right (proj1 (index_eqb_neq a b) E)
                                 end eq_refl) x multiindex) as [Hin | Hnin].
    + right. apply in_or_app. tauto.
    + left. apply free_IndexSum. tauto.
Qed.

Lemma binders_summands (stop_at : option (expr -> bool)) (c : expr) :
  Permutation (binders c) (flat_map binders (summands_of stop_at c)).
Proof.
  induction c; cbn [summands_of]; destruct (stop_here stop_at _);
    try (cbn [flat_map]; rewrite app_nil_r; reflexivity).
  rewrite binders_Sum, flat_map_app.
  apply Permutation_app; assumption.
Qed.

Lemma summands_of_free (stop_at : option (expr -> bool)) (c : expr) :
  forall s x, In s (summands_of stop_at c) -> In x (free_indices s) -> In x (free_indices c).
Proof.
  induction c; intros s x Hs Hx; cbn [summands_of] in Hs; destruct (stop_here stop_at _);
    try (destruct Hs as [<- | []]; exact Hx).
  apply free_Sum. apply in_app_or in Hs as [Hs | Hs]; [left | right]; eauto.
Qed.

Lemma NoDup_app_inv (A : Type) (l1 l2 : list A) :
  NoDup (l1 ++ l2) -> NoDup l1 /\ NoDup l2 /\ forall x, In x l1 -> ~ In x l2.
Proof.
  induction l1 as [|a l1 IH]; simpl; intros H.
  - split; [constructor|]. split; [exact H|]. intros x [].
  - inversion H as [|? ? Ha Hn]; subst. destruct (IH Hn) as (H1 & H2 & H3).
    split; [constructor; [|exact H1]|split; [exact H2|]].
    + intros X. apply Ha. apply in_or_app. left. exact X.
    + intros x [<- | Hx]; [|apply H3; exact Hx].
      intros X. apply Ha. apply in_or_app. right. exact X.
Qed.

Lemma NoDup_flat_map_elem (A B : Type) (f : A -> list B) (l : list A) (x : A) :
  NoDup (flat_map f l) -> In x l -> NoDup (f x).
Proof.
  induction l as [|y l IH]; simpl; intros H Hx; [destruct Hx|].
  apply NoDup_app_inv in H as (H1 & H2 & _).
  destruct Hx as [<- | Hx]; [exact H1 | apply IH; assumption].
Qed.

(** The factors of a hygienic expression are hygienic, and what one of them
    binds is free in none. *)
Lemma Hygienic_factors (stop_at : option (expr -> bool)) (e : expr) :
  Hygienic e ->
  NoDup (indices_of stop_at e ++ flat_map binders (factors_of stop_at e))
  /\ (forall f c i, In f (factors_of stop_at e) -> In c (factors_of stop_at e) ->
                    In i (binders c) -> ~ In i (free_indices f))
  /\ (forall f i, In f (factors_of stop_at e) -> In i (indices_of stop_at e) ->
                  ~ In i (binders f)).
Proof.
  intros [Hn Hf]. pose proof (binders_flattened stop_at e) as Hp.
  assert (Hn' : NoDup (indices_of stop_at e ++ flat_map binders (factors_of stop_at e)))
    by (apply (Permutation_NoDup Hp); exact Hn).
  split; [exact Hn'|]. destruct (NoDup_app_inv _ _ Hn') as (_ & _ & Hd). split.
  - intros f c i Hfin Hc Hi Hfree.
    assert (Hb : In i (flat_map binders (factors_of stop_at e)))
      by (apply in_flat_map; exists c; auto).
    destruct (factors_of_free stop_at e f i Hfin Hfree) as [H | H].
    + apply (Hf i); [|exact H]. apply (Permutation_in _ (Permutation_sym Hp)).
      apply in_or_app. right. exact Hb.
    + apply (Hd i H Hb).
  - intros f i Hfin Hi Hb. apply (Hd i Hi). apply in_flat_map. exists f. auto.
Qed.

Lemma Hygienic_factor (stop_at : option (expr -> bool)) (e f : expr) :
  Hygienic e -> In f (factors_of stop_at e) -> Hygienic f.
Proof.
  intros H Hf. destruct (Hygienic_factors stop_at H) as (Hn & Hfree & _). split.
  - apply NoDup_app_inv in Hn as (_ & Hn & _). exact (NoDup_flat_map_elem _ _ _ Hn Hf).
  - intros i Hi. exact (Hfree f f i Hf Hf Hi).
Qed.

Lemma Hygienic_summand (stop_at : option (expr -> bool)) (c s : expr) :
  Hygienic c -> In s (summands_of stop_at c) -> Hygienic s.
Proof.
  intros [Hn Hf] Hs. pose proof (binders_summands stop_at c) as Hp. split.
  - apply (NoDup_flat_map_elem binders (summands_of stop_at c)); [|exact Hs].
    apply (Permutation_NoDup Hp). exact Hn.
  - intros i Hi Hfree. apply (Hf i).
    + apply (Permutation_in _ (Permutation_sym Hp)). apply in_flat_map. exists s. auto.
    + exact (summands_of_free stop_at c s i Hs Hfree).
Qed.

(** *** What the collected monomials are made of *)

(** The summation indices of the monomials are among [Bs], and the free
    indices of their atomics and of their rests among [Xs]. *)
Definition within (Bs Xs : list index) (self : MonomialSum.t) : Prop :=
  (forall kv, In kv (MonomialSum.ordering self) ->
     incl (fst (snd kv)) Bs
     /\ forall a, In a (snd (snd kv)) -> incl (free_indices a) Xs)
  /\ (forall kr, In kr (MonomialSum.monomials self) -> incl (free_indices (snd kr)) Xs).

Lemma within_mono (Bs Xs Bs' Xs' : list index) (self : MonomialSum.t) :
  incl Bs Bs' -> incl Xs Xs' -> within Bs Xs self -> within Bs' Xs' self.
Proof.
  intros HB HX [H1 H2]. split.
  - intros kv Hkv. destruct (H1 kv Hkv) as [A B]. split.
    + eapply incl_tran; eassumption.
    + intros a Ha. eapply incl_tran; [apply B; exact Ha | exact HX].
  - intros kr Hkr. eapply incl_tran; [apply H2; exact Hkr | exact HX].
Qed.

Lemma within_empty (Bs Xs : list index) : within Bs Xs MonomialSum.empty.
Proof. split; intros x []. Qed.

Lemma dict_lookup_In (V : Type) (d : list (MonomialSum.key * V)) (k : MonomialSum.key) (v : V) :
  MonomialSum.dict_lookup d k = Some v -> exists k', In (k', v) d.
Proof.
  induction d as [|[k' v'] d IH]; simpl; [discriminate|].
  destruct (MonomialSum.key_eqb k' k).
  - intros H. injection H as ->. exists k'. left. reflexivity.
  - intros H. destruct (IH H) as [k'' Hk]. exists k''. right. exact Hk.
Qed.

Lemma lookup_within (Xs : list index) (m : list (MonomialSum.key * expr))
    (k : MonomialSum.key) :
  (forall kr, In kr m -> incl (free_indices (snd kr)) Xs) ->
  incl (free_indices (match MonomialSum.dict_lookup m k with
                      | Some r => r
                      | None => Zero []
                      end)) Xs.
Proof.
  intros H. destruct (MonomialSum.dict_lookup m k) as [r|] eqn:E.
  - destruct (dict_lookup_In _ _ E) as [k' Hk]. apply (H (k', r) Hk).
  - intros x [].
Qed.

Lemma within_iter (Bs Xs : list index) (self : MonomialSum.t) (m : Monomial) :
  within Bs Xs self -> In m (MonomialSum.iter self) ->
  incl (m_sum_indices m) Bs
  /\ (forall a, In a (m_atomics m) -> incl (free_indices a) Xs)
  /\ incl (free_indices (m_rest m)) Xs.
Proof.
  intros [H1 H2] Hm. unfold MonomialSum.iter in Hm.
  apply in_map_iff in Hm as (kv & <- & Hkv). simpl.
  destruct (H1 kv Hkv) as [A B]. split; [exact A|]. split; [exact B|].
  apply lookup_within. exact H2.
Qed.

Lemma dict_store_In (V : Type) (d : list (MonomialSum.key * V)) (k : MonomialSum.key)
    (v : V) (kr : MonomialSum.key * V) :
  In kr (MonomialSum.dict_store d k v) -> In kr d \/ snd kr = v.
Proof.
  induction d as [|[k' v'] d IH]; simpl.
  - intros [<- | []]. right. reflexivity.
  - destruct (MonomialSum.key_eqb k' k); simpl.
    + intros [<- | H]; [right; reflexivity | left; right; exact H].
    + intros [<- | H]; [left; left; reflexivity|]. destruct (IH H); auto.
Qed.

Lemma free_Sum_incl (a b : expr) (Xs : list index) :
  incl (free_indices a) Xs -> incl (free_indices b) Xs -> incl (free_indices (Sum a b)) Xs.
Proof. intros Ha Hb x Hx. apply free_Sum in Hx as [Hx | Hx]; auto. Qed.

Lemma free_Product_incl (a b : expr) (Xs : list index) :
  incl (free_indices a) Xs -> incl (free_indices b) Xs ->
  incl (free_indices (Product a b)) Xs.
Proof. intros Ha Hb x Hx. apply free_Product in Hx as [Hx | Hx]; auto. Qed.

Lemma within_add (Bs Xs : list index) (self self' : MonomialSum.t)
    (s : list index) (a : list expr) (r : expr) :
  within Bs Xs self -> incl s Bs ->
  (forall x, In x a -> incl (free_indices x) Xs) -> incl (free_indices r) Xs ->
  MonomialSum.add self s a r = Ok self' -> within Bs Xs self'.
Proof.
  intros [H1 H2] Hs Ha Hr H. apply add_Ok_inv in H as [_ ->]. split.
  - intros kv Hkv. simpl in Hkv. apply dict_setdefault_In in Hkv as [Hkv | ->];
      [apply H1; exact Hkv | split; assumption].
  - intros kr Hkr. simpl in Hkr. apply dict_store_In in Hkr as [Hkr | ->];
      [apply H2; exact Hkr|].
    apply free_Sum_incl; [|exact Hr]. apply lookup_within. exact H2.
Qed.

Lemma within_add_all (Bs Xs : list index) (l : list (list index * list expr * expr)) :
  forall self self',
    within Bs Xs self ->
    (forall sar, In sar l ->
       incl (fst (fst sar)) Bs
       /\ (forall x, In x (snd (fst sar)) -> incl (free_indices x) Xs)
       /\ incl (free_indices (snd sar)) Xs) ->
    MonomialSum.add_all self l = Ok self' -> within Bs Xs self'.
Proof.
  induction l as [|[[s a] r] l IH]; intros self self' Hw Hall H; simpl in H.
  - injection H as <-. exact Hw.
  - apply bind_Ok in H as (self1 & H1 & H).
    destruct (Hall (s, a, r) (or_introl eq_refl)) as (A & B & C).
    apply (IH self1 self'); [|intros sar Hsar; apply Hall; right; exact Hsar | exact H].
    exact (@within_add Bs Xs self self1 s a r Hw A B C H1).
Qed.

Lemma within_sum (Bs Xs : list index) (args : list MonomialSum.t) :
  Forall (within Bs Xs) args -> within Bs Xs (MonomialSum.sum args).
Proof.
  unfold MonomialSum.sum. intros Hall.
  assert (G : forall acc, within Bs Xs acc ->
                          within Bs Xs (fold_left MonomialSum.sum_step args acc)).
  { induction Hall as [|x l Hx _ IH]; intros acc Hacc; simpl; [exact Hacc|].
    apply IH. destruct Hx as [X1 X2], Hacc as [A1 A2]. split.
    - intros kv Hkv. unfold MonomialSum.sum_step in Hkv. cbn [MonomialSum.ordering] in Hkv.
      exact (@fold_setdefault_In _
               (fun q => incl (fst (snd q)) Bs
                         /\ forall a, In a (snd (snd q)) -> incl (free_indices a) Xs)
               _ _ X1 A1 kv Hkv).
    - unfold MonomialSum.sum_step. cbn [MonomialSum.monomials].
      revert A2. generalize (MonomialSum.monomials acc) as ms.
      revert X2. generalize (MonomialSum.monomials x) as mx.
      induction mx as [|[k r] mx IHm]; intros X2 ms A2; simpl; [exact A2|].
      apply IHm; [intros kr Hkr; apply X2; right; exact Hkr|].
      intros kr Hkr. apply dict_store_In in Hkr as [Hkr | ->]; [apply A2; exact Hkr|].
      apply free_Sum_incl; [apply lookup_within; exact A2|].
      apply (X2 (k, r)). left. reflexivity. }
  apply G. apply within_empty.
Qed.

Lemma product_monomial_parts (ms : list Monomial) :
  fst (fst (MonomialSum.product_monomial ms)) = concat (map m_sum_indices ms)
  /\ snd (fst (MonomialSum.product_monomial ms)) = concat (map m_atomics ms)
  /\ forall Xs, (forall m, In m ms -> incl (free_indices (m_rest m)) Xs) ->
                incl (free_indices (snd (MonomialSum.product_monomial ms))) Xs.
Proof.
  unfold MonomialSum.product_monomial.
  assert (G : forall s a r,
            let res := fold_left (fun acc m => let '(s, a, r) := acc in
                                    (s ++ m_sum_indices m, a ++ m_atomics m,
                                     Product (m_rest m) r)) ms (s, a, r) in
            fst (fst res) = s ++ concat (map m_sum_indices ms)
            /\ snd (fst res) = a ++ concat (map m_atomics ms)
            /\ forall Xs, incl (free_indices r) Xs ->
                          (forall m, In m ms -> incl (free_indices (m_rest m)) Xs) ->
                          incl (free_indices (snd res)) Xs).
  { induction ms as [|m ms IH]; intros s a r; simpl.
    - rewrite !app_nil_r. auto.
    - destruct (IH (s ++ m_sum_indices m) (a ++ m_atomics m) (Product (m_rest m) r))
        as (A & B & C).
      split; [rewrite A, <- app_assoc; reflexivity|].
      split; [rewrite B, <- app_assoc; reflexivity|].
      intros Xs Hr Hm. apply C; [|intros m' Hm'; apply Hm; right; exact Hm'].
      apply free_Product_incl; [apply Hm; left; reflexivity | exact Hr]. }
  destruct (G [] [] one) as (A & B & C). split; [exact A|]. split; [exact B|].
  intros Xs Hm. apply C; [intros x [] | exact Hm].
Qed.

Lemma within_product (Bs Xs : list index) (args : list MonomialSum.t) (p : MonomialSum.t) :
  Forall (within Bs Xs) args -> MonomialSum.product args = Ok p -> within Bs Xs p.
Proof.
  intros Hall H. unfold MonomialSum.product in H.
  apply (@within_add_all Bs Xs
           (map MonomialSum.product_monomial
                (MonomialSum.cartesian (map MonomialSum.iter args)))
           MonomialSum.empty p (within_empty Bs Xs)); [|exact H].
  intros sar Hsar. apply in_map_iff in Hsar as (ms & <- & Hms).
  destruct (product_monomial_parts ms) as (A & B & C).
  assert (Hm : forall m, In m ms ->
                 incl (m_sum_indices m) Bs
                 /\ (forall a, In a (m_atomics m) -> incl (free_indices a) Xs)
                 /\ incl (free_indices (m_rest m)) Xs).
  { intros m Hm. destruct (@cartesian_In _ _ ms Hms m Hm) as (it & Hit & Hmit).
    apply in_map_iff in Hit as (arg & <- & Harg). rewrite Forall_forall in Hall.
    exact (@within_iter Bs Xs arg m (Hall arg Harg) Hmit). }
  split; [|split].
  - rewrite A. intros x Hx. apply in_concat in Hx as (l & Hl & Hx).
    apply in_map_iff in Hl as (m & <- & Hmm). apply (proj1 (Hm m Hmm)). exact Hx.
  - rewrite B. intros x Hx. apply in_concat in Hx as (l & Hl & Hx).
    apply in_map_iff in Hl as (m & <- & Hmm). apply (proj1 (proj2 (Hm m Hmm))). exact Hx.
  - apply C. intros m Hmm. apply (proj2 (proj2 (Hm m Hmm))).
Qed.

Lemma BuiltFrom_Product_absent (x : index) (t : expr) (l : list expr) :
  BuiltFrom Product t l -> absent x l -> index_in x (free_indices t) = false.
Proof.
  intros Hb Hab. destruct (index_in x (free_indices t)) eqn:E; [|reflexivity].
  apply index_in_In in E. destruct (BuiltFrom_Product_free Hb _ E) as (f & Hf & Hxf).
  apply index_in_In in Hxf. rewrite (Hab f Hf) in Hxf. discriminate.
Qed.

Lemma contract_ordering_keeps_absent (x : index) (ordering : list index) :
  forall terms flops terms' flops',
    contract_ordering ordering terms flops = Ok (terms', flops') ->
    absent x terms -> absent x terms'.
Proof.
  induction ordering as [|j ordering IH]; intros terms flops terms' flops' H Hab.
  - simpl in H. injection H as <- _. exact Hab.
  - cbn [contract_ordering] in H.
    apply bind_Ok in H as ([product flops_] & Ha & H). apply bind_Ok in H as (p & _ & H).
    apply (IH _ _ _ _ H). intros t Ht. apply in_app_or in Ht as [Ht | [<- | []]].
    + apply filter_In in Ht as [Ht _]. apply Hab. exact Ht.
    + destruct (index_in x (free_indices (IndexSum product [j]))) eqn:E; [|reflexivity].
      apply index_in_In in E. apply free_IndexSum in E as [E _]. apply index_in_In in E.
      rewrite (@BuiltFrom_Product_absent x product _ (associate_product_BuiltFrom _ Ha)) in E;
        [discriminate|].
      intros f Hf. apply filter_In in Hf as [Hf _]. apply Hab. exact Hf.
Qed.

Lemma sum_factorise_orderings_absent (x : index) (groups : list expr)
    (orderings : list (list index)) :
  forall best best',
    (forall e fl, best = Some (e, fl) -> index_in x (free_indices e) = false) ->
    absent x groups ->
    sum_factorise_orderings orderings groups best = Ok best' ->
    forall e fl, best' = Some (e, fl) -> index_in x (free_indices e) = false.
Proof.
  induction orderings as [|o os IH]; intros best best' Hbest Hab H.
  - simpl in H. injection H as <-. exact Hbest.
  - cbn [sum_factorise_orderings] in H.
    apply bind_Ok in H as ([terms flops] & Hc & H).
    apply bind_Ok in H as ([expr_ flops_] & Ha & H).
    assert (Hnew : index_in x (free_indices expr_) = false).
    { apply (@BuiltFrom_Product_absent x expr_ terms (associate_product_BuiltFrom _ Ha)).
      exact (@contract_ordering_keeps_absent x o groups 0 terms flops Hc Hab). }
    refine (IH _ _ _ Hab H).
    intros e fl E. destruct best as [[e0 f0]|].
    + destruct (wrap64 (flops + flops_) <? f0); injection E as <- _;
        [exact Hnew | exact (Hbest _ _ eq_refl)].
    + injection E as <- _. exact Hnew.
Qed.

(** A free index of what [sum_factorise] returns is free in a factor. *)
Lemma sum_factorise_keeps_absent (x : index) (sum_indices : list index)
    (factors : list expr) (e : expr) :
  sum_factorise sum_indices factors = Ok e -> absent x factors ->
  index_in x (free_indices e) = false.
Proof.
  unfold sum_factorise. intros H Hab.
  destruct (Nat.eqb (length factors) 0 && Nat.eqb (length sum_indices) 0);
    [injection H as <-; reflexivity|].
  destruct (5 <? length sum_indices)%nat; [discriminate|].
  apply bind_Ok in H as (groups & Hg & H). apply bind_Ok in H as (best & Hb & H).
  destruct best as [[expression fl]|]; [|discriminate]. injection H as <-.
  apply (@sum_factorise_orderings_absent x groups (permutations sum_indices) None
           (Some (expression, fl))) with (fl := fl); [discriminate | | exact Hb | reflexivity].
  exact (groups_absent Hab Hg).
Qed.

Lemma sum_factorise_free_incl (Xs : list index) (sum_indices : list index)
    (factors : list expr) (e : expr) :
  sum_factorise sum_indices factors = Ok e ->
  (forall f, In f factors -> incl (free_indices f) Xs) ->
  incl (free_indices e) Xs.
Proof.
  intros H Hf x Hx. destruct (index_in x Xs) eqn:E; [apply index_in_In; exact E|].
  exfalso. apply index_in_In in Hx.
  rewrite (@sum_factorise_keeps_absent x sum_indices factors e H) in Hx; [discriminate|].
  intros f Hin. destruct (index_in x (free_indices f)) eqn:Ef; [|reflexivity].
  apply index_in_In in Ef. apply (Hf f Hin) in Ef. apply index_in_In in Ef. congruence.
Qed.

Lemma within_expand (Bs Xs : list index) (ci : list index) (ca co : list expr)
    (products : list Monomial) :
  forall result_ r,
    incl ci Bs ->
    (forall f, In f (ca ++ co) -> incl (free_indices f) Xs) ->
    (forall m, In m products ->
       incl (m_sum_indices m) Bs
       /\ (forall a, In a (m_atomics m) -> incl (free_indices a) Xs)
       /\ incl (free_indices (m_rest m)) Xs) ->
    within Bs Xs result_ ->
    expand ci ca co products result_ = Ok r -> within Bs Xs r.
Proof.
  induction products as [|m products IH]; intros result_ r Hci Hf Hp Hw H; simpl in H.
  - injection H as <-. exact Hw.
  - apply bind_Ok in H as (rest & Hrest & H). apply bind_Ok in H as (result' & Hadd & H).
    destruct (Hp m (or_introl eq_refl)) as (A & B & C).
    apply (IH result' r Hci Hf); [intros m' Hm'; apply Hp; right; exact Hm' | | exact H].
    eapply within_add; [exact Hw | | | | exact Hadd].
    + intros x Hx. apply filter_In in Hx as [Hx _].
      apply in_app_or in Hx as [Hx | Hx]; auto.
    + intros x Hx. apply in_app_or in Hx as [Hx | Hx]; [|apply B; exact Hx].
      apply Hf. apply in_or_app. left. exact Hx.
    + apply (sum_factorise_free_incl _ _ Hrest). intros f Hin.
      apply in_app_or in Hin as [Hin | [<- | []]]; [|exact C].
      apply Hf. apply in_or_app. right. exact Hin.
Qed.

Lemma categorise_from_terms (classifier : expr -> string) (terms ca co cp : list expr) :
  categorise classifier terms [] [] [] = Ok (ca, co, cp) ->
  forall f, In f (ca ++ co ++ cp) -> In f terms.
Proof.
  intros H f Hf. rewrite categorise_filters in H.
  destruct (forallb (legal_label classifier) terms); [|discriminate].
  injection H as <- <- <-.
  repeat (apply in_app_or in Hf as [Hf | Hf]); apply filter_In in Hf as [Hf _]; exact Hf.
Qed.

(** The monomials collected from an expression sum over indices the
    expression binds, and their atomics and rests have no free index that
    the expression does not have or bind. *)
Lemma within_collect (classifier : expr -> string) (fuel : nat) :
  forall e ms,
    _collect_monomials fuel classifier e = Ok ms ->
    within (binders e) (free_indices e ++ binders e) ms.
Proof.
  induction fuel as [|fuel IH]; intros e ms H; [discriminate|].
  rewrite _collect_monomials_S in H. rewrite traverse_product_returns in H. cbn [bind] in H.
  apply bind_Ok in H as ([[ca co] cp] & Hcat & H).
  apply bind_Ok in H as (sums & Hsums & H).
  apply bind_Ok in H as (p & Hp & H).
  set (stop := stop_at_of classifier) in *.
  pose proof (binders_flattened stop e) as Hperm.
  assert (Hci : incl (indices_of stop e) (binders e)).
  { intros x Hx. apply (Permutation_in _ (Permutation_sym Hperm)). apply in_or_app. auto. }
  assert (Hfb : forall f, In f (factors_of stop e) -> incl (binders f) (binders e)).
  { intros f Hf x Hx. apply (Permutation_in _ (Permutation_sym Hperm)). apply in_or_app.
    right. apply in_flat_map. exists f. auto. }
  assert (Hff : forall f, In f (factors_of stop e) ->
                          incl (free_indices f) (free_indices e ++ binders e)).
  { intros f Hf x Hx. apply in_or_app.
    destruct (factors_of_free stop e f x Hf Hx); [left | right; apply Hci]; assumption. }
  pose proof (categorise_from_terms _ _ Hcat) as Hterms.
  assert (Hall : Forall (within (binders e) (free_indices e ++ binders e)) sums).
  { apply mapM_Ok_Forall2 in Hsums.
    assert (Hcp : forall c, In c cp -> In c (factors_of stop e)).
    { intros c Hc. apply Hterms. apply in_or_app. right. apply in_or_app. right. exact Hc. }
    clear Hp H Hcat Hterms. induction Hsums as [|c s cs ss Hc _ IHs]; constructor.
    - rewrite traverse_sum_returns in Hc. cbn [bind] in Hc.
      destruct (length (summands_of stop c) <=? 1)%nat; [discriminate|].
      apply bind_Ok in Hc as (mss & Hm & Hc). injection Hc as <-.
      apply within_sum. apply mapM_Ok_Forall2 in Hm.
      assert (Hs : forall x, In x (summands_of stop c) ->
                     incl (binders x) (binders e)
                     /\ incl (free_indices x) (free_indices e ++ binders e)).
      { intros x Hx. split.
        - intros i Hi. apply (Hfb c (Hcp c (or_introl eq_refl))).
          apply (Permutation_in _ (Permutation_sym (binders_summands stop c))).
          apply in_flat_map. exists x. auto.
        - intros i Hi. apply (Hff c (Hcp c (or_introl eq_refl))).
          exact (summands_of_free stop c x i Hx Hi). }
      clear - Hm IH Hs. induction Hm as [|x y xs ys Hxy _ IHm]; constructor.
      + destruct (Hs x (or_introl eq_refl)) as [A B].
        apply (@within_mono (binders x) (free_indices x ++ binders x) (binders e)
                 (free_indices e ++ binders e) y A); [|apply (IH _ _ Hxy)].
        intros i Hi. apply in_app_or in Hi as [Hi | Hi]; [apply B; exact Hi|].
        apply in_or_app. right. apply A. exact Hi.
      + apply IHm. intros z Hz. apply Hs. right. exact Hz.
    - apply IHs. intros c' Hc'. apply Hcp. right. exact Hc'. }
  apply (@within_expand (binders e) (free_indices e ++ binders e) (indices_of stop e) ca co
           (MonomialSum.iter p) MonomialSum.empty ms Hci); [| |apply within_empty | exact H].
  - intros f Hf. apply Hff. apply Hterms. apply in_app_or in Hf as [Hf | Hf];
      apply in_or_app; [left | right; apply in_or_app; left]; exact Hf.
  - intros m Hm. apply (@within_iter _ _ p m); [|exact Hm].
    exact (within_product Hall Hp).
Qed.

(** *** The contractions that [traverse_product] opens in a hygienic
    expression *)

Lemma Hygienic_Product (a b : expr) :
  Hygienic (Product a b) ->
  Hygienic a /\ Hygienic b
  /\ (forall i, In i (binders a) -> ~ In i (free_indices b) /\ ~ In i (binders b))
  /\ (forall i, In i (binders b) -> ~ In i (free_indices a)).
Proof.
  intros [Hn Hf]. rewrite binders_Product in *.
  destruct (NoDup_app_inv _ _ Hn) as (Ha & Hb & Hd).
  assert (Hfa : forall i, In i (binders a ++ binders b) -> ~ In i (free_indices a)).
  { intros i Hi X. apply (Hf i Hi). apply free_Product. auto. }
  assert (Hfb : forall i, In i (binders a ++ binders b) -> ~ In i (free_indices b)).
  { intros i Hi X. apply (Hf i Hi). apply free_Product. auto. }
  split; [split; [exact Ha | intros i Hi; apply Hfa, in_or_app; auto]|].
  split; [split; [exact Hb | intros i Hi; apply Hfb, in_or_app; auto]|].
  split.
  - intros i Hi. split; [apply Hfb, in_or_app; auto | apply Hd; exact Hi].
  - intros i Hi. apply Hfa, in_or_app. auto.
Qed.

Lemma Hygienic_Division (a b : expr) :
  Hygienic (Division a b) ->
  Hygienic a /\ (forall i, In i (binders a) -> ~ In i (free_indices b)).
Proof.
  intros [Hn Hf]. rewrite binders_Division in *.
  destruct (NoDup_app_inv _ _ Hn) as (Ha & Hb & Hd). split.
  - split; [exact Ha|]. intros i Hi X. apply (Hf i); [apply in_or_app; auto|].
    apply free_Division. auto.
  - intros i Hi X. apply (Hf i); [apply in_or_app; auto|]. apply free_Division. auto.
Qed.

Lemma Hygienic_IndexSum (a : expr) (mi : list index) :
  Hygienic (IndexSum a mi) -> Hygienic a.
Proof.
  intros [Hn Hf]. rewrite binders_IndexSum in *.
  destruct (NoDup_app_inv _ _ Hn) as (_ & Ha & Hd). split; [exact Ha|].
  intros i Hi X. apply (Hf i); [apply in_or_app; auto|]. apply free_IndexSum.
  split; [exact X|]. intros Hm. apply (Hd i Hm Hi).
Qed.

Lemma indices_of_binders (stop_at : option (expr -> bool)) (e : expr) :
  incl (indices_of stop_at e) (binders e).
Proof.
  intros x Hx. apply (Permutation_in _ (Permutation_sym (binders_flattened stop_at e))).
  apply in_or_app. auto.
Qed.

Lemma Hygienic_bound_once (stop_at : option (expr -> bool)) (e : expr) :
  Hygienic e -> bound_once stop_at e = true.
Proof.
  induction e; intros H; cbn [bound_once]; destruct (stop_here stop_at _);
    try reflexivity.
  - (* Product *)
    destruct (Hygienic_Product H) as (Ha & Hb & Hab & Hba).
    rewrite (IHe1 Ha), (IHe2 Hb). cbn [andb]. apply andb_true_iff. split.
    + apply apart_spec. intros i Hi f [<- | []].
      destruct (index_in i (free_indices e2)) eqn:E; [|reflexivity].
      apply index_in_In in E. apply indices_of_binders in Hi.
      destruct (proj1 (Hab i Hi) E).
    + apply apart_spec. intros i Hi f Hf.
      destruct (index_in i (free_indices f)) eqn:E; [|reflexivity].
      apply index_in_In in E. apply indices_of_binders in Hi. exfalso.
      destruct (factors_of_free stop_at e1 f i Hf E) as [X | X].
      * apply (Hba i Hi X).
      * apply indices_of_binders in X. apply (proj2 (Hab i X) Hi).
  - (* Division *)
    destruct (expr_eqb e1 one); [reflexivity|].
    destruct (Hygienic_Division H) as (Ha & Hab).
    rewrite (IHe1 Ha). cbn [andb]. apply apart_spec. intros i Hi f [<- | []].
    destruct (index_in i (free_indices e2)) eqn:E; [|reflexivity].
    apply index_in_In in E. apply indices_of_binders in Hi. destruct (Hab i Hi E).
  - (* IndexSum *)
    apply IHe. exact (Hygienic_IndexSum H).
Qed.

Lemma Forall2_In_l (A B : Type) (P : A -> B -> Prop) (l : list A) (l' : list B) (x : A) :
  Forall2 P l l' -> In x l -> exists y, In y l' /\ P x y.
Proof.
  induction 1 as [|a b l l' Hab _ IH]; intros Hx; [destruct Hx|].
  destruct Hx as [<- | Hx].
  - exists b. split; [left; reflexivity | exact Hab].
  - destruct (IH Hx) as (y & Hy & Hp). exists y. split; [right; exact Hy | exact Hp].
Qed.

(** Monomials collected from factors that bind different indices are apart
    from each other. *)
Lemma tuple_apart (sums : list MonomialSum.t) (cs : list expr) :
  Forall2 (fun S c => within (binders c) (free_indices c ++ binders c) S) sums cs ->
  NoDup (flat_map binders cs) ->
  (forall c c' i, In c cs -> In c' cs -> In i (binders c) -> ~ In i (free_indices c')) ->
  forall ms, In ms (MonomialSum.cartesian (map MonomialSum.iter sums)) ->
             pairwise_apart ms = true.
Proof.
  induction 1 as [|S c sums cs HS Hrest IH]; intros Hn Hfree ms Hms.
  - destruct Hms as [<- | []]. reflexivity.
  - cbn [map MonomialSum.cartesian] in Hms.
    apply in_flat_map in Hms as (m & Hm & Hms). apply in_map_iff in Hms as (ms' & <- & Hms').
    cbn [pairwise_apart flat_map] in *.
    destruct (NoDup_app_inv _ _ Hn) as (_ & Hn' & Hd).
    apply andb_true_iff. split.
    + apply forallb_forall. intros m' Hm'.
      destruct (@cartesian_In _ _ ms' Hms' m' Hm') as (it & Hit & Hmit).
      apply in_map_iff in Hit as (S' & <- & HS').
      destruct (Forall2_In_l S' Hrest HS') as (c' & Hc' & HW').
      destruct (@within_iter _ _ S m HS Hm) as (A & B & C).
      destruct (@within_iter _ _ S' m' HW' Hmit) as (A' & B' & C').
      assert (Hcc : forall i, In i (binders c) -> ~ In i (binders c')).
      { intros i Hi X. apply (Hd i Hi). apply in_flat_map. exists c'. auto. }
      unfold monomial_apart. apply andb_true_iff. split; apply apart_spec; intros i Hi f Hf;
        (destruct (index_in i (free_indices f)) eqn:E; [exfalso|reflexivity]);
        apply index_in_In in E.
      * assert (X : In i (free_indices c' ++ binders c')).
        { apply in_app_or in Hf as [Hf | [<- | []]]; [apply (B' f Hf) | apply C']; exact E. }
        apply A in Hi. apply in_app_or in X as [X | X].
        -- apply (Hfree c c' i); [left; reflexivity | right; exact Hc' | exact Hi | exact X].
        -- apply (Hcc i Hi X).
      * assert (X : In i (free_indices c ++ binders c)).
        { apply in_app_or in Hf as [Hf | [<- | []]]; [apply (B f Hf) | apply C]; exact E. }
        apply A' in Hi. apply in_app_or in X as [X | X].
        -- apply (Hfree c' c i); [right; exact Hc' | left; reflexivity | exact Hi | exact X].
        -- apply (Hcc i X Hi).
    + apply IH; [exact Hn' | | exact Hms'].
      intros c1 c2 i H1 H2. apply Hfree; right; assumption.
Qed.

Lemma NoDup_flat_map_filter (A B : Type) (f : A -> list B) (p : A -> bool) (l : list A) :
  NoDup (flat_map f l) -> NoDup (flat_map f (filter p l)).
Proof.
  induction l as [|x l IH]; simpl; intros H; [constructor|].
  destruct (NoDup_app_inv _ _ H) as (H1 & H2 & H3).
  destruct (p x); [|apply IH; exact H2]. simpl.
  assert (G : forall l1 l2 : list B, NoDup l1 -> NoDup l2 ->
                (forall y, In y l1 -> ~ In y l2) -> NoDup (l1 ++ l2)).
  { induction l1 as [|a l1 IH1]; intros l2 N1 N2 D; simpl; [exact N2|].
    inversion N1; subst. constructor.
    - intros X. apply in_app_or in X as [X | X]; [contradiction|].
      apply (D a (or_introl eq_refl) X).
    - apply IH1; [assumption | exact N2 | intros y Hy; apply D; right; exact Hy]. }
  apply G; [exact H1 | apply IH; exact H2|].
  intros y Hy X. apply (H3 y Hy). apply in_flat_map in X as (z & Hz & Hyz).
  apply filter_In in Hz as [Hz _]. apply in_flat_map. exists z. auto.
Qed.

(** *** The value *)

Section CollectedValues.

Variable R : Type.
Variables rO rI : R.
Variables radd rmul rsub : R -> R -> R.
Variable ropp : R -> R.
Hypothesis Rth : ring_theory rO rI radd rmul rsub ropp eq.
Variable mu : interp R.
Hypothesis of_Q_one : literal_one_is_unit rI mu.
Hypothesis division_law : division_by_inverse rI rmul mu.
Variable classifier : expr -> string.

Add Ring Rcollected : Rth.

Local Notation "x [+] y" := (radd x y) (at level 50, left associativity).
Local Notation "x [*] y" := (rmul x y) (at level 40, left associativity).
Local Abbreviation value_ := (value rO rI radd rmul mu).
Local Abbreviation product_ := (product_value rO rI radd rmul mu).
Local Abbreviation isum_ := (isum rO radd).
Local Abbreviation rsum_ := (rsum rO radd).
Local Abbreviation rprod_ := (rprod rI rmul).
Local Abbreviation monomial_ := (monomial_value rO rI radd rmul mu).
Local Abbreviation monomial_of_ := (monomial_of rO rI radd rmul mu).
Local Abbreviation sum_value_ := (sum_value rO rI radd rmul mu).

Lemma categorise_value (terms : list expr) :
  forall ca0 co0 cp0 ca co cp,
    categorise classifier terms ca0 co0 cp0 = Ok (ca, co, cp) ->
    forall rho,
      product_ ca rho [*] product_ co rho [*] product_ cp rho
      = product_ ca0 rho [*] product_ co0 rho [*] product_ cp0 rho [*] product_ terms rho.
Proof.
  induction terms as [|t terms IH]; intros ca0 co0 cp0 ca co cp H rho; simpl in H.
  - injection H as <- <- <-. unfold product_value at 7. simpl. ring.
  - rewrite (product_value_cons rO rI radd rmul mu t terms rho).
    destruct (String.eqb (classifier t) ATOMIC).
    + rewrite (IH _ _ _ _ _ _ H rho), (product_value_app Rth).
      unfold product_value at 2. simpl. ring.
    + destruct (String.eqb (classifier t) COMPOUND).
      * rewrite (IH _ _ _ _ _ _ H rho), (product_value_app Rth).
        unfold product_value at 4. simpl. ring.
      * destruct (String.eqb (classifier t) OTHER); [|discriminate].
        rewrite (IH _ _ _ _ _ _ H rho), (product_value_app Rth).
        unfold product_value at 3. simpl. ring.
Qed.

(** One step of the expansion: the monomial added for [m] is the product of
    the common atomics, the common others and [m], summed over the common
    indices. *)
Lemma expand_step_value (ci : list index) (ca co : list expr) (m : Monomial) (rest : expr)
    (rho : ienv) :
  let all_indices := ci ++ m_sum_indices m in
  let atomics := ca ++ m_atomics m in
  let atomic_indices := flat_map free_indices atomics in
  sum_factorise (filter (fun i => negb (index_in i atomic_indices)) all_indices)
                (co ++ [m_rest m]) = Ok rest ->
  apart (m_sum_indices m) (ca ++ co) = true ->
  monomial_ (filter (fun i => index_in i atomic_indices) all_indices) atomics rest rho
  = isum_ rho ci (fun r => product_ ca r [*] product_ co r [*] monomial_of_ r m).
Proof.
  intros all_indices atomics atomic_indices Hrest Hap.
  set (si := filter (fun i => index_in i atomic_indices) all_indices).
  set (ri := filter (fun i => negb (index_in i atomic_indices)) all_indices) in *.
  set (G := fun r : ienv => product_ (co ++ [m_rest m]) r [*] product_ atomics r).
  assert (Gext : extensional G).
  { intros r1 r2 E. unfold G. f_equal; apply product_value_extensional; exact E. }
  unfold monomial_value at 1.
  transitivity (isum_ rho (si ++ ri) G).
  - rewrite isum_app. apply isum_ext. intros r.
    rewrite (sum_factorise_value Rth of_Q_one _ _ Hrest r).
    unfold G. rewrite (isum_factor Rth ri (product_ (co ++ [m_rest m])) (product_ atomics)).
    + ring.
    + intros i Hi rho' v. apply product_agree. intros k Hk. unfold upd.
      destruct (index_eqb k i) eqn:E; [|reflexivity].
      apply index_eqb_eq in E. subst k. unfold ri in Hi. apply filter_In in Hi as [_ Hi].
      apply index_in_In in Hk. fold atomic_indices in Hk. rewrite Hk in Hi. discriminate.
  - rewrite (@isum_perm _ _ _ _ _ _ _ Rth (si ++ ri) all_indices G Gext
               (filter_partition_perm _ all_indices) rho).
    unfold all_indices. rewrite isum_app. apply isum_ext. intros r.
    rewrite (@isum_ext _ rO radd _ G
               (fun r' => (product_ (m_atomics m) r' [*] value_ r' (m_rest m))
                          [*] (product_ ca r' [*] product_ co r'))).
    + rewrite (isum_factor Rth).
      * unfold monomial_of, monomial_value. ring.
      * intros i Hi rho' v. f_equal; apply product_agree; intros k Hk; unfold upd;
          (destruct (index_eqb k i) eqn:E; [|reflexivity]);
          apply index_eqb_eq in E; subst k; apply in_flat_map in Hk as (f & Hf & Hk);
          apply index_in_In in Hk;
          rewrite (proj1 (apart_spec _ _) Hap i Hi f) in Hk;
          try discriminate; apply in_or_app; auto.
    + intros r'. unfold G, atomics. rewrite !(product_value_app Rth).
      unfold product_value at 2. simpl. ring.
Qed.

Lemma expand_value (ci : list index) (ca co : list expr) (products : list Monomial) :
  forall result_ r,
    Invariant result_ ->
    (forall m, In m products -> apart (m_sum_indices m) (ca ++ co) = true) ->
    expand ci ca co products result_ = Ok r ->
    Invariant r
    /\ forall rho,
         sum_value_ r rho
         = sum_value_ result_ rho
           [+] rsum_ products
                 (fun m => isum_ rho ci
                             (fun r' => product_ ca r' [*] product_ co r' [*] monomial_of_ r' m)).
Proof.
  induction products as [|m products IH]; intros result_ r Hinv Hap H; simpl in H.
  - injection H as <-. split; [exact Hinv|]. intros rho. simpl. ring.
  - apply bind_Ok in H as (rest & Hrest & H). apply bind_Ok in H as (result' & Hadd & H).
    destruct (@add_value _ _ _ _ _ _ _ Rth mu _ _ _ _ _ Hinv Hadd) as [Hinv' V'].
    destruct (IH result' r Hinv' (fun m' Hm' => Hap m' (or_intror Hm')) H) as [Hr V].
    split; [exact Hr|]. intros rho. rewrite V, V'. simpl.
    rewrite (@expand_step_value ci ca co m rest rho Hrest (Hap m (or_introl eq_refl))). ring.
Qed.

Lemma compounds_value (cp : list expr) (sums : list MonomialSum.t) (rho : ienv) :
  Forall2 (fun c S => forall rho, sum_value_ S rho = value_ rho c) cp sums ->
  rprod_ (map (fun S => sum_value_ S rho) sums) = product_ cp rho.
Proof.
  induction 1 as [|c S cp sums HcS _ IH]; [reflexivity|].
  simpl. rewrite IH, HcS. reflexivity.
Qed.

(** The summands of a compound factor. *)
Lemma summands_collected (fuel : nat) (c : expr) :
  (forall e ms, Hygienic e -> _collect_monomials fuel classifier e = Ok ms ->
                Invariant ms /\ forall rho, sum_value_ ms rho = value_ rho e) ->
  Hygienic c ->
  forall l mss,
    incl l (summands_of (stop_at_of classifier) c) ->
    Forall2 (fun s ms => _collect_monomials fuel classifier s = Ok ms) l mss ->
    Forall Invariant mss
    /\ (forall rho, rsum_ mss (fun ms => sum_value_ ms rho) = rsum_ l (value_ rho))
    /\ Forall (within (binders c) (free_indices c ++ binders c)) mss.
Proof.
  intros IH Hc l mss Hl H2. induction H2 as [|s ms l mss Hs _ IHl].
  - split; [constructor|]. split; [reflexivity | constructor].
  - destruct (IHl (fun x Hx => Hl x (or_intror Hx))) as (A & B & C).
    assert (Hin : In s (summands_of (stop_at_of classifier) c))
      by (apply Hl; left; reflexivity).
    destruct (IH s ms (@Hygienic_summand (stop_at_of classifier) c s Hc Hin) Hs) as [Inv V].
    split; [constructor; assumption|]. split.
    + intros rho. simpl. rewrite V, B. reflexivity.
    + constructor; [|exact C].
      apply (@within_mono (binders s) (free_indices s ++ binders s) (binders c)
               (free_indices c ++ binders c) ms);
        [| |exact (@within_collect classifier fuel s ms Hs)].
      * intros i Hi.
        apply (Permutation_in _ (Permutation_sym (binders_summands (stop_at_of classifier) c))).
        apply in_flat_map. exists s. auto.
      * intros i Hi. apply in_or_app. apply in_app_or in Hi as [Hi | Hi].
        -- left. exact (@summands_of_free (stop_at_of classifier) c s i Hin Hi).
        -- right.
           apply (Permutation_in _ (Permutation_sym
                                      (binders_summands (stop_at_of classifier) c))).
           apply in_flat_map. exists s. auto.
Qed.

Lemma collect_value (fuel : nat) :
  forall e ms,
    Hygienic e -> _collect_monomials fuel classifier e = Ok ms ->
    Invariant ms /\ forall rho, sum_value_ ms rho = value_ rho e.
Proof.
  induction fuel as [|fuel IH]; intros e ms Hy H; [discriminate|].
  rewrite _collect_monomials_S, traverse_product_returns in H. cbn [bind] in H.
  apply bind_Ok in H as ([[ca co] cp] & Hcat & H).
  apply bind_Ok in H as (sums & Hsums & H).
  apply bind_Ok in H as (p & Hp & H).
  set (stop := stop_at_of classifier) in *.
  destruct (@Hygienic_factors stop e Hy) as (Hnd & Hfree & _).
  pose proof (@categorise_from_terms classifier _ ca co cp Hcat) as Hterms.
  assert (Hcp : forall c, In c cp -> In c (factors_of stop e)).
  { intros c Hc. apply Hterms. apply in_or_app. right. apply in_or_app. right. exact Hc. }
  assert (Hcaco : forall f, In f (ca ++ co) -> In f (factors_of stop e)).
  { intros f Hf. apply Hterms. apply in_app_or in Hf as [Hf | Hf];
      apply in_or_app; [left | right; apply in_or_app; left]; exact Hf. }
  assert (Hndc : NoDup (flat_map binders cp)).
  { pose proof Hcat as Hcat'. rewrite categorise_filters in Hcat'.
    destruct (forallb (legal_label classifier) (factors_of stop e)); [|discriminate].
    injection Hcat' as _ _ <-. cbn [app]. apply NoDup_flat_map_filter.
    apply NoDup_app_inv in Hnd as (_ & Hnd & _). exact Hnd. }
  apply mapM_Ok_Forall2 in Hsums.
  assert (Hper : Forall2 (fun c S => Invariant S
                                   /\ (forall rho, sum_value_ S rho = value_ rho c)
                                   /\ within (binders c) (free_indices c ++ binders c) S)
                         cp sums).
  { clear Hp H Hcat Hterms Hcaco Hndc.
    induction Hsums as [|c S cs ss Hc _ IHs]; constructor.
    - rewrite traverse_sum_returns in Hc. cbn [bind] in Hc.
      destruct (length (summands_of stop c) <=? 1)%nat; [discriminate|].
      apply bind_Ok in Hc as (mss & Hm & Hc). injection Hc as <-.
      apply mapM_Ok_Forall2 in Hm.
      assert (Hyc : Hygienic c)
        by exact (@Hygienic_factor stop e c Hy (Hcp c (or_introl eq_refl))).
      destruct (@summands_collected fuel c IH Hyc _ mss (incl_refl _) Hm) as (A & B & C).
      destruct (@sum_list_value _ _ _ _ _ _ _ Rth mu mss A) as [Inv V]. split; [exact Inv|]. split.
      + intros rho. rewrite V, B. symmetry.
        apply (BuiltFrom_Sum_value Rth mu (summands_of_BuiltFrom stop c)).
      + apply within_sum. exact C.
    - apply IHs. intros c' Hc'. apply Hcp. right. exact Hc'. }
  assert (Hpa : forallb pairwise_apart (MonomialSum.cartesian (map MonomialSum.iter sums))
                = true).
  { apply forallb_forall. apply (@tuple_apart sums cp); [|exact Hndc|].
    - clear - Hper. induction Hper as [|c S cs ss HcS _ IHp]; constructor;
        [exact (proj2 (proj2 HcS)) | exact IHp].
    - intros c c' i Hc Hc' Hi. exact (Hfree c' c i (Hcp c' Hc') (Hcp c Hc) Hi). }
  destruct (@product_list_value _ _ _ _ _ _ _ Rth mu of_Q_one sums p Hpa Hp) as [Hinvp Vp].
  assert (Vp' : forall rho, sum_value_ p rho = product_ cp rho).
  { intros rho. rewrite Vp. apply compounds_value.
    clear - Hper. induction Hper as [|c S cs ss HcS _ IHp]; constructor;
      [exact (proj1 (proj2 HcS)) | exact IHp]. }
  assert (H1 : forall m, In m (MonomialSum.iter p) ->
                         apart (m_sum_indices m) (ca ++ co) = true).
  { intros m Hm. apply apart_spec. intros i Hi f Hf.
    destruct (index_in i (free_indices f)) eqn:E; [exfalso|reflexivity].
    apply index_in_In in E.
    assert (Hw : within (flat_map binders cp)
                        (flat_map (fun c => free_indices c ++ binders c) cp) p).
    { apply (@within_product _ _ sums p); [|exact Hp].
      clear - Hper. induction Hper as [|c S cs ss HcS _ IHp]; constructor.
      - apply (@within_mono (binders c) (free_indices c ++ binders c) _ _ S);
          [| |exact (proj2 (proj2 HcS))]; intros x Hx; simpl; apply in_or_app; auto.
      - refine (Forall_impl _ _ IHp). intros S' HS'.
        apply (@within_mono (flat_map binders cs)
                 (flat_map (fun c => free_indices c ++ binders c) cs) _ _ S');
          [| |exact HS']; intros x Hx; simpl; apply in_or_app; auto. }
    destruct (@within_iter _ _ p m Hw Hm) as (A & _ & _).
    apply A in Hi. apply in_flat_map in Hi as (c & Hc & Hi).
    exact (Hfree f c i (Hcaco f Hf) (Hcp c Hc) Hi E). }
  destruct (@expand_value (indices_of stop e) ca co (MonomialSum.iter p) MonomialSum.empty ms
              Invariant_empty H1 H) as [Hinv V].
  split; [exact Hinv|]. intros rho. rewrite V.
  rewrite <- (@traverse_product_value _ _ _ _ _ _ _ Rth mu of_Q_one division_law stop e
                (@Hygienic_bound_once stop e Hy) rho).
  rewrite <- (isum_rsum Rth (MonomialSum.iter p) (indices_of stop e)
                (fun m r' => product_ ca r' [*] product_ co r' [*] monomial_of_ r' m) rho).
  unfold sum_value at 1. simpl.
  transitivity (isum_ rho (indices_of stop e)
                  (fun r => rsum_ (MonomialSum.iter p)
                              (fun x => product_ ca r [*] product_ co r [*] monomial_of_ r x)));
    [ring|].
  apply isum_ext. intros r. rewrite (rsum_scale Rth).
  rewrite <- (sum_value_iter rO rI radd rmul mu p r), Vp'.
  rewrite (@categorise_value _ [] [] [] ca co cp Hcat r). unfold product_value at 1 2 3. simpl. ring.
Qed.

(** X27.  The monomials that [_collect_monomials] returns for an expression
    add up to the expression: on an expression in which every contraction
    and component tensor binds indices of its own, none of which is free in
    the expression, the [MonomialSum] satisfies the class invariant and its
    value is the value of the expression under every assignment, when
    dividing is multiplying by the inverse. *)
Theorem collect_monomials_keeps_value (fuel : nat) (e : expr) (ms : MonomialSum.t) :
  hygienic e = true ->
  _collect_monomials fuel classifier e = Ok ms ->
  Invariant ms /\ forall rho, sum_value_ ms rho = value_ rho e.
Proof.
  intros Hy H. apply (@collect_value fuel e ms); [|exact H]. apply hygienic_spec. exact Hy.
Qed.

(** X28.  Refactorisation keeps the value: the expression that
    [to_expression] returns for the monomials collected from a hygienic
    expression has the value of that expression, under every assignment
    within the extents, when the monomials are fit for delta elimination. *)
Theorem refactorisation_keeps_value (fuel : nat) (e e' : expr) (ms : MonomialSum.t)
    (rho : ienv) :
  hygienic e = true ->
  _collect_monomials fuel classifier e = Ok ms ->
  monomials_ok ms = true ->
  MonomialSum.to_expression ms = Ok e' ->
  env_ok rho ->
  value_ rho e' = value_ rho e.
Proof.
  intros Hy Hc Hok Ht Hrho.
  rewrite (to_expression_value Rth of_Q_one ms Ht Hok Hrho).
  apply (@collect_value fuel e ms); [|exact Hc]. apply hygienic_spec. exact Hy.
Qed.

End CollectedValues.

(** *** An instance in the integers *)

Definition A_ij : expr := Indexed (Variable_ "A" [2; 2]) [sum_i; free_j].
Definition B_ij : expr := Indexed (Variable_ "B" [2; 2]) [sum_i; free_j].
Definition c_i : expr := Indexed (Variable_ "c" [2]) [sum_i].

(** [A[i, j] * (B[i, j] + c[i])] summed over [i], with argument index [j]. *)
Definition bilinear : expr := IndexSum (Product A_ij (Sum B_ij c_i)) [sum_i].

Definition bilinear_collected : MonomialSum.t :=
  Eval vm_compute in
    returned MonomialSum.empty (_collect_monomials (size bilinear) (classify [free_j]) bilinear).

Lemma collect_monomials_keeps_value_witness :
  Invariant bilinear_collected
  /\ forall rho, sum_value 0 1 Z.add Z.mul unit_interp bilinear_collected rho
                 = value 0 1 Z.add Z.mul unit_interp rho bilinear.
Proof.
  apply (@collect_monomials_keeps_value Z 0 1 Z.add Z.mul Z.sub Z.opp Zth unit_interp
           eq_refl unit_interp_division (classify [free_j]) (size bilinear) bilinear
           bilinear_collected).
  - reflexivity.
  - vm_compute. reflexivity.
Defined.

Definition bilinear_refactorised : expr :=
  Eval vm_compute in expression_of bilinear_collected.

Lemma refactorisation_keeps_value_witness :
  value 0 1 Z.add Z.mul unit_interp j_is_1 bilinear_refactorised
  = value 0 1 Z.add Z.mul unit_interp j_is_1 bilinear.
Proof.
  apply (@refactorisation_keeps_value Z 0 1 Z.add Z.mul Z.sub Z.opp Zth unit_interp
           eq_refl unit_interp_division (classify [free_j]) (size bilinear) bilinear
           bilinear_refactorised bilinear_collected j_is_1).
  - reflexivity.
  - vm_compute. reflexivity.
  - vm_compute. reflexivity.
  - vm_compute. reflexivity.
  - exact env_ok_j_is_1.
Defined.

(** ** The value kept by the removal of component tensors *)

(** *** Substitution rules as a dictionary *)

(** The last rule for a key. *)
Fixpoint last_rule (l : subst_t) (k : index) : option index :=
  match l with
  | [] => None
  | (k0, v0) :: t =>
      match last_rule t k with
      | Some v => Some v
      | None => if index_eqb k0 k then Some v0 else None
      end
  end.

Lemma dict_get_set (d : subst_t) (k0 v0 k : index) :
  dict_get (dict_set d k0 v0) k = if index_eqb k0 k then v0 else dict_get d k.
Proof.
  induction d as [|[k1 v1] d IH]; simpl.
  - reflexivity.
  - destruct (index_eqb k1 k0) eqn:E10; simpl.
    + apply index_eqb_eq in E10. subst k1. destruct (index_eqb k0 k); reflexivity.
    + rewrite IH. destruct (index_eqb k1 k) eqn:E1; [|reflexivity].
      apply index_eqb_eq in E1. subst k1. rewrite index_eqb_sym, E10. reflexivity.
Qed.

Lemma dict_get_update (l : subst_t) :
  forall d k, dict_get (dict_update d l) k
              = match last_rule l k with
                | Some v => v
                | None => dict_get d k
                end.
Proof.
  unfold dict_update. induction l as [|[k0 v0] l IH]; intros d k; simpl; [reflexivity|].
  rewrite IH. destruct (last_rule l k); [reflexivity|].
  rewrite dict_get_set. destruct (index_eqb k0 k); reflexivity.
Qed.

Lemma dict_get_of (l : subst_t) (k : index) :
  dict_get (dict_of l) k = match last_rule l k with Some v => v | None => k end.
Proof. unfold dict_of. rewrite dict_get_update. reflexivity. Qed.

Lemma last_rule_filter (L : list index) (l : subst_t) (k : index) :
  index_in k L = true ->
  last_rule (filter (fun kv => index_in (fst kv) L) l) k = last_rule l k.
Proof.
  intros Hk. induction l as [|[k0 v0] l IH]; [reflexivity|]. cbn [filter fst].
  destruct (index_in k0 L) eqn:E0; cbn [last_rule]; rewrite IH; [reflexivity|].
  destruct (last_rule l k); [reflexivity|].
  destruct (index_eqb k0 k) eqn:E; [|reflexivity].
  apply index_eqb_eq in E. subst k0. congruence.
Qed.

Lemma last_rule_In (l : subst_t) (k v : index) :
  last_rule l k = Some v -> In (k, v) l.
Proof.
  induction l as [|[k0 v0] l IH]; simpl; [discriminate|].
  destruct (last_rule l k) as [v'|].
  - intros H. injection H as ->. right. apply IH. reflexivity.
  - destruct (index_eqb k0 k) eqn:E; [|discriminate].
    intros H. injection H as ->. apply index_eqb_eq in E. subst. left. reflexivity.
Qed.

(** What a lookup returns: the index itself, or the value of a rule for
    it. *)
Lemma dict_get_of_cases (l : subst_t) (k : index) :
  dict_get (dict_of l) k = k \/ In (k, dict_get (dict_of l) k) l.
Proof.
  rewrite dict_get_of. destruct (last_rule l k) as [v|] eqn:E; [|left; reflexivity].
  right. apply last_rule_In. exact E.
Qed.

Lemma dict_set_keys (d : subst_t) (k v : index) :
  map fst (dict_set d k v) = if index_in k (map fst d) then map fst d else map fst d ++ [k].
Proof.
  induction d as [|[k1 v1] d IH]; simpl; [reflexivity|].
  destruct (index_eqb k1 k) eqn:E; simpl.
  - rewrite index_eqb_sym, E. reflexivity.
  - rewrite IH, index_eqb_sym, E. simpl. destruct (index_in k (map fst d)); reflexivity.
Qed.

Lemma dict_set_NoDup (d : subst_t) (k v : index) :
  NoDup (map fst d) -> NoDup (map fst (dict_set d k v)).
Proof.
  intros H. rewrite dict_set_keys. destruct (index_in k (map fst d)) eqn:E; [exact H|].
  apply NoDup_app; [exact H | constructor; [intros [] | constructor]|].
  intros x Hx [<- | []]. apply index_in_In in Hx. congruence.
Qed.

Lemma dict_update_NoDup (l : subst_t) :
  forall d, NoDup (map fst d) -> NoDup (map fst (dict_update d l)).
Proof.
  unfold dict_update. induction l as [|[k v] l IH]; intros d H; simpl; [exact H|].
  apply IH. apply dict_set_NoDup. exact H.
Qed.

Lemma dict_set_fresh (d : subst_t) (k v : index) :
  index_in k (map fst d) = false -> dict_set d k v = d ++ [(k, v)].
Proof.
  induction d as [|[k1 v1] d IH]; simpl; intros H; [reflexivity|].
  apply orb_false_iff in H as [H1 H2]. rewrite index_eqb_sym, H1. rewrite IH by exact H2.
  reflexivity.
Qed.

(** A list of rules with distinct keys is its own dictionary. *)
Lemma dict_update_distinct (l : subst_t) :
  forall d, NoDup (map fst (d ++ l)) -> dict_update d l = d ++ l.
Proof.
  unfold dict_update. induction l as [|[k v] l IH]; intros d H; simpl.
  - rewrite app_nil_r. reflexivity.
  - assert (Hk : index_in k (map fst d) = false).
    { destruct (index_in k (map fst d)) eqn:E; [|reflexivity]. exfalso.
      apply index_in_In in E. rewrite map_app in H. apply NoDup_app_inv in H as (_ & _ & H).
      apply (H k E). left. reflexivity. }
    rewrite dict_set_fresh by exact Hk. rewrite IH.
    + rewrite <- app_assoc. reflexivity.
    + rewrite <- app_assoc. exact H.
Qed.

Lemma dict_get_In (d : subst_t) (k v : index) :
  NoDup (map fst d) -> In (k, v) d -> dict_get d k = v.
Proof.
  induction d as [|[k1 v1] d IH]; simpl; intros Hn Hin; [destruct Hin|].
  inversion Hn as [|? ? Hk Hn']; subst. destruct Hin as [E | Hin].
  - injection E as -> ->. rewrite index_eqb_refl. reflexivity.
  - destruct (index_eqb k1 k) eqn:E; [|apply IH; assumption].
    apply index_eqb_eq in E. subst k1. exfalso. apply Hk.
    apply in_map_iff. exists (k, v). auto.
Qed.

Lemma dict_get_missing (d : subst_t) (k : index) :
  ~ In k (map fst d) -> dict_get d k = k.
Proof.
  induction d as [|[k1 v1] d IH]; simpl; intros H; [reflexivity|].
  destruct (index_eqb k1 k) eqn:E.
  - apply index_eqb_eq in E. subst. exfalso. apply H. left. reflexivity.
  - apply IH. intros X. apply H. right. exact X.
Qed.

Lemma dict_get_perm (d d' : subst_t) (k : index) :
  NoDup (map fst d) -> Permutation d d' -> dict_get d k = dict_get d' k.
Proof.
  intros Hn Hp.
  assert (Hn' : NoDup (map fst d')) by (apply (Permutation_NoDup (Permutation_map fst Hp) Hn)).
  destruct (in_dec (fun a b => match index_eqb a b as c
                                     return index_eqb a b = c -> {a = b} + {a <> b} with
                               | true => fun E => left (proj1 (index_eqb_eq a b) E)
                               | false => fun E => right (proj1 (index_eqb_neq a b) E)
                               end eq_refl) k (map fst d)) as [Hin | Hnin].
  - apply in_map_iff in Hin as ([k' v] & E & Hin). simpl in E. subst k'.
    rewrite (@dict_get_In d k v Hn Hin). symmetry. apply dict_get_In; [exact Hn'|].
    apply (Permutation_in _ Hp Hin).
  - rewrite (@dict_get_missing d k Hnin). symmetry. apply dict_get_missing.
    intros X. apply Hnin. apply (Permutation_in _ (Permutation_sym (Permutation_map fst Hp)) X).
Qed.

Lemma insert_item_perm (kv : index * index) (l : subst_t) :
  Permutation (insert_item kv l) (kv :: l).
Proof.
  induction l as [|kv' l IH]; simpl; [reflexivity|].
  destruct (index_id (fst kv) <? index_id (fst kv'))%nat; [reflexivity|].
  rewrite IH. apply perm_swap.
Qed.

Lemma sorted_items_perm (d : subst_t) : Permutation (sorted_items d) d.
Proof.
  unfold sorted_items.
  assert (G : forall acc, Permutation (fold_left (fun acc kv => insert_item kv acc) d acc)
                                      (acc ++ d)).
  { induction d as [|kv d IH]; intros acc; simpl; [rewrite app_nil_r; reflexivity|].
    rewrite IH, insert_item_perm. apply Permutation_middle. }
  apply (G []).
Qed.

(** Sorting the items of a dictionary and reading them as a dictionary again
    changes no lookup. *)
Lemma dict_get_sorted (d : subst_t) (k : index) :
  NoDup (map fst d) -> dict_get (dict_of (sorted_items d)) k = dict_get d k.
Proof.
  intros Hn. pose proof (sorted_items_perm d) as Hp.
  assert (Hn' : NoDup (map fst (sorted_items d))).
  { apply (Permutation_NoDup (Permutation_map fst (Permutation_sym Hp)) Hn). }
  unfold dict_of. rewrite (dict_update_distinct (sorted_items d) []) by exact Hn'.
  simpl. symmetry. apply dict_get_perm; [exact Hn | apply Permutation_sym; exact Hp].
Qed.

Lemma dict_of_NoDup (l : subst_t) : NoDup (map fst (dict_of l)).
Proof. apply dict_update_NoDup. constructor. Qed.

Lemma dict_set_In (d : subst_t) (k0 v0 k v : index) :
  In (k, v) (dict_set d k0 v0) -> In (k, v) d \/ (k, v) = (k0, v0).
Proof.
  induction d as [|[k1 v1] d IH]; simpl.
  - intros [E | []]. right. symmetry. exact E.
  - destruct (index_eqb k1 k0) eqn:E.
    + apply index_eqb_eq in E. subst k1. intros [X | X]; [right; symmetry; exact X | auto].
    + intros [X | X]; [auto|]. destruct (IH X); auto.
Qed.

Lemma dict_update_In (l : subst_t) :
  forall d k v, In (k, v) (dict_update d l) -> In (k, v) d \/ In (k, v) l.
Proof.
  unfold dict_update. induction l as [|[k0 v0] l IH]; intros d k v H; simpl in *; [auto|].
  destruct (IH _ _ _ H) as [X | X]; [|auto].
  destruct (@dict_set_In d k0 v0 k v X) as [Y | Y]; [auto|]. right. left. symmetry. exact Y.
Qed.

(** *** Well-formed accesses *)

(** What the constructors of [gem.gem] check: a contraction and a component
    tensor bind index objects, and an access into a component tensor gives
    one index for each index that the tensor binds. *)
Definition tensor_fits (e : expr) : bool :=
  forallb is_Index (bound_at e) &&
  match e with
  | Indexed (ComponentTensor _ cmi) mi => Nat.eqb (length mi) (length cmi)
  | _ => true
  end.

Lemma binders_are_Index (e : expr) (m : index) :
  all_nodes tensor_fits e = true -> In m (binders e) -> is_Index m = true.
Proof.
  unfold all_nodes, binders. intros H Hm. apply in_flat_map in Hm as (n & Hn & Hm).
  rewrite forallb_forall in H. specialize (H n Hn). unfold tensor_fits in H.
  apply andb_true_iff in H as [H _]. rewrite forallb_forall in H. apply H. exact Hm.
Qed.

(** A free index of a child is free in the node, or bound by the node. *)
Lemma free_child (e c : expr) (x : index) :
  In c (children e) -> In x (free_indices c) ->
  In x (free_indices e) \/ In x (bound_at e).
Proof.
  intros Hc Hx.
  assert (F : forall mi a, In x (free_indices a) ->
                In x (filter (fun i => negb (index_in i mi)) (free_indices a)) \/ In x mi).
  { intros mi a Ha. destruct (index_in x mi) eqn:E.
    - right. apply index_in_In. exact E.
    - left. apply filter_In. rewrite E. auto. }
  destruct e; cbn [children] in Hc; cbn [free_indices bound_at];
    try (destruct Hc as [<- | Hc]); try (destruct Hc as [<- | Hc]);
    try (destruct Hc as [<- | Hc]); try (destruct Hc as []);
    try (left; apply In_unique_iff; rewrite ?in_app_iff; tauto);
    try (left; exact Hx); try (apply F; exact Hx).
  left. apply In_unique_iff. apply in_flat_map. exists c. auto.
Qed.

Lemma Hygienic_child (e c : expr) : Hygienic e -> In c (children e) -> Hygienic c.
Proof.
  intros [Hn Hf] Hc. rewrite binders_unfold in Hn.
  destruct (NoDup_app_inv _ _ Hn) as (_ & Hn' & Hd). split.
  - exact (NoDup_flat_map_elem _ _ _ Hn' Hc).
  - intros i Hi Hx.
    assert (Hie : In i (flat_map binders (children e))).
    { apply in_flat_map. exists c. auto. }
    destruct (@free_child e c i Hc Hx) as [X | X].
    + apply (Hf i); [|exact X]. eapply binders_child; eassumption.
    + exact (Hd i X Hie).
Qed.

Lemma upd_list_other (l : list (index * Z)) :
  forall rho k, ~ In k (map fst l) -> upd_list rho l k = rho k.
Proof.
  induction l as [|[m v] l IH]; simpl; intros rho k H; [reflexivity|].
  rewrite IH by tauto. unfold upd. destruct (index_eqb k m) eqn:E; [|reflexivity].
  apply index_eqb_eq in E. subst. tauto.
Qed.

Section TensorValues.

Variable R : Type.
Variables rO rI : R.
Variables radd rmul rsub : R -> R -> R.
Variable ropp : R -> R.
Hypothesis Rth : ring_theory rO rI radd rmul rsub ropp eq.
Variable mu : interp R.
Hypothesis of_Q_one : literal_one_is_unit rI mu.

Local Abbreviation eval_ := (eval rO rI radd rmul mu).
Local Abbreviation ival_ := (ival mu).

(** The assignment that a dictionary of rules stands for: an index object
    takes the value of what the dictionary gives for it. *)
Definition senv (d : subst_t) (rho : ienv) : ienv :=
  fun k => if is_Index k then ival_ rho (dict_get d k) else rho k.

Lemma senv_nil (rho : ienv) (k : index) : senv [] rho k = rho k.
Proof. destruct k; reflexivity. Qed.

Lemma ival_senv (d : subst_t) (rho : ienv) (x : index) :
  (is_Index x = false -> dict_get d x = x) ->
  ival_ (senv d rho) x = ival_ rho (dict_get d x).
Proof.
  intros H. destruct x; cbn [ival]; try (rewrite H by reflexivity; reflexivity).
  reflexivity.
Qed.

Lemma senv_commutes (d : subst_t) (m : index) :
  dict_get d m = m -> (forall k, k <> m -> dict_get d k <> m) -> commutes (senv d) m.
Proof.
  intros Hm Hk rho v k. unfold senv, upd.
  destruct (is_Index k) eqn:Ik; [|reflexivity]. destruct (index_eqb k m) eqn:E.
  - apply index_eqb_eq in E. subst k. rewrite Hm. destruct m; try discriminate.
    cbn [ival]. rewrite index_eqb_refl. reflexivity.
  - change (ival_ (upd rho m v) (dict_get d k) = ival_ rho (dict_get d k)).
    apply ival_upd_other. apply index_eqb_neq. apply Hk. apply index_eqb_neq. exact E.
Qed.

(** Binding the indices of a component tensor to the values of the indices
    of the access, against adding the rules to the dictionary. *)
Lemma upd_list_update (rho : ienv) (f : index -> index) (h : index -> Z) (k : index) :
  (forall x, ival_ rho (f x) = h x) ->
  forall cmi mi rho0 d0,
    rho0 k = ival_ rho (dict_get d0 k) ->
    upd_list rho0 (combine cmi (map h mi)) k
    = ival_ rho (dict_get (dict_update d0 (combine cmi (map f mi))) k).
Proof.
  intros Hfh. unfold dict_update.
  induction cmi as [|c cmi IH]; intros mi rho0 d0 H0; [exact H0|].
  destruct mi as [|x mi]; [exact H0|]. cbn [map combine upd_list fold_left fst snd].
  apply IH. rewrite dict_get_set. unfold upd. rewrite (index_eqb_sym k c).
  destruct (index_eqb c k); [symmetry; apply Hfh | exact H0].
Qed.

Lemma offsets_senv (d : subst_t) (rho : ienv) (dims : dim2idxs_t) :
  (forall x, is_Index x = false -> dict_get d x = x) ->
  map (fun oi => fold_left (fun acc ix => acc + ival_ rho (fst ix) * snd ix)
                           (snd oi) (fst oi))
      (replace_dim2idxs d dims)
  = map (fun oi => fold_left (fun acc ix => acc + ival_ (senv d rho) (fst ix) * snd ix)
                             (snd oi) (fst oi)) dims.
Proof.
  intros Hk. unfold replace_dim2idxs. rewrite map_map. apply map_ext.
  intros [o idxs]. simpl. revert o.
  induction idxs as [|[a s0] idxs IH]; intros o; [reflexivity|].
  cbn [map fold_left fst snd]. rewrite ival_senv by (apply Hk). apply IH.
Qed.

(** The rewrite under a dictionary of rules has the value of its argument
    under the assignment that the dictionary stands for, as long as the
    argument binds nothing that a rule gives. *)
Lemma filtered_replace_indices_value (e : expr) :
  forall subst e',
    Hygienic e -> all_nodes tensor_fits e = true ->
    (forall k v, In (k, v) subst -> is_Index k = true /\ ~ In v (binders e)) ->
    filtered_replace_indices e subst = Ok e' ->
    forall rho pos, eval_ e' rho pos = eval_ e (senv (dict_of subst) rho) pos.
Proof.
  induction e as [e IHc IHb] using expr_rewrite_ind. intros subst e' Hh Hfit Hs H rho pos.
  rewrite filtered_replace_indices_filter in H.
  remember (filter (fun kv => index_in (fst kv) (free_indices e)) subst) as fs eqn:Efs.
  assert (Hfs : forall k v, In (k, v) fs ->
                  is_Index k = true /\ ~ In v (binders e) /\ In k (free_indices e)).
  { intros k v Hkv. rewrite Efs in Hkv. apply filter_In in Hkv as [Hkv Hk].
    destruct (Hs k v Hkv) as [A B]. repeat split; try assumption.
    apply index_in_In. exact Hk. }
  assert (Efilter : eval_ e (senv (dict_of fs) rho) pos
                    = eval_ e (senv (dict_of subst) rho) pos).
  { apply eval_agree. intros k Hk. unfold senv. destruct (is_Index k); [|reflexivity].
    f_equal. rewrite !dict_get_of, Efs.
    rewrite last_rule_filter by (apply index_in_In; exact Hk). reflexivity. }
  rewrite <- Efilter. clear Efilter.
  assert (Hidem : filter (fun kv => index_in (fst kv) (free_indices e)) fs = fs).
  { rewrite Efs. apply filter_idem. }
  clear Efs Hs subst.
  assert (Hkeys : forall x, is_Index x = false -> dict_get (dict_of fs) x = x).
  { intros x Hx. rewrite dict_get_of. destruct (last_rule fs x) as [v|] eqn:E; [|reflexivity].
    apply last_rule_In in E. destruct (Hfs x v E) as (A & _). congruence. }
  assert (Hc : forall c c', In c (children e) -> filtered_replace_indices c fs = Ok c' ->
                 forall rho pos, eval_ c' rho pos = eval_ c (senv (dict_of fs) rho) pos).
  { intros c c' Hin Hcc. apply (IHc c Hin fs c'); [| | |exact Hcc].
    - exact (@Hygienic_child e c Hh Hin).
    - exact (@all_nodes_child tensor_fits e c Hfit Hin).
    - intros k v Hkv. destruct (Hfs k v Hkv) as (A & B & _). split; [exact A|].
      intros X. apply B. exact (@binders_child e c v Hin X). }
  assert (Generic : kind e <> 18%nat -> kind e <> 19%nat -> kind e <> 20%nat ->
                    eval_ e' rho pos = eval_ e (senv (dict_of fs) rho) pos).
  { intros K1 K2 K3. rewrite filtered_replace_indices_generic in H by assumption.
    rewrite Hidem in H.
    apply (@reuse_if_untouched_eval R rO rI radd rmul mu (senv (dict_of fs))
             (fun c => filtered_replace_indices c fs) e e' K1 K2 K3 Hc); [|exact H].
    intros m Hm. apply senv_commutes.
    - rewrite dict_get_of. destruct (last_rule fs m) as [v|] eqn:E; [|reflexivity].
      apply last_rule_In in E. destruct (Hfs m v E) as (_ & _ & F).
      destruct (@free_not_bound e m F Hm).
    - intros k Hk X. destruct (dict_get_of_cases fs k) as [Y | Y]; [congruence|].
      rewrite X in Y. destruct (Hfs k m Y) as (_ & B & _). apply B.
      apply bound_at_binders. exact Hm. }
  destruct e as [ | | | | | | | | | | | | | | | | | | e multiindex | e dim2idxs | a b];
    try (apply Generic; discriminate); clear Generic.
  - (* Indexed *)
    destruct (not_ComponentTensor e) eqn:Ect.
    + rewrite filtered_replace_indices_Indexed in H by exact Ect.
      cbn zeta in H. rewrite Hidem in H.
      apply bind_Ok in H as (nc & Hnc & H).
      assert (E : e' = Indexed nc (map (fun a => dict_get (dict_of fs) a) multiindex)).
      { destruct (expr_eqb nc e && _) eqn:E; injection H as <-; [|reflexivity].
        apply andb_true_iff in E as [E1 E2]. apply expr_eqb_eq in E1.
        apply list_eqb_index_eq in E2. rewrite E2. subst. reflexivity. }
      subst e'. cbn [eval]. rewrite (Hc _ _ (or_introl eq_refl) Hnc). f_equal. f_equal.
      rewrite map_map. apply map_ext. intros a. symmetry. apply ival_senv. apply Hkeys.
    + destruct e as [ | | | | | | | | | | | | | | | | body cmi | | | | ]; try discriminate.
      clear Ect Hc IHc. cbn [filtered_replace_indices] in H. rewrite Hidem in H.
      pose proof (@all_nodes_root _ _ Hfit) as Hroot. unfold tensor_fits in Hroot.
      apply andb_true_iff in Hroot as [_ Hlen]. apply Nat.eqb_eq in Hlen.
      assert (Hct : In (ComponentTensor body cmi)
                       (children (Indexed (ComponentTensor body cmi) multiindex)))
        by (left; reflexivity).
      assert (Hbody : In body (children (ComponentTensor body cmi))) by (left; reflexivity).
      assert (Hbin : forall x, In x (binders body)
                               -> In x (binders (Indexed (ComponentTensor body cmi) multiindex))).
      { intros x Hx. apply (@binders_child _ _ x Hct). exact (@binders_child _ _ x Hbody Hx). }
      set (D := dict_update (dict_of fs)
                  (zip cmi (map (fun i => dict_get (dict_of fs) i) multiindex))) in *.
      assert (HD : NoDup (map fst D)).
      { apply dict_update_NoDup. apply dict_of_NoDup. }
      rewrite (IHb body cmi multiindex eq_refl (sorted_items D) e').
      * cbn [eval]. rewrite <- app_assoc.
        rewrite combine_app_l by (rewrite length_map; symmetry; exact Hlen).
        rewrite skipn_app_l by (rewrite length_map; symmetry; exact Hlen).
        apply eval_agree. intros k Hk. unfold senv at 1.
        destruct (is_Index k) eqn:Ik.
        -- rewrite (@dict_get_sorted D k HD). symmetry. unfold D, zip.
           apply (@upd_list_update rho (fun i => dict_get (dict_of fs) i)
                    (ival_ (senv (dict_of fs) rho)) k).
           ++ intros x. symmetry. apply ival_senv. apply Hkeys.
           ++ unfold senv. rewrite Ik. reflexivity.
        -- rewrite upd_list_other; [unfold senv; rewrite Ik; reflexivity|].
           intros X. apply in_map_iff in X as ([k' z] & E & X). simpl in E. subst k'.
           apply in_combine_l in X.
           assert (Y : is_Index k = true); [|congruence].
           apply (@binders_are_Index _ k Hfit). apply (@binders_child _ _ k Hct).
           apply bound_at_binders. exact X.
      * apply (@Hygienic_child _ _ (@Hygienic_child _ _ Hh Hct) Hbody).
      * apply (@all_nodes_child _ _ _ (@all_nodes_child _ _ _ Hfit Hct) Hbody).
      * intros k v Hkv.
        apply (Permutation_in _ (sorted_items_perm D)) in Hkv.
        apply dict_update_In in Hkv as [Hkv | Hkv].
        -- apply dict_update_In in Hkv as [[] | Hkv].
           destruct (Hfs k v Hkv) as (A & B & _). split; [exact A|].
           intros X. apply B. apply Hbin. exact X.
        -- unfold zip in Hkv. pose proof (in_combine_l _ _ _ _ Hkv) as Hk.
           apply in_combine_r in Hkv. split.
           ++ apply (@binders_are_Index _ k Hfit). apply (@binders_child _ _ k Hct).
              apply bound_at_binders. exact Hk.
           ++ apply in_map_iff in Hkv as (x & <- & Hx). intros X. apply Hbin in X.
              destruct (dict_get_of_cases fs x) as [Y | Y].
              ** rewrite Y in X. destruct Hh as [_ Hf]. apply (Hf x X).
                 cbn [free_indices]. apply In_unique_iff. apply in_or_app. right.
                 apply filter_In. split; [exact Hx|].
                 exact (@binders_are_Index _ x Hfit X).
              ** destruct (Hfs _ _ Y) as (_ & B & _). exact (B X).
      * exact H.
  - (* FlexiblyIndexed *)
    cbn [filtered_replace_indices] in H. rewrite Hidem in H.
    unfold replace_indices_flexiblyindexed in H.
    apply bind_Ok in H as ([] & Ht & H). apply bind_Ok in H as ([] & _ & H).
    unfold assert in Ht. destruct (is_Terminal e) eqn:Et; [|discriminate].
    cbv zeta in H.
    assert (E : e' = FlexiblyIndexed e (replace_dim2idxs (dict_of fs) dim2idxs)).
    { destruct (dim2idxs_eqb _ dim2idxs) eqn:E; injection H as <-; [|reflexivity].
      apply dim2idxs_eqb_eq in E. rewrite E. reflexivity. }
    subst e'. cbn [eval]. rewrite offsets_senv by exact Hkeys.
    apply eval_agree. rewrite (is_Terminal_free_indices _ Et). intros k [].
  - (* Delta *)
    cbn [filtered_replace_indices] in H. rewrite Hidem in H.
    unfold replace_indices_delta in H. cbv zeta in H.
    assert (E : eval_ e' rho pos
                = if ival_ rho (dict_get (dict_of fs) a) =? ival_ rho (dict_get (dict_of fs) b)
                  then rI else rO).
    { destruct (index_eqb (dict_get (dict_of fs) a) a && index_eqb (dict_get (dict_of fs) b) b)
        eqn:E; injection H as <-; [|apply eval_Delta_; exact of_Q_one].
      apply andb_true_iff in E as [E1 E2]. apply index_eqb_eq in E1, E2.
      rewrite E1, E2. reflexivity. }
    rewrite E. cbn [eval]. rewrite !ival_senv by (apply Hkeys). reflexivity.
Qed.

(** X29.  [remove_componenttensors] keeps the value of every expression, at
    every position and under every assignment, also where it resolves an
    access into a component tensor: the indices that the tensor binds take
    the values of the indices of the access.  The expressions bind every
    index once and none that is free in them, and their accesses fit the
    tensors. *)
Theorem remove_componenttensors_keeps_values (expressions expressions' : list expr) :
  Forall (fun e => hygienic e && all_nodes tensor_fits e = true) expressions ->
  remove_componenttensors expressions = Ok expressions' ->
  Forall2 (same_value rO rI radd rmul mu) expressions expressions'.
Proof.
  intros Hw H. unfold remove_componenttensors in H. apply mapM_Ok_Forall2 in H.
  induction H as [|x y xs ys Hxy _ IH]; constructor.
  - inversion Hw as [|? ? Hx _]; subst. apply andb_true_iff in Hx as [Hh Hf].
    apply hygienic_spec in Hh. intros rho pos.
    rewrite (@filtered_replace_indices_value x [] y Hh Hf); [| |exact Hxy].
    + apply eval_ext. intros k. apply senv_nil.
    + intros k v [].
  - apply IH. inversion Hw; assumption.
Qed.

End TensorValues.

(** *** Instances in the integers *)

(** The access [j] into the tensor [i -> x[i] * y[i]], plus the access [1]
    into the tensor [k -> x[k]]. *)
Definition two_accesses : expr :=
  Sum (Indexed (ComponentTensor (Product x_i y_i) [sum_i]) [free_j])
      (Indexed (ComponentTensor x_k [sum_k]) [IntIndex 1]).

Definition two_accesses_resolved : list expr :=
  Eval vm_compute in returned [] (remove_componenttensors [two_accesses]).

Lemma remove_componenttensors_keeps_values_witness :
  Forall2 (same_value 0 1 Z.add Z.mul Z_interp) [two_accesses] two_accesses_resolved.
Proof.
  apply (@remove_componenttensors_keeps_values Z 0 1 Z.add Z.mul Z_interp eq_refl
           [two_accesses] two_accesses_resolved).
  - constructor; [vm_compute; reflexivity | constructor].
  - vm_compute. reflexivity.
Defined.

(** ** The value kept by the factorisation of a MonomialSum *)

(** *** Groups of keys *)

Lemma ordering_lookup (V : Type) (o : list (MonomialSum.key * V)) (k : MonomialSum.key)
    (v : V) :
  MonomialSumFacts.distinct_keys o -> In (k, v) o -> MonomialSum.dict_lookup o k = Some v.
Proof.
  unfold MonomialSumFacts.distinct_keys.
  induction 1 as [|[k1 v1] t Hk1 _ IH]; intros Hin; [destruct Hin|].
  cbn [MonomialSum.dict_lookup]. destruct Hin as [E | Hin].
  - injection E as -> ->. rewrite key_eqb_refl. reflexivity.
  - rewrite Forall_forall in Hk1. specialize (Hk1 _ Hin). cbn [fst] in Hk1.
    rewrite Hk1. apply IH. exact Hin.
Qed.

Lemma group_add_Forall (K A : Type) (eqb : K -> K -> bool) (P : K * list A -> Prop)
    (groups : list (K * list A)) (key : K) (x : A) :
  (forall k xs, eqb k key = true -> P (k, xs) -> P (k, xs ++ [x])) ->
  P (key, [x]) ->
  Forall P groups -> Forall P (group_add eqb groups key x).
Proof.
  intros Hold Hnew. induction 1 as [|[k xs] t Hk Ht IH]; cbn [group_add].
  - constructor; [exact Hnew | constructor].
  - destruct (eqb k key) eqn:E.
    + constructor; [apply Hold; assumption | assumption].
    + constructor; assumption.
Qed.

Lemma remove_expr_perm (x : expr) (l l' : list expr) :
  remove_expr x l = Ok l' -> Permutation l (x :: l').
Proof.
  revert l'. induction l as [|y l IH]; intros l' H; simpl in H; [discriminate|].
  destruct (expr_eqb y x) eqn:E.
  - injection H as <-. apply expr_eqb_eq in E. subst y. reflexivity.
  - apply bind_Ok in H as (t' & Ht & H). injection H as <-.
    rewrite (IH t' Ht). apply perm_swap.
Qed.

(** The pairs that [unique_sum_indices] yields are those of monomials. *)
Lemma unique_sum_indices_loop_In (od : list (MonomialSum.key * (list index * list expr))) :
  forall seen p,
    In p (MonomialSum.unique_sum_indices_loop seen od) ->
    exists k a, In (k, (snd p, a)) od /\ fst p = fst k.
Proof.
  induction od as [|[[set c] [s a]] od IH]; intros seen p H; [destruct H|].
  cbn [MonomialSum.unique_sum_indices_loop] in H.
  destruct (existsb (index_set_eqb set) seen).
  - destruct (IH _ _ H) as (k & a' & Hin & E). exists k, a'. split; [right; exact Hin | exact E].
  - destruct H as [<- | H].
    + exists (set, c), a. split; [left; reflexivity | reflexivity].
    + destruct (IH _ _ H) as (k & a' & Hin & E). exists k, a'.
      split; [right; exact Hin | exact E].
Qed.

Lemma delta_queue_no_indices (factors : list expr) : delta_queue [] factors = [].
Proof.
  unfold delta_queue. induction factors as [|f l IH]; [reflexivity|].
  cbn [flat_map]. rewrite IH. destruct f; reflexivity.
Qed.

(** The right-hand side of [factorise_group] for a group of several keys. *)
Definition factorise_many (optimise_ : MonomialSum.t -> result MonomialSum.t)
    (self : MonomialSum.t) (arg : list index) (new_monomial_sum : MonomialSum.t)
    (sum_indices : list index) (oa : expr) (keys : list MonomialSum.key)
    : result MonomialSum.t :=
  residuals <- mapM (fun k => v <- MonomialSum.ordering_at self k ;;
                              _atomics <- remove_expr oa (snd v) ;;
                              Ok ([] : list index, _atomics, MonomialSum.rest_of self k)) keys ;;
  sub_monomial_sum <- MonomialSum.add_all
                        (MonomialSum.set_argument_indices MonomialSum.empty arg) residuals ;;
  sub_monomial_sum' <- optimise_ sub_monomial_sum ;;
  _ <- assert (negb (Nat.eqb (length (MonomialSum.ordering sub_monomial_sum')) 0))
         "len(sub_monomial_sum.ordering) != 0" ;;
  match MonomialSum.ordering sub_monomial_sum' with
  | [(_, (_, new_atomics))] =>
      new_rest <- unpack1 (map snd (MonomialSum.monomials sub_monomial_sum')) ;;
      MonomialSum.add new_monomial_sum sum_indices (new_atomics ++ [oa]) new_rest
  | _ =>
      new_node <- MonomialSum.to_expression sub_monomial_sum' ;;
      if MonomialSum.intersects arg (free_indices new_node)
      then MonomialSum.add new_monomial_sum sum_indices [oa; new_node] one
      else MonomialSum.add new_monomial_sum sum_indices [oa] new_node
  end.

Lemma factorise_group_unfold (optimise_ : MonomialSum.t -> result MonomialSum.t)
    (self : MonomialSum.t) (arg : list index) (new_monomial_sum : MonomialSum.t)
    (sum_indices : list index) (oa : expr) (keys : list MonomialSum.key) :
  MonomialSum.factorise_group optimise_ self arg new_monomial_sum sum_indices oa keys
  = match keys with
    | [k0] =>
        v <- MonomialSum.ordering_at self k0 ;;
        MonomialSum.add new_monomial_sum sum_indices (snd v) (MonomialSum.rest_of self k0)
    | _ => factorise_many optimise_ self arg new_monomial_sum sum_indices oa keys
    end.
Proof. destruct keys as [|k0 [|k1 keys]]; reflexivity. Qed.

Lemma factorise_atomics_unfold (ilp_solve : list Z -> list (list nat) -> Z * list Z)
    (fuel : nat) (self : MonomialSum.t) (optimal_atomics : list MonomialSum.factor_key) :
  MonomialSum.factorise_atomics ilp_solve fuel self optimal_atomics
  = match optimal_atomics with
    | [] => Ok self
    | _ :: _ =>
        if (length (MonomialSum.ordering self) <? 2)%nat then Ok self
        else
          arg <- MonomialSum.get_argument_indices self ;;
          let new_monomial_sum := MonomialSum.set_argument_indices MonomialSum.empty arg in
          '(factor_group, new_monomial_sum') <-
            MonomialSum.group_monomials self optimal_atomics (MonomialSum.ordering self) []
                                        new_monomial_sum ;;
          _ <- assert (Nat.eqb (MonomialSum.grouped_count factor_group
                                + length (MonomialSum.ordering new_monomial_sum'))
                               (length (MonomialSum.ordering self)))
                 MonomialSum.we_should_not_drop_monomials ;;
          MonomialSum.factorise_groups
            (fun sub => match fuel with
                        | O => OutOfFuel
                        | S fuel' =>
                            MonomialSum.optimise_with ilp_solve
                              (MonomialSum.factorise_atomics ilp_solve fuel') sub
                        end)
            self arg factor_group new_monomial_sum'
    end.
Proof. destruct fuel; reflexivity. Qed.

(** The monomials all have the empty tuple of summation indices. *)
Definition scalar_keys (self : MonomialSum.t) : Prop :=
  forall kv, In kv (MonomialSum.ordering self) -> fst (snd kv) = [].

(** Every tuple of summation indices of [self'] is one of [self]. *)
Definition tuples_from (self self' : MonomialSum.t) : Prop :=
  forall kv', In kv' (MonomialSum.ordering self') ->
              exists kv, In kv (MonomialSum.ordering self) /\ fst (snd kv') = fst (snd kv).

(** The pairs of an [optimal_atomics] list are pairs of monomials. *)
Definition atomics_fit (self : MonomialSum.t) (optimal_atomics : list MonomialSum.factor_key)
    : Prop :=
  forall g, In g optimal_atomics ->
            exists k a, In (k, (snd (fst g), a)) (MonomialSum.ordering self)
                        /\ fst (fst g) = fst k.

(** A group of keys: its tuple of summation indices is that of a monomial,
    and every key is that of a monomial with these summation indices, in
    some order, that has the atomic of the group. *)
Definition group_fits (self : MonomialSum.t)
    (gk : MonomialSum.factor_key * list MonomialSum.key) : Prop :=
  (exists k a, In (k, (snd (fst (fst gk)), a)) (MonomialSum.ordering self))
  /\ forall k, In k (snd gk) ->
               exists s a, In (k, (s, a)) (MonomialSum.ordering self)
                           /\ Permutation s (snd (fst (fst gk)))
                           /\ In (snd (fst gk)) a.

Lemma Invariant_entry (self : MonomialSum.t) (k : MonomialSum.key) (s : list index)
    (a : list expr) :
  Invariant self -> In (k, (s, a)) (MonomialSum.ordering self) ->
  k = MonomialSum.make_key s a /\ NoDup s
  /\ MonomialSum.dict_lookup (MonomialSum.ordering self) k = Some (s, a).
Proof.
  intros (_ & Hd & Hc & Hn) Hin. unfold MonomialSumFacts.consistent_keys in Hc.
  rewrite Forall_forall in Hc, Hn. split; [exact (Hc _ Hin)|]. split; [exact (Hn _ Hin)|].
  apply ordering_lookup; assumption.
Qed.

(** Two monomials whose keys have the same set of summation indices sum
    over the same indices. *)
Lemma same_set_perm (self : MonomialSum.t) (k k' : MonomialSum.key) (s s' : list index)
    (a a' : list expr) :
  Invariant self ->
  In (k, (s, a)) (MonomialSum.ordering self) -> In (k', (s', a')) (MonomialSum.ordering self) ->
  index_set_eqb (fst k) (fst k') = true -> Permutation s s'.
Proof.
  intros Hinv H H' E.
  destruct (@Invariant_entry self k s a Hinv H) as (-> & Hs & _).
  destruct (@Invariant_entry self k' s' a' Hinv H') as (-> & Hs' & _).
  cbn [fst MonomialSum.make_key] in E. unfold MonomialSum.frozenset in E.
  apply NoDup_Permutation; [exact Hs | exact Hs' |]. intros x.
  rewrite <- (In_dedup_index_iff x s), <- (In_dedup_index_iff x s').
  apply (proj1 (index_set_eqb_spec _ _) E).
Qed.

Lemma tuples_from_refl (self : MonomialSum.t) : tuples_from self self.
Proof. intros kv H. exists kv. auto. Qed.

Lemma add_tuples (self new new' : MonomialSum.t) (s : list index) (a : list expr) (r : expr) :
  (exists kv, In kv (MonomialSum.ordering self) /\ s = fst (snd kv)) ->
  tuples_from self new -> MonomialSum.add new s a r = Ok new' -> tuples_from self new'.
Proof.
  intros Hs Ht H kv' Hin. apply MonomialSumFacts.add_ordering in H as [H _].
  rewrite H in Hin. apply dict_setdefault_In in Hin as [Hin | ->].
  - apply Ht. exact Hin.
  - exact Hs.
Qed.

Lemma add_all_scalar (l : list (list index * list expr * expr)) :
  forall self self',
    (forall sar, In sar l -> fst (fst sar) = []) -> scalar_keys self ->
    MonomialSum.add_all self l = Ok self' -> scalar_keys self'.
Proof.
  induction l as [|[[s a] r] l IH]; intros self self' Hl Hs H; simpl in H.
  - injection H as <-. exact Hs.
  - apply bind_Ok in H as (self1 & H1 & H).
    apply (IH self1 self'); [intros; apply Hl; right; assumption | | exact H].
    intros kv Hin. apply MonomialSumFacts.add_ordering in H1 as [H1 _].
    rewrite H1 in Hin. apply dict_setdefault_In in Hin as [Hin | ->].
    + apply Hs. exact Hin.
    + apply (Hl (s, a, r)). left. reflexivity.
Qed.

Lemma collect_optimal_atomics_In (ilp_solve : list Z -> list (list nat) -> Z * list Z)
    (self : MonomialSum.t) (l : list MonomialSum.sum_indices_pair) :
  forall oas, MonomialSum.collect_optimal_atomics ilp_solve self l = Ok oas ->
              forall g, In g oas -> In (fst g) l.
Proof.
  induction l as [|p l IH]; intros oas H g Hg; simpl in H.
  - injection H as <-. destruct Hg.
  - apply bind_Ok in H as (atomics & _ & H). apply bind_Ok in H as (more & Hm & H).
    injection H as <-. apply in_app_or in Hg as [Hg | Hg].
    + apply in_map_iff in Hg as (x & <- & _). left. reflexivity.
    + right. exact (IH more Hm g Hg).
Qed.

Section FactorisedValues.

Variable R : Type.
Variables rO rI : R.
Variables radd rmul rsub : R -> R -> R.
Variable ropp : R -> R.
Hypothesis Rth : ring_theory rO rI radd rmul rsub ropp eq.
Variable mu : interp R.
Hypothesis of_Q_one : literal_one_is_unit rI mu.
Variable ilp_solve : list Z -> list (list nat) -> Z * list Z.

Add Ring Rfactorised : Rth.

Local Notation "x [+] y" := (radd x y) (at level 50, left associativity).
Local Notation "x [*] y" := (rmul x y) (at level 40, left associativity).
Local Abbreviation value_ := (value rO rI radd rmul mu).
Local Abbreviation product_ := (product_value rO rI radd rmul mu).
Local Abbreviation monomial_ := (monomial_value rO rI radd rmul mu).
Local Abbreviation sum_value_ := (sum_value rO rI radd rmul mu).
Local Abbreviation rsum_ := (rsum rO radd).
Local Abbreviation isum_ := (isum rO radd).

(** *** Monomial sums without summation indices *)

Lemma fast_sum_factorise_scalar (factors : list expr) (e : expr) :
  fast_sum_factorise [] factors = Ok e ->
  forall rho, value_ rho e = product_ factors rho.
Proof.
  intros H rho. unfold fast_sum_factorise, delta_elimination in H.
  cbn [rev length delta_elimination_loop] in H.
  rewrite delta_queue_no_indices in H. cbn [bind] in H.
  rewrite (@sum_factorise_value R rO rI radd rmul rsub ropp Rth mu of_Q_one _ _ _ H rho).
  cbn [isum]. apply (product_value_drop_ones Rth of_Q_one).
Qed.

Lemma rsum_cons (A : Type) (x : A) (l : list A) (g : A -> R) :
  rsum_ (x :: l) g = g x [+] rsum_ l g.
Proof. reflexivity. Qed.

Lemma product_nil (rho : ienv) : product_ [] rho = rI.
Proof. reflexivity. Qed.

Lemma monomial_scalar (a : list expr) (r : expr) (rho : ienv) :
  monomial_ [] a r rho = product_ a rho [*] value_ rho r.
Proof. reflexivity. Qed.

Lemma to_expression_split_scalar (self : MonomialSum.t)
    (od : list (MonomialSum.key * (list index * list expr))) :
  forall indexsums indexsums' groups',
    (forall kv, In kv od -> fst (fst kv) = [] /\ fst (snd kv) = []) ->
    MonomialSum.to_expression_split self od indexsums [] = Ok (indexsums', groups') ->
    groups' = []
    /\ forall rho,
         rsum_ indexsums' (value_ rho)
         = rsum_ indexsums (value_ rho)
           [+] rsum_ od (fun kv => monomial_ (fst (snd kv)) (snd (snd kv))
                                             (MonomialSum.rest_of self (fst kv)) rho).
Proof.
  induction od as [|[[set c] [s a]] od IH]; intros indexsums indexsums' groups' Hall H.
  - simpl in H. injection H as <- <-. split; [reflexivity|]. intros rho. simpl. ring.
  - destruct (Hall _ (or_introl eq_refl)) as [E1 E2]. cbn [fst snd] in E1, E2. subst set s.
    cbn [MonomialSum.to_expression_split fst] in H.
    apply bind_Ok in H as (e & He & H).
    destruct (IH _ _ _ (fun kv Hkv => Hall kv (or_intror Hkv)) H) as [Hg Hv].
    split; [exact Hg|]. intros rho. rewrite Hv, (rsum_snoc Rth).
    rewrite (@fast_sum_factorise_scalar _ e He rho), rsum_cons. cbn [fst snd].
    rewrite monomial_scalar, (product_value_snoc Rth). ring.
Qed.

(** [to_expression] on monomials without summation indices returns an
    expression whose value is the sum of the monomials, under every
    assignment. *)
Lemma to_expression_scalar (self : MonomialSum.t) (e : expr) :
  Invariant self -> scalar_keys self ->
  MonomialSum.to_expression self = Ok e ->
  forall rho, value_ rho e = sum_value_ self rho.
Proof.
  intros Hinv Hs H rho. unfold MonomialSum.to_expression in H.
  apply bind_Ok in H as ([indexsums groups] & Hsplit & H). cbv beta iota in H.
  assert (Hall : forall kv, In kv (MonomialSum.ordering self)
                            -> fst (fst kv) = [] /\ fst (snd kv) = []).
  { intros [k [s a]] Hin. pose proof (Hs _ Hin) as E. cbn [fst snd] in E. subst s.
    destruct (@Invariant_entry self k [] a Hinv Hin) as (-> & _). auto. }
  destruct (@to_expression_split_scalar self (MonomialSum.ordering self) [] indexsums groups
              Hall Hsplit) as [-> Hv].
  cbn [MonomialSum.to_expression_groups] in H. cbn [bind] in H.
  apply bind_Ok in H as ([t fl] & Ha & H). injection H as <-. cbn [fst].
  rewrite (@associate_sum_value R rO rI radd rmul rsub ropp Rth mu _ _ _ Ha rho).
  rewrite Hv. unfold sum_value. simpl. ring.
Qed.

(** *** Grouping *)

(** The monomial stored under a key: the product under the summation, and
    the value. *)
Definition key_body (self : MonomialSum.t) (k : MonomialSum.key) (rho : ienv) : R :=
  match MonomialSum.dict_lookup (MonomialSum.ordering self) k with
  | Some v => product_ (snd v) rho [*] value_ rho (MonomialSum.rest_of self k)
  | None => rO
  end.

Definition key_value (self : MonomialSum.t) (rho : ienv) (k : MonomialSum.key) : R :=
  match MonomialSum.dict_lookup (MonomialSum.ordering self) k with
  | Some v => monomial_ (fst v) (snd v) (MonomialSum.rest_of self k) rho
  | None => rO
  end.

Definition group_total (self : MonomialSum.t)
    (factor_group : list (MonomialSum.factor_key * list MonomialSum.key)) (rho : ienv) : R :=
  rsum_ factor_group (fun g => rsum_ (snd g) (key_value self rho)).

Lemma group_add_total (self : MonomialSum.t)
    (factor_group : list (MonomialSum.factor_key * list MonomialSum.key))
    (g : MonomialSum.factor_key) (k : MonomialSum.key) (rho : ienv) :
  group_total self (group_add MonomialSum.factor_key_eqb factor_group g k) rho
  = group_total self factor_group rho [+] key_value self rho k.
Proof.
  unfold group_total. induction factor_group as [|[g' ks] t IH]; cbn [group_add].
  - rewrite !rsum_cons. cbn [snd]. rewrite rsum_cons. simpl. ring.
  - destruct (MonomialSum.factor_key_eqb g' g).
    + rewrite !rsum_cons. cbn [snd]. rewrite (rsum_snoc Rth). ring.
    + rewrite !rsum_cons, IH. ring.
Qed.

(** The value of a key of a fitting group, summed over the indices of the
    group. *)
Lemma key_value_fits (self : MonomialSum.t) (si : list index) (oa : expr)
    (k : MonomialSum.key) (s : list index) (a : list expr) (rho : ienv) :
  Invariant self -> In (k, (s, a)) (MonomialSum.ordering self) -> Permutation s si ->
  key_value self rho k = isum_ rho si (key_body self k)
  /\ key_value self rho k = monomial_ si a (MonomialSum.rest_of self k) rho.
Proof.
  intros Hinv Hin Hp. destruct (@Invariant_entry self k s a Hinv Hin) as (_ & _ & El).
  assert (E : key_value self rho k = monomial_ si a (MonomialSum.rest_of self k) rho).
  { unfold key_value. rewrite El. cbn [fst snd].
    apply (@monomial_value_perm R rO rI radd rmul rsub ropp Rth mu s si a a _ rho Hp).
    reflexivity. }
  split; [|exact E]. rewrite E. unfold monomial_value. apply isum_ext. intros r.
  unfold key_body. rewrite El. reflexivity.
Qed.

Lemma group_monomials_value (self : MonomialSum.t)
    (optimal_atomics : list MonomialSum.factor_key) :
  Invariant self -> atomics_fit self optimal_atomics ->
  forall od factor_group new factor_group' new',
    (forall kv, In kv od -> In kv (MonomialSum.ordering self)) ->
    Invariant new -> tuples_from self new -> Forall (group_fits self) factor_group ->
    MonomialSum.group_monomials self optimal_atomics od factor_group new
    = Ok (factor_group', new') ->
    Invariant new' /\ tuples_from self new' /\ Forall (group_fits self) factor_group'
    /\ forall rho,
         sum_value_ new' rho [+] group_total self factor_group' rho
         = sum_value_ new rho [+] group_total self factor_group rho
           [+] rsum_ od (fun kv => monomial_ (fst (snd kv)) (snd (snd kv))
                                             (MonomialSum.rest_of self (fst kv)) rho).
Proof.
  intros Hinv Hfit. induction od as [|[k [s a]] od IH];
    intros fg new fg' new' Hod Hnew Ht Hfg H; cbn [MonomialSum.group_monomials] in H.
  - injection H as <- <-. split; [exact Hnew|]. split; [exact Ht|]. split; [exact Hfg|].
    intros rho. simpl. ring.
  - assert (Hin : In (k, (s, a)) (MonomialSum.ordering self)) by (apply Hod; left; reflexivity).
    assert (Hod' : forall kv, In kv od -> In kv (MonomialSum.ordering self))
      by (intros; apply Hod; right; assumption).
    destruct (@Invariant_entry self k s a Hinv Hin) as (_ & _ & El).
    destruct (MonomialSum.first_match k a optimal_atomics) as [g|] eqn:Em.
    + unfold MonomialSum.first_match in Em. apply find_some in Em as [Hg Em].
      apply andb_true_iff in Em as [Eset Eoa].
      destruct (Hfit g Hg) as (kg & ag & Hkg & Eg).
      assert (Hp : Permutation s (snd (fst g))).
      { apply (@same_set_perm self k kg s (snd (fst g)) a ag Hinv Hin Hkg).
        rewrite <- Eg. exact Eset. }
      assert (Hoa : In (snd g) a).
      { unfold expr_in in Eoa. apply existsb_exists in Eoa as (x & Hx & E).
        apply expr_eqb_eq in E. subst x. exact Hx. }
      destruct (IH (group_add MonomialSum.factor_key_eqb fg g k) new fg' new' Hod' Hnew Ht)
        as (A & B & C & D); [|exact H|].
      * apply group_add_Forall; [| |exact Hfg].
        -- intros g' xs Eg' [Hex Hks].
           unfold MonomialSum.factor_key_eqb, MonomialSum.group_key_eqb in Eg'.
           apply andb_true_iff in Eg' as [Eg1 Eg2]. apply andb_true_iff in Eg1 as [_ Eg1].
           apply list_eqb_index_eq in Eg1. apply expr_eqb_eq in Eg2.
           split; [exact Hex|]. cbn [fst snd] in *. intros k0 Hk0.
           apply in_app_or in Hk0 as [Hk0 | [<- | []]]; [apply Hks; exact Hk0|].
           exists s, a. rewrite Eg1, Eg2. auto.
        -- split; cbn [fst snd].
           ++ exists kg, ag. exact Hkg.
           ++ intros k0 [<- | []]. exists s, a. auto.
      * split; [exact A|]. split; [exact B|]. split; [exact C|].
        intros rho. rewrite D, group_add_total, rsum_cons.
        cbn [fst snd]. unfold key_value. rewrite El. cbn [fst snd]. ring.
    + apply bind_Ok in H as (new1 & Hadd & H).
      destruct (@add_value R rO rI radd rmul rsub ropp Rth mu new new1 s a
                  (MonomialSum.rest_of self k) Hnew Hadd) as [Hnew1 Hval].
      destruct (IH fg new1 fg' new' Hod' Hnew1) with (3 := H) as (A & B & C & D).
      * apply (@add_tuples self new new1 s a (MonomialSum.rest_of self k)); [|exact Ht|exact Hadd].
        exists (k, (s, a)). auto.
      * exact Hfg.
      * split; [exact A|]. split; [exact B|]. split; [exact C|].
        intros rho. rewrite D, Hval, rsum_cons.
        cbn [fst snd]. ring.
Qed.

(** *** One group *)

(** A recursive call that keeps the invariant, the tuples of summation
    indices and the value. *)
Definition keeps (optimise_ : MonomialSum.t -> result MonomialSum.t) : Prop :=
  forall sub sub',
    Invariant sub -> optimise_ sub = Ok sub' ->
    Invariant sub' /\ tuples_from sub sub'
    /\ forall rho, sum_value_ sub' rho = sum_value_ sub rho.

Lemma residuals_value (self : MonomialSum.t) (si : list index) (oa : expr)
    (keys : list MonomialSum.key) (residuals : list (list index * list expr * expr)) :
  Invariant self ->
  (forall k, In k keys -> exists s a, In (k, (s, a)) (MonomialSum.ordering self)
                                      /\ Permutation s si /\ In oa a) ->
  Forall2 (fun k res =>
             (v <- MonomialSum.ordering_at self k ;;
              _atomics <- remove_expr oa (snd v) ;;
              Ok ([] : list index, _atomics, MonomialSum.rest_of self k)) = Ok res)
          keys residuals ->
  (forall sar, In sar residuals -> fst (fst sar) = [])
  /\ forall rho,
       value_ rho oa
       [*] rsum_ residuals (fun sar => monomial_ (fst (fst sar)) (snd (fst sar)) (snd sar) rho)
       = rsum_ keys (fun k => key_body self k rho).
Proof.
  intros Hinv Hk H. induction H as [|k res keys residuals Hres _ IH].
  - split; [intros sar []|]. intros rho. simpl. ring.
  - destruct IH as [IH1 IH2]; [intros; apply Hk; right; assumption|].
    apply bind_Ok in Hres as (v & Hv & Hres). apply bind_Ok in Hres as (a' & Ha' & Hres).
    injection Hres as <-.
    destruct (Hk k (or_introl eq_refl)) as (s & a & Hin & _ & _).
    destruct (@Invariant_entry self k s a Hinv Hin) as (_ & _ & El).
    unfold MonomialSum.ordering_at in Hv. rewrite El in Hv. injection Hv as <-.
    cbn [snd] in Ha'. apply remove_expr_perm in Ha'. split.
    + intros sar [<- | Hsar]; [reflexivity | apply IH1; exact Hsar].
    + intros rho. rewrite !rsum_cons. cbn [fst snd]. rewrite <- IH2, monomial_scalar.
      unfold key_body. rewrite El. cbn [snd].
      rewrite (@product_value_perm R rO rI radd rmul rsub ropp Rth mu a (oa :: a') rho Ha').
      rewrite product_value_cons. ring.
Qed.

Lemma Invariant_new (arg : list index) :
  Invariant (MonomialSum.set_argument_indices MonomialSum.empty arg).
Proof. exact Invariant_empty. Qed.

Lemma factorise_many_value (optimise_ : MonomialSum.t -> result MonomialSum.t)
    (self : MonomialSum.t) (arg : list index) (new new' : MonomialSum.t)
    (si : list index) (oa : expr) (keys : list MonomialSum.key) :
  keeps optimise_ -> Invariant self -> Invariant new -> tuples_from self new ->
  (exists k a, In (k, (si, a)) (MonomialSum.ordering self)) ->
  (forall k, In k keys -> exists s a, In (k, (s, a)) (MonomialSum.ordering self)
                                      /\ Permutation s si /\ In oa a) ->
  factorise_many optimise_ self arg new si oa keys = Ok new' ->
  Invariant new' /\ tuples_from self new'
  /\ forall rho, sum_value_ new' rho
                 = sum_value_ new rho [+] rsum_ keys (key_value self rho).
Proof.
  intros Hopt Hinv Hnew Ht Hex Hk H. unfold factorise_many in H.
  apply bind_Ok in H as (residuals & Hres & H). apply mapM_Ok_Forall2 in Hres.
  apply bind_Ok in H as (sub & Hsub & H).
  apply bind_Ok in H as (sub' & Hsub' & H).
  apply bind_Ok in H as ([] & Hlen & H).
  destruct (@residuals_value self si oa keys residuals Hinv Hk Hres) as [Hnil Hbody].
  destruct (@add_all_value R rO rI radd rmul rsub ropp Rth mu residuals _ sub
              (Invariant_new arg) Hsub) as [Hisub Hvsub].
  assert (Hssub : scalar_keys sub).
  { apply (@add_all_scalar residuals
             (MonomialSum.set_argument_indices MonomialSum.empty arg) sub Hnil);
      [|exact Hsub]. intros kv []. }
  destruct (Hopt sub sub' Hisub Hsub') as (Hisub' & Htsub' & Hvsub').
  assert (Hssub' : scalar_keys sub').
  { intros kv Hkv. destruct (Htsub' kv Hkv) as (kv0 & Hkv0 & E). rewrite E.
    apply Hssub. exact Hkv0. }
  assert (Key : forall rho,
             isum_ rho si (fun r => value_ r oa [*] sum_value_ sub' r)
             = rsum_ keys (key_value self rho)).
  { intros rho.
    transitivity (isum_ rho si (fun r => rsum_ keys (fun k => key_body self k r))).
    - apply isum_ext. intros r. rewrite Hvsub', Hvsub, <- Hbody.
      unfold sum_value. simpl. ring.
    - rewrite (@isum_rsum R rO rI radd rmul rsub ropp Rth _ keys si
                 (fun k r => key_body self k r) rho).
      apply rsum_ext. intros k Hin. destruct (Hk k Hin) as (s & a & Hka & Hp & _).
      symmetry. exact (proj1 (@key_value_fits self si oa k s a rho Hinv Hka Hp)). }
  assert (Hsi : exists kv, In kv (MonomialSum.ordering self) /\ si = fst (snd kv)).
  { destruct Hex as (k & a & Hka). exists (k, (si, a)). auto. }
  assert (Finish : forall atomics rest,
             MonomialSum.add new si atomics rest = Ok new' ->
             (forall r, product_ atomics r [*] value_ r rest
                        = value_ r oa [*] sum_value_ sub' r) ->
             Invariant new' /\ tuples_from self new'
             /\ forall rho, sum_value_ new' rho
                            = sum_value_ new rho [+] rsum_ keys (key_value self rho)).
  { intros atomics rest Hadd Hv.
    destruct (@add_value R rO rI radd rmul rsub ropp Rth mu new new' si atomics rest
                Hnew Hadd) as [Hnew' Hval].
    split; [exact Hnew'|]. split.
    - exact (@add_tuples self new new' si atomics rest Hsi Ht Hadd).
    - intros rho. rewrite Hval, <- Key. f_equal. unfold monomial_value.
      apply isum_ext. exact Hv. }
  destruct (MonomialSum.ordering sub') as [|[k1 [s1 na]] [|kv2 more]] eqn:Eo.
  - discriminate.
  - apply bind_Ok in H as (new_rest & Hrest & H).
    apply (Finish _ _ H). intros r.
    pose proof (Hssub' (k1, (s1, na))) as Es1. rewrite Eo in Es1.
    specialize (Es1 (or_introl eq_refl)). cbn [fst snd] in Es1. subst s1.
    assert (Er : MonomialSum.rest_of sub' k1 = new_rest).
    { destruct Hisub' as (Hkeys & _). rewrite Eo in Hkeys.
      destruct (MonomialSum.monomials sub') as [|[k' r'] [|x y]] eqn:Em;
        try discriminate.
      simpl in Hrest. injection Hrest as ->. simpl in Hkeys. injection Hkeys as ->.
      unfold MonomialSum.rest_of. rewrite Em. cbn [MonomialSum.dict_lookup].
      rewrite key_eqb_refl. reflexivity. }
    unfold sum_value. rewrite Eo, rsum_cons. cbn [fst snd]. rewrite Er, monomial_scalar.
    rewrite (product_value_app Rth), product_value_cons, product_nil. simpl. ring.
  - apply bind_Ok in H as (new_node & Hnode & H).
    assert (Hv : forall r, value_ r new_node = sum_value_ sub' r).
    { intros r. apply to_expression_scalar; assumption. }
    destruct (MonomialSum.intersects arg (free_indices new_node)).
    + apply (Finish _ _ H). intros r.
      rewrite !product_value_cons, product_nil, (value_one rO radd rmul of_Q_one), Hv. ring.
    + apply (Finish _ _ H). intros r. rewrite !product_value_cons, product_nil, Hv. ring.
Qed.

Lemma factorise_group_value (optimise_ : MonomialSum.t -> result MonomialSum.t)
    (self : MonomialSum.t) (arg : list index) (new new' : MonomialSum.t)
    (g : MonomialSum.factor_key) (keys : list MonomialSum.key) :
  keeps optimise_ -> Invariant self -> Invariant new -> tuples_from self new ->
  group_fits self (g, keys) ->
  MonomialSum.factorise_group optimise_ self arg new (snd (fst g)) (snd g) keys = Ok new' ->
  Invariant new' /\ tuples_from self new'
  /\ forall rho, sum_value_ new' rho
                 = sum_value_ new rho [+] rsum_ keys (key_value self rho).
Proof.
  intros Hopt Hinv Hnew Ht [Hex Hk] H. cbn [fst snd] in Hex, Hk.
  rewrite factorise_group_unfold in H.
  assert (Many : factorise_many optimise_ self arg new (snd (fst g)) (snd g) keys = Ok new' ->
                 Invariant new' /\ tuples_from self new'
                 /\ forall rho, sum_value_ new' rho
                                = sum_value_ new rho [+] rsum_ keys (key_value self rho)).
  { apply factorise_many_value; assumption. }
  destruct keys as [|k0 [|k1 keys]]; [exact (Many H) | | exact (Many H)]. clear Many.
  apply bind_Ok in H as (v & Hv & H).
  destruct (Hk k0 (or_introl eq_refl)) as (s & a & Hin & Hp & _).
  destruct (@Invariant_entry self k0 s a Hinv Hin) as (_ & _ & El).
  unfold MonomialSum.ordering_at in Hv. rewrite El in Hv. injection Hv as <-.
  cbn [snd] in H.
  destruct (@add_value R rO rI radd rmul rsub ropp Rth mu new new' (snd (fst g)) a
              (MonomialSum.rest_of self k0) Hnew H) as [Hnew' Hval].
  split; [exact Hnew'|]. split.
  - apply (@add_tuples self new new' (snd (fst g)) a (MonomialSum.rest_of self k0));
      [|exact Ht|exact H].
    destruct Hex as (k & a' & Hka). exists (k, (snd (fst g), a')). auto.
  - intros rho. rewrite Hval, rsum_cons.
    rewrite (proj2 (@key_value_fits self (snd (fst g)) (snd g) k0 s a rho Hinv Hin Hp)).
    simpl. ring.
Qed.

(** *** All the groups *)

Lemma factorise_groups_value (optimise_ : MonomialSum.t -> result MonomialSum.t)
    (self : MonomialSum.t) (arg : list index) :
  keeps optimise_ -> Invariant self ->
  forall factor_group new new',
    Invariant new -> tuples_from self new -> Forall (group_fits self) factor_group ->
    MonomialSum.factorise_groups optimise_ self arg factor_group new = Ok new' ->
    Invariant new' /\ tuples_from self new'
    /\ forall rho, sum_value_ new' rho
                   = sum_value_ new rho [+] group_total self factor_group rho.
Proof.
  intros Hopt Hinv. induction factor_group as [|[[[set si] oa] keys] fg IH];
    intros new new' Hnew Ht Hfg H; cbn [MonomialSum.factorise_groups] in H.
  - injection H as <-. split; [exact Hnew|]. split; [exact Ht|].
    intros rho. unfold group_total. simpl. ring.
  - apply bind_Ok in H as (new1 & H1 & H).
    inversion Hfg as [|? ? Hg Hfg']; subst.
    destruct (@factorise_group_value optimise_ self arg new new1 ((set, si), oa) keys
                Hopt Hinv Hnew Ht Hg H1) as (Hnew1 & Ht1 & Hv1).
    destruct (IH new1 new' Hnew1 Ht1 Hfg' H) as (A & B & C).
    split; [exact A|]. split; [exact B|]. intros rho. rewrite C, Hv1.
    unfold group_total. rewrite rsum_cons. cbn [snd]. ring.
Qed.

(** *** The recursion *)

Lemma optimise_with_keeps (factorise : MonomialSum.t -> list MonomialSum.factor_key
                                       -> result MonomialSum.t) :
  (forall self optimal_atomics self',
      Invariant self -> atomics_fit self optimal_atomics ->
      factorise self optimal_atomics = Ok self' ->
      Invariant self' /\ tuples_from self self'
      /\ forall rho, sum_value_ self' rho = sum_value_ self rho) ->
  keeps (MonomialSum.optimise_with ilp_solve factorise).
Proof.
  intros Hf sub sub' Hinv H. unfold MonomialSum.optimise_with in H.
  apply bind_Ok in H as (oas & Hoas & H). apply (Hf sub oas sub' Hinv); [|exact H].
  intros g Hg. pose proof (@collect_optimal_atomics_In ilp_solve sub _ oas Hoas g Hg) as Hp.
  unfold MonomialSum.unique_sum_indices in Hp.
  exact (@unique_sum_indices_loop_In (MonomialSum.ordering sub) [] (fst g) Hp).
Qed.

Lemma factorise_atomics_keeps (fuel : nat) :
  forall self optimal_atomics self',
    Invariant self -> atomics_fit self optimal_atomics ->
    MonomialSum.factorise_atomics ilp_solve fuel self optimal_atomics = Ok self' ->
    Invariant self' /\ tuples_from self self'
    /\ forall rho, sum_value_ self' rho = sum_value_ self rho.
Proof.
  induction fuel as [|fuel IH]; intros self oas self' Hinv Hfit H;
    rewrite factorise_atomics_unfold in H;
    (destruct oas as [|g0 oas0];
     [injection H as <-; split; [exact Hinv|]; split; [apply tuples_from_refl | reflexivity]|]);
    (destruct (length (MonomialSum.ordering self) <? 2)%nat;
     [injection H as <-; split; [exact Hinv|]; split; [apply tuples_from_refl | reflexivity]|]);
    apply bind_Ok in H as (arg & _ & H); cbv zeta in H;
    apply bind_Ok in H as ([fg new1] & Hgroup & H); cbv beta iota in H;
    apply bind_Ok in H as ([] & _ & H);
    (destruct (@group_monomials_value self (g0 :: oas0) Hinv Hfit (MonomialSum.ordering self)
                 [] (MonomialSum.set_argument_indices MonomialSum.empty arg) fg new1)
       as (Hnew1 & Ht1 & Hfg & Hv1);
     [intros kv Hkv; exact Hkv | apply Invariant_new | intros kv [] | constructor
      | exact Hgroup |]).
  - destruct (@factorise_groups_value (fun _ => OutOfFuel) self arg) with (6 := H)
      as (A & B & C); try assumption.
    { intros sub sub' _ X. discriminate. }
    split; [exact A|]. split; [exact B|]. intros rho. rewrite C.
    rewrite Hv1. unfold group_total, sum_value. simpl. ring.
  - destruct (@factorise_groups_value
                (fun sub => MonomialSum.optimise_with ilp_solve
                              (MonomialSum.factorise_atomics ilp_solve fuel) sub)
                self arg) with (6 := H) as (A & B & C); try assumption.
    { apply optimise_with_keeps. exact IH. }
    split; [exact A|]. split; [exact B|]. intros rho. rewrite C.
    rewrite Hv1. unfold group_total, sum_value. simpl. ring.
Qed.

(** X30.  [MonomialSum.optimise] keeps the value: on a [MonomialSum] that
    satisfies the class invariant, whatever the integer-program solver
    answers and at every depth of the recursion with [factorise_atomics], a
    returned [MonomialSum] satisfies the invariant again and has the value of
    the given one under every assignment. *)
Theorem optimise_keeps_value (fuel : nat) (self self' : MonomialSum.t) :
  Invariant self ->
  MonomialSum.optimise ilp_solve fuel self = Ok self' ->
  Invariant self'
  /\ forall rho, sum_value_ self' rho = sum_value_ self rho.
Proof.
  intros Hinv H. unfold MonomialSum.optimise in H.
  destruct (@optimise_with_keeps (MonomialSum.factorise_atomics ilp_solve fuel)
              (factorise_atomics_keeps fuel) self self' Hinv H) as (A & _ & C).
  split; assumption.
Qed.

End FactorisedValues.

(** *** Instances in the integers *)

(** [A[i, j] * B[i, j] * r] and [A[i, j] * c[i]], both summed over [i], with
    the argument index [j]. *)
Definition shared_atomic : MonomialSum.t :=
  Eval vm_compute in
    returned MonomialSum.empty
      (MonomialSum.add_all (MonomialSum.set_argument_indices MonomialSum.empty [free_j])
         [([sum_i], [A_ij; B_ij], r_scalar); ([sum_i], [A_ij; c_i], one)]).

(** With the solver that selects every atomic, [A[i, j]] is factored out:
    one monomial [A[i, j] * (B[i, j] * r + c[i])] summed over [i] is left. *)
Definition shared_atomic_optimised : MonomialSum.t :=
  Eval vm_compute in
    returned MonomialSum.empty (MonomialSum.optimise any_solver 2 shared_atomic).

Lemma optimise_keeps_value_witness :
  Invariant shared_atomic_optimised
  /\ forall rho, sum_value 0 1 Z.add Z.mul Z_interp shared_atomic_optimised rho
                 = sum_value 0 1 Z.add Z.mul Z_interp shared_atomic rho.
Proof.
  apply (@optimise_keeps_value Z 0 1 Z.add Z.mul Z.sub Z.opp Zth Z_interp eq_refl
           any_solver 2 shared_atomic shared_atomic_optimised).
  - apply (@add_all_value Z 0 1 Z.add Z.mul Z.sub Z.opp Zth Z_interp
             [([sum_i], [A_ij; B_ij], r_scalar); ([sum_i], [A_ij; c_i], one)]
             (MonomialSum.set_argument_indices MonomialSum.empty [free_j]) shared_atomic).
    + exact Invariant_empty.
    + vm_compute. reflexivity.
  - vm_compute. reflexivity.
Defined.
